(** * Sales dashboard data pipeline (services/dataProcessor.ts)

    A shallow embedding of the pure functions of the data processor:
    [mapProductCategory], [processData], [getAvailableYears], [filterData],
    [aggregateByField] and [getTrendData], together with the parts of the
    ECMAScript library they call ([String.prototype.includes], [parseInt],
    [Number.prototype.toString], [String.prototype.padStart],
    [Array.prototype.sort], [Object.keys], [Map], [Set], [Date]).

    Conventions of the embedding.
    - A string is the list of its UTF-16 code units, as ECMAScript has it.
    - A [number] that takes part in the date arithmetic (a year, a month, a
      [parseInt] result, a time value) is [NaN] or an exact integer.  Binary64
      is exact on integers up to 2^53, far above every year*100+month the
      program forms.
    - A [number] that is an amount or a quantity is a binary64 number, with
      its rounding, its signed zeros, its infinities and NaN: the
      [spec_float] of the Standard Library at precision 53.
    - A function that can throw returns an [option]; [None] is the exception.
*)

From Stdlib Require Import ZArith QArith Qfield List String Ascii Bool Lia.
From Stdlib Require Import Sorted Permutation.
From Stdlib Require Import DecimalString DecimalZ DecimalPos Decimal.
From Stdlib Require Import SetoidList Morphisms.
From Stdlib Require Import Qround Qpower Lqa.
From Stdlib Require Import Floats.SpecFloat.
Import ListNotations.

Set Implicit Arguments.

(* ================================================================== *)
(** * ECMAScript strings *)

Module JSString.

(** One UTF-16 code unit, 0 .. 65535. *)
Definition code_unit := N.

Definition t := list code_unit.

(** A source literal all of whose characters are ASCII. *)
Definition str (s : string) : t := map N_of_ascii (list_ascii_of_string s).

Fixpoint eqb (a b : t) : bool :=
  match a, b with
  | [], [] => true
  | x :: a', y :: b' => N.eqb x y && eqb a' b'
  | _, _ => false
  end.

(** ToBoolean on a string: only the empty string is falsy. *)
Definition truthy (s : t) : bool :=
  match s with
  | [] => false
  | _ :: _ => true
  end.

(** [startsWith k s]: [k] is a prefix of [s]. *)
Fixpoint startsWith (k s : t) : bool :=
  match k, s with
  | [], _ => true
  | _ :: _, [] => false
  | x :: k', y :: s' => N.eqb x y && startsWith k' s'
  end.

(** [String.prototype.includes(searchString)] from position 0: some index
    of [s] at which [k] occurs. *)
Fixpoint includes (s k : t) : bool :=
  startsWith k s ||
  match s with
  | [] => false
  | _ :: s' => includes s' k
  end.

(** The relation the words "is a substring of" denote. *)
Definition substring (k s : t) : Prop :=
  exists pre post, s = pre ++ k ++ post.

(** Code-unit order, the order of the default [Array.prototype.sort] and of
    [<] on strings. *)
Fixpoint ltb (a b : t) : bool :=
  match a, b with
  | _, [] => false
  | [], _ :: _ => true
  | x :: a', y :: b' => N.ltb x y || (N.eqb x y && ltb a' b')
  end.

(** [String.prototype.padStart(targetLength, fill)] for a one-unit [fill]. *)
Definition padStart (s : t) (targetLength : nat) (fill : code_unit) : t :=
  repeat fill (targetLength - length s) ++ s.

End JSString.

Definition jsstring : Type := JSString.t.
Definition str : string -> jsstring := JSString.str.

(* ================================================================== *)
(** * ECMAScript numbers of the date arithmetic *)

Inductive number : Type :=
| NaN
| Num (z : Z).

Module Number.

Definition add (a b : number) : number :=
  match a, b with
  | Num x, Num y => Num (x + y)
  | _, _ => NaN
  end.

Definition mul (a b : number) : number :=
  match a, b with
  | Num x, Num y => Num (x * y)
  | _, _ => NaN
  end.

Definition sub (a b : number) : number :=
  match a, b with
  | Num x, Num y => Num (x - y)
  | _, _ => NaN
  end.

(** [a < b]: false as soon as one side is NaN. *)
Definition ltb (a b : number) : bool :=
  match a, b with
  | Num x, Num y => Z.ltb x y
  | _, _ => false
  end.

(** [a > b]: false as soon as one side is NaN. *)
Definition gtb (a b : number) : bool := ltb b a.

(** SameValueZero, the equality of [Set] and [Map] keys. *)
Definition sameValueZero (a b : number) : bool :=
  match a, b with
  | NaN, NaN => true
  | Num x, Num y => Z.eqb x y
  | _, _ => false
  end.

(** [Number.prototype.toString()] / [String(n)]: the decimal digits of an
    integer (exact below 10^21, where ECMAScript switches to exponent
    notation), and "NaN". *)
Definition toString (n : number) : jsstring :=
  match n with
  | NaN => str "NaN"
  | Num z => str (NilZero.string_of_int (Z.to_int z))
  end.

End Number.

(* ================================================================== *)
(** * ECMAScript numbers: binary64 *)

(** An amount or a quantity is an IEEE 754 binary64 number, as every
    ECMAScript number is: the Standard Library's [spec_float] with a
    precision of 53 bits and the exponent 1024 for the infinities.  The
    operations round to nearest, ties to even. *)
Module Binary64.

Definition t : Type := spec_float.

Definition prec : Z := 53.
Definition emax : Z := 1024.

(** The literal [0]. *)
Definition zero : t := S754_zero false.

(** [x + y], [x - y], [x * y] and [x / y]. *)
Definition add : t -> t -> t := SFadd prec emax.
Definition sub : t -> t -> t := SFsub prec emax.
Definition mul : t -> t -> t := SFmul prec emax.
Definition div : t -> t -> t := SFdiv prec emax.

(** [x < y] and [x > y]: false as soon as one side is NaN. *)
Definition ltb : t -> t -> bool := SFltb.
Definition gtb (a b : t) : bool := SFltb b a.

(** ToBoolean on a number: 0, -0 and NaN are falsy. *)
Definition truthy (x : t) : bool :=
  match x with
  | S754_zero _ | S754_nan => false
  | _ => true
  end.

(** An integer literal. *)
Definition ofZ (z : Z) : t := binary_normalize prec emax z 0 false.

Definition isNaN (x : t) : bool :=
  match x with
  | S754_nan => true
  | _ => false
  end.

(** Neither NaN nor an infinity. *)
Definition isFinite (x : t) : bool :=
  match x with
  | S754_zero _ | S754_finite _ _ _ => true
  | _ => false
  end.

(** [x] is a binary64 number: its mantissa and exponent are the canonical
    ones. *)
Definition valid (x : t) : Prop := valid_binary prec emax x = true.

(** The rational a finite number denotes: (-1)^s * m * 2^e.  It is 0 for
    the zeros; an infinity or NaN denotes no rational and is given 0 as
    well, which only the orders [le] and [lt] below have to work around. *)
Definition toQ (x : t) : Q :=
  match x with
  | S754_finite s m e => inject_Z (cond_Zopp s (Zpos m)) * 2 ^ e
  | _ => 0
  end.

(** [x <= y] on the numbers denoted, the infinities included; false as soon
    as one side is NaN. *)
Definition le (x y : t) : Prop :=
  match x, y with
  | S754_nan, _ | _, S754_nan => False
  | S754_infinity sx, S754_infinity sy => sx = true \/ sy = false
  | S754_infinity sx, _ => sx = true
  | _, S754_infinity sy => sy = false
  | _, _ => toQ x <= toQ y
  end.

(** [x < y], likewise. *)
Definition lt (x y : t) : Prop :=
  match x, y with
  | S754_nan, _ | _, S754_nan => False
  | S754_infinity sx, S754_infinity sy => sx = true /\ sy = false
  | S754_infinity sx, _ => sx = true
  | _, S754_infinity sy => sy = false
  | _, _ => toQ x < toQ y
  end.

(** The two numbers are the same number: equal as [===] has it, where 0
    and -0 are equal and NaN equals nothing. *)
Definition eqb (x y : t) : bool :=
  match x, y with
  | S754_nan, _ | _, S754_nan => false
  | S754_infinity sx, S754_infinity sy => Bool.eqb sx sy
  | S754_infinity _, _ | _, S754_infinity _ => false
  | _, _ => Qeq_bool (toQ x) (toQ y)
  end.

End Binary64.

(** [x > 0], the test applied to a total and to the result of a compare
    function. *)
Definition isPositive (x : Binary64.t) : bool :=
  Binary64.ltb Binary64.zero x.

(* ================================================================== *)
(** * parseInt *)

Module ParseInt.

Local Open Scope N_scope.

(** WhiteSpace and LineTerminator code points (StrWhiteSpaceChar). *)
Definition isWhiteSpace (c : N) : bool :=
  (c =? 9) || (c =? 10) || (c =? 11) || (c =? 12) || (c =? 13) ||
  (c =? 32) || (c =? 160) || (c =? 5760) ||
  ((8192 <=? c) && (c <=? 8202)) ||
  (c =? 8232) || (c =? 8233) || (c =? 8239) || (c =? 8287) ||
  (c =? 12288) || (c =? 65279).

Fixpoint trimStart (s : jsstring) : jsstring :=
  match s with
  | c :: s' => if isWhiteSpace c then trimStart s' else s
  | [] => []
  end.

(** The value of a code unit as a radix-R digit. *)
Definition digitValue (R : Z) (c : N) : option Z :=
  let v : Z :=
    if (48 <=? c) && (c <=? 57) then (Z.of_N c - 48)%Z
    else if (97 <=? c) && (c <=? 122) then (Z.of_N c - 97 + 10)%Z
    else if (65 <=? c) && (c <=? 90) then (Z.of_N c - 65 + 10)%Z
    else 36%Z in
  if (v <? R)%Z then Some v else None.

(** The longest prefix made of radix-R digits. *)
Fixpoint digits (R : Z) (s : jsstring) : list Z :=
  match s with
  | c :: s' =>
      match digitValue R c with
      | Some d => d :: digits R s'
      | None => []
      end
  | [] => []
  end.

Definition mathInt (R : Z) (ds : list Z) : Z :=
  fold_left (fun acc d => acc * R + d)%Z ds 0%Z.

(** [parseInt(string)] with the radix left undefined. *)
Definition parseInt (string : jsstring) : number :=
  let s0 := trimStart string in
  let sign : Z :=
    match s0 with
    | c :: _ => if c =? 45 then (-1)%Z else 1%Z
    | [] => 1%Z
    end in
  let s1 :=
    match s0 with
    | c :: rest => if (c =? 43) || (c =? 45) then rest else s0
    | [] => s0
    end in
  let '(R, s2) :=
    match s1 with
    | c0 :: c1 :: rest =>
        if (c0 =? 48) && ((c1 =? 120) || (c1 =? 88)) then (16%Z, rest)
        else (10%Z, s1)
    | _ => (10%Z, s1)
    end in
  match digits R s2 with
  | [] => NaN
  | ds => Num (sign * mathInt R ds)
  end.

End ParseInt.

Definition parseInt : jsstring -> number := ParseInt.parseInt.

(* ================================================================== *)
(** * Array.prototype.sort *)

Module JSArray.

Section Sort.
Variable A : Type.

(** [after a b]: the compare function, called on [(a, b)], returns a
    positive number, so [b] has to come first.  A NaN result counts as
    +0, hence as not positive. *)
Variable after : A -> A -> bool.

(** Insert [x] behind every element that need not follow it. *)
Fixpoint insert (x : A) (l : list A) : list A :=
  match l with
  | [] => [x]
  | y :: l' => if after y x then x :: y :: l' else y :: insert x l'
  end.

(** The sort is stable (ECMAScript 2019); with a consistent compare
    function its result is the one stable ordering of the input, which
    insertion from left to right computes.  With a compare function that
    is not consistent, as [b.value - a.value] is when a value is NaN,
    ECMAScript leaves the order to the implementation and this is one of
    the results it allows: what is stated below on the order of a sorted
    array is stated where the compare function is consistent, or of every
    permutation of the array. *)
Definition sort (l : list A) : list A :=
  fold_left (fun acc x => insert x acc) l [].

End Sort.

End JSArray.

(* ================================================================== *)
(** * Map, Set and plain objects *)

(** A [Map] with string keys, or the own properties of a plain object: the
    entries in insertion order.  Writing an existing key keeps its place. *)
Module JSMap.

Section Entries.
Variable V : Type.

Definition t := list (jsstring * V).

Fixpoint get (k : jsstring) (m : t) : option V :=
  match m with
  | [] => None
  | (k', v) :: m' => if JSString.eqb k' k then Some v else get k m'
  end.

Fixpoint set (k : jsstring) (v : V) (m : t) : t :=
  match m with
  | [] => [(k, v)]
  | (k', v') :: m' =>
      if JSString.eqb k' k then (k', v) :: m' else (k', v') :: set k v m'
  end.

Definition entries (m : t) : list (jsstring * V) := m.

End Entries.

End JSMap.

(** A [Set] of numbers, in insertion order, compared by SameValueZero. *)
Module JSSet.

Definition t := list number.

Definition has (x : number) (s : t) : bool :=
  existsb (Number.sameValueZero x) s.

Definition add (x : number) (s : t) : t :=
  if has x s then s else s ++ [x].

(** [new Set(iterable)] *)
Definition ofList (l : list number) : t :=
  fold_left (fun s x => add x s) l [].

(** [Array.from(set)] *)
Definition toArray (s : t) : list number := s.

End JSSet.

Module JSObject.

(** An array index is the canonical decimal form of an integer in
    0 .. 2^32 - 2. *)
Definition arrayIndex (k : jsstring) : option Z :=
  let ds := ParseInt.digits 10 k in
  let n := ParseInt.mathInt 10 ds in
  if Nat.eqb (length ds) (length k) && JSString.truthy k &&
     JSString.eqb (Number.toString (Num n)) k && (n <? 4294967295)%Z
  then Some n else None.

Definition isArrayIndex (k : jsstring) : bool :=
  match arrayIndex k with
  | Some _ => true
  | None => false
  end.

Definition indexOf (k : jsstring) : Z :=
  match arrayIndex k with
  | Some n => n
  | None => 0%Z
  end.

(** [Object.keys(o)]: the array-index keys in ascending numeric order, then
    the other keys in creation order. *)
Definition keys (V : Type) (o : JSMap.t V) : list jsstring :=
  let ks := map fst o in
  JSArray.sort (fun a b => (indexOf b <? indexOf a)%Z) (filter isArrayIndex ks)
  ++ filter (fun k => negb (isArrayIndex k)) ks.

End JSObject.

(* ================================================================== *)
(** * Date *)

Module JSDate.

Local Open Scope Z_scope.

Definition msPerDay : Z := 86400000.

Definition Day (t : Z) : Z := t / msPerDay.

Definition DaysInYear (y : Z) : Z :=
  if negb (y mod 4 =? 0) then 365
  else if negb (y mod 100 =? 0) then 366
  else if negb (y mod 400 =? 0) then 365
  else 366.

Definition DayFromYear (y : Z) : Z :=
  365 * (y - 1970) + (y - 1969) / 4 - (y - 1901) / 100 + (y - 1601) / 400.

Definition TimeFromYear (y : Z) : Z := msPerDay * DayFromYear y.

(** The largest [y] with [TimeFromYear y <= t]: the mean-year estimate is
    off by at most one ([YearFromTime_spec] below). *)
Definition YearFromTime (t : Z) : Z :=
  let d := Day t in
  let y := 1970 + (400 * d) / 146097 in
  if d <? DayFromYear y then y - 1
  else if DayFromYear (y + 1) <=? d then y + 1
  else y.

Definition InLeapYear (t : Z) : Z :=
  if DaysInYear (YearFromTime t) =? 366 then 1 else 0.

Definition DayWithinYear (t : Z) : Z :=
  Day t - DayFromYear (YearFromTime t).

Definition MonthFromTime (t : Z) : Z :=
  let d := DayWithinYear t in
  let leap := InLeapYear t in
  if d <? 31 then 0
  else if d <? 59 + leap then 1
  else if d <? 90 + leap then 2
  else if d <? 120 + leap then 3
  else if d <? 151 + leap then 4
  else if d <? 181 + leap then 5
  else if d <? 212 + leap then 6
  else if d <? 243 + leap then 7
  else if d <? 273 + leap then 8
  else if d <? 304 + leap then 9
  else if d <? 334 + leap then 10
  else 11.

(** Day number, within its year, of the first day of month [mn] (0-based). *)
Definition monthStart (mn leap : Z) : Z :=
  if mn =? 0 then 0
  else if mn =? 1 then 31
  else if mn =? 2 then 59 + leap
  else if mn =? 3 then 90 + leap
  else if mn =? 4 then 120 + leap
  else if mn =? 5 then 151 + leap
  else if mn =? 6 then 181 + leap
  else if mn =? 7 then 212 + leap
  else if mn =? 8 then 243 + leap
  else if mn =? 9 then 273 + leap
  else if mn =? 10 then 304 + leap
  else 334 + leap.

Definition daysInMonth (y mn : Z) : Z :=
  if mn =? 1 then DaysInYear y - 337
  else if (mn =? 3) || (mn =? 5) || (mn =? 8) || (mn =? 10) then 30
  else 31.

(** [MakeDay(year, month, date)]: the day of the first of the month, found
    through the year and month tables, plus [date - 1]. *)
Definition MakeDay (year month date : Z) : Z :=
  let ym := year + month / 12 in
  let mn := month mod 12 in
  DayFromYear ym + monthStart mn (DaysInYear ym - 365) + date - 1.

Definition digit (c : N) : option Z :=
  if ((48 <=? c) && (c <=? 57))%N then Some (Z.of_N c - 48) else None.

Definition number2 (a b : N) : option Z :=
  match digit a, digit b with
  | Some x, Some y => Some (10 * x + y)
  | _, _ => None
  end.

(** The date-only form [YYYY-MM-DD] of the Date Time String Format, naming
    a day that exists. *)
Definition parseDateOnly (s : jsstring) : option (Z * Z * Z) :=
  match s with
  | [y1; y2; y3; y4; h1; m1; m2; h2; d1; d2] =>
      match number2 y1 y2, number2 y3 y4, number2 m1 m2, number2 d1 d2 with
      | Some yh, Some yl, Some m, Some d =>
          let y := 100 * yh + yl in
          if (h1 =? 45)%N && (h2 =? 45)%N && (1 <=? m) && (m <=? 12) &&
             (1 <=? d) && (d <=? daysInMonth y (m - 1))
          then Some (y, m, d) else None
      | _, _, _, _ => None
      end
  | _ => None
  end.

Section Host.

(** Offset of the local time zone from UTC, in milliseconds, at the UTC
    time [t] (LocalTZA(t, true)). *)
Variable LocalTZA : Z -> Z.

(** Time value the host gives to a string outside the date-only form
    (other forms of the format, and implementation-defined fallbacks);
    [NaN] for an invalid date. *)
Variable parseOther : jsstring -> number.

(** [new Date(string)]: the time value of the object.  A date-only form
    is UTC midnight of that day. *)
Definition construct (s : jsstring) : number :=
  match parseDateOnly s with
  | Some (y, m, d) => Num (MakeDay y (m - 1) d * msPerDay)
  | None => parseOther s
  end.

Definition LocalTime (t : Z) : Z := t + LocalTZA t.

Definition getFullYear (tv : number) : number :=
  match tv with
  | NaN => NaN
  | Num t => Num (YearFromTime (LocalTime t))
  end.

Definition getMonth (tv : number) : number :=
  match tv with
  | NaN => NaN
  | Num t => Num (MonthFromTime (LocalTime t))
  end.

End Host.

End JSDate.

(* ================================================================== *)
(** * types.ts *)

Module RawSalesData.
Record t : Type := {
  businessUnit : jsstring;
  department : jsstring;
  salesperson : jsstring;
  date : jsstring;
  customerName : jsstring;
  companyName : jsstring;
  sku : jsstring;
  productName : jsstring;
  quantity : Binary64.t;
  amount : Binary64.t
}.
End RawSalesData.

(** [keyof ProcessedSalesData] and the values a field can hold. *)
Module Key.
Inductive t : Type :=
| businessUnit | department | salesperson | date | customerName
| companyName | sku | productName | quantity | amount
| category | subCategory | year | month.
End Key.

Inductive value : Type :=
| VString (s : jsstring)
| VNumber (n : number)
| VBinary64 (x : Binary64.t).

Module ProcessedSalesData.
Record t : Type := {
  businessUnit : jsstring;
  department : jsstring;
  salesperson : jsstring;
  date : jsstring;
  customerName : jsstring;
  companyName : jsstring;
  sku : jsstring;
  productName : jsstring;
  quantity : Binary64.t;
  amount : Binary64.t;
  category : jsstring;
  subCategory : jsstring;
  year : number;
  month : number
}.

(** [d[field]] *)
Definition get (d : t) (field : Key.t) : value :=
  match field with
  | Key.businessUnit => VString (businessUnit d)
  | Key.department => VString (department d)
  | Key.salesperson => VString (salesperson d)
  | Key.date => VString (date d)
  | Key.customerName => VString (customerName d)
  | Key.companyName => VString (companyName d)
  | Key.sku => VString (sku d)
  | Key.productName => VString (productName d)
  | Key.quantity => VBinary64 (quantity d)
  | Key.amount => VBinary64 (amount d)
  | Key.category => VString (category d)
  | Key.subCategory => VString (subCategory d)
  | Key.year => VNumber (year d)
  | Key.month => VNumber (month d)
  end.
End ProcessedSalesData.

Module CategoryRule.
Record t : Type := {
  keyword : jsstring;
  category : jsstring;
  subCategory : jsstring
}.
End CategoryRule.

Module FilterState.
Record t : Type := {
  startYear : jsstring;
  startMonth : jsstring;
  endYear : jsstring;
  endMonth : jsstring;
  businessUnit : jsstring;
  department : jsstring;
  salesperson : jsstring;
  category : jsstring;
  subCategory : jsstring;
  customerName : jsstring;
  productName : jsstring
}.
End FilterState.

Module ChartDataPoint.
Record t : Type := {
  name : jsstring;
  value : Binary64.t;
  percentage : Binary64.t
}.
End ChartDataPoint.

(** [{ month, [year]: number }]: the fixed [month] property and the year
    properties, in the order they were written.  A year key is a
    [Number.toString] result, never the word "month". *)
Module TrendDataPoint.
Record t : Type := {
  month : jsstring;
  years : JSMap.t Binary64.t
}.
End TrendDataPoint.

(** The result of [mapProductCategory]. *)
Module CategoryPair.
Record t : Type := {
  category : jsstring;
  subCategory : jsstring
}.
End CategoryPair.

(* ================================================================== *)
(** * services/dataProcessor.ts *)

(** [x || 0] on the result of a lookup: undefined, 0, -0 and NaN are
    falsy. *)
Definition orZero (x : option Binary64.t) : Binary64.t :=
  match x with
  | Some v => if Binary64.truthy v then v else Binary64.zero
  | None => Binary64.zero
  end.

(** [!x] on the result of a lookup. *)
Definition falsy (x : option Binary64.t) : bool :=
  match x with
  | Some v => negb (Binary64.truthy v)
  | None => true
  end.

(** The literal [100]. *)
Definition hundred : Binary64.t := Eval cbv in Binary64.ofZ 100.

(** ['All'], the facet value that matches every record. *)
Definition ALL : jsstring := Eval cbv in str "All".

(** The suffix of the month labels, U+6708. *)
Definition MONTH_SUFFIX : jsstring := [26376%N].

Section DataProcessor.

(** constants.ts is not part of the sources: the rule list and the default
    pair are parameters. *)
Variable CATEGORY_RULES : list CategoryRule.t.
Variable DEFAULT_CATEGORY : jsstring.
Variable DEFAULT_SUB_CATEGORY : jsstring.

(** The host: its time zone and its parser for other date strings. *)
Variable LocalTZA : Z -> Z.
Variable Date_parseOther : jsstring -> number.

(** [String(x)] on a number that is a quantity or an amount: the shortest
    decimal that reads back as the same binary64, left to the host. *)
Variable Binary64_toString : Binary64.t -> jsstring.

(** [String(v)] *)
Definition String_ (v : value) : jsstring :=
  match v with
  | VString s => s
  | VNumber n => Number.toString n
  | VBinary64 x => Binary64_toString x
  end.

(** The [for (const rule of rules)] loop. *)
Fixpoint firstMatch (rules : list CategoryRule.t) (productName : jsstring)
  : CategoryPair.t :=
  match rules with
  | rule :: rest =>
      if JSString.includes productName (CategoryRule.keyword rule)
      then {| CategoryPair.category := CategoryRule.category rule;
              CategoryPair.subCategory := CategoryRule.subCategory rule |}
      else firstMatch rest productName
  | [] =>
      {| CategoryPair.category := DEFAULT_CATEGORY;
         CategoryPair.subCategory := DEFAULT_SUB_CATEGORY |}
  end.

Definition mapProductCategory (productName : jsstring) : CategoryPair.t :=
  firstMatch CATEGORY_RULES productName.

Definition processData (rawData : list RawSalesData.t)
  : list ProcessedSalesData.t :=
  map (fun item =>
         let pair := mapProductCategory (RawSalesData.productName item) in
         let dateObj :=
           JSDate.construct Date_parseOther (RawSalesData.date item) in
         {| ProcessedSalesData.businessUnit := RawSalesData.businessUnit item;
            ProcessedSalesData.department := RawSalesData.department item;
            ProcessedSalesData.salesperson := RawSalesData.salesperson item;
            ProcessedSalesData.date := RawSalesData.date item;
            ProcessedSalesData.customerName := RawSalesData.customerName item;
            ProcessedSalesData.companyName := RawSalesData.companyName item;
            ProcessedSalesData.sku := RawSalesData.sku item;
            ProcessedSalesData.productName := RawSalesData.productName item;
            ProcessedSalesData.quantity := RawSalesData.quantity item;
            ProcessedSalesData.amount := RawSalesData.amount item;
            ProcessedSalesData.category := CategoryPair.category pair;
            ProcessedSalesData.subCategory := CategoryPair.subCategory pair;
            ProcessedSalesData.year := JSDate.getFullYear LocalTZA dateObj;
            ProcessedSalesData.month :=
              Number.add (JSDate.getMonth LocalTZA dateObj) (Num 1) |})
      rawData.

(** The compare function [(a, b) => a - b]. *)
Definition ascending (a b : number) : bool :=
  Number.gtb (Number.sub a b) (Num 0).

Definition getAvailableYears (data : list ProcessedSalesData.t)
  : list number :=
  let years := JSSet.ofList (map ProcessedSalesData.year data) in
  JSArray.sort ascending (JSSet.toArray years).

(** [item.year * 100 + item.month] *)
Definition itemDateVal (item : ProcessedSalesData.t) : number :=
  Number.add (Number.mul (ProcessedSalesData.year item) (Num 100))
             (ProcessedSalesData.month item).

(** [parseInt(filters.startYear) * 100 + parseInt(filters.startMonth)] *)
Definition startDateVal (filters : FilterState.t) : number :=
  Number.add (Number.mul (parseInt (FilterState.startYear filters)) (Num 100))
             (parseInt (FilterState.startMonth filters)).

(** [parseInt(filters.endYear) * 100 + parseInt(filters.endMonth)] *)
Definition endDateVal (filters : FilterState.t) : number :=
  Number.add (Number.mul (parseInt (FilterState.endYear filters)) (Num 100))
             (parseInt (FilterState.endMonth filters)).

(** The date-range line of the filter callback: [true] when it returns
    false for the record. *)
Definition outsideDateRange (filters : FilterState.t)
           (item : ProcessedSalesData.t) : bool :=
  Number.ltb (itemDateVal item) (startDateVal filters)
  || Number.gtb (itemDateVal item) (endDateVal filters).

(** [deptConstraint && item.department !== deptConstraint] *)
Definition violatesConstraint (deptConstraint : option jsstring)
           (item : ProcessedSalesData.t) : bool :=
  match deptConstraint with
  | Some c =>
      JSString.truthy c &&
      negb (JSString.eqb (ProcessedSalesData.department item) c)
  | None => false
  end.

(** [f && f !== 'All' && v !== f] *)
Definition facetMismatch (f v : jsstring) : bool :=
  JSString.truthy f && negb (JSString.eqb f ALL) && negb (JSString.eqb v f).

(** [f && !v.includes(f)] *)
Definition searchMismatch (f v : jsstring) : bool :=
  JSString.truthy f && negb (JSString.includes v f).

(** The lines of the filter callback below the date range. *)
Definition passesOthers (filters : FilterState.t)
           (deptConstraint : option jsstring)
           (item : ProcessedSalesData.t) : bool :=
  if violatesConstraint deptConstraint item then false
  else if facetMismatch (FilterState.businessUnit filters)
                        (ProcessedSalesData.businessUnit item) then false
  else if facetMismatch (FilterState.department filters)
                        (ProcessedSalesData.department item) then false
  else if facetMismatch (FilterState.salesperson filters)
                        (ProcessedSalesData.salesperson item) then false
  else if facetMismatch (FilterState.category filters)
                        (ProcessedSalesData.category item) then false
  else if facetMismatch (FilterState.subCategory filters)
                        (ProcessedSalesData.subCategory item) then false
  else if searchMismatch (FilterState.customerName filters)
                         (ProcessedSalesData.customerName item) then false
  else if searchMismatch (FilterState.productName filters)
                         (ProcessedSalesData.productName item) then false
  else true.

(** The callback of [data.filter]. *)
Definition keep (filters : FilterState.t) (deptConstraint : option jsstring)
           (item : ProcessedSalesData.t) : bool :=
  if outsideDateRange filters item then false
  else passesOthers filters deptConstraint item.

Definition filterData (data : list ProcessedSalesData.t)
           (filters : FilterState.t) (deptConstraint : option jsstring)
  : list ProcessedSalesData.t :=
  filter (keep filters deptConstraint) data.

(** One turn of the [data.forEach] of [aggregateByField]. *)
Definition accumulate (field : Key.t) (acc : JSMap.t Binary64.t * Binary64.t)
           (d : ProcessedSalesData.t) : JSMap.t Binary64.t * Binary64.t :=
  let '(map, total) := acc in
  let key := String_ (ProcessedSalesData.get d field) in
  let val := ProcessedSalesData.amount d in
  (JSMap.set key (Binary64.add (orZero (JSMap.get key map)) val) map,
   Binary64.add total val).

(** The compare function [(a, b) => b.value - a.value]: [true] when its
    result is positive, so that [a] goes after [b].  A NaN result counts as
    0, as the sort has it. *)
Definition descendingByValue (a b : ChartDataPoint.t) : bool :=
  isPositive (Binary64.sub (ChartDataPoint.value b) (ChartDataPoint.value a)).

Definition aggregateByField (data : list ProcessedSalesData.t)
           (field : Key.t) : list ChartDataPoint.t :=
  let '(map_, total) :=
    fold_left (accumulate field) data ([], Binary64.zero) in
  JSArray.sort descendingByValue
    (map (fun '(name, value) =>
            {| ChartDataPoint.name := name;
               ChartDataPoint.value := value;
               ChartDataPoint.percentage :=
                 if isPositive total
                 then Binary64.mul (Binary64.div value total) hundred
                 else Binary64.zero |})
         (JSMap.entries map_)).

(** [m.toString().padStart(2, '0')] *)
Definition monthKey (m : number) : jsstring :=
  JSString.padStart (Number.toString m) 2 48%N.

(** The skeleton built by [for (let m = 1; m <= 12; m++)]. *)
Definition initialMonthlyMap : JSMap.t (JSMap.t Binary64.t) :=
  fold_left (fun monthlyMap m => JSMap.set (monthKey (Num m)) [] monthlyMap)
            [1; 2; 3; 4; 5; 6; 7; 8; 9; 10; 11; 12]%Z [].

(** [if (!row[yStr]) row[yStr] = 0; row[yStr] += amount] *)
Definition addToCell (yStr : jsstring) (amount : Binary64.t)
           (row : JSMap.t Binary64.t) : JSMap.t Binary64.t :=
  let row :=
    if falsy (JSMap.get yStr row) then JSMap.set yStr Binary64.zero row
    else row in
  (* the cell is defined since the line above *)
  let cell := match JSMap.get yStr row with
              | Some v => v
              | None => Binary64.zero
              end in
  JSMap.set yStr (Binary64.add cell amount) row.

(** One turn of the [data.forEach] of [getTrendData].  Reading a property
    of [monthlyMap[mStr]] throws a TypeError when the month has no row. *)
Definition record_ (acc : option (JSSet.t * JSMap.t (JSMap.t Binary64.t)))
           (d : ProcessedSalesData.t)
  : option (JSSet.t * JSMap.t (JSMap.t Binary64.t)) :=
  match acc with
  | None => None
  | Some (yearsFound, monthlyMap) =>
      let mStr := monthKey (ProcessedSalesData.month d) in
      let yStr := Number.toString (ProcessedSalesData.year d) in
      let yearsFound := JSSet.add (ProcessedSalesData.year d) yearsFound in
      match JSMap.get mStr monthlyMap with
      | None => None
      | Some row =>
          let row := addToCell yStr (ProcessedSalesData.amount d) row in
          Some (yearsFound, JSMap.set mStr row monthlyMap)
      end
  end.

(** The default order of [sort()] on strings. *)
Definition byCodeUnits (a b : jsstring) : bool := JSString.ltb b a.

(** The callback of [Object.keys(monthlyMap).sort().map]; [month] is an own
    key of [monthlyMap], so its row is defined. *)
Definition makePoint (monthlyMap : JSMap.t (JSMap.t Binary64.t))
           (sortedYears : list jsstring) (month : jsstring)
  : TrendDataPoint.t :=
  let row := match JSMap.get month monthlyMap with
             | Some r => r
             | None => []
             end in
  {| TrendDataPoint.month := month ++ MONTH_SUFFIX;
     TrendDataPoint.years :=
       fold_left (fun point year =>
                    JSMap.set year (orZero (JSMap.get year row)) point)
                 sortedYears [] |}.

Definition getTrendData (data : list ProcessedSalesData.t)
  : option (list TrendDataPoint.t * list jsstring) :=
  match fold_left record_ data (Some ([], initialMonthlyMap)) with
  | None => None
  | Some (yearsFound, monthlyMap) =>
      let sortedYears :=
        map Number.toString
            (JSArray.sort ascending (JSSet.toArray yearsFound)) in
      let chartData :=
        map (makePoint monthlyMap sortedYears)
            (JSArray.sort byCodeUnits (JSObject.keys monthlyMap)) in
      Some (chartData, sortedYears)
  end.

End DataProcessor.

(* ================================================================== *)
(** * Vocabulary of the properties *)

(** The pair a rule stands for, and the default pair. *)
Definition pairOf (rule : CategoryRule.t) : CategoryPair.t :=
  {| CategoryPair.category := CategoryRule.category rule;
     CategoryPair.subCategory := CategoryRule.subCategory rule |}.

Definition defaultPair (DEFAULT_CATEGORY DEFAULT_SUB_CATEGORY : jsstring)
  : CategoryPair.t :=
  {| CategoryPair.category := DEFAULT_CATEGORY;
     CategoryPair.subCategory := DEFAULT_SUB_CATEGORY |}.

(** The keyword of [rule] is a substring of [productName]. *)
Definition matches (productName : jsstring) (rule : CategoryRule.t) : Prop :=
  JSString.substring (CategoryRule.keyword rule) productName.

(** The linearized year-month key. *)
Definition dateKey (y m : Z) : Z := (y * 100 + m)%Z.

(** A record dated [y]-[m]: its year and month are these integers. *)
Definition datedAt (item : ProcessedSalesData.t) (y m : Z) : Prop :=
  ProcessedSalesData.year item = Num y /\
  ProcessedSalesData.month item = Num m.

(** A day of the calendar, as [JSDate.parseDateOnly] accepts it. *)
Definition realDay (y m d : Z) : Prop :=
  (1 <= m <= 12)%Z /\ (1 <= d <= JSDate.daysInMonth y (m - 1))%Z.

(** [out] carries every field of [item] unchanged. *)
Definition preservesFields (item : RawSalesData.t)
           (out : ProcessedSalesData.t) : Prop :=
  ProcessedSalesData.businessUnit out = RawSalesData.businessUnit item
  /\ ProcessedSalesData.department out = RawSalesData.department item
  /\ ProcessedSalesData.salesperson out = RawSalesData.salesperson item
  /\ ProcessedSalesData.date out = RawSalesData.date item
  /\ ProcessedSalesData.customerName out = RawSalesData.customerName item
  /\ ProcessedSalesData.companyName out = RawSalesData.companyName item
  /\ ProcessedSalesData.sku out = RawSalesData.sku item
  /\ ProcessedSalesData.productName out = RawSalesData.productName item
  /\ ProcessedSalesData.quantity out = RawSalesData.quantity item
  /\ ProcessedSalesData.amount out = RawSalesData.amount item.

(** The exact sums the properties speak of: the sums of the rationals the
    amounts, the values and the percentages denote. *)
Definition sumAmounts (data : list ProcessedSalesData.t) : Q :=
  fold_right (fun d acc => Binary64.toQ (ProcessedSalesData.amount d) + acc)
             0 data.

Definition sumValues (points : list ChartDataPoint.t) : Q :=
  fold_right (fun p acc => Binary64.toQ (ChartDataPoint.value p) + acc)
             0 points.

Definition sumPercentages (points : list ChartDataPoint.t) : Q :=
  fold_right (fun p acc => Binary64.toQ (ChartDataPoint.percentage p) + acc)
             0 points.

(** [x = (x || 0) + a], the step of every keyed accumulation of the
    program. *)
Definition addTo (x : option Binary64.t) (a : Binary64.t)
  : option Binary64.t :=
  Some (Binary64.add (orZero x) a).

(** What these steps make of the amounts [l], taken in order, from an
    undefined [x]: the binary64 running sum, restarted from 0 after a
    partial sum that is 0 or NaN. *)
Definition runningSum (l : list Binary64.t) : option Binary64.t :=
  fold_left addTo l None.

(** What [t += a] makes of them from [t = 0]. *)
Definition runningTotal (l : list Binary64.t) : Binary64.t :=
  fold_left Binary64.add l Binary64.zero.

(** The amounts of the records, in order. *)
Definition amounts (data : list ProcessedSalesData.t) : list Binary64.t :=
  map ProcessedSalesData.amount data.

(** The point [aggregateByField] makes of a map entry. *)
Definition toPoint (total : Binary64.t) (e : jsstring * Binary64.t)
  : ChartDataPoint.t :=
  let '(name, value) := e in
  {| ChartDataPoint.name := name;
     ChartDataPoint.value := value;
     ChartDataPoint.percentage :=
       if isPositive total
       then Binary64.mul (Binary64.div value total) hundred
       else Binary64.zero |}.

(** [a] may stand before [b] in a ranking: its value is not smaller. *)
Definition ranksBefore (a b : ChartDataPoint.t) : Prop :=
  Binary64.le (ChartDataPoint.value b) (ChartDataPoint.value a).

(** The least exponent of binary64, -1074. *)
Definition emin64 : Z := Eval cbv in emin Binary64.prec Binary64.emax.

(** The exponent of a finite number is not below the least one. *)
Definition aboveEmin (x : Binary64.t) : Prop :=
  match x with
  | S754_finite _ _ e => (emin64 <= e)%Z
  | _ => True
  end.

(** [x] is the finite number [n * 2^g]. *)
Definition multiple (g n : Z) (x : Binary64.t) : Prop :=
  Binary64.isFinite x = true /\ aboveEmin x
  /\ Binary64.toQ x == inject_Z n * 2 ^ g.

(** [|n1| + ... + |nk|] *)
Definition sumAbs (ns : list Z) : Z :=
  fold_right (fun n acc => Z.abs n + acc)%Z 0%Z ns.

(** The amounts are whole multiples of one unit [2^g], the record [d]
    holding [units d] of them, and their absolute values add up to less than
    2^53 units: every sum of some of them is a binary64 number. *)
Definition inUnits (g : Z) (units : ProcessedSalesData.t -> Z)
           (data : list ProcessedSalesData.t) : Prop :=
  (emin64 <= g <= 971)%Z
  /\ Forall (fun d => Binary64.valid (ProcessedSalesData.amount d)
                      /\ multiple g (units d) (ProcessedSalesData.amount d))
            data
  /\ (sumAbs (map units data) < 2 ^ 53)%Z.

(** Every amount is a binary64 number. *)
Definition validAmounts (data : list ProcessedSalesData.t) : Prop :=
  Forall (fun d => Binary64.valid (ProcessedSalesData.amount d)) data.

(** Every amount is finite: neither NaN nor an infinity. *)
Definition finiteAmounts (data : list ProcessedSalesData.t) : Prop :=
  Forall (fun d => Binary64.isFinite (ProcessedSalesData.amount d) = true)
         data.

(** No point carries the value NaN. *)
Definition noNaNValue (points : list ChartDataPoint.t) : Prop :=
  Forall (fun p => Binary64.isNaN (ChartDataPoint.value p) = false) points.

(** [n1 + ... + nk] *)
Definition sumZ (ns : list Z) : Z := fold_right Z.add 0%Z ns.

(** The entry, if there is one, has the property [P]. *)
Definition entryHolds (P : Binary64.t -> Prop) (x : option Binary64.t)
  : Prop :=
  match x with
  | Some v => P v
  | None => True
  end.

(** The entry is [n * 2^g]; an absent entry stands for 0. *)
Definition entryMultiple (g n : Z) (x : option Binary64.t) : Prop :=
  match x with
  | Some v => multiple g n v
  | None => n = 0%Z
  end.

(** The integer part of a finite number, 0 for the others. *)
Definition wholeNumber (x : Binary64.t) : Z :=
  match x with
  | S754_finite s m e => cond_Zopp s (Z.shiftl (Zpos m) e)
  | _ => 0%Z
  end.

(** The whole units of a record's amount. *)
Definition wholeAmount (d : ProcessedSalesData.t) : Z :=
  wholeNumber (ProcessedSalesData.amount d).

(** The tail of a number behind its integer part: in [0, 1). *)
Definition isTail (t : Q) : Prop := 0 <= t /\ t < 1.

(** The record of the shifts for the number [m + t]: the integer part, the
    round bit ([t >= 1/2]) and the sticky bit (something is left below the
    round bit). *)
Definition located (m : Z) (t : Q) : shr_record :=
  {| shr_m := m;
     shr_r := Qle_bool (1 # 2) t;
     shr_s := negb (Qeq_bool t 0) && negb (Qeq_bool t (1 # 2)) |}.

(** The integer nearest to [m + t], the even one of two. *)
Definition nearestEven (m : Z) (t : Q) : Z :=
  round_nearest_even m (loc_of_shr_record (located m t)).

(** The number [N * 2^E] as the rounding leaves it, [N] being at most
    2^53: the mantissa 2^53 is carried into the exponent, and an exponent
    above 971 is an overflow. *)
Definition encode (s : bool) (N E : Z) : Binary64.t :=
  match N with
  | Z0 => S754_zero s
  | Zpos n =>
      if (N =? 9007199254740992)%Z
      then (if (E + 1 <=? 971)%Z
            then S754_finite s 4503599627370496 (E + 1)
            else S754_infinity s)
      else (if (E <=? 971)%Z then S754_finite s n E else S754_infinity s)
  | Zneg _ => S754_nan
  end.

(** The number [N * 2^E] is too large for binary64. *)
Definition overflows (N E : Z) : bool :=
  (0 <? N)%Z
  && (if (N =? 9007199254740992)%Z then (971 <? E + 1)%Z else (971 <? E)%Z).

(** [F] is what the rounding makes of the positive rational [x], whose
    integer part has [d] binary digits: [x] is brought to the exponent of
    its format, [fexp d], and rounded to the nearest integer there. *)
Definition roundsTo (x : Q) (F : Binary64.t) : Prop :=
  exists d m t,
    2 ^ (d - 1) <= x /\ x < 2 ^ d /\ isTail t
    /\ inject_Z m + t == x / 2 ^ (fexp Binary64.prec Binary64.emax d)
    /\ F = encode false (nearestEven m t)
                  (fexp Binary64.prec Binary64.emax d).

(** A binary64 number that is not negative: a zero, a positive number or
    +Infinity. *)
Definition nonnegative (x : Binary64.t) : Prop :=
  Binary64.valid x /\ Binary64.le Binary64.zero x.

(** A point whose value can be compared: a binary64 number, not NaN. *)
Definition comparable (p : ChartDataPoint.t) : Prop :=
  aboveEmin (ChartDataPoint.value p)
  /\ Binary64.isNaN (ChartDataPoint.value p) = false.

(** [String(y)] for an integer year. *)
Definition yearKey (y : Z) : jsstring := Number.toString (Num y).

(** The label of month [m]: two digits and the suffix. *)
Definition monthLabel (m : Z) : jsstring :=
  monthKey (Num m) ++ MONTH_SUFFIX.

Definition calendarMonths : list Z := [1; 2; 3; 4; 5; 6; 7; 8; 9; 10; 11; 12]%Z.

(** The record is of year [y] and month [m]; the year NaN is a year like
    another, as it is for the [Set] of the years found. *)
Definition isDated (y : number) (m : Z) (d : ProcessedSalesData.t) : bool :=
  Number.sameValueZero (ProcessedSalesData.year d) y
  && Number.sameValueZero (ProcessedSalesData.month d) (Num m).

(** The amounts of the records of year [y] and month [m], in order. *)
Definition cellAmounts (data : list ProcessedSalesData.t) (y : number)
           (m : Z) : list Binary64.t :=
  amounts (filter (isDated y m) data).

(** The exact sum of these amounts. *)
Definition cellSum (data : list ProcessedSalesData.t) (y : number) (m : Z)
  : Q :=
  sumAmounts (filter (isDated y m) data).

(** The content of a cell of the month-by-year table, if any. *)
Definition cell (monthlyMap : JSMap.t (JSMap.t Binary64.t))
           (mStr yStr : jsstring) : option Binary64.t :=
  match JSMap.get mStr monthlyMap with
  | Some row => JSMap.get yStr row
  | None => None
  end.

(** The record goes to the cell [(mStr, yStr)]. *)
Definition goesTo (mStr yStr : jsstring) (d : ProcessedSalesData.t) : bool :=
  JSString.eqb (monthKey (ProcessedSalesData.month d)) mStr
  && JSString.eqb (Number.toString (ProcessedSalesData.year d)) yStr.

(** The years a run over [data] adds to the set [s]. *)
Definition collectYears (data : list ProcessedSalesData.t) (s : JSSet.t)
  : JSSet.t :=
  fold_left (fun s d => JSSet.add (ProcessedSalesData.year d) s) data s.

(** A record of the data model: an integer year, a month in 1 .. 12. *)
Definition calendarDated (d : ProcessedSalesData.t) : Prop :=
  exists y m, datedAt d y m /\ (1 <= m <= 12)%Z.

(** The compare function [(a, b) => a - b] on integers. *)
Definition ascendingZ (a b : Z) : bool := (0 <? a - b)%Z.

(** [a < b] on two years. *)
Definition yearBefore (a b : number) : Prop := Number.ltb a b = true.

(** What a trend point has to be for month [m], the years being [years]:
    the month's label, one entry per year in the order of [years], and in
    the entry of year [y] the running sum of the amounts of that month and
    year, [|| 0]: 0 when no record falls there, and the exact sum of these
    amounts when the amounts of the data are given in whole units. *)
Definition pointOf (data : list ProcessedSalesData.t) (years : list number)
           (m : Z) (point : TrendDataPoint.t) : Prop :=
  TrendDataPoint.month point = monthLabel m
  /\ map fst (TrendDataPoint.years point) = map Number.toString years
  /\ forall y, In y years ->
       JSMap.get (Number.toString y) (TrendDataPoint.years point)
       = Some (orZero (runningSum (cellAmounts data y m)))
       /\ ((forall d, In d data ->
                      ~ (ProcessedSalesData.year d = y
                         /\ ProcessedSalesData.month d = Num m)) ->
           JSMap.get (Number.toString y) (TrendDataPoint.years point)
           = Some Binary64.zero)
       /\ (forall g units,
             inUnits g units data ->
             Binary64.toQ (orZero (runningSum (cellAmounts data y m)))
             == cellSum data y m).

(* ================================================================== *)
(** * Sample data *)

Module Sample.

(** The rule list of the specification's example: "酱" before "油". *)
Definition sauceRule : CategoryRule.t :=
  {| CategoryRule.keyword := [37233%N];
     CategoryRule.category := str "Sauce";
     CategoryRule.subCategory := str "Soy" |}.

Definition oilRule : CategoryRule.t :=
  {| CategoryRule.keyword := [27833%N];
     CategoryRule.category := str "Oil";
     CategoryRule.subCategory := str "Cooking" |}.

Definition rules : list CategoryRule.t := [sauceRule; oilRule].

(** "酱油" *)
Definition soySauce : jsstring := [37233%N; 27833%N].

Definition other : jsstring := str "Other".

(** A record of department [dept], dated [y]-[m], worth [amount]. *)
Definition recordOf (dept : jsstring) (y m : number) (amount : Binary64.t)
  : ProcessedSalesData.t :=
  {| ProcessedSalesData.businessUnit := str "BU";
     ProcessedSalesData.department := dept;
     ProcessedSalesData.salesperson := str "Li";
     ProcessedSalesData.date := [];
     ProcessedSalesData.customerName := str "ACME";
     ProcessedSalesData.companyName := [];
     ProcessedSalesData.sku := [];
     ProcessedSalesData.productName := soySauce;
     ProcessedSalesData.quantity := Binary64.ofZ 1;
     ProcessedSalesData.amount := amount;
     ProcessedSalesData.category := str "Sauce";
     ProcessedSalesData.subCategory := str "Soy";
     ProcessedSalesData.year := y;
     ProcessedSalesData.month := m |}.

(** The same, worth the whole number [amount]. *)
Definition record (dept : jsstring) (y m : number) (amount : Z)
  : ProcessedSalesData.t :=
  recordOf dept y m (Binary64.ofZ amount).


(** Likewise -2.07, 1.65 and 0.42. *)
Definition minus207 : Binary64.t := S754_finite true 4661225614328463 (-51).
Definition plus165 : Binary64.t := S754_finite false 7430939385161318 (-52).
Definition plus042 : Binary64.t := S754_finite false 7566047373982433 (-54).

(** A filter state with the given date range and department facet, every
    other facet on 'All' and both searches empty. *)
Definition filters (startYear startMonth endYear endMonth dept : jsstring)
  : FilterState.t :=
  {| FilterState.startYear := startYear;
     FilterState.startMonth := startMonth;
     FilterState.endYear := endYear;
     FilterState.endMonth := endMonth;
     FilterState.businessUnit := ALL;
     FilterState.department := dept;
     FilterState.salesperson := ALL;
     FilterState.category := ALL;
     FilterState.subCategory := ALL;
     FilterState.customerName := [];
     FilterState.productName := [] |}.

(** The state App.tsx starts from, before a dataset is loaded. *)
Definition initialFilters : FilterState.t :=
  filters [] (str "1") [] (str "12") ALL.

(** March to May 2023, the range of the specification's example. *)
Definition spring2023 : FilterState.t :=
  filters (str "2023") (str "3") (str "2023") (str "5") ALL.

(** No start year, but an end in December 2023. *)
Definition until2023 : FilterState.t :=
  filters [] (str "1") (str "2023") (str "12") ALL.



(** [String(x)] of a host, for the samples: right on the integers, and the
    integer part elsewhere. *)
Definition binary64ToString (x : Binary64.t) : jsstring :=
  match x with
  | S754_zero _ => str "0"
  | S754_infinity false => str "Infinity"
  | S754_infinity true => str "-Infinity"
  | S754_nan => str "NaN"
  | S754_finite s m e =>
      Number.toString (Num (cond_Zopp s (Z.shiftl (Zpos m) e)))
  end.

(** The specification's example: sales in March 2022 and March 2023 only. *)
Definition marchSales : list ProcessedSalesData.t :=
  [record (str "Sales-A") (Num 2023) (Num 3) 200;
   record (str "Sales-B") (Num 2022) (Num 3) 100;
   record (str "Sales-A") (Num 2023) (Num 3) 50].

(** A raw record shipped on the given date. *)
Definition shipped (date : jsstring) : RawSalesData.t :=
  {| RawSalesData.businessUnit := str "BU";
     RawSalesData.department := str "Sales-A";
     RawSalesData.salesperson := str "Li";
     RawSalesData.date := date;
     RawSalesData.customerName := str "ACME";
     RawSalesData.companyName := [];
     RawSalesData.sku := str "S-1";
     RawSalesData.productName := soySauce;
     RawSalesData.quantity := Binary64.ofZ 2;
     RawSalesData.amount := Binary64.ofZ 30 |}.

Definition newYearSale : RawSalesData.t := shipped (str "2024-01-01").

(** Hosts: five hours behind UTC (New York in winter), eight hours ahead
    (Beijing); neither reads any other date string. *)
Definition newYork (t : Z) : Z := (-18000000)%Z.
Definition beijing (t : Z) : Z := 28800000%Z.
Definition noOtherDates (s : jsstring) : number := NaN.

(** May to March 2023: a range whose start lies after its end. *)
Definition inverted : FilterState.t :=
  filters (str "2023") (str "5") (str "2023") (str "3") ALL.

(** What [processData] makes of a record whose date does not parse. *)
Definition undated : list ProcessedSalesData.t :=
  processData rules other other beijing noOtherDates [shipped (str "n/a")].

Definition salesA : jsstring := str "Sales-A".
Definition salesB : jsstring := str "Sales-B".
Definition salesC : jsstring := str "Sales-C".

(** A record whose amount is NaN, as [Number('1,234.50')] is. *)
Definition unreadable : ProcessedSalesData.t :=
  recordOf salesA (Num 2023) (Num 3) S754_nan.



(** A return of 2.07 against sales of 1.65 and 0.42. *)
Definition returns : list ProcessedSalesData.t :=
  [recordOf salesA (Num 2023) (Num 3) minus207;
   recordOf salesB (Num 2023) (Num 3) plus165;
   recordOf salesC (Num 2023) (Num 3) plus042].

(** Two departments worth 100 each behind one worth 300. *)
Definition tiedShops : list ProcessedSalesData.t :=
  [record salesB (Num 2023) (Num 3) 100;
   record salesA (Num 2023) (Num 3) 100;
   record salesC (Num 2023) (Num 4) 300].

(** Three departments worth 1 each. *)
Definition threeShops : list ProcessedSalesData.t :=
  [record salesA (Num 2023) (Num 3) 1;
   record salesB (Num 2023) (Num 3) 1;
   record salesC (Num 2023) (Num 4) 1].

(** The largest binary64 number, twice for one department. *)
Definition largest : Binary64.t := S754_finite false 9007199254740991 971.

Definition twoLargest : list ProcessedSalesData.t :=
  [recordOf salesA (Num 2023) (Num 3) largest;
   recordOf salesA (Num 2023) (Num 4) largest].

(** A NaN amount beside an amount of 1. *)
Definition oneUnreadable : list ProcessedSalesData.t :=
  [unreadable; record salesB (Num 2023) (Num 3) 1].

(** March 2023: 5, an amount that is NaN, then 7; and 5, 7, then NaN. *)
Definition unreadableSecond : list ProcessedSalesData.t :=
  [record salesA (Num 2023) (Num 3) 5;
   unreadable;
   record salesA (Num 2023) (Num 3) 7].

Definition unreadableLast : list ProcessedSalesData.t :=
  [record salesA (Num 2023) (Num 3) 5;
   record salesA (Num 2023) (Num 3) 7;
   unreadable].

(** A record of March whose year is NaN beside one of March 2023. *)
Definition yearless : list ProcessedSalesData.t :=
  [record salesA NaN (Num 3) 1; record salesA (Num 2023) (Num 3) 2].

End Sample.

(* ================================================================== *)
(** * App.tsx *)

(** A [Set] of strings, in insertion order. *)
Module JSStringSet.

Definition t := list jsstring.

Definition has (x : jsstring) (s : t) : bool := existsb (JSString.eqb x) s.

Definition add (x : jsstring) (s : t) : t :=
  if has x s then s else s ++ [x].

(** [new Set(iterable)] *)
Definition ofList (l : list jsstring) : t :=
  fold_left (fun s x => add x s) l [].

(** [Array.from(set)] *)
Definition toArray (s : t) : list jsstring := s.

End JSStringSet.

Module UserSession.
Inductive Role : Type := admin | department.
Record t : Type := {
  role : Role;
  username : jsstring;
  departmentFilter : option jsstring
}.
End UserSession.

(** The state hooks of the [App] component the pipeline reads or writes. *)
Module AppState.
Record t : Type := {
  user : option UserSession.t;
  loginUser : jsstring;
  loginPass : jsstring;
  rawData : list RawSalesData.t;
  processedData : list ProcessedSalesData.t;
  years : list number;
  filters : FilterState.t
}.
End AppState.

(** [{...prev, department: v}] *)
Definition withDepartment (prev : FilterState.t) (v : jsstring)
  : FilterState.t :=
  {| FilterState.startYear := FilterState.startYear prev;
     FilterState.startMonth := FilterState.startMonth prev;
     FilterState.endYear := FilterState.endYear prev;
     FilterState.endMonth := FilterState.endMonth prev;
     FilterState.businessUnit := FilterState.businessUnit prev;
     FilterState.department := v;
     FilterState.salesperson := FilterState.salesperson prev;
     FilterState.category := FilterState.category prev;
     FilterState.subCategory := FilterState.subCategory prev;
     FilterState.customerName := FilterState.customerName prev;
     FilterState.productName := FilterState.productName prev |}.

(** The filter state [updateData] installs for the year [latestYear]. *)
Definition latestYearFilters (latestYear : jsstring) : FilterState.t :=
  {| FilterState.startYear := latestYear;
     FilterState.startMonth := str "1";
     FilterState.endYear := latestYear;
     FilterState.endMonth := str "12";
     FilterState.businessUnit := ALL;
     FilterState.department := ALL;
     FilterState.salesperson := ALL;
     FilterState.category := ALL;
     FilterState.subCategory := ALL;
     FilterState.customerName := [];
     FilterState.productName := [] |}.

(** The user name of the administrator, "管理员". *)
Definition ADMIN_NAME : jsstring := [31649%N; 29702%N; 21592%N].

Section App.

Variable CATEGORY_RULES : list CategoryRule.t.
Variable DEFAULT_CATEGORY : jsstring.
Variable DEFAULT_SUB_CATEGORY : jsstring.
Variable LocalTZA : Z -> Z.
Variable Date_parseOther : jsstring -> number.

(** [updateData(data)]: normalize, list the years, and point the filters at
    the latest year when there is one. *)
Definition updateData (data : list RawSalesData.t) (s : AppState.t)
  : AppState.t :=
  let processed :=
    processData CATEGORY_RULES DEFAULT_CATEGORY DEFAULT_SUB_CATEGORY
                LocalTZA Date_parseOther data in
  let availYears := getAvailableYears processed in
  {| AppState.user := AppState.user s;
     AppState.loginUser := AppState.loginUser s;
     AppState.loginPass := AppState.loginPass s;
     AppState.rawData := data;
     AppState.processedData := processed;
     AppState.years := availYears;
     AppState.filters :=
       match availYears with
       | [] => AppState.filters s
       | _ :: _ =>
           let latestYear := Number.toString (last availYears NaN) in
           latestYearFilters latestYear
       end |}.

End App.

(** [handleLogin]: the new state, and whether the alert was shown. *)
Definition handleLogin (s : AppState.t) : AppState.t * bool :=
  let loginUser := AppState.loginUser s in
  let loginPass := AppState.loginPass s in
  if JSString.eqb loginUser (str "admin") && JSString.eqb loginPass (str "admin")
  then
    ({| AppState.user :=
          Some {| UserSession.role := UserSession.admin;
                  UserSession.username := ADMIN_NAME;
                  UserSession.departmentFilter := None |};
        AppState.loginUser := loginUser;
        AppState.loginPass := loginPass;
        AppState.rawData := AppState.rawData s;
        AppState.processedData := AppState.processedData s;
        AppState.years := AppState.years s;
        AppState.filters := AppState.filters s |}, false)
  else if JSString.eqb loginPass (str "abcd1234")
  then
    ({| AppState.user :=
          Some {| UserSession.role := UserSession.department;
                  UserSession.username := loginUser;
                  UserSession.departmentFilter := Some loginUser |};
        AppState.loginUser := loginUser;
        AppState.loginPass := loginPass;
        AppState.rawData := AppState.rawData s;
        AppState.processedData := AppState.processedData s;
        AppState.years := AppState.years s;
        AppState.filters := withDepartment (AppState.filters s) loginUser |},
     false)
  else (s, true).

Definition handleLogout (s : AppState.t) : AppState.t :=
  {| AppState.user := None;
     AppState.loginUser := [];
     AppState.loginPass := [];
     AppState.rawData := AppState.rawData s;
     AppState.processedData := AppState.processedData s;
     AppState.years := AppState.years s;
     AppState.filters := withDepartment (AppState.filters s) ALL |}.

(** [setFilters(f)], the handler of every filter control. *)
Definition setFilters (f : FilterState.t) (s : AppState.t) : AppState.t :=
  {| AppState.user := AppState.user s;
     AppState.loginUser := AppState.loginUser s;
     AppState.loginPass := AppState.loginPass s;
     AppState.rawData := AppState.rawData s;
     AppState.processedData := AppState.processedData s;
     AppState.years := AppState.years s;
     AppState.filters := f |}.

(** The [filteredData] memo. *)
Definition filteredData (s : AppState.t) : list ProcessedSalesData.t :=
  match AppState.user s with
  | None => []
  | Some user =>
      filterData (AppState.processedData s) (AppState.filters s)
                 (UserSession.departmentFilter user)
  end.

(** [filteredData.reduce((s, i) => s + i.amount, 0)] *)
Definition totalAmount (filteredData : list ProcessedSalesData.t)
  : Binary64.t :=
  fold_left (fun s i => Binary64.add s (ProcessedSalesData.amount i))
            filteredData Binary64.zero.

(** [filteredData.reduce((s, i) => s + i.quantity, 0)] *)
Definition totalQty (filteredData : list ProcessedSalesData.t)
  : Binary64.t :=
  fold_left (fun s i => Binary64.add s (ProcessedSalesData.quantity i))
            filteredData Binary64.zero.

(** The [annualTotals] memo. *)
Definition annualTotals (filteredData : list ProcessedSalesData.t)
  : JSMap.t Binary64.t :=
  fold_left (fun totals d =>
               let y := Number.toString (ProcessedSalesData.year d) in
               JSMap.set y (Binary64.add (orZero (JSMap.get y totals))
                                         (ProcessedSalesData.amount d))
                         totals)
            filteredData [].

(** The number the trend tooltip shows for a month of a year, before
    [toFixed]: [yearTotal > 0 ? val / yearTotal * 100 : 0], where the
    tooltip prints '0%' in the second case. *)
Definition shareOfYear (annualTotals : JSMap.t Binary64.t) (year : jsstring)
           (val : Binary64.t) : Binary64.t :=
  let yearTotal := orZero (JSMap.get year annualTotals) in
  if isPositive yearTotal
  then Binary64.mul (Binary64.div val yearTotal) hundred
  else Binary64.zero.

(** The number the ranking tooltips show, before [toFixed]:
    [totalAmount > 0 ? val / totalAmount * 100 : 0]. *)
Definition shareOfTotal (totalAmount val : Binary64.t) : Binary64.t :=
  if isPositive totalAmount
  then Binary64.mul (Binary64.div val totalAmount) hundred
  else Binary64.zero.

(** [Array.from(new Set(base.map(f))).filter(Boolean).sort()] *)
Definition distinctValues (f : ProcessedSalesData.t -> jsstring)
           (base : list ProcessedSalesData.t) : list jsstring :=
  JSArray.sort byCodeUnits
    (filter JSString.truthy
       (JSStringSet.toArray (JSStringSet.ofList (map f base)))).

Module Options.
Record t : Type := {
  bus : list jsstring;
  depts : list jsstring;
  sales : list jsstring;
  cats : list jsstring;
  subCats : list jsstring;
  custs : list jsstring
}.
End Options.

(** The records the option lists are drawn from. *)
Definition optionsBase (s : AppState.t) : list ProcessedSalesData.t :=
  match AppState.user s with
  | Some user =>
      match UserSession.departmentFilter user with
      | Some f =>
          if JSString.truthy f
          then filter (fun d => JSString.eqb (ProcessedSalesData.department d) f)
                      (AppState.processedData s)
          else AppState.processedData s
      | None => AppState.processedData s
      end
  | None => AppState.processedData s
  end.

(** The [options] memo. *)
Definition options (s : AppState.t) : Options.t :=
  let base := optionsBase s in
  {| Options.bus := distinctValues ProcessedSalesData.businessUnit base;
     Options.depts := distinctValues ProcessedSalesData.department base;
     Options.sales := distinctValues ProcessedSalesData.salesperson base;
     Options.cats := distinctValues ProcessedSalesData.category base;
     Options.subCats := distinctValues ProcessedSalesData.subCategory base;
     Options.custs := distinctValues ProcessedSalesData.customerName base |}.

(** [PaginatedRankingList] *)
Module Pagination.

Local Open Scope Z_scope.

Definition pageSize : Z := 8.

(** [Array.prototype.slice(start, end)] on integers. *)
Definition slice (A : Type) (start end_ : Z) (l : list A) : list A :=
  let len := Z.of_nat (length l) in
  let k := if start <? 0 then Z.max (len + start) 0 else Z.min start len in
  let final := if end_ <? 0 then Z.max (len + end_) 0 else Z.min end_ len in
  firstn (Z.to_nat (final - k)) (skipn (Z.to_nat k) l).

(** [Math.ceil(data.length / pageSize)] *)
Definition totalPages (A : Type) (data : list A) : Z :=
  Qceiling (inject_Z (Z.of_nat (length data)) / inject_Z pageSize).

(** [data.slice((page - 1) * pageSize, page * pageSize)] *)
Definition currentData (A : Type) (data : list A) (page : Z) : list A :=
  slice ((page - 1) * pageSize) (page * pageSize) data.

(** [(page - 1) * pageSize + idx + 1] *)
Definition rank (page idx : Z) : Z := (page - 1) * pageSize + idx + 1.

(** [Math.max(1, p - 1)] and [Math.min(totalPages, p + 1)] *)
Definition previousPage (p : Z) : Z := Z.max 1 (p - 1).
Definition nextPage (totalPages p : Z) : Z := Z.min totalPages (p + 1).

End Pagination.

(* ================================================================== *)
(** * Vocabulary of the further properties *)

(** A decimal digit, '0' .. '9'. *)
Definition isDecimalDigit (c : N) : bool := ((48 <=? c) && (c <=? 57))%N.

(** The digits of a decimal numeral, most significant first. *)
Fixpoint uintDigits (d : uint) : list Z :=
  match d with
  | Nil => []
  | D0 l => 0%Z :: uintDigits l
  | D1 l => 1%Z :: uintDigits l
  | D2 l => 2%Z :: uintDigits l
  | D3 l => 3%Z :: uintDigits l
  | D4 l => 4%Z :: uintDigits l
  | D5 l => 5%Z :: uintDigits l
  | D6 l => 6%Z :: uintDigits l
  | D7 l => 7%Z :: uintDigits l
  | D8 l => 8%Z :: uintDigits l
  | D9 l => 9%Z :: uintDigits l
  end.

(** The key [aggregateByField] groups a record under. *)
Definition keyOf (Binary64_toString : Binary64.t -> jsstring)
           (field : Key.t) (d : ProcessedSalesData.t) : jsstring :=
  String_ Binary64_toString (ProcessedSalesData.get d field).

(** Append [k] unless it is there. *)
Definition see (acc : list jsstring) (k : jsstring) : list jsstring :=
  if existsb (JSString.eqb k) acc then acc else acc ++ [k].

(** The distinct strings of a list, in the order of their first occurrence. *)
Definition firstSeen (keys : list jsstring) : list jsstring :=
  fold_left see keys [].

(** The amounts of the records grouped under [name], in order. *)
Definition groupAmounts (Binary64_toString : Binary64.t -> jsstring)
           (field : Key.t) (data : list ProcessedSalesData.t)
           (name : jsstring) : list Binary64.t :=
  amounts (filter (fun d => JSString.eqb (keyOf Binary64_toString field d)
                                         name) data).

(** The value of the point named [name]: the running sum of these
    amounts. *)
Definition groupValue (Binary64_toString : Binary64.t -> jsstring)
           (field : Key.t) (data : list ProcessedSalesData.t)
           (name : jsstring) : Binary64.t :=
  match runningSum (groupAmounts Binary64_toString field data name) with
  | Some v => v
  | None => Binary64.zero
  end.

(** The exact sum of these amounts. *)
Definition groupSum (Binary64_toString : Binary64.t -> jsstring)
           (field : Key.t) (data : list ProcessedSalesData.t)
           (name : jsstring) : Q :=
  sumAmounts (filter (fun d => JSString.eqb (keyOf Binary64_toString field d)
                                            name) data).

(** The record's month is an integer in 1 .. 12. *)
Definition monthInRange (d : ProcessedSalesData.t) : Prop :=
  exists m, ProcessedSalesData.month d = Num m /\ (1 <= m <= 12)%Z.

(** The record's year is an integer. *)
Definition integerYear (d : ProcessedSalesData.t) : Prop :=
  exists y, ProcessedSalesData.year d = Num y.

(** The values [f x] for the [x] of a list, added up. *)
Definition sumOver (A : Type) (f : A -> Q) (l : list A) : Q :=
  fold_right (fun x acc => f x + acc) 0 l.

(** The host turns the record's date string into an invalid date. *)
Definition invalidDate (Date_parseOther : jsstring -> number)
           (item : RawSalesData.t) : Prop :=
  JSDate.construct Date_parseOther (RawSalesData.date item) = NaN.

(** The records of year [y]. *)
Definition ofYear (y : number) (d : ProcessedSalesData.t) : bool :=
  Number.sameValueZero (ProcessedSalesData.year d) y.

(** The exact sum of the amounts of the records of year [y]. *)
Definition yearSum (data : list ProcessedSalesData.t) (y : number) : Q :=
  sumAmounts (filter (ofYear y) data).

(** The rational an entry denotes, 0 when there is none. *)
Definition entryQ (x : option Binary64.t) : Q :=
  match x with
  | Some v => Binary64.toQ v
  | None => 0
  end.

(** The exact sum of the entries of a row or of a trend point. *)
Definition sumEntries (l : JSMap.t Binary64.t) : Q :=
  sumOver (fun e => Binary64.toQ (snd e)) l.

(** The value a trend point plots for a year, which the tooltip receives as
    [val]: every point has one for every returned year. *)
Definition plotted (year : jsstring) (point : TrendDataPoint.t)
  : Binary64.t :=
  match JSMap.get year (TrendDataPoint.years point) with
  | Some v => v
  | None => Binary64.zero
  end.

(** Strictly ascending in code-unit order. *)
Definition strictlyAscending (l : list jsstring) : Prop :=
  StronglySorted (fun a b => JSString.ltb a b = true) l.

(** [l] lists, strictly ascending, the non-empty values of [f] over
    [base]. *)
Definition listsValues (f : ProcessedSalesData.t -> jsstring)
           (base : list ProcessedSalesData.t) (l : list jsstring) : Prop :=
  strictlyAscending l
  /\ forall v, In v l <-> v <> [] /\ exists d, In d base /\ f d = v.

(** The page numbers 1 .. [totalPages]. *)
Definition pageNumbers (totalPages : Z) : list Z :=
  map Z.of_nat (seq 1 (Z.to_nat totalPages)).

(** A lower bound [a'] that admits no date the lower bound [a] rejects; an
    unparsed bound (NaN) rejects nothing. *)
Definition lowerNarrows (a' a : number) : Prop :=
  match a, a' with
  | NaN, _ => True
  | Num x, Num x' => (x <= x')%Z
  | Num _, NaN => False
  end.

(** The same for upper bounds. *)
Definition upperNarrows (b' b : number) : Prop :=
  match b, b' with
  | NaN, _ => True
  | Num x, Num x' => (x' <= x)%Z
  | Num _, NaN => False
  end.

(** A facet choice [f'] that shows no value the choice [f] hides. *)
Definition facetNarrows (f' f : jsstring) : Prop :=
  f = [] \/ f = ALL \/ f' = f.

(** A search text [f'] that contains the search text [f]. *)
Definition searchNarrows (f' f : jsstring) : Prop := JSString.substring f f'.

(** The filter state [f'] narrows [f] control by control. *)
Definition narrows (f' f : FilterState.t) : Prop :=
  lowerNarrows (startDateVal f') (startDateVal f)
  /\ upperNarrows (endDateVal f') (endDateVal f)
  /\ facetNarrows (FilterState.businessUnit f') (FilterState.businessUnit f)
  /\ facetNarrows (FilterState.department f') (FilterState.department f)
  /\ facetNarrows (FilterState.salesperson f') (FilterState.salesperson f)
  /\ facetNarrows (FilterState.category f') (FilterState.category f)
  /\ facetNarrows (FilterState.subCategory f') (FilterState.subCategory f)
  /\ searchNarrows (FilterState.customerName f') (FilterState.customerName f)
  /\ searchNarrows (FilterState.productName f') (FilterState.productName f).

(** [personStats.slice(0, 10)], the data of the salesperson bar chart. *)
Definition topTen (stats : list ChartDataPoint.t) : list ChartDataPoint.t :=
  Pagination.slice 0 10 stats.

(* ================================================================== *)
(** * Sample sessions *)

Module AppSample.

(** The login form filled in for department Sales-A, over the
    specification's example records. *)
Definition atLoginForm : AppState.t :=
  {| AppState.user := None;
     AppState.loginUser := Sample.salesA;
     AppState.loginPass := str "abcd1234";
     AppState.rawData := [];
     AppState.processedData := Sample.marchSales;
     AppState.years := [Num 2022; Num 2023];
     AppState.filters := Sample.initialFilters |}.

(** The session of department Sales-A. *)
Definition salesASession : AppState.t := fst (handleLogin atLoginForm).

(** One sale of [amount] by salesperson [person]. *)
Definition saleBy (person : jsstring) (amount : Z) : ProcessedSalesData.t :=
  {| ProcessedSalesData.businessUnit := str "BU";
     ProcessedSalesData.department := Sample.salesA;
     ProcessedSalesData.salesperson := person;
     ProcessedSalesData.date := [];
     ProcessedSalesData.customerName := str "ACME";
     ProcessedSalesData.companyName := [];
     ProcessedSalesData.sku := [];
     ProcessedSalesData.productName := Sample.soySauce;
     ProcessedSalesData.quantity := Binary64.ofZ 1;
     ProcessedSalesData.amount := Binary64.ofZ amount;
     ProcessedSalesData.category := str "Sauce";
     ProcessedSalesData.subCategory := str "Soy";
     ProcessedSalesData.year := Num 2023;
     ProcessedSalesData.month := Num 3 |}.

(** Twelve salespeople, "A" to "L", selling 1 to 12. *)
Definition team : list ProcessedSalesData.t :=
  map (fun n => saleBy [N.of_nat (65 + n)] (Z.of_nat (S n)))
      (seq 0 12).

(** A ranking list of ten entries: two pages. *)
Definition tenItems : list nat := seq 1 10.

End AppSample.

(* ================================================================== *)
(** * Strings *)

Lemma JSString_eqb_eq (a b : jsstring) : JSString.eqb a b = true <-> a = b.
Proof.
  revert b; induction a as [|x a IH]; intros [|y b]; simpl;
    try (split; [discriminate | discriminate]); try tauto.
  rewrite andb_true_iff, N.eqb_eq, IH.
  split; [intros [-> ->]; reflexivity | intros H; inversion H; auto].
Qed.

Lemma JSString_eqb_refl (a : jsstring) : JSString.eqb a a = true.
Proof. apply JSString_eqb_eq; reflexivity. Qed.

Lemma JSString_eqb_neq (a b : jsstring) : JSString.eqb a b = false <-> a <> b.
Proof.
  rewrite <- JSString_eqb_eq. destruct (JSString.eqb a b); split; congruence.
Qed.

Lemma startsWith_spec (k s : jsstring) :
  JSString.startsWith k s = true <-> exists post, s = k ++ post.
Proof.
  revert s; induction k as [|x k IH]; intros s; simpl.
  - split; [intros _; exists s; reflexivity | reflexivity].
  - destruct s as [|y s].
    + split; [discriminate | intros [post H]; discriminate].
    + rewrite andb_true_iff, N.eqb_eq, IH. split.
      * intros [-> [post ->]]. exists post; reflexivity.
      * intros [post H]. inversion H; subst. split; [reflexivity | eauto].
Qed.

(** [includes] decides the substring relation. *)
Lemma includes_spec (s k : jsstring) :
  JSString.includes s k = true <-> JSString.substring k s.
Proof.
  unfold JSString.substring.
  induction s as [|c s IH]; simpl; rewrite orb_true_iff, startsWith_spec.
  - split.
    + intros [[post H] | H]; [|discriminate]. exists [], post; exact H.
    + intros [pre [post H]]. left.
      destruct pre; [exists post; exact H | discriminate].
  - rewrite IH. split.
    + intros [[post H] | [pre [post H]]].
      * exists [], post; exact H.
      * exists (c :: pre), post; simpl; congruence.
    + intros [[|c' pre] [post H]].
      * left; exists post; exact H.
      * right. inversion H; subst. exists pre, post; reflexivity.
Qed.

Lemma includes_false (s k : jsstring) :
  JSString.includes s k = false <-> ~ JSString.substring k s.
Proof.
  rewrite <- includes_spec. destruct (JSString.includes s k); split; congruence.
Qed.

Lemma substring_empty_name (k : jsstring) :
  JSString.substring k [] -> k = [].
Proof.
  intros [pre [post H]]. symmetry in H.
  apply app_eq_nil in H as [_ H]. apply app_eq_nil in H as [H _]. exact H.
Qed.

(* ================================================================== *)
(** * The classifier *)

Section Classifier.

Variable DEFAULT_CATEGORY DEFAULT_SUB_CATEGORY : jsstring.

Lemma firstMatch_hit (pre post : list CategoryRule.t) rule productName :
  (forall r, In r pre -> ~ matches productName r) ->
  matches productName rule ->
  firstMatch DEFAULT_CATEGORY DEFAULT_SUB_CATEGORY (pre ++ rule :: post)
             productName = pairOf rule.
Proof.
  intros Hpre Hrule. induction pre as [|r pre IH]; simpl.
  - apply includes_spec in Hrule. rewrite Hrule. reflexivity.
  - assert (Hr : JSString.includes productName (CategoryRule.keyword r) = false).
    { apply includes_false. apply Hpre. left; reflexivity. }
    rewrite Hr. apply IH. intros r' Hin. apply Hpre. right; exact Hin.
Qed.

Lemma firstMatch_miss (rules : list CategoryRule.t) productName :
  (forall r, In r rules -> ~ matches productName r) ->
  firstMatch DEFAULT_CATEGORY DEFAULT_SUB_CATEGORY rules productName
  = defaultPair DEFAULT_CATEGORY DEFAULT_SUB_CATEGORY.
Proof.
  intros Hall. induction rules as [|r rules IH]; simpl.
  - reflexivity.
  - assert (Hr : JSString.includes productName (CategoryRule.keyword r) = false).
    { apply includes_false. apply Hall. left; reflexivity. }
    rewrite Hr. apply IH. intros r' Hin. apply Hall. right; exact Hin.
Qed.

(** Every rule list splits at its first matching rule, or has none. *)
Lemma first_match_split (rules : list CategoryRule.t) productName :
  (exists pre rule post,
      rules = pre ++ rule :: post /\
      (forall r, In r pre -> ~ matches productName r) /\
      matches productName rule)
  \/ (forall r, In r rules -> ~ matches productName r).
Proof.
  induction rules as [|r rules IH].
  - right. intros r [].
  - destruct (JSString.includes productName (CategoryRule.keyword r)) eqn:E.
    + left. exists [], r, rules. repeat split.
      * intros r' [].
      * apply includes_spec; exact E.
    + apply includes_false in E.
      destruct IH as [[pre [rule [post [-> [Hpre Hrule]]]]] | Hnone].
      * left. exists (r :: pre), rule, post. repeat split; auto.
        intros r' [<- | Hin]; auto.
      * right. intros r' [<- | Hin]; auto.
Qed.

End Classifier.

(** C1. For every product name, [mapProductCategory] returns the pair of the
    first rule of CATEGORY_RULES, in list order, whose keyword is a substring
    of the product name, whatever the lengths of the keywords that match
    later; when no keyword is a substring it returns the default pair, which
    is the case of the empty product name against non-empty keywords. *)
Theorem mapProductCategory_first_match
        (CATEGORY_RULES : list CategoryRule.t)
        (DEFAULT_CATEGORY DEFAULT_SUB_CATEGORY productName : jsstring) :
  let result :=
    mapProductCategory CATEGORY_RULES DEFAULT_CATEGORY DEFAULT_SUB_CATEGORY
                       productName in
  ((exists pre rule post,
       CATEGORY_RULES = pre ++ rule :: post /\
       (forall r, In r pre -> ~ matches productName r) /\
       matches productName rule /\
       result = pairOf rule)
   \/ ((forall r, In r CATEGORY_RULES -> ~ matches productName r) /\
       result = defaultPair DEFAULT_CATEGORY DEFAULT_SUB_CATEGORY))
  /\ (forall pre rule post,
         CATEGORY_RULES = pre ++ rule :: post ->
         (forall r, In r pre -> ~ matches productName r) ->
         matches productName rule ->
         result = pairOf rule)
  /\ ((forall r, In r CATEGORY_RULES -> ~ matches productName r) ->
      result = defaultPair DEFAULT_CATEGORY DEFAULT_SUB_CATEGORY)
  /\ (productName = [] ->
      (forall r, In r CATEGORY_RULES -> CategoryRule.keyword r <> []) ->
      result = defaultPair DEFAULT_CATEGORY DEFAULT_SUB_CATEGORY).
Proof.
  cbv zeta. unfold mapProductCategory.
  assert (Hhit : forall pre rule post,
             CATEGORY_RULES = pre ++ rule :: post ->
             (forall r, In r pre -> ~ matches productName r) ->
             matches productName rule ->
             firstMatch DEFAULT_CATEGORY DEFAULT_SUB_CATEGORY CATEGORY_RULES
                        productName = pairOf rule).
  { intros pre rule post -> Hpre Hrule. apply firstMatch_hit; assumption. }
  repeat split.
  - destruct (first_match_split CATEGORY_RULES productName)
      as [[pre [rule [post [Heq [Hpre Hrule]]]]] | Hnone].
    + left. exists pre, rule, post. repeat split; auto. eapply Hhit; eauto.
    + right. split; [exact Hnone | apply firstMatch_miss; exact Hnone].
  - exact Hhit.
  - apply firstMatch_miss.
  - intros -> Hkw. apply firstMatch_miss.
    intros r Hin Hm. apply (Hkw r Hin). apply substring_empty_name. exact Hm.
Qed.

(** The specification's example: with "酱" listed before "油", "酱油" is a
    Sauce/Soy product, and the empty name falls to the default pair. *)
Lemma mapProductCategory_first_match_witness :
  mapProductCategory Sample.rules Sample.other Sample.other Sample.soySauce
  = pairOf Sample.sauceRule
  /\ mapProductCategory Sample.rules Sample.other Sample.other []
     = defaultPair Sample.other Sample.other.
Proof.
  split.
  - apply (proj1 (proj2 (mapProductCategory_first_match
                           Sample.rules Sample.other Sample.other
                           Sample.soySauce))
             [] Sample.sauceRule [Sample.oilRule]).
    + reflexivity.
    + intros r [].
    + exists [], [27833%N]. reflexivity.
  - apply (proj2 (proj2 (proj2 (mapProductCategory_first_match
                                  Sample.rules Sample.other Sample.other [])))).
    + reflexivity.
    + intros r [<- | [<- | []]]; discriminate.
Defined.

(* ================================================================== *)
(** * The filter engine *)

Lemma filter_none (A : Type) (p : A -> bool) (l : list A) :
  (forall x, In x l -> p x = false) -> filter p l = [].
Proof.
  induction l as [|x l IH]; intros H; simpl.
  - reflexivity.
  - rewrite (H x (or_introl eq_refl)). apply IH.
    intros y Hy. apply H. right; exact Hy.
Qed.

Lemma filter_idempotent (A : Type) (p : A -> bool) (l : list A) :
  filter p (filter p l) = filter p l.
Proof.
  induction l as [|x l IH]; simpl.
  - reflexivity.
  - destruct (p x) eqn:E; simpl; [rewrite E, IH|]; auto.
Qed.

Lemma filter_and (A : Type) (p q : A -> bool) (l : list A) :
  filter (fun x => p x && q x) l = filter p (filter q l).
Proof.
  induction l as [|x l IH]; simpl.
  - reflexivity.
  - destruct (q x); simpl.
    + rewrite andb_true_r. destruct (p x); rewrite IH; reflexivity.
    + rewrite andb_false_r. exact IH.
Qed.

(** The date-range lines on a record whose year and month are integers and
    bounds that all parse. *)
Lemma outsideDateRange_dated filters item sy sm ey em y m :
  parseInt (FilterState.startYear filters) = Num sy ->
  parseInt (FilterState.startMonth filters) = Num sm ->
  parseInt (FilterState.endYear filters) = Num ey ->
  parseInt (FilterState.endMonth filters) = Num em ->
  datedAt item y m ->
  outsideDateRange filters item
  = ((dateKey y m <? dateKey sy sm) || (dateKey ey em <? dateKey y m))%Z.
Proof.
  intros Hsy Hsm Hey Hem [Hy Hm].
  unfold outsideDateRange, itemDateVal, startDateVal, endDateVal.
  rewrite Hsy, Hsm, Hey, Hem, Hy, Hm. reflexivity.
Qed.

Lemma keep_inside filters deptConstraint item :
  keep filters deptConstraint item = true ->
  outsideDateRange filters item = false.
Proof.
  unfold keep. destruct (outsideDateRange filters item); [discriminate | auto].
Qed.

Lemma outsideDateRange_NaN filters item :
  ProcessedSalesData.year item = NaN \/ ProcessedSalesData.month item = NaN ->
  outsideDateRange filters item = false.
Proof.
  intros H. unfold outsideDateRange.
  assert (E : itemDateVal item = NaN).
  { unfold itemDateVal. destruct H as [H | H]; rewrite H; [reflexivity|].
    destruct (ProcessedSalesData.year item); reflexivity. }
  rewrite E. cbn [Number.ltb Number.gtb].
  destruct (endDateVal filters); reflexivity.
Qed.

(** C2, as the code has it.  On a record whose year and month are the
    integers y and m, and bounds whose four strings parse as integers, the
    date-range test of [filterData] lets the record through exactly when
    startYear*100+startMonth <= y*100+m <= endYear*100+endMonth, both ends
    included; every such record [filterData] returns satisfies it, and when
    the start key exceeds the end key no such record passes.  A record whose
    year or month is NaN passes the date-range test whatever the bounds. *)
Theorem filterData_date_range_inclusive
        (filters : FilterState.t) (sy sm ey em : Z)
        (Hsy : parseInt (FilterState.startYear filters) = Num sy)
        (Hsm : parseInt (FilterState.startMonth filters) = Num sm)
        (Hey : parseInt (FilterState.endYear filters) = Num ey)
        (Hem : parseInt (FilterState.endMonth filters) = Num em) :
  (forall item y m,
      datedAt item y m ->
      outsideDateRange filters item = false <->
      (dateKey sy sm <= dateKey y m <= dateKey ey em)%Z)
  /\ (forall data deptConstraint item y m,
         datedAt item y m ->
         In item (filterData data filters deptConstraint) ->
         (dateKey sy sm <= dateKey y m <= dateKey ey em)%Z)
  /\ ((dateKey sy sm > dateKey ey em)%Z ->
      (forall item y m,
          datedAt item y m -> outsideDateRange filters item = true)
      /\ (forall data deptConstraint,
             Forall (fun item => exists y m, datedAt item y m) data ->
             filterData data filters deptConstraint = []))
  /\ (forall item,
         ProcessedSalesData.year item = NaN \/
         ProcessedSalesData.month item = NaN ->
         outsideDateRange filters item = false).
Proof.
  assert (Hiff : forall item y m,
             datedAt item y m ->
             outsideDateRange filters item = false <->
             (dateKey sy sm <= dateKey y m <= dateKey ey em)%Z).
  { intros item y m Hd.
    rewrite (outsideDateRange_dated filters Hsy Hsm Hey Hem Hd).
    rewrite orb_false_iff, !Z.ltb_ge. tauto. }
  assert (Hinv : (dateKey sy sm > dateKey ey em)%Z ->
                 forall item y m,
                   datedAt item y m -> outsideDateRange filters item = true).
  { intros Hgt item y m Hd.
    destruct (outsideDateRange filters item) eqn:E; [reflexivity|].
    apply (Hiff item y m Hd) in E. lia. }
  split; [exact Hiff | split; [|split]].
  - intros data deptConstraint item y m Hd Hin.
    apply filter_In in Hin as [_ Hk].
    apply (Hiff item y m Hd). eapply keep_inside; eauto.
  - intros Hgt. split; [exact (Hinv Hgt)|].
    intros data deptConstraint Hall. apply filter_none.
    intros item Hin. rewrite Forall_forall in Hall.
    destruct (Hall item Hin) as [y [m Hd]].
    unfold keep. rewrite (Hinv Hgt item y m Hd). reflexivity.
  - intros item. apply outsideDateRange_NaN.
Qed.

(** The specification's example: with the range March to May 2023, records
    of March and May pass, records of February and June do not. *)
Lemma filterData_date_range_inclusive_witness :
  filterData [Sample.record Sample.salesA (Num 2023) (Num 2) 1;
              Sample.record Sample.salesA (Num 2023) (Num 3) 1;
              Sample.record Sample.salesA (Num 2023) (Num 5) 1;
              Sample.record Sample.salesA (Num 2023) (Num 6) 1]
             Sample.spring2023 None
  = [Sample.record Sample.salesA (Num 2023) (Num 3) 1;
     Sample.record Sample.salesA (Num 2023) (Num 5) 1]
  /\ (outsideDateRange Sample.spring2023
                       (Sample.record Sample.salesA (Num 2023) (Num 3) 1)
      = false <->
      (dateKey 2023 3 <= dateKey 2023 3 <= dateKey 2023 5)%Z).
Proof.
  split; [reflexivity|].
  apply (proj1 (@filterData_date_range_inclusive
                  Sample.spring2023 2023 3 2023 5
                  eq_refl eq_refl eq_refl eq_refl)).
  split; reflexivity.
Defined.

(** C2 as stated fails: the four strings of [Sample.inverted] parse, its
    start key 202305 exceeds its end key 202303, and the record that
    [processData] makes of the date "n/a", whose year and month are NaN,
    passes [filterData]. *)
Lemma filterData_date_range_keeps_undated :
  parseInt (FilterState.startYear Sample.inverted) = Num 2023
  /\ parseInt (FilterState.startMonth Sample.inverted) = Num 5
  /\ parseInt (FilterState.endYear Sample.inverted) = Num 2023
  /\ parseInt (FilterState.endMonth Sample.inverted) = Num 3
  /\ (dateKey 2023 5 > dateKey 2023 3)%Z
  /\ map (fun item => (ProcessedSalesData.year item,
                       ProcessedSalesData.month item)) Sample.undated
     = [(NaN, NaN)]
  /\ Forall (fun item => outsideDateRange Sample.inverted item = false)
            Sample.undated
  /\ length (filterData Sample.undated Sample.inverted None) = 1%nat.
Proof.
  repeat split. repeat constructor.
Qed.

Lemma violatesConstraint_false c item :
  c <> [] ->
  violatesConstraint (Some c) item = false ->
  ProcessedSalesData.department item = c.
Proof.
  intros Hc. unfold violatesConstraint.
  destruct c as [|x c]; [congruence|]. simpl.
  rewrite negb_false_iff. apply JSString_eqb_eq.
Qed.

Lemma facetMismatch_false f v :
  f <> [] -> f <> ALL -> facetMismatch f v = false -> v = f.
Proof.
  intros Hne Hall. unfold facetMismatch.
  apply JSString_eqb_neq in Hall. rewrite Hall.
  destruct f as [|x f]; [congruence|].
  cbn [JSString.truthy negb andb].
  rewrite negb_false_iff. apply JSString_eqb_eq.
Qed.

Lemma keep_constraint filters c item :
  c <> [] ->
  keep filters (Some c) item = true ->
  ProcessedSalesData.department item = c.
Proof.
  intros Hc. unfold keep, passesOthers.
  destruct (outsideDateRange filters item); [discriminate|].
  destruct (violatesConstraint (Some c) item) eqn:E; [discriminate|].
  intros _. apply violatesConstraint_false; assumption.
Qed.

Lemma keep_department_facet filters deptConstraint item :
  FilterState.department filters <> [] ->
  FilterState.department filters <> ALL ->
  keep filters deptConstraint item = true ->
  ProcessedSalesData.department item = FilterState.department filters.
Proof.
  intros Hne Hall. unfold keep, passesOthers.
  destruct (outsideDateRange filters item); [discriminate|].
  destruct (violatesConstraint deptConstraint item); [discriminate|].
  destruct (facetMismatch (FilterState.businessUnit filters) _); [discriminate|].
  destruct (facetMismatch (FilterState.department filters) _) eqn:E;
    [discriminate|].
  intros _. apply facetMismatch_false; assumption.
Qed.

Lemma keep_with_constraint filters c item :
  keep filters (Some c) item
  = negb (violatesConstraint (Some c) item) && keep filters None item.
Proof.
  unfold keep, passesOthers.
  destruct (outsideDateRange filters item).
  - rewrite andb_false_r. reflexivity.
  - destruct (violatesConstraint (Some c) item); reflexivity.
Qed.

(** C3. Under a non-empty department constraint every record [filterData]
    returns has that department; the constraint is ANDed with the other
    predicates, so the result is the constrained part of the unconstrained
    result, and an explicit department facet that is neither 'All' nor empty
    nor the constraint leaves nothing. *)
Theorem filterData_department_constraint
        (data : list ProcessedSalesData.t) (filters : FilterState.t)
        (deptConstraint : jsstring) (Hc : deptConstraint <> []) :
  (forall item,
      In item (filterData data filters (Some deptConstraint)) ->
      ProcessedSalesData.department item = deptConstraint)
  /\ filterData data filters (Some deptConstraint)
     = filter (fun item =>
                 JSString.eqb (ProcessedSalesData.department item)
                              deptConstraint)
              (filterData data filters None)
  /\ (FilterState.department filters <> ALL ->
      FilterState.department filters <> [] ->
      FilterState.department filters <> deptConstraint ->
      filterData data filters (Some deptConstraint) = []).
Proof.
  split; [|split].
  - intros item Hin. apply filter_In in Hin as [_ Hk].
    eapply keep_constraint; eauto.
  - unfold filterData. rewrite <- filter_and. apply filter_ext.
    intros item. rewrite keep_with_constraint. f_equal.
    unfold violatesConstraint.
    destruct deptConstraint as [|x c]; [congruence|]. simpl.
    rewrite negb_involutive. reflexivity.
  - intros Hall Hne Hneq. apply filter_none. intros item _.
    destruct (keep filters (Some deptConstraint) item) eqn:E; [|reflexivity].
    exfalso. apply Hneq.
    rewrite <- (keep_department_facet filters (Some deptConstraint) item Hne Hall E).
    apply keep_constraint with (filters := filters); assumption.
Qed.

(** The specification's example: constraint "Sales-A" with the explicit
    facet on "Sales-B" leaves nothing, also of a dataset that has both. *)
Lemma filterData_department_constraint_witness :
  Sample.salesA <> []
  /\ filterData [Sample.record Sample.salesA (Num 2023) (Num 3) 1;
                 Sample.record Sample.salesB (Num 2023) (Num 3) 1]
                (Sample.filters (str "2023") (str "1") (str "2023") (str "12")
                                Sample.salesB)
                (Some Sample.salesA)
     = [].
Proof.
  assert (H : Sample.salesA <> []) by discriminate.
  split; [exact H|].
  apply (proj2 (proj2 (@filterData_department_constraint
           [Sample.record Sample.salesA (Num 2023) (Num 3) 1;
            Sample.record Sample.salesB (Num 2023) (Num 3) 1]
           (Sample.filters (str "2023") (str "1") (str "2023") (str "12")
                           Sample.salesB)
           Sample.salesA H))); discriminate.
Defined.

(** C9. Filtering is idempotent: [filterData] applied to its own output,
    with the same filter state and the same optional constraint, returns
    that output. *)
Theorem filterData_idempotent
        (data : list ProcessedSalesData.t) (filters : FilterState.t)
        (deptConstraint : option jsstring) :
  filterData (filterData data filters deptConstraint) filters deptConstraint
  = filterData data filters deptConstraint.
Proof.
  unfold filterData. apply filter_idempotent.
Qed.

Lemma startDateVal_NaN filters :
  parseInt (FilterState.startYear filters) = NaN \/
  parseInt (FilterState.startMonth filters) = NaN ->
  startDateVal filters = NaN.
Proof.
  unfold startDateVal. intros [H | H]; rewrite H; [reflexivity|].
  destruct (parseInt (FilterState.startYear filters)); reflexivity.
Qed.

Lemma endDateVal_NaN filters :
  parseInt (FilterState.endYear filters) = NaN \/
  parseInt (FilterState.endMonth filters) = NaN ->
  endDateVal filters = NaN.
Proof.
  unfold endDateVal. intros [H | H]; rewrite H; [reflexivity|].
  destruct (parseInt (FilterState.endYear filters)); reflexivity.
Qed.

Lemma ltb_NaN_r a : Number.ltb a NaN = false.
Proof. destruct a; reflexivity. Qed.

Lemma gtb_NaN_r a : Number.gtb a NaN = false.
Proof. reflexivity. Qed.

(** C10, as the code has it.  A start string that does not parse silences
    the lower bound only, an end string that does not parse silences the
    upper bound only; when a start string and an end string both fail to
    parse, as in the initial filter state, the date-range test rejects no
    record and [filterData] applies the remaining predicates alone. *)
Theorem filterData_unparsed_bounds (filters : FilterState.t) :
  (parseInt (FilterState.startYear filters) = NaN \/
   parseInt (FilterState.startMonth filters) = NaN ->
   forall item,
     outsideDateRange filters item
     = Number.gtb (itemDateVal item) (endDateVal filters))
  /\ (parseInt (FilterState.endYear filters) = NaN \/
      parseInt (FilterState.endMonth filters) = NaN ->
      forall item,
        outsideDateRange filters item
        = Number.ltb (itemDateVal item) (startDateVal filters))
  /\ (parseInt (FilterState.startYear filters) = NaN \/
      parseInt (FilterState.startMonth filters) = NaN ->
      parseInt (FilterState.endYear filters) = NaN \/
      parseInt (FilterState.endMonth filters) = NaN ->
      (forall item, outsideDateRange filters item = false)
      /\ (forall data deptConstraint,
             filterData data filters deptConstraint
             = filter (passesOthers filters deptConstraint) data)).
Proof.
  assert (Hlo : parseInt (FilterState.startYear filters) = NaN \/
                parseInt (FilterState.startMonth filters) = NaN ->
                forall item,
                  outsideDateRange filters item
                  = Number.gtb (itemDateVal item) (endDateVal filters)).
  { intros H item. unfold outsideDateRange.
    rewrite (startDateVal_NaN filters H), ltb_NaN_r. reflexivity. }
  assert (Hhi : parseInt (FilterState.endYear filters) = NaN \/
                parseInt (FilterState.endMonth filters) = NaN ->
                forall item,
                  outsideDateRange filters item
                  = Number.ltb (itemDateVal item) (startDateVal filters)).
  { intros H item. unfold outsideDateRange.
    rewrite (endDateVal_NaN filters H), gtb_NaN_r. apply orb_false_r. }
  split; [exact Hlo | split; [exact Hhi|]].
  intros Hs He.
  assert (Hnone : forall item, outsideDateRange filters item = false).
  { intros item. rewrite (Hlo Hs), (endDateVal_NaN filters He). reflexivity. }
  split; [exact Hnone|].
  intros data deptConstraint. unfold filterData. apply filter_ext.
  intros item. unfold keep. rewrite Hnone. reflexivity.
Qed.

(** The initial filter state of App.tsx, whose start and end years are
    empty, keeps records of any date. *)
Lemma filterData_unparsed_bounds_witness :
  (parseInt (FilterState.startYear Sample.initialFilters) = NaN \/
   parseInt (FilterState.startMonth Sample.initialFilters) = NaN)
  /\ (parseInt (FilterState.endYear Sample.initialFilters) = NaN \/
      parseInt (FilterState.endMonth Sample.initialFilters) = NaN)
  /\ forall item, outsideDateRange Sample.initialFilters item = false.
Proof.
  assert (Hs : parseInt (FilterState.startYear Sample.initialFilters) = NaN \/
               parseInt (FilterState.startMonth Sample.initialFilters) = NaN)
    by (left; reflexivity).
  assert (He : parseInt (FilterState.endYear Sample.initialFilters) = NaN \/
               parseInt (FilterState.endMonth Sample.initialFilters) = NaN)
    by (left; reflexivity).
  split; [exact Hs | split; [exact He|]].
  exact (proj1 (proj2 (proj2 (filterData_unparsed_bounds
                                Sample.initialFilters)) Hs He)).
Defined.

(** C10 as stated fails: the start year of [Sample.until2023] does not
    parse, its end does, and the date-range test rejects a record of
    January 2024. *)
Lemma filterData_unparsed_start_still_bounded :
  parseInt (FilterState.startYear Sample.until2023) = NaN
  /\ outsideDateRange Sample.until2023
                      (Sample.record Sample.salesA (Num 2024) (Num 1) 1)
     = true
  /\ filterData [Sample.record Sample.salesA (Num 2024) (Num 1) 1]
                Sample.until2023 None
     = [].
Proof. repeat split. Qed.

(* ================================================================== *)
(** * Array.prototype.sort: a stable sort of a total preorder *)

Section SortSpec.

Variable A : Type.
Variable after : A -> A -> bool.

(** [x] may stand before [y]. *)
Let before (x y : A) : Prop := after x y = false.

Lemma insert_Permutation (x : A) (l : list A) :
  Permutation (JSArray.insert after x l) (x :: l).
Proof.
  induction l as [|y l IH]; simpl.
  - apply Permutation_refl.
  - destruct (after y x).
    + apply Permutation_refl.
    + eapply perm_trans; [apply perm_skip, IH | apply perm_swap].
Qed.

Lemma sort_from_Permutation (l acc : list A) :
  Permutation (fold_left (fun acc x => JSArray.insert after x acc) l acc)
              (acc ++ l).
Proof.
  revert acc; induction l as [|x l IH]; intros acc; simpl.
  - rewrite app_nil_r. apply Permutation_refl.
  - eapply perm_trans; [apply IH|].
    eapply perm_trans;
      [apply Permutation_app_tail, insert_Permutation|].
    simpl. apply Permutation_middle.
Qed.

Lemma sort_Permutation (l : list A) : Permutation (JSArray.sort after l) l.
Proof. apply (sort_from_Permutation l []). Qed.

(** The compare function is consistent. *)
Hypothesis before_trans :
  forall x y z, before x y -> before y z -> before x z.
Hypothesis before_total : forall x y, after x y = true -> before y x.

Lemma insert_StronglySorted (x : A) (l : list A) :
  StronglySorted before l -> StronglySorted before (JSArray.insert after x l).
Proof.
  induction 1 as [|y l Hs IH Hy]; simpl.
  - repeat constructor.
  - destruct (after y x) eqn:E.
    + assert (Hxy : before x y) by (apply before_total; exact E).
      constructor; [constructor; assumption|].
      constructor; [exact Hxy|].
      eapply Forall_impl; [|exact Hy].
      intros z Hz. eapply before_trans; eauto.
    + constructor; [exact IH|].
      eapply Permutation_Forall;
        [apply Permutation_sym, insert_Permutation|].
      constructor; assumption.
Qed.

Lemma sort_from_StronglySorted (l acc : list A) :
  StronglySorted before acc ->
  StronglySorted before
    (fold_left (fun acc x => JSArray.insert after x acc) l acc).
Proof.
  revert acc; induction l as [|x l IH]; intros acc Hacc; simpl.
  - exact Hacc.
  - apply IH, insert_StronglySorted, Hacc.
Qed.

Lemma sort_StronglySorted (l : list A) :
  StronglySorted before (JSArray.sort after l).
Proof. apply sort_from_StronglySorted. constructor. Qed.

End SortSpec.

(* ================================================================== *)
(** * Array.prototype.sort where the compare function is consistent *)

(** The same facts when the compare function is consistent on the elements
    of the array only, as [b.value - a.value] is on values that are not
    NaN. *)
Section SortOn.

Variable A : Type.
Variable after : A -> A -> bool.
Variable domain : A -> Prop.

Let before (x y : A) : Prop := after x y = false.

Hypothesis before_trans :
  forall x y z, domain x -> domain y -> domain z ->
                before x y -> before y z -> before x z.
Hypothesis before_total :
  forall x y, domain x -> domain y -> after x y = true -> before y x.

Lemma insert_StronglySorted_on (x : A) (l : list A) :
  domain x -> Forall domain l ->
  StronglySorted before l -> StronglySorted before (JSArray.insert after x l).
Proof.
  intros Hx Hl Hs. induction Hs as [|y l Hs IH Hy]; simpl.
  - repeat constructor.
  - inversion Hl as [|? ? Hdy Hdl]; subst.
    destruct (after y x) eqn:E.
    + assert (Hxy : before x y) by (apply before_total; assumption).
      constructor; [constructor; assumption|].
      constructor; [exact Hxy|].
      rewrite Forall_forall in *. intros z Hz.
      apply (before_trans Hx Hdy (Hdl z Hz) Hxy (Hy z Hz)).
    + constructor; [exact (IH Hdl)|].
      eapply Permutation_Forall;
        [apply Permutation_sym, insert_Permutation|].
      constructor; assumption.
Qed.

Lemma sort_from_StronglySorted_on (l acc : list A) :
  Forall domain l -> Forall domain acc ->
  StronglySorted before acc ->
  StronglySorted before
    (fold_left (fun acc x => JSArray.insert after x acc) l acc).
Proof.
  revert acc; induction l as [|x l IH]; intros acc Hl Hd Hacc; simpl.
  - exact Hacc.
  - inversion Hl as [|? ? Hx Hl']; subst.
    apply IH; [exact Hl' | | apply insert_StronglySorted_on; assumption].
    eapply Permutation_Forall;
      [apply Permutation_sym, insert_Permutation|].
    constructor; assumption.
Qed.

Lemma sort_StronglySorted_on (l : list A) :
  Forall domain l -> StronglySorted before (JSArray.sort after l).
Proof.
  intros Hl. apply sort_from_StronglySorted_on;
    [exact Hl | constructor | constructor].
Qed.

(** The elements picked by [tied] compare equal, and nothing that has to
    follow one of them may stand before another. *)
Variable tied : A -> bool.

Hypothesis tied_equal :
  forall x y, domain x -> domain y ->
              tied x = true -> tied y = true -> after x y = false.
Hypothesis tied_apart :
  forall x y z, domain x -> domain y -> domain z ->
                after y x = true -> after y z = false ->
                tied x = true -> tied z = true -> False.

Lemma insert_tied_on (x : A) (l : list A) :
  domain x -> Forall domain l ->
  StronglySorted before l ->
  filter tied (JSArray.insert after x l)
  = filter tied l ++ (if tied x then [x] else []).
Proof.
  intros Hx Hl Hs. induction Hs as [|y l Hs IH Hy]; simpl.
  - destruct (tied x); reflexivity.
  - inversion Hl as [|? ? Hdy Hdl]; subst.
    destruct (after y x) eqn:E.
    + destruct (tied x) eqn:Htx.
      * assert (Hnone : filter tied (y :: l) = []).
        { apply filter_none. intros z [<- | Hz].
          - destruct (tied y) eqn:Hty; [|reflexivity].
            rewrite (tied_equal Hdy Hx Hty Htx) in E. discriminate.
          - destruct (tied z) eqn:Htz; [|reflexivity].
            rewrite Forall_forall in Hy, Hdl.
            exfalso.
            exact (tied_apart Hx Hdy (Hdl z Hz) E (Hy z Hz) Htx Htz). }
        simpl. rewrite Htx. simpl in Hnone. rewrite Hnone. reflexivity.
      * simpl. rewrite Htx, app_nil_r. reflexivity.
    + simpl. rewrite (IH Hdl). destruct (tied y); reflexivity.
Qed.

Lemma sort_from_tied_on (l acc : list A) :
  Forall domain l -> Forall domain acc ->
  StronglySorted before acc ->
  filter tied (fold_left (fun acc x => JSArray.insert after x acc) l acc)
  = filter tied acc ++ filter tied l.
Proof.
  revert acc; induction l as [|x l IH]; intros acc Hl Hd Hacc; simpl.
  - rewrite app_nil_r. reflexivity.
  - inversion Hl as [|? ? Hx Hl']; subst.
    rewrite IH;
      [ | exact Hl'
        | eapply Permutation_Forall;
          [apply Permutation_sym, insert_Permutation | constructor; assumption]
        | apply insert_StronglySorted_on; assumption ].
    rewrite insert_tied_on by assumption. rewrite <- app_assoc.
    destruct (tied x); reflexivity.
Qed.

(** The elements that compare equal leave the sort in the order they
    entered it. *)
Lemma sort_tied_on (l : list A) :
  Forall domain l -> filter tied (JSArray.sort after l) = filter tied l.
Proof.
  intros Hl. unfold JSArray.sort.
  rewrite (@sort_from_tied_on l [] Hl); [reflexivity | constructor | constructor].
Qed.

End SortOn.


(* ================================================================== *)
(** * Maps and sets *)

Section MapFacts.

Variable V : Type.
Implicit Types (m : JSMap.t V) (k : jsstring) (v : V).

Lemma get_set_same k v m : JSMap.get k (JSMap.set k v m) = Some v.
Proof.
  induction m as [|[k' v'] m IH]; simpl.
  - rewrite JSString_eqb_refl. reflexivity.
  - destruct (JSString.eqb k' k) eqn:E; simpl; rewrite E; auto.
Qed.

Lemma get_set_other k k' v m :
  k <> k' -> JSMap.get k' (JSMap.set k v m) = JSMap.get k' m.
Proof.
  intros Hne. induction m as [|[k0 v0] m IH]; simpl.
  - apply JSString_eqb_neq in Hne. rewrite Hne. reflexivity.
  - destruct (JSString.eqb k0 k) eqn:E; simpl.
    + apply JSString_eqb_eq in E. subst k0.
      apply JSString_eqb_neq in Hne. rewrite Hne. reflexivity.
    + rewrite IH. reflexivity.
Qed.

Lemma get_Some_In k m :
  In k (map fst m) -> exists v, JSMap.get k m = Some v.
Proof.
  induction m as [|[k' v'] m IH]; simpl; intros H.
  - contradiction.
  - destruct (JSString.eqb k' k) eqn:E; [eauto|].
    apply JSString_eqb_neq in E. destruct H as [H | H]; [contradiction|].
    apply IH; exact H.
Qed.

(** Writing an existing key leaves the keys and their order alone. *)
Lemma set_keys_present k v v0 m :
  JSMap.get k m = Some v0 -> map fst (JSMap.set k v m) = map fst m.
Proof.
  induction m as [|[k' v'] m IH]; simpl; intros H.
  - discriminate.
  - destruct (JSString.eqb k' k) eqn:E; simpl; [reflexivity|].
    rewrite IH; auto.
Qed.

(** Writing a new key appends it. *)
Lemma set_fresh k v m :
  ~ In k (map fst m) -> JSMap.set k v m = m ++ [(k, v)].
Proof.
  induction m as [|[k' v'] m IH]; simpl; intros H.
  - reflexivity.
  - destruct (JSString.eqb k' k) eqn:E.
    + apply JSString_eqb_eq in E. tauto.
    + rewrite IH; tauto.
Qed.

(** Writing distinct new keys one after the other. *)
Lemma fold_set_fresh (f : jsstring -> V) (ks : list jsstring) m :
  NoDup ks ->
  (forall k, In k ks -> ~ In k (map fst m)) ->
  fold_left (fun acc k => JSMap.set k (f k) acc) ks m
  = m ++ map (fun k => (k, f k)) ks.
Proof.
  revert m; induction ks as [|k ks IH]; intros m Hnd Hfresh; simpl.
  - rewrite app_nil_r. reflexivity.
  - inversion Hnd as [|? ? Hk Hnd']; subst.
    rewrite set_fresh by (apply Hfresh; left; reflexivity).
    rewrite IH; [rewrite <- app_assoc; reflexivity | exact Hnd' |].
    intros k' Hin. rewrite map_app, in_app_iff. simpl.
    intros [H | [H | []]].
    + apply (Hfresh k'); [right; exact Hin | exact H].
    + subst k'. contradiction.
Qed.

Lemma get_tabulate (f : jsstring -> V) (ks : list jsstring) k :
  In k ks -> JSMap.get k (map (fun k => (k, f k)) ks) = Some (f k).
Proof.
  induction ks as [|k' ks IH]; simpl; intros H.
  - contradiction.
  - destruct (JSString.eqb k' k) eqn:E.
    + apply JSString_eqb_eq in E. subst. reflexivity.
    + apply JSString_eqb_neq in E. destruct H as [H | H]; [contradiction|].
      apply IH; exact H.
Qed.

End MapFacts.

Lemma sameValueZero_eq (a b : number) :
  Number.sameValueZero a b = true <-> a = b.
Proof.
  destruct a as [|x], b as [|y]; simpl;
    try (split; [discriminate | discriminate]); try tauto.
  rewrite Z.eqb_eq. split; [intros ->; reflexivity | intros H; inversion H; auto].
Qed.

Lemma JSSet_has_In (x : number) (s : JSSet.t) :
  JSSet.has x s = true <-> In x s.
Proof.
  unfold JSSet.has. rewrite existsb_exists. split.
  - intros [y [Hin Heq]]. apply sameValueZero_eq in Heq. subst; exact Hin.
  - intros Hin. exists x. split; [exact Hin | apply sameValueZero_eq; reflexivity].
Qed.

Lemma JSSet_add_In (x y : number) (s : JSSet.t) :
  In y (JSSet.add x s) <-> y = x \/ In y s.
Proof.
  unfold JSSet.add. destruct (JSSet.has x s) eqn:E.
  - apply JSSet_has_In in E. split; [auto|]. intros [-> | H]; assumption.
  - rewrite in_app_iff. simpl. split.
    + intros [H | [H | []]]; auto.
    + intros [-> | H]; auto.
Qed.

Lemma JSSet_add_NoDup (x : number) (s : JSSet.t) :
  NoDup s -> NoDup (JSSet.add x s).
Proof.
  intros Hnd. unfold JSSet.add. destruct (JSSet.has x s) eqn:E; [exact Hnd|].
  assert (Hx : ~ In x s).
  { intros H. apply JSSet_has_In in H. congruence. }
  clear E. induction Hnd as [|y s Hy Hnd IH]; simpl.
  - constructor; [intros [] | constructor].
  - constructor.
    + rewrite in_app_iff. simpl. intros [H | [H | []]]; [contradiction|].
      subst. apply Hx. left; reflexivity.
    + apply IH. intros H. apply Hx. right; exact H.
Qed.


(* ================================================================== *)
(** * Binary64: digits and shifts *)

Lemma digits2_pos_bounds (p : positive) :
  (2 ^ (Zpos (digits2_pos p) - 1) <= Zpos p < 2 ^ Zpos (digits2_pos p))%Z.
Proof.
  induction p as [p IH | p IH |]; cbn [digits2_pos].
  - rewrite Pos2Z.inj_succ, (Pos2Z.inj_xI p).
    replace (Z.succ (Zpos (digits2_pos p)) - 1)%Z
      with (Z.succ (Zpos (digits2_pos p) - 1))%Z by lia.
    rewrite !Z.pow_succ_r by lia.
    revert IH. generalize (2 ^ (Z.pos (digits2_pos p) - 1))%Z,
                          (2 ^ Z.pos (digits2_pos p))%Z. lia.
  - rewrite Pos2Z.inj_succ, (Pos2Z.inj_xO p).
    replace (Z.succ (Zpos (digits2_pos p)) - 1)%Z
      with (Z.succ (Zpos (digits2_pos p) - 1))%Z by lia.
    rewrite !Z.pow_succ_r by lia.
    revert IH. generalize (2 ^ (Z.pos (digits2_pos p) - 1))%Z,
                          (2 ^ Z.pos (digits2_pos p))%Z. lia.
  - simpl. lia.
Qed.

Lemma iter_pos_nat (A : Type) (f : A -> A) (n : positive) (x : A) :
  iter_pos f n x = Nat.iter (Pos.to_nat n) f x.
Proof.
  revert x. induction n as [n IH | n IH |]; intros x; cbn [iter_pos].
  - rewrite !IH, Pos2Nat.inj_xI.
    replace (S (2 * Pos.to_nat n)) with (Pos.to_nat n + S (Pos.to_nat n))%nat
      by lia.
    rewrite Nat.iter_add, Nat.iter_succ_r. reflexivity.
  - rewrite !IH, Pos2Nat.inj_xO.
    replace (2 * Pos.to_nat n)%nat with (Pos.to_nat n + Pos.to_nat n)%nat
      by lia.
    rewrite Nat.iter_add. reflexivity.
  - reflexivity.
Qed.

Lemma shr_1_m (mrs : shr_record) :
  (0 <= shr_m mrs)%Z -> shr_m (shr_1 mrs) = (shr_m mrs / 2)%Z.
Proof.
  destruct mrs as [m r s]. cbn [shr_m shr_1]. intros Hm.
  destruct m as [|p|p]; [reflexivity | | lia].
  destruct p as [p|p|]; cbn [shr_m].
  - rewrite (Pos2Z.inj_xI p). apply Z.div_unique with 1%Z; lia.
  - rewrite (Pos2Z.inj_xO p). apply Z.div_unique with 0%Z; lia.
  - reflexivity.
Qed.

Lemma shr_iter_m (k : nat) (mrs : shr_record) :
  (0 <= shr_m mrs)%Z ->
  shr_m (Nat.iter k shr_1 mrs) = (shr_m mrs / 2 ^ Z.of_nat k)%Z.
Proof.
  intros Hm. induction k as [|k IH].
  - simpl. rewrite Z.div_1_r. reflexivity.
  - rewrite Nat.iter_succ, shr_1_m.
    + rewrite IH, Nat2Z.inj_succ, Z.pow_succ_r by lia.
      rewrite Z.div_div by lia. f_equal. lia.
    + rewrite IH. apply Z.div_pos; lia.
Qed.

Lemma shr_record_of_loc_m (m : Z) (l : location) :
  shr_m (shr_record_of_loc m l) = m.
Proof. destruct l as [|[ | | ]]; reflexivity. Qed.

Lemma round_nearest_even_ge (m : Z) (l : location) :
  (m <= round_nearest_even m l)%Z.
Proof.
  destruct l as [|[ | | ]]; cbn [round_nearest_even]; try lia.
  destruct (Z.even m); lia.
Qed.

(* ================================================================== *)
(** * Binary64: rounding keeps the sign and never rounds to zero *)

Lemma shr_fexp_pos (m e : Z) (l : location) :
  (0 < m)%Z -> (emin64 <= e)%Z ->
  (0 < shr_m (fst (shr_fexp Binary64.prec Binary64.emax m e l)))%Z
  /\ (emin64 <= snd (shr_fexp Binary64.prec Binary64.emax m e l))%Z.
Proof.
  intros Hm He. unfold shr_fexp, shr.
  destruct m as [|q|q]; try lia. cbn [Zdigits2].
  pose proof (digits2_pos_bounds q) as [Hlow _].
  set (D := Zpos (digits2_pos q)) in *.
  assert (HD : (0 < D)%Z) by (unfold D; lia).
  unfold emin64, fexp, emin, Binary64.prec, Binary64.emax in *.
  destruct (Z.max (D + e - 53) (3 - 1024 - 53) - e)%Z as [|p|p] eqn:En;
    cbn [fst snd]; rewrite ?shr_record_of_loc_m; try (split; lia).
  rewrite iter_pos_nat, shr_iter_m
    by (rewrite shr_record_of_loc_m; lia).
  rewrite shr_record_of_loc_m, positive_nat_Z.
  split; [|lia].
  assert (Hp : Zpos p = (D - 53)%Z) by lia.
  apply Z.div_str_pos. split; [apply Z.pow_pos_nonneg; lia|].
  eapply Z.le_trans; [|exact Hlow].
  apply Z.pow_le_mono_r; lia.
Qed.

Lemma binary_round_aux_pos (s : bool) (m : positive) (e : Z) (l : location) :
  (emin64 <= e)%Z ->
  (exists m' e',
      binary_round_aux Binary64.prec Binary64.emax s (Zpos m) e l
      = S754_finite s m' e' /\ (emin64 <= e')%Z)
  \/ binary_round_aux Binary64.prec Binary64.emax s (Zpos m) e l
     = S754_infinity s.
Proof.
  intros He. unfold binary_round_aux.
  destruct (shr_fexp_pos l (m := Zpos m) (e := e)) as [Hm1 He1]; [lia | exact He |].
  destruct (shr_fexp Binary64.prec Binary64.emax (Zpos m) e l) as [mrs1 e1].
  cbn [fst snd] in Hm1, He1.
  pose proof (round_nearest_even_ge (shr_m mrs1) (loc_of_shr_record mrs1))
    as Hround.
  destruct (shr_fexp_pos loc_Exact
              (m := round_nearest_even (shr_m mrs1) (loc_of_shr_record mrs1))
              (e := e1)) as [Hm2 He2]; [lia | exact He1 |].
  destruct (shr_fexp Binary64.prec Binary64.emax
              (round_nearest_even (shr_m mrs1) (loc_of_shr_record mrs1))
              e1 loc_Exact) as [mrs2 e2].
  cbn [fst snd] in Hm2, He2.
  destruct (shr_m mrs2) as [|m2|m2]; try lia.
  destruct (e2 <=? Binary64.emax - Binary64.prec)%Z;
    [left; exists m2, e2; split; [reflexivity | exact He2] | right; reflexivity].
Qed.

Lemma shl_align_spec (m : positive) (e e' : Z) :
  (e' <= e)%Z ->
  Zpos (fst (shl_align m e e')) = (Zpos m * 2 ^ (e - e'))%Z
  /\ snd (shl_align m e e') = e'.
Proof.
  intros Hle. unfold shl_align.
  destruct (e' - e)%Z as [|d|d] eqn:Ed; cbn [fst snd].
  - replace (e - e')%Z with 0%Z by lia. split; lia.
  - lia.
  - replace (e - e')%Z with (Zpos d) by lia. split; [|reflexivity].
    clear Ed Hle. induction d as [|d IH] using Pos.peano_ind.
    + cbn [Pos.iter]. rewrite (Pos2Z.inj_xO m). change (2 ^ 1)%Z with 2%Z. lia.
    + rewrite Pos.iter_succ, (Pos2Z.inj_xO (Pos.iter xO m d)), IH.
      rewrite Pos2Z.inj_succ, Z.pow_succ_r by lia. ring.
Qed.

Lemma shl_align_keep (m : positive) (e e' : Z) :
  (e <= e')%Z -> shl_align m e e' = (m, e).
Proof.
  intros Hle. unfold shl_align.
  destruct (e' - e)%Z as [|d|d] eqn:Ed; try reflexivity. lia.
Qed.

Lemma binary_round_pos (s : bool) (m : positive) (e : Z) :
  (emin64 <= e)%Z ->
  (exists m' e',
      binary_round Binary64.prec Binary64.emax s m e = S754_finite s m' e'
      /\ (emin64 <= e')%Z)
  \/ binary_round Binary64.prec Binary64.emax s m e = S754_infinity s.
Proof.
  intros He. unfold binary_round.
  set (f := fexp Binary64.prec Binary64.emax (Zpos (digits2_pos m) + e)).
  assert (Hf : (emin64 <= f)%Z).
  { unfold f, fexp, emin64, emin, Binary64.prec, Binary64.emax. lia. }
  destruct (Z.le_gt_cases e f) as [Hle | Hgt].
  - rewrite shl_align_keep by exact Hle. apply binary_round_aux_pos. exact He.
  - destruct (@shl_align_spec m e f) as [_ Hsnd]; [lia|].
    destruct (shl_align m e f) as [mz ez]. cbn [snd] in Hsnd. subst ez.
    apply binary_round_aux_pos. exact Hf.
Qed.

(* ================================================================== *)
(** * Binary64: the sign of a sum or difference *)

Lemma valid_aboveEmin (x : Binary64.t) : Binary64.valid x -> aboveEmin x.
Proof.
  destruct x as [s|s| |s m e]; try exact (fun _ => I).
  unfold Binary64.valid, valid_binary, bounded, canonical_mantissa. cbn [aboveEmin].
  intros H. apply andb_true_iff in H as [H _]. apply Z.eqb_eq in H.
  unfold fexp, emin64, emin, Binary64.prec, Binary64.emax in *. lia.
Qed.

Lemma binary_normalize_shape (d e : Z) :
  (emin64 <= e)%Z ->
  match binary_normalize Binary64.prec Binary64.emax d e false with
  | S754_zero s => s = false /\ d = 0%Z
  | S754_infinity s => s = (d <? 0)%Z /\ d <> 0%Z
  | S754_finite s _ e' => s = (d <? 0)%Z /\ d <> 0%Z /\ (emin64 <= e')%Z
  | S754_nan => False
  end.
Proof.
  intros He. destruct d as [|m|m]; cbn [binary_normalize].
  - split; reflexivity.
  - destruct (binary_round_pos false m He) as [[m' [e' [-> He']]] | ->];
      repeat split; try lia; exact He'.
  - destruct (binary_round_pos true m He) as [[m' [e' [-> He']]] | ->];
      repeat split; try lia; exact He'.
Qed.

Lemma two_power_pos (e : Z) : 0 < 2 ^ e.
Proof. apply Qpower_0_lt. reflexivity. Qed.

Lemma toQ_aligned (s : bool) (m : positive) (e ez : Z) :
  (ez <= e)%Z ->
  Binary64.toQ (S754_finite s m e)
  == inject_Z (cond_Zopp s (Zpos (fst (shl_align m e ez)))) * 2 ^ ez.
Proof.
  intros Hle. destruct (shl_align_spec m Hle) as [-> _]. cbn [Binary64.toQ].
  assert (Hs : cond_Zopp s (Zpos m * 2 ^ (e - ez))
               = (cond_Zopp s (Zpos m) * 2 ^ (e - ez))%Z)
    by (destruct s; cbn [cond_Zopp]; ring).
  rewrite Hs, inject_Z_mult, Zpower_Qpower by lia.
  change (inject_Z 2) with (2 : Q).
  replace e with ((e - ez) + ez)%Z at 1 by lia.
  rewrite Qpower_plus by discriminate. ring.
Qed.

(** The sign of [z * 2^e] is the sign of [z]. *)
Lemma scaled_sign (z e : Z) :
  (0 < inject_Z z * 2 ^ e <-> (0 < z)%Z)
  /\ (inject_Z z * 2 ^ e < 0 <-> (z < 0)%Z)
  /\ (inject_Z z * 2 ^ e == 0 <-> z = 0%Z).
Proof.
  pose proof (two_power_pos e) as Hp.
  destruct (Z.lt_trichotomy z 0) as [Hz | [-> | Hz]].
  - assert (H : inject_Z z * 2 ^ e < 0).
    { setoid_replace 0 with (0 * 2 ^ e) by ring.
      apply Qmult_lt_compat_r; [exact Hp|].
      change 0 with (inject_Z 0). rewrite <- Zlt_Qlt. exact Hz. }
    repeat split; intros H'; try lia; try exact H.
    + exfalso. apply (Qlt_irrefl 0). eapply Qlt_trans; eassumption.
    + rewrite H' in H. exfalso. exact (Qlt_irrefl 0 H).
  - assert (H : inject_Z 0 * 2 ^ e == 0) by ring.
    repeat split; intros H'; try lia; try exact H.
    + rewrite H in H'. exfalso. exact (Qlt_irrefl 0 H').
    + rewrite H in H'. exfalso. exact (Qlt_irrefl 0 H').
  - assert (H : 0 < inject_Z z * 2 ^ e).
    { setoid_replace 0 with (0 * 2 ^ e) by ring.
      apply Qmult_lt_compat_r; [exact Hp|].
      change 0 with (inject_Z 0). rewrite <- Zlt_Qlt. exact Hz. }
    repeat split; intros H'; try lia; try exact H.
    + exfalso. apply (Qlt_irrefl 0). eapply Qlt_trans; eassumption.
    + rewrite H' in H. exfalso. exact (Qlt_irrefl 0 H).
Qed.

Lemma isPositive_normalize (d e : Z) :
  (emin64 <= e)%Z ->
  isPositive (binary_normalize Binary64.prec Binary64.emax d e false)
  = (0 <? d)%Z.
Proof.
  intros He. pose proof (binary_normalize_shape d He) as H.
  destruct (binary_normalize _ _ d e false) as [s|s| |s m' e'];
    [ destruct H as [-> ->]; reflexivity
    | destruct H as [-> Hd] | contradiction | destruct H as [-> [Hd _]] ];
    unfold isPositive, Binary64.ltb, SFltb, Binary64.zero; cbn [SFcompare];
    destruct (Z.ltb_spec d 0); destruct (Z.ltb_spec 0 d);
    try reflexivity; lia.
Qed.

Lemma isPositive_finite (s : bool) (m : positive) (e : Z) :
  isPositive (S754_finite s m e) = negb s.
Proof. destruct s; reflexivity. Qed.

Lemma isPositive_infinity (s : bool) : isPositive (S754_infinity s) = negb s.
Proof. destruct s; reflexivity. Qed.

Lemma toQ_finite_sign (s : bool) (m : positive) (e : Z) :
  (0 < Binary64.toQ (S754_finite s m e) <-> s = false)
  /\ (Binary64.toQ (S754_finite s m e) < 0 <-> s = true).
Proof.
  cbn [Binary64.toQ].
  destruct (scaled_sign (cond_Zopp s (Zpos m)) e) as [Hpos [Hneg _]].
  rewrite Hpos, Hneg. destruct s; cbn [cond_Zopp]; split; split;
    intros H; try reflexivity; try discriminate; lia.
Qed.

(** The compare function [b - a] is positive exactly when [a < b]. *)
Lemma sub_positive (x y : Binary64.t) :
  aboveEmin x -> aboveEmin y ->
  Binary64.isNaN x = false -> Binary64.isNaN y = false ->
  (isPositive (Binary64.sub y x) = true <-> Binary64.lt x y).
Proof.
  intros Hx Hy Hnx Hny.
  destruct x as [sx|sx| |sx mx ex], y as [sy|sy| |sy my ey];
    try discriminate; clear Hnx Hny.
  - (* zero, zero *)
    cbn [Binary64.lt Binary64.toQ].
    destruct sx, sy; cbn; split; intros H; try discriminate;
      exfalso; exact (Qlt_irrefl 0 H).
  - (* x zero, y infinite *)
    cbn [Binary64.lt Binary64.sub SFsub]. unfold Binary64.sub. cbn [SFsub].
    rewrite isPositive_infinity. destruct sy; cbn; split; congruence.
  - (* x zero, y finite *)
    unfold Binary64.sub. cbn [SFsub Binary64.lt].
    rewrite isPositive_finite.
    change (Binary64.toQ (S754_zero sx)) with 0.
    rewrite (proj1 (toQ_finite_sign sy my ey)). destruct sy; cbn; split; congruence.
  - (* x infinite, y zero *)
    unfold Binary64.sub. cbn [SFsub Binary64.lt].
    rewrite isPositive_infinity. destruct sx; cbn; split; congruence.
  - (* both infinite *)
    unfold Binary64.sub. cbn [SFsub Binary64.lt].
    destruct sx, sy; cbn; split; intros H; try discriminate;
      try (destruct H; discriminate); try (split; reflexivity).
  - (* x infinite, y finite *)
    unfold Binary64.sub. cbn [SFsub Binary64.lt].
    rewrite isPositive_infinity. destruct sx; cbn; split; congruence.
  - (* x finite, y zero *)
    unfold Binary64.sub. cbn [SFsub Binary64.lt].
    rewrite isPositive_finite.
    change (Binary64.toQ (S754_zero sy)) with 0.
    rewrite (proj2 (toQ_finite_sign sx mx ex)). destruct sx; cbn; split; congruence.
  - (* x finite, y infinite *)
    unfold Binary64.sub. cbn [SFsub Binary64.lt].
    rewrite isPositive_infinity. destruct sy; cbn; split; congruence.
  - (* both finite *)
    cbn [aboveEmin] in Hx, Hy.
    unfold Binary64.sub. cbn [SFsub Binary64.lt]. cbv zeta.
    rewrite isPositive_normalize by lia.
    rewrite (@toQ_aligned sx mx ex (Z.min ey ex)) by lia.
    rewrite (@toQ_aligned sy my ey (Z.min ey ex)) by lia.
    set (X := cond_Zopp sx (Zpos (fst (shl_align mx ex (Z.min ey ex))))).
    set (Y := cond_Zopp sy (Zpos (fst (shl_align my ey (Z.min ey ex))))).
    rewrite Z.ltb_lt.
    destruct (scaled_sign (Y - X) (Z.min ey ex)) as [Hpos _].
    rewrite <- Hpos.
    unfold Zminus. rewrite inject_Z_plus, inject_Z_opp.
    rewrite (Qlt_minus_iff (inject_Z X * 2 ^ Z.min ey ex)).
    assert (E : (inject_Z Y + - inject_Z X) * 2 ^ Z.min ey ex
                == inject_Z Y * 2 ^ Z.min ey ex
                   + - (inject_Z X * 2 ^ Z.min ey ex)) by ring.
    rewrite E. reflexivity.
Qed.

(* ================================================================== *)
(** * Binary64: the order of the numbers *)

Lemma le_iff_not_lt (x y : Binary64.t) :
  Binary64.isNaN x = false -> Binary64.isNaN y = false ->
  (Binary64.le x y <-> ~ Binary64.lt y x).
Proof.
  intros Hx Hy.
  destruct x as [sx|sx| |sx mx ex], y as [sy|sy| |sy my ey];
    try discriminate; cbn [Binary64.le Binary64.lt];
    try (split; [apply Qle_not_lt | apply Qnot_lt_le]);
    try (destruct sx; split; intros H; try discriminate; try reflexivity;
         try (intros H'; discriminate); exfalso; apply H; reflexivity);
    try (destruct sy; split; intros H; try discriminate; try reflexivity;
         try (intros H'; discriminate); exfalso; apply H; reflexivity).
  destruct sx, sy; split; intros H; try (intros [H1 H2]; discriminate);
    try (left; reflexivity); try (right; reflexivity);
    try (destruct H; discriminate);
    exfalso; apply H; split; reflexivity.
Qed.

Lemma lt_asym (x y : Binary64.t) : Binary64.lt x y -> ~ Binary64.lt y x.
Proof.
  destruct x as [sx|sx| |sx mx ex], y as [sy|sy| |sy my ey];
    cbn [Binary64.lt]; try contradiction;
    try (intros H H'; exfalso; exact (Qlt_irrefl _ (Qlt_trans _ _ _ H H')));
    try (destruct sx; intros H H'; discriminate);
    try (destruct sy; intros H H'; discriminate).
  intros [-> ->] [H _]. discriminate.
Qed.

Lemma le_trans (x y z : Binary64.t) :
  Binary64.le x y -> Binary64.le y z -> Binary64.le x z.
Proof.
  destruct x as [sx|sx| |sx mx ex], y as [sy|sy| |sy my ey],
           z as [sz|sz| |sz mz ez];
    cbn [Binary64.le]; try contradiction;
    try (intros H H'; exact (Qle_trans _ _ _ H H'));
    try (intros H H'; subst; try discriminate; try reflexivity;
         try (left; reflexivity); try (right; reflexivity);
         try assumption; fail).
  all: intros H H'; repeat match goal with
                          | H : _ \/ _ |- _ => destruct H
                          end; subst; try discriminate;
         try reflexivity; try (left; reflexivity); try (right; reflexivity).
Qed.

Lemma le_refl (x : Binary64.t) : Binary64.isNaN x = false -> Binary64.le x x.
Proof.
  destruct x as [s|s| |s m e]; try discriminate; intros _;
    cbn [Binary64.le]; try apply Qle_refl.
  destruct s; [left | right]; reflexivity.
Qed.

Lemma le_total (x y : Binary64.t) :
  Binary64.isNaN x = false -> Binary64.isNaN y = false ->
  Binary64.le x y \/ Binary64.le y x.
Proof.
  intros Hx Hy.
  destruct x as [sx|sx| |sx mx ex], y as [sy|sy| |sy my ey];
    try discriminate; cbn [Binary64.le];
    first [ match goal with
            | |- ?a <= ?b \/ _ =>
                destruct (Qlt_le_dec a b);
                [left; apply Qlt_le_weak; assumption | right; assumption]
            end
          | destruct sx, sy; auto
          | destruct sx; auto
          | destruct sy; auto ].
Qed.

(* ================================================================== *)
(** * Binary64: sums *)

Lemma add_aboveEmin (x y : Binary64.t) :
  aboveEmin x -> aboveEmin y -> aboveEmin (Binary64.add x y).
Proof.
  intros Hx Hy. unfold Binary64.add.
  destruct x as [sx|sx| |sx mx ex], y as [sy|sy| |sy my ey];
    cbn [SFadd]; try exact I; try assumption;
    try (destruct sx, sy; exact I).
  cbn [aboveEmin] in Hx, Hy.
  pose proof (@binary_normalize_shape
                (cond_Zopp sx (Zpos (fst (shl_align mx ex (Z.min ex ey))))
                 + cond_Zopp sy (Zpos (fst (shl_align my ey (Z.min ex ey)))))
                (Z.min ex ey) ltac:(lia)) as H.
  destruct (binary_normalize _ _ _ _ false); try exact I.
  cbn [aboveEmin]. tauto.
Qed.

(** Adding a finite number never makes a NaN. *)
Lemma add_finite_notNaN (x y : Binary64.t) :
  aboveEmin x -> aboveEmin y ->
  Binary64.isNaN x = false -> Binary64.isFinite y = true ->
  Binary64.isNaN (Binary64.add x y) = false.
Proof.
  intros Hx Hy Hnx Hfy. unfold Binary64.add.
  destruct x as [sx|sx| |sx mx ex], y as [sy|sy| |sy my ey];
    try discriminate; cbn [SFadd]; try reflexivity;
    try (destruct sx, sy; reflexivity).
  cbn [aboveEmin] in Hx, Hy.
  pose proof (@binary_normalize_shape
                (cond_Zopp sx (Zpos (fst (shl_align mx ex (Z.min ex ey))))
                 + cond_Zopp sy (Zpos (fst (shl_align my ey (Z.min ex ey)))))
                (Z.min ex ey) ltac:(lia)) as H.
  destruct (binary_normalize _ _ _ _ false); try reflexivity. contradiction.
Qed.

(** The sum of two numbers that are not negative is not negative, and is
    not NaN. *)
Lemma add_nonnegative (x y : Binary64.t) :
  aboveEmin x -> aboveEmin y ->
  Binary64.le Binary64.zero x -> Binary64.le Binary64.zero y ->
  Binary64.le Binary64.zero (Binary64.add x y).
Proof.
  intros Hx Hy Hpx Hpy. unfold Binary64.add, Binary64.zero in *.
  destruct x as [sx|sx| |sx mx ex], y as [sy|sy| |sy my ey];
    cbn [Binary64.le] in Hpx, Hpy; try contradiction;
    cbn [SFadd]; cbn [Binary64.le]; try assumption;
    try (destruct sx, sy; cbn [Binary64.le Binary64.toQ];
         first [assumption | apply Qle_refl | discriminate]).
  cbn [aboveEmin] in Hx, Hy.
  assert (Hsx : sx = false).
  { destruct sx; [|reflexivity]. exfalso.
    apply (Qle_not_lt _ _ Hpx). apply toQ_finite_sign. reflexivity. }
  assert (Hsy : sy = false).
  { destruct sy; [|reflexivity]. exfalso.
    apply (Qle_not_lt _ _ Hpy). apply toQ_finite_sign. reflexivity. }
  subst sx sy. cbn [cond_Zopp].
  pose proof (@binary_normalize_shape
                (Zpos (fst (shl_align mx ex (Z.min ex ey)))
                 + Zpos (fst (shl_align my ey (Z.min ex ey))))
                (Z.min ex ey) ltac:(lia)) as H.
  destruct (binary_normalize _ _ _ _ false) as [s|s| |s m e];
    try contradiction.
  - apply Qle_refl.
  - destruct H as [-> _]. reflexivity.
  - destruct H as [-> _]. cbn [Binary64.le].
    change (Binary64.toQ (S754_zero false)) with 0.
    apply Qlt_le_weak. apply toQ_finite_sign.
    destruct (Z.ltb_spec (Zpos (fst (shl_align mx ex (Z.min ex ey)))
                 + Zpos (fst (shl_align my ey (Z.min ex ey)))) 0);
      [lia | reflexivity].
Qed.

(* ================================================================== *)
(** * Binary64: numbers that need no rounding *)

Lemma digits_unique (p : positive) (a : Z) :
  (2 ^ (a - 1) <= Zpos p < 2 ^ a)%Z -> a = Zpos (digits2_pos p).
Proof.
  intros [Hlow Hup]. pose proof (digits2_pos_bounds p) as [Dlow Dup].
  set (D := Zpos (digits2_pos p)) in *.
  assert (HD : (0 < D)%Z) by (unfold D; lia).
  assert (Ha : (0 < a)%Z).
  { destruct (Z.lt_ge_cases 0 a) as [H | H]; [exact H|].
    destruct (Z.eq_dec a 0) as [-> | Hne]; [simpl in Hup; lia|].
    rewrite (Z.pow_neg_r 2 a) in Hup by lia. lia. }
  destruct (Z.lt_trichotomy a D) as [Hlt | [Heq | Hgt]]; [|exact Heq|].
  - assert (2 ^ a <= 2 ^ (D - 1))%Z by (apply Z.pow_le_mono_r; lia). lia.
  - assert (2 ^ D <= 2 ^ (a - 1))%Z by (apply Z.pow_le_mono_r; lia). lia.
Qed.

Lemma digits_scaled (p q : positive) (k : Z) :
  (0 <= k)%Z -> Zpos q = (Zpos p * 2 ^ k)%Z ->
  Zpos (digits2_pos q) = (Zpos (digits2_pos p) + k)%Z.
Proof.
  intros Hk Hq. symmetry. apply digits_unique.
  pose proof (digits2_pos_bounds p) as [Dlow Dup].
  set (D := Zpos (digits2_pos p)) in *.
  assert (HD : (0 < D)%Z) by (unfold D; lia).
  assert (Hpow : (0 < 2 ^ k)%Z) by (apply Z.pow_pos_nonneg; lia).
  replace (D + k - 1)%Z with ((D - 1) + k)%Z by lia.
  rewrite !Z.pow_add_r, Hq by lia. split.
  - apply Z.mul_le_mono_nonneg_r; lia.
  - apply Z.mul_lt_mono_pos_r; lia.
Qed.

Lemma shr_exact (k : nat) (z : Z) :
  (0 < z)%Z ->
  Nat.iter k shr_1 {| shr_m := z * 2 ^ Z.of_nat k; shr_r := false;
                      shr_s := false |}
  = {| shr_m := z; shr_r := false; shr_s := false |}.
Proof.
  intros Hz. induction k as [|k IH].
  - simpl. rewrite Z.mul_1_r. reflexivity.
  - rewrite Nat.iter_succ_r, <- IH. f_equal.
    rewrite Nat2Z.inj_succ, Z.pow_succ_r by lia.
    assert (Hpos : (0 < z * 2 ^ Z.of_nat k)%Z)
      by (apply Z.mul_pos_pos; [exact Hz | apply Z.pow_pos_nonneg; lia]).
    destruct (z * 2 ^ Z.of_nat k)%Z as [|q|q] eqn:Eq; try lia.
    replace (z * (2 * 2 ^ Z.of_nat k))%Z with (Zpos q~0)
      by (rewrite (Pos2Z.inj_xO q), <- Eq; ring).
    reflexivity.
Qed.

(** A mantissa [M] at exponent [E] that stands for [N * 2^g], with [N]
    below 2^53, is rounded to that very number. *)
Lemma binary_round_aux_exact (s : bool) (M N : positive) (E g : Z) :
  (emin64 <= E)%Z -> (E <= g)%Z -> (g <= 971)%Z ->
  (Zpos N < 2 ^ 53)%Z ->
  Zpos M = (Zpos N * 2 ^ (g - E))%Z ->
  (E <= fexp Binary64.prec Binary64.emax (Zpos (digits2_pos M) + E))%Z ->
  exists m' e',
    binary_round_aux Binary64.prec Binary64.emax s (Zpos M) E loc_Exact
    = S754_finite s m' e'
    /\ (emin64 <= e' <= g)%Z
    /\ Zpos m' = (Zpos N * 2 ^ (g - e'))%Z.
Proof.
  intros HE HEg Hg HN HM Hf.
  pose proof (@digits_scaled N M (g - E) ltac:(lia) HM) as HD.
  pose proof (digits2_pos_bounds N) as [Nlow _].
  set (L := Zpos (digits2_pos N)) in *.
  assert (HL0 : (0 < L)%Z) by (unfold L; lia).
  assert (HL : (L <= 53)%Z).
  { destruct (Z.le_gt_cases L 53) as [H | H]; [exact H|].
    assert (2 ^ 53 <= 2 ^ (L - 1))%Z by (apply Z.pow_le_mono_r; lia). lia. }
  set (f := fexp Binary64.prec Binary64.emax (Zpos (digits2_pos M) + E)) in *.
  assert (Hfg : (emin64 <= f <= g)%Z).
  { unfold f, fexp, emin64, emin, Binary64.prec, Binary64.emax in *.
    rewrite HD. lia. }
  assert (HfL : f = fexp Binary64.prec Binary64.emax (L + g)).
  { unfold f. rewrite HD. f_equal. lia. }
  set (M1 := (Zpos N * 2 ^ (g - f))%Z).
  assert (HM1 : (0 < M1)%Z)
    by (apply Z.mul_pos_pos; [lia | apply Z.pow_pos_nonneg; lia]).
  assert (Hstep1 : shr_fexp Binary64.prec Binary64.emax (Zpos M) E loc_Exact
                   = ({| shr_m := M1; shr_r := false; shr_s := false |}, f)).
  { unfold shr_fexp. cbn [Zdigits2 shr_record_of_loc]. fold f. unfold shr.
    destruct (f - E)%Z as [|p|p] eqn:Ep; try lia.
    - assert (f = E) by lia. unfold M1. rewrite HM. subst f. congruence.
    - rewrite iter_pos_nat. f_equal; [|lia].
      replace (Zpos M) with (M1 * 2 ^ Z.of_nat (Pos.to_nat p))%Z.
      + apply shr_exact. exact HM1.
      + rewrite positive_nat_Z, <- Ep, HM. unfold M1.
        rewrite <- Z.mul_assoc, <- Z.pow_add_r by lia. do 2 f_equal. lia. }
  destruct M1 as [|m1|m1] eqn:EM1; try lia.
  assert (Hd1 : Zpos (digits2_pos m1) = (L + (g - f))%Z)
    by (apply digits_scaled; [lia | symmetry; exact EM1]).
  assert (Hstep2 : shr_fexp Binary64.prec Binary64.emax (Zpos m1) f loc_Exact
                   = ({| shr_m := Zpos m1; shr_r := false; shr_s := false |},
                      f)).
  { unfold shr_fexp. cbn [Zdigits2 shr_record_of_loc]. rewrite Hd1.
    replace (L + (g - f) + f)%Z with (L + g)%Z by lia.
    rewrite <- HfL, Z.sub_diag. reflexivity. }
  unfold binary_round_aux. rewrite Hstep1.
  cbn [shr_m loc_of_shr_record round_nearest_even]. rewrite Hstep2.
  cbn [shr_m].
  assert (Hle : (f <=? Binary64.emax - Binary64.prec)%Z = true)
    by (apply Z.leb_le; unfold Binary64.emax, Binary64.prec; lia).
  rewrite Hle. exists m1, f. split; [reflexivity | split; [exact Hfg|]].
  symmetry. exact EM1.
Qed.

Lemma scaled_eq (a b e g : Z) :
  (e <= g)%Z -> inject_Z a * 2 ^ e == inject_Z b * 2 ^ g ->
  a = (b * 2 ^ (g - e))%Z.
Proof.
  intros Hle H. apply inject_Z_injective.
  rewrite inject_Z_mult, Zpower_Qpower by lia.
  change (inject_Z 2) with (2 : Q).
  apply (Qmult_inj_r _ _ (2 ^ e)).
  - intros H0. pose proof (two_power_pos e) as Hp. rewrite H0 in Hp.
    exact (Qlt_irrefl 0 Hp).
  - rewrite H. replace g with ((g - e) + e)%Z at 1 by lia.
    rewrite Qpower_plus by discriminate. ring.
Qed.

Lemma digits_value (m N : positive) (e g : Z) :
  inject_Z (Zpos m) * 2 ^ e == inject_Z (Zpos N) * 2 ^ g ->
  (Zpos (digits2_pos m) + e = Zpos (digits2_pos N) + g)%Z.
Proof.
  intros H. destruct (Z.le_gt_cases e g) as [Hle | Hgt].
  - pose proof (scaled_eq Hle H) as Hm.
    rewrite (@digits_scaled N m (g - e)); [lia | lia | exact Hm].
  - symmetry in H. pose proof (@scaled_eq _ _ g e ltac:(lia) H) as HN.
    rewrite (@digits_scaled m N (e - g)); [lia | lia | exact HN].
Qed.

Lemma binary_round_exact (s : bool) (m N : positive) (e g : Z) :
  (emin64 <= e)%Z -> (emin64 <= g <= 971)%Z -> (Zpos N < 2 ^ 53)%Z ->
  inject_Z (Zpos m) * 2 ^ e == inject_Z (Zpos N) * 2 ^ g ->
  exists m' e',
    binary_round Binary64.prec Binary64.emax s m e = S754_finite s m' e'
    /\ (emin64 <= e')%Z
    /\ Binary64.toQ (S754_finite s m' e')
       == inject_Z (cond_Zopp s (Zpos N)) * 2 ^ g.
Proof.
  intros He Hg HN Hval.
  pose proof (@digits_value _ _ _ _ Hval) as Hdig.
  pose proof (digits2_pos_bounds N) as [Nlow _].
  set (L := Zpos (digits2_pos N)) in *.
  assert (HL : (L <= 53)%Z).
  { destruct (Z.le_gt_cases L 53) as [H | H]; [exact H|].
    assert (2 ^ 53 <= 2 ^ (L - 1))%Z
      by (apply Z.pow_le_mono_r; unfold L in *; lia). lia. }
  unfold binary_round.
  set (f0 := fexp Binary64.prec Binary64.emax (Zpos (digits2_pos m) + e)).
  assert (Hf0 : (emin64 <= f0 <= g)%Z).
  { unfold f0, fexp, emin64, emin, Binary64.prec, Binary64.emax in *.
    rewrite Hdig. lia. }
  assert (Hfinish : forall M E,
             (emin64 <= E)%Z -> (E <= g)%Z ->
             Zpos M = (Zpos N * 2 ^ (g - E))%Z ->
             (E <= fexp Binary64.prec Binary64.emax (Zpos (digits2_pos M) + E))%Z ->
             exists m' e',
               binary_round_aux Binary64.prec Binary64.emax s (Zpos M) E loc_Exact
               = S754_finite s m' e'
               /\ (emin64 <= e')%Z
               /\ Binary64.toQ (S754_finite s m' e')
                  == inject_Z (cond_Zopp s (Zpos N)) * 2 ^ g).
  { intros M E HE HEg HM HfE.
    destruct (@binary_round_aux_exact s M N E g HE HEg ltac:(lia) HN HM HfE)
      as [m' [e' [Hr [He' Hm']]]].
    exists m', e'. split; [exact Hr | split; [lia|]].
    cbn [Binary64.toQ].
    assert (Hs : cond_Zopp s (Zpos m')
                 = (cond_Zopp s (Zpos N) * 2 ^ (g - e'))%Z)
      by (rewrite Hm'; destruct s; cbn [cond_Zopp]; ring).
    rewrite Hs, inject_Z_mult, Zpower_Qpower by lia.
    change (inject_Z 2) with (2 : Q).
    replace g with ((g - e') + e')%Z at 2 by lia.
    rewrite Qpower_plus by discriminate. ring. }
  destruct (Z.le_gt_cases e f0) as [Hle | Hgt].
  - rewrite shl_align_keep by exact Hle.
    apply Hfinish; [exact He | lia | | exact Hle].
    apply scaled_eq; [lia | exact Hval].
  - destruct (@shl_align_spec m e f0 ltac:(lia)) as [Hfst Hsnd].
    destruct (shl_align m e f0) as [mz ez]. cbn [fst snd] in Hfst, Hsnd.
    subst ez.
    assert (Hmz : Zpos mz = (Zpos N * 2 ^ (g - f0))%Z).
    { apply scaled_eq; [lia|]. rewrite <- Hval, Hfst.
      rewrite inject_Z_mult, Zpower_Qpower by lia.
      change (inject_Z 2) with (2 : Q).
      replace e with ((e - f0) + f0)%Z at 2 by lia.
      rewrite Qpower_plus by discriminate. ring. }
    apply Hfinish; [lia | lia | exact Hmz |].
    rewrite (@digits_scaled m mz (e - f0)); [|lia | exact Hfst].
    replace (Zpos (digits2_pos m) + (e - f0) + f0)%Z
      with (Zpos (digits2_pos m) + e)%Z by lia.
    fold f0. lia.
Qed.

Lemma binary_normalize_exact (d e c g : Z) :
  (emin64 <= e)%Z -> (emin64 <= g <= 971)%Z -> (Z.abs c < 2 ^ 53)%Z ->
  inject_Z d * 2 ^ e == inject_Z c * 2 ^ g ->
  multiple g c (binary_normalize Binary64.prec Binary64.emax d e false).
Proof.
  intros He Hg Hc Hval.
  assert (Hsign : ((0 < d)%Z <-> (0 < c)%Z) /\ ((d < 0)%Z <-> (c < 0)%Z)).
  { destruct (scaled_sign d e) as [Hd1 [Hd2 _]].
    destruct (scaled_sign c g) as [Hc1 [Hc2 _]].
    rewrite <- Hd1, <- Hd2, <- Hc1, <- Hc2, Hval. tauto. }
  destruct d as [|m|m]; cbn [binary_normalize].
  - assert (c = 0%Z) by lia. subst c.
    split; [reflexivity | split; [exact I|]]. cbn [Binary64.toQ]. ring.
  - destruct c as [|N|N]; try lia.
    destruct (@binary_round_exact false m N e g He Hg ltac:(lia) Hval)
      as [m' [e' [-> [He' Hq]]]].
    split; [reflexivity | split; [exact He' | exact Hq]].
  - destruct c as [|N|N]; try lia.
    assert (Hval' : inject_Z (Zpos m) * 2 ^ e == inject_Z (Zpos N) * 2 ^ g).
    { change (Zpos m) with (- Zneg m)%Z. change (Zpos N) with (- Zneg N)%Z.
      rewrite !inject_Z_opp.
      setoid_replace (- inject_Z (Z.neg m) * 2 ^ e)
        with (- (inject_Z (Z.neg m) * 2 ^ e)) by ring.
      rewrite Hval. ring. }
    destruct (@binary_round_exact true m N e g He Hg ltac:(lia) Hval')
      as [m' [e' [-> [He' Hq]]]].
    split; [reflexivity | split; [exact He' | exact Hq]].
Qed.

(** Adding two multiples of one unit is exact while the sum stays below
    2^53 units. *)
Lemma add_exact (g a b : Z) (x y : Binary64.t) :
  (emin64 <= g <= 971)%Z -> (Z.abs (a + b) < 2 ^ 53)%Z ->
  multiple g a x -> multiple g b y ->
  multiple g (a + b) (Binary64.add x y).
Proof.
  intros Hg Hab [Hfx [Hwx Hqx]] [Hfy [Hwy Hqy]].
  assert (Hsum : Binary64.toQ x + Binary64.toQ y
                 == inject_Z (a + b) * 2 ^ g)
    by (rewrite Hqx, Hqy, inject_Z_plus; ring).
  unfold Binary64.add.
  destruct x as [sx|sx| |sx mx ex], y as [sy|sy| |sy my ey];
    try discriminate; cbn [SFadd].
  - split; [destruct sx, sy; reflexivity
           | split; [destruct sx, sy; exact I|]].
    rewrite <- Hsum. destruct sx, sy; cbn [Binary64.toQ]; ring.
  - split; [reflexivity | split; [exact Hwy|]].
    rewrite <- Hsum. cbn [Binary64.toQ]. ring.
  - split; [reflexivity | split; [exact Hwx|]].
    rewrite <- Hsum. cbn [Binary64.toQ]. ring.
  - cbn [aboveEmin] in Hwx, Hwy.
    apply binary_normalize_exact; [lia | exact Hg | exact Hab |].
    rewrite <- Hsum.
    rewrite (@toQ_aligned sx mx ex (Z.min ex ey)) by lia.
    rewrite (@toQ_aligned sy my ey (Z.min ex ey)) by lia.
    rewrite inject_Z_plus. ring.
Qed.


(* ================================================================== *)
(** * First occurrences *)

Lemma JSString_eqb_sym (a b : jsstring) : JSString.eqb a b = JSString.eqb b a.
Proof.
  destruct (JSString.eqb b a) eqn:E.
  - apply JSString_eqb_eq in E. subst. apply JSString_eqb_refl.
  - apply JSString_eqb_neq in E. apply JSString_eqb_neq. congruence.
Qed.

Lemma existsb_eqb_In (k : jsstring) (l : list jsstring) :
  existsb (JSString.eqb k) l = true <-> In k l.
Proof.
  rewrite existsb_exists. split.
  - intros [x [Hin Heq]]. apply JSString_eqb_eq in Heq. subst; exact Hin.
  - intros Hin. exists k. split; [exact Hin | apply JSString_eqb_refl].
Qed.

Lemma see_In (acc : list jsstring) (k x : jsstring) :
  In x (see acc k) <-> In x acc \/ x = k.
Proof.
  unfold see. destruct (existsb (JSString.eqb k) acc) eqn:E.
  - apply existsb_eqb_In in E. split; [auto | intros [H | ->]; assumption].
  - rewrite in_app_iff. simpl. split; [intros [H | [H | []]]; auto|].
    intros [H | ->]; auto.
Qed.

Lemma see_NoDup (acc : list jsstring) (k : jsstring) :
  NoDup acc -> NoDup (see acc k).
Proof.
  intros Hnd. unfold see. destruct (existsb (JSString.eqb k) acc) eqn:E;
    [exact Hnd|].
  assert (Hk : ~ In k acc).
  { intros H. apply existsb_eqb_In in H. congruence. }
  clear E. induction Hnd as [|y acc Hy Hnd IH]; simpl.
  - constructor; [intros [] | constructor].
  - constructor.
    + rewrite in_app_iff. simpl. intros [H | [H | []]]; [contradiction|].
      subst. apply Hk. left; reflexivity.
    + apply IH. intros H. apply Hk. right; exact H.
Qed.

Lemma see_length (acc : list jsstring) (k : jsstring) :
  (length (see acc k) <= S (length acc))%nat.
Proof.
  unfold see. destruct (existsb _ _); [lia|].
  rewrite length_app. simpl. lia.
Qed.

Lemma fold_see_spec (keys acc : list jsstring) :
  NoDup acc ->
  NoDup (fold_left see keys acc)
  /\ (forall x, In x (fold_left see keys acc) <-> In x acc \/ In x keys)
  /\ (length (fold_left see keys acc) <= length acc + length keys)%nat.
Proof.
  revert acc; induction keys as [|k keys IH]; intros acc Hnd; simpl.
  - split; [exact Hnd | split; [intros x; simpl; tauto | lia]].
  - destruct (IH (see acc k) (see_NoDup k Hnd)) as [H1 [H2 H3]].
    split; [exact H1 | split].
    + intros x. rewrite H2, see_In. intuition (try subst; auto).
    + pose proof (see_length acc k). lia.
Qed.

Lemma firstSeen_spec (keys : list jsstring) :
  NoDup (firstSeen keys)
  /\ (forall x, In x (firstSeen keys) <-> In x keys)
  /\ (length (firstSeen keys) <= length keys)%nat.
Proof.
  destruct (@fold_see_spec keys [] (NoDup_nil _)) as [H1 [H2 H3]].
  split; [exact H1 | split; [|exact H3]].
  intros x. unfold firstSeen. rewrite H2. simpl. tauto.
Qed.

Lemma set_keys (V : Type) (k : jsstring) (v : V) (m : JSMap.t V) :
  map fst (JSMap.set k v m) = see (map fst m) k.
Proof.
  unfold see. induction m as [|[k' v'] m IH]; simpl; [reflexivity|].
  rewrite (JSString_eqb_sym k k').
  destruct (JSString.eqb k' k); simpl; [reflexivity|].
  rewrite IH. destruct (existsb (JSString.eqb k) (map fst m)); reflexivity.
Qed.

Lemma In_get (V : Type) (k : jsstring) (v : V) (m : JSMap.t V) :
  NoDup (map fst m) -> In (k, v) m -> JSMap.get k m = Some v.
Proof.
  induction m as [|[k' v'] m IH]; simpl; intros Hnd Hin; [contradiction|].
  inversion Hnd as [|? ? Hk Hnd']; subst.
  destruct Hin as [Heq | Hin].
  - inversion Heq; subst. rewrite JSString_eqb_refl. reflexivity.
  - destruct (JSString.eqb k' k) eqn:E.
    + apply JSString_eqb_eq in E. subst k'. exfalso. apply Hk.
      apply (in_map fst) in Hin. exact Hin.
    + apply IH; assumption.
Qed.


(* ================================================================== *)
(** * Sums of rationals *)

Lemma sumOver_ext (A : Type) (f g : A -> Q) (l : list A) :
  (forall x, In x l -> f x == g x) -> sumOver f l == sumOver g l.
Proof.
  induction l as [|x l IH]; intros H; simpl; [reflexivity|].
  rewrite (H x (or_introl eq_refl)), IH; [reflexivity|].
  intros y Hy. apply H. right; exact Hy.
Qed.

Lemma sumOver_plus (A : Type) (f g : A -> Q) (l : list A) :
  sumOver (fun x => f x + g x) l == sumOver f l + sumOver g l.
Proof.
  induction l as [|x l IH]; simpl; [ring | rewrite IH; ring].
Qed.

Lemma sumOver_zero (A : Type) (l : list A) : sumOver (fun _ => 0) l == 0.
Proof. induction l as [|x l IH]; simpl; [reflexivity | rewrite IH; ring]. Qed.

Lemma sumOver_map (A B : Type) (g : A -> B) (f : B -> Q) (l : list A) :
  sumOver f (map g l) = sumOver (fun x => f (g x)) l.
Proof. induction l as [|x l IH]; simpl; [reflexivity | rewrite IH; reflexivity]. Qed.

Lemma sumOver_scale (A : Type) (c : Q) (f : A -> Q) (l : list A) :
  sumOver (fun x => c * f x) l == c * sumOver f l.
Proof.
  induction l as [|x l IH]; simpl; [ring | rewrite IH; ring].
Qed.


Lemma sumOver_Permutation (A : Type) (f : A -> Q) (l l' : list A) :
  Permutation l l' -> sumOver f l == sumOver f l'.
Proof.
  induction 1; simpl.
  - reflexivity.
  - rewrite IHPermutation. reflexivity.
  - ring.
  - etransitivity; eassumption.
Qed.

(** Exactly one element of a duplicate-free list is [k0]. *)
Lemma sumOver_one_key (ks : list jsstring) (k0 : jsstring) (a : Q) :
  NoDup ks -> In k0 ks ->
  sumOver (fun k => if JSString.eqb k0 k then a else 0) ks == a.
Proof.
  induction 1 as [|k ks Hk Hnd IH]; intros Hin; [contradiction|]. simpl.
  destruct (JSString.eqb k0 k) eqn:E.
  - apply JSString_eqb_eq in E. subst k.
    rewrite (@sumOver_ext _ _ (fun _ => 0)), sumOver_zero; [ring|].
    intros k Hin'. destruct (JSString.eqb k0 k) eqn:E'; [|reflexivity].
    apply JSString_eqb_eq in E'. subst. contradiction.
  - destruct Hin as [-> | Hin].
    + rewrite JSString_eqb_refl in E. discriminate.
    + rewrite (IH Hin). ring.
Qed.

(** Summing group by group is summing over the whole list. *)
Lemma sumOver_groups (A : Type) (key : A -> jsstring) (f : A -> Q)
      (l : list A) (ks : list jsstring) :
  NoDup ks -> (forall x, In x l -> In (key x) ks) ->
  sumOver (fun k => sumOver f (filter (fun x => JSString.eqb (key x) k) l)) ks
  == sumOver f l.
Proof.
  intros Hnd. induction l as [|x l IH]; intros Hin.
  - simpl. apply sumOver_zero.
  - rewrite (@sumOver_ext _ _
               (fun k => (if JSString.eqb (key x) k then f x else 0)
                         + sumOver f (filter (fun x => JSString.eqb (key x) k)
                                             l))).
    + rewrite sumOver_plus, IH by (intros y Hy; apply Hin; right; exact Hy).
      rewrite (@sumOver_one_key _ _ _ Hnd) by (apply Hin; left; reflexivity).
      reflexivity.
    + intros k _. simpl. destruct (JSString.eqb (key x) k); simpl; ring.
Qed.

(* ================================================================== *)
(** * Running sums *)

Lemma orZero_notNaN (x : option Binary64.t) :
  Binary64.isNaN (orZero x) = false.
Proof. destruct x as [[s|s| |s m e]|]; reflexivity. Qed.

Lemma orZero_holds (P : Binary64.t -> Prop) (x : option Binary64.t) :
  P Binary64.zero -> entryHolds P x -> P (orZero x).
Proof.
  intros H0 Hx. destruct x as [v|]; [|exact H0]. cbn [orZero entryHolds] in *.
  destruct (Binary64.truthy v); assumption.
Qed.

Lemma orZero_multiple (g n : Z) (x : option Binary64.t) :
  entryMultiple g n x -> multiple g n (orZero x).
Proof.
  destruct x as [v|]; cbn [entryMultiple orZero].
  - intros [Hf [Hw Hq]].
    destruct v as [s|s| |s m e]; try discriminate; cbn [Binary64.truthy].
    + split; [reflexivity | split; [exact I | exact Hq]].
    + split; [reflexivity | split; [exact Hw | exact Hq]].
  - intros ->. split; [reflexivity | split; [exact I|]].
    cbn [Binary64.toQ Binary64.zero]. ring.
Qed.

Lemma runningSum_aboveEmin (l : list Binary64.t) (x : option Binary64.t) :
  Forall aboveEmin l -> entryHolds aboveEmin x ->
  entryHolds aboveEmin (fold_left addTo l x).
Proof.
  intros Hl. revert x. induction Hl as [|a l Ha _ IH]; intros x Hx.
  - exact Hx.
  - simpl. apply IH. cbn [addTo entryHolds].
    apply add_aboveEmin; [|exact Ha].
    apply (orZero_holds aboveEmin); [exact I | exact Hx].
Qed.

(** Finite amounts never add up to NaN. *)
Lemma runningSum_notNaN (l : list Binary64.t) (x : option Binary64.t) :
  Forall aboveEmin l ->
  Forall (fun a => Binary64.isFinite a = true) l ->
  entryHolds aboveEmin x ->
  entryHolds (fun v => Binary64.isNaN v = false) x ->
  entryHolds (fun v => Binary64.isNaN v = false) (fold_left addTo l x).
Proof.
  intros Hl. revert x. induction Hl as [|a l Ha _ IH]; intros x Hfin Hx Hn.
  - exact Hn.
  - inversion Hfin as [|? ? Hfa Hfl]; subst. simpl. apply IH.
    + exact Hfl.
    + cbn [addTo entryHolds]. apply add_aboveEmin; [|exact Ha].
      apply (orZero_holds aboveEmin); [exact I | exact Hx].
    + cbn [addTo entryHolds]. apply add_finite_notNaN.
      * apply (orZero_holds aboveEmin); [exact I | exact Hx].
      * exact Ha.
      * apply orZero_notNaN.
      * exact Hfa.
Qed.

Lemma sumAbs_nonneg (ns : list Z) : (0 <= sumAbs ns)%Z.
Proof. induction ns as [|n ns IH]; simpl; lia. Qed.



(** Whole multiples of one unit add up exactly while the absolute values
    stay below 2^53 units. *)
Lemma runningSum_exact (g : Z) (ns : list Z) (l : list Binary64.t) :
  (emin64 <= g <= 971)%Z -> Forall2 (multiple g) ns l ->
  forall c x, entryMultiple g c x -> (Z.abs c + sumAbs ns < 2 ^ 53)%Z ->
              entryMultiple g (c + sumZ ns) (fold_left addTo l x).
Proof.
  intros Hg Hl. induction Hl as [|n a ns l Hna _ IH]; intros c x Hx Hb.
  - simpl. rewrite Z.add_0_r. exact Hx.
  - simpl in *. pose proof (sumAbs_nonneg ns) as Hnn.
    replace (c + (n + sumZ ns))%Z with ((c + n) + sumZ ns)%Z by ring.
    apply IH; [|lia].
    cbn [addTo entryMultiple].
    apply add_exact; [exact Hg | lia | apply orZero_multiple; exact Hx
                     | exact Hna].
Qed.

Lemma runningTotal_exact (g : Z) (ns : list Z) (l : list Binary64.t) :
  (emin64 <= g <= 971)%Z -> Forall2 (multiple g) ns l ->
  forall c t, multiple g c t -> (Z.abs c + sumAbs ns < 2 ^ 53)%Z ->
              multiple g (c + sumZ ns) (fold_left Binary64.add l t).
Proof.
  intros Hg Hl. induction Hl as [|n a ns l Hna _ IH]; intros c t Ht Hb.
  - simpl. rewrite Z.add_0_r. exact Ht.
  - simpl in *. pose proof (sumAbs_nonneg ns) as Hnn.
    replace (c + (n + sumZ ns))%Z with ((c + n) + sumZ ns)%Z by ring.
    apply IH; [|lia].
    apply add_exact; [exact Hg | lia | exact Ht | exact Hna].
Qed.

(** The records picked out of data given in whole units. *)
Lemma inUnits_filter (g : Z) (units : ProcessedSalesData.t -> Z)
      (data : list ProcessedSalesData.t) (p : ProcessedSalesData.t -> bool) :
  inUnits g units data ->
  Forall2 (multiple g) (map units (filter p data)) (amounts (filter p data))
  /\ (sumAbs (map units (filter p data)) < 2 ^ 53)%Z
  /\ sumOver (fun d => Binary64.toQ (ProcessedSalesData.amount d))
             (filter p data)
     == inject_Z (sumZ (map units (filter p data))) * 2 ^ g.
Proof.
  intros [Hg [Hall Hb]].
  assert (Hle : (sumAbs (map units (filter p data))
                 <= sumAbs (map units data))%Z).
  { clear. induction data as [|d data IH]; simpl; [lia|].
    destruct (p d); simpl; lia. }
  split; [|split; [lia|]].
  - clear Hb Hle. induction Hall as [|d data [_ Hd] _ IH]; simpl;
      [constructor|].
    destruct (p d); simpl; [constructor; assumption | exact IH].
  - clear Hb Hle. induction Hall as [|d data [_ [_ [_ Hd]]] _ IH]; simpl.
    + ring.
    + destruct (p d); simpl; [|exact IH].
      rewrite IH, Hd, inject_Z_plus. ring.
Qed.

Lemma filter_true (A : Type) (l : list A) : filter (fun _ => true) l = l.
Proof. induction l as [|x l IH]; simpl; [reflexivity | rewrite IH; reflexivity]. Qed.

(* ================================================================== *)
(** * Binary64: the rounding to the nearest number, ties to even *)



Lemma Qeq_bool_false (a b : Q) : Qeq_bool a b = false <-> ~ a == b.
Proof.
  split.
  - intros H E. apply Qeq_eq_bool in E. congruence.
  - intros H. destruct (Qeq_bool a b) eqn:E; [|reflexivity].
    apply Qeq_bool_eq in E. contradiction.
Qed.

Lemma Qle_bool_false (a b : Q) : Qle_bool a b = false <-> b < a.
Proof.
  split.
  - intros H. apply Qnot_le_lt. intros E. apply Qle_bool_iff in E. congruence.
  - intros H. destruct (Qle_bool a b) eqn:E; [|reflexivity].
    apply Qle_bool_iff in E. lra.
Qed.

(** The three cases of a tail. *)
Lemma located_cases (m : Z) (t : Q) :
  isTail t ->
  (t == 0 /\ located m t = Build_shr_record m false false)
  \/ (0 < t /\ t < 1 # 2 /\ located m t = Build_shr_record m false true)
  \/ (t == 1 # 2 /\ located m t = Build_shr_record m true false)
  \/ (1 # 2 < t /\ located m t = Build_shr_record m true true).
Proof.
  intros [H0 H1]. unfold located.
  destruct (Qle_bool (1 # 2) t) eqn:Er.
  - apply Qle_bool_iff in Er.
    destruct (Qeq_bool t (1 # 2)) eqn:Eh.
    + apply Qeq_bool_eq in Eh. right; right; left.
      split; [exact Eh|]. rewrite andb_false_r. reflexivity.
    + apply Qeq_bool_false in Eh. right; right; right.
      assert (E0 : Qeq_bool t 0 = false) by (apply Qeq_bool_false; lra).
      rewrite E0. split; [|reflexivity].
      apply Qle_lteq in Er as [Hlt | Heq]; [exact Hlt|].
      exfalso. apply Eh. symmetry. exact Heq.
  - apply Qle_bool_false in Er.
    assert (Eh : Qeq_bool t (1 # 2) = false) by (apply Qeq_bool_false; lra).
    rewrite Eh. destruct (Qeq_bool t 0) eqn:E0.
    + apply Qeq_bool_eq in E0. left. split; [exact E0 | reflexivity].
    + apply Qeq_bool_false in E0. right; left.
      split; [|split; [exact Er | reflexivity]].
      apply Qle_lteq in H0 as [Hlt | Heq]; [exact Hlt|].
      exfalso. apply E0. symmetry. exact Heq.
Qed.

Lemma located_ext (m : Z) (t t' : Q) : t == t' -> located m t = located m t'.
Proof.
  intros E. unfold located. f_equal.
  - destruct (Qle_bool (1 # 2) t) eqn:A, (Qle_bool (1 # 2) t') eqn:B;
      try reflexivity.
    + apply Qle_bool_iff in A. apply Qle_bool_false in B. lra.
    + apply Qle_bool_iff in B. apply Qle_bool_false in A. lra.
  - f_equal; f_equal.
    + destruct (Qeq_bool t 0) eqn:A, (Qeq_bool t' 0) eqn:B; try reflexivity.
      * apply Qeq_bool_eq in A. apply Qeq_bool_false in B. lra.
      * apply Qeq_bool_eq in B. apply Qeq_bool_false in A. lra.
    + destruct (Qeq_bool t (1 # 2)) eqn:A, (Qeq_bool t' (1 # 2)) eqn:B;
        try reflexivity.
      * apply Qeq_bool_eq in A. apply Qeq_bool_false in B. lra.
      * apply Qeq_bool_eq in B. apply Qeq_bool_false in A. lra.
Qed.

(** One shift to the right halves the number. *)
Lemma shr_1_located (m : Z) (t : Q) :
  (0 <= m)%Z -> isTail t ->
  shr_1 (located m t)
  = located (m / 2) ((inject_Z (m mod 2) + t) / 2)
  /\ isTail ((inject_Z (m mod 2) + t) / 2).
Proof.
  intros Hm Ht.
  assert (Hmod : (m mod 2 = 0 \/ m mod 2 = 1)%Z)
    by (pose proof (Z.mod_pos_bound m 2); lia).
  assert (Htail : isTail ((inject_Z (m mod 2) + t) / 2)).
  { destruct Ht as [H0 H1]. unfold isTail.
    destruct Hmod as [-> | ->]; split;
      try (apply Qle_shift_div_l; [reflexivity|]);
      try (apply Qlt_shift_div_r; [reflexivity|]);
      change (inject_Z 0) with 0; change (inject_Z 1) with 1; lra. }
  split; [|exact Htail].
  assert (Hbit : forall b : Z,
             (b = 0 \/ b = 1)%Z ->
             located (m / 2) ((inject_Z b + t) / 2)
             = Build_shr_record (m / 2) (Z.eqb b 1)
                                (shr_r (located m t) || shr_s (located m t))).
  { intros b Hb.
    assert (Hhalf : (inject_Z b + t) / 2 == (inject_Z b + t) * (1 # 2))
      by (field).
    rewrite (located_ext _ Hhalf).
    destruct Ht as [H0 H1].
    destruct (located_cases m (conj H0 H1))
      as [[E ->] | [[E1 [E2 ->]] | [[E ->] | [E ->]]]];
      cbn [shr_r shr_s orb];
      destruct Hb as [-> | ->];
      change (inject_Z 0) with 0; change (inject_Z 1) with 1;
      change (0 =? 1)%Z with false; change (1 =? 1)%Z with true;
      unfold located; f_equal;
      repeat match goal with
             | |- Qle_bool _ _ = true => apply Qle_bool_iff; lra
             | |- Qle_bool _ _ = false => apply Qle_bool_false; lra
             | |- (_ && _)%bool = true => apply andb_true_intro; split
             | |- negb _ = true => apply negb_true_iff
             | |- negb _ = false => apply negb_false_iff
             | |- Qeq_bool _ _ = false => apply Qeq_bool_false; lra
             | |- Qeq_bool _ _ = true => apply Qeq_eq_bool; lra
             end.
    all: try (apply andb_false_iff; left; apply negb_false_iff;
              apply Qeq_eq_bool; lra).
    all: try (apply andb_false_iff; right; apply negb_false_iff;
              apply Qeq_eq_bool; lra). }
  destruct m as [|p|p]; [| |lia].
  - change (0 mod 2)%Z with 0%Z.
    rewrite (Hbit 0%Z (or_introl eq_refl)). reflexivity.
  - destruct p as [p|p|].
    + assert (E2 : (Zpos p~1 / 2 = Zpos p)%Z).
      { rewrite (Pos2Z.inj_xI p). symmetry.
        apply Z.div_unique with 1%Z; lia. }
      assert (Em : (Zpos p~1 mod 2 = 1)%Z).
      { rewrite (Pos2Z.inj_xI p). symmetry.
        apply Z.mod_unique with (Zpos p); lia. }
      rewrite Em, (Hbit 1%Z (or_intror eq_refl)), E2. reflexivity.
    + assert (E2 : (Zpos p~0 / 2 = Zpos p)%Z).
      { rewrite (Pos2Z.inj_xO p). symmetry.
        apply Z.div_unique with 0%Z; lia. }
      assert (Em : (Zpos p~0 mod 2 = 0)%Z).
      { rewrite (Pos2Z.inj_xO p). symmetry.
        apply Z.mod_unique with (Zpos p); lia. }
      rewrite Em, (Hbit 0%Z (or_introl eq_refl)), E2. reflexivity.
    + change (1 mod 2)%Z with 1%Z.
      rewrite (Hbit 1%Z (or_intror eq_refl)). reflexivity.
Qed.

(** [k] shifts to the right divide the number by 2^k. *)
Lemma shr_iter_located (k : nat) (m : Z) (t : Q) :
  (0 <= m)%Z -> isTail t ->
  exists t',
    isTail t'
    /\ Nat.iter k shr_1 (located m t) = located (m / 2 ^ Z.of_nat k) t'
    /\ inject_Z (m / 2 ^ Z.of_nat k) + t'
       == (inject_Z m + t) / inject_Z (2 ^ Z.of_nat k).
Proof.
  intros Hm Ht. induction k as [|k IH].
  - exists t. split; [exact Ht | split].
    + cbn [Nat.iter Z.of_nat]. rewrite Z.pow_0_r, Z.div_1_r. reflexivity.
    + cbn [Z.of_nat]. rewrite Z.pow_0_r, Z.div_1_r.
      change (inject_Z 1) with 1. field.
  - destruct IH as [t1 [Ht1 [Hit Hval]]].
    assert (Hpos : (0 < 2 ^ Z.of_nat k)%Z) by (apply Z.pow_pos_nonneg; lia).
    assert (Hm1 : (0 <= m / 2 ^ Z.of_nat k)%Z) by (apply Z.div_pos; lia).
    destruct (shr_1_located Hm1 Ht1) as [Hstep Htail].
    exists ((inject_Z ((m / 2 ^ Z.of_nat k) mod 2) + t1) / 2).
    split; [exact Htail | split].
    + rewrite Nat.iter_succ, Hit, Hstep.
      rewrite Nat2Z.inj_succ, Z.pow_succ_r by lia.
      rewrite Z.div_div by lia.
      replace (2 ^ Z.of_nat k * 2)%Z with (2 * 2 ^ Z.of_nat k)%Z by ring.
      reflexivity.
    + rewrite Nat2Z.inj_succ, Z.pow_succ_r by lia.
      replace (m / (2 * 2 ^ Z.of_nat k))%Z
        with (m / 2 ^ Z.of_nat k / 2)%Z
        by (rewrite Z.div_div by lia; f_equal; ring).
      rewrite inject_Z_mult.
      assert (Hne : ~ inject_Z (2 ^ Z.of_nat k) == 0).
      { intros E.
        assert (E' : (2 ^ Z.of_nat k)%Z = 0%Z)
          by (apply inject_Z_injective; exact E).
        rewrite E' in Hpos. exact (Z.lt_irrefl 0 Hpos). }
      pose proof (Z.div_mod (m / 2 ^ Z.of_nat k) 2 ltac:(lia)) as Hdm.
      assert (Hq : inject_Z (m / 2 ^ Z.of_nat k)
                   == 2 * inject_Z (m / 2 ^ Z.of_nat k / 2)
                      + inject_Z ((m / 2 ^ Z.of_nat k) mod 2)).
      { rewrite Hdm at 1. rewrite inject_Z_plus, inject_Z_mult. reflexivity. }
      change (inject_Z 2) with 2.
      setoid_replace ((inject_Z m + t) / (2 * inject_Z (2 ^ Z.of_nat k)))
        with ((inject_Z m + t) / inject_Z (2 ^ Z.of_nat k) / 2)
        by (field; exact Hne).
      rewrite <- Hval, Hq. field.
Qed.

(** The nearest integer is the integer part or the next integer. *)
Lemma nearestEven_cases (m : Z) (t : Q) :
  isTail t ->
  (nearestEven m t = m /\ t <= 1 # 2 /\ (t == 1 # 2 -> Z.even m = true))
  \/ (nearestEven m t = (m + 1)%Z /\ 1 # 2 <= t
      /\ (t == 1 # 2 -> Z.even m = false)).
Proof.
  intros Ht. unfold nearestEven.
  destruct (located_cases m Ht)
    as [[E ->] | [[E1 [E2 ->]] | [[E ->] | [E ->]]]];
    cbn [loc_of_shr_record round_nearest_even].
  - left. split; [reflexivity | split; [lra | intros; lra]].
  - left. split; [reflexivity | split; [lra | intros; lra]].
  - destruct (Z.even m) eqn:Ev.
    + left. split; [reflexivity | split; [lra | intros; reflexivity]].
    + right. split; [reflexivity | split; [lra | intros; reflexivity]].
  - right. split; [reflexivity | split; [lra | intros; lra]].
Qed.

Lemma nearestEven_exact (m : Z) (t : Q) : t == 0 -> nearestEven m t = m.
Proof.
  intros E. unfold nearestEven. rewrite (located_ext m E). reflexivity.
Qed.

(** Rounding to the nearest integer keeps the order. *)
Lemma nearestEven_mono (m m' : Z) (t t' : Q) :
  isTail t -> isTail t' ->
  inject_Z m + t <= inject_Z m' + t' ->
  (nearestEven m t <= nearestEven m' t')%Z.
Proof.
  intros Ht Ht' Hle.
  assert (Hm : (m <= m')%Z).
  { destruct Ht as [H0 H1], Ht' as [H0' H1'].
    destruct (Z_lt_le_dec m' m) as [Hlt | Hge]; [|exact Hge].
    exfalso. assert (H : (m' + 1 <= m)%Z) by lia.
    rewrite Zle_Qle, inject_Z_plus in H. change (inject_Z 1) with 1 in H.
    lra. }
  destruct (nearestEven_cases m Ht) as [[-> [A B]] | [-> [A B]]],
           (nearestEven_cases m' Ht') as [[-> [A' B']] | [-> [A' B']]];
    try lia.
  destruct (Z.eq_dec m m') as [<- | Hne]; [|lia].
  exfalso.
  assert (E : t == 1 # 2) by lra.
  assert (E' : t' == 1 # 2) by lra.
  rewrite (B E) in B'. specialize (B' E'). discriminate.
Qed.

(** It does not step over an integer. *)
Lemma nearestEven_le (m z : Z) (t : Q) :
  isTail t -> inject_Z m + t <= inject_Z z -> (nearestEven m t <= z)%Z.
Proof.
  intros Ht Hle. rewrite <- (@nearestEven_exact z 0) by reflexivity.
  apply nearestEven_mono; [exact Ht | split; lra | lra].
Qed.

Lemma nearestEven_ge (m z : Z) (t : Q) :
  isTail t -> inject_Z z <= inject_Z m + t -> (z <= nearestEven m t)%Z.
Proof.
  intros Ht Hle. rewrite <- (@nearestEven_exact z 0) by reflexivity.
  apply nearestEven_mono; [split; lra | exact Ht | lra].
Qed.

Lemma loc_of_located (m : Z) (t : Q) :
  isTail t ->
  shr_record_of_loc m (loc_of_shr_record (located m t)) = located m t.
Proof.
  intros Ht.
  destruct (located_cases m Ht)
    as [[E ->] | [[E1 [E2 ->]] | [[E ->] | [E ->]]]]; reflexivity.
Qed.

Lemma Zdigits2_bounds (m : Z) :
  (0 <= m)%Z -> (0 <= Zdigits2 m)%Z /\ (m < 2 ^ Zdigits2 m)%Z
                /\ (0 < m -> 2 ^ (Zdigits2 m - 1) <= m)%Z.
Proof.
  intros Hm. destruct m as [|p|p]; [| |lia].
  - cbn [Zdigits2]. split; [lia | split; [reflexivity | lia]].
  - cbn [Zdigits2]. pose proof (digits2_pos_bounds p) as [H1 H2].
    split; [lia | split; [exact H2 | intros _; exact H1]].
Qed.

Lemma Zdigits2_le (m d : Z) :
  (0 <= m)%Z -> (0 <= d)%Z -> (m < 2 ^ d)%Z -> (Zdigits2 m <= d)%Z.
Proof.
  intros Hm Hd Hlt. destruct (Z.eq_dec m 0) as [-> | Hne]; [exact Hd|].
  destruct (Zdigits2_bounds Hm) as [H0 [_ Hlow]].
  specialize (Hlow ltac:(lia)).
  destruct (Z_lt_le_dec d (Zdigits2 m)) as [Hgt | Hle]; [|exact Hle].
  exfalso.
  assert (H : (2 ^ d <= 2 ^ (Zdigits2 m - 1))%Z)
    by (apply Z.pow_le_mono_r; lia).
  lia.
Qed.

Lemma fexp_emin (d : Z) :
  (emin64 <= fexp Binary64.prec Binary64.emax d)%Z
  /\ (d - 53 <= fexp Binary64.prec Binary64.emax d)%Z.
Proof.
  unfold fexp, emin, emin64, Binary64.prec, Binary64.emax. lia.
Qed.

(** What the second alignment and the overflow test make of [N]. *)
Lemma encode_spec (s : bool) (N E : Z) :
  (0 <= N <= 2 ^ 53)%Z -> (emin64 <= E)%Z ->
  (let '(mrs, e) := shr_fexp Binary64.prec Binary64.emax N E loc_Exact in
   match shr_m mrs with
   | Z0 => S754_zero s
   | Zpos m =>
       if (e <=? Binary64.emax - Binary64.prec)%Z
       then S754_finite s m e else S754_infinity s
   | Zneg _ => S754_nan
   end)
  = encode s N E.
Proof.
  intros HN HE. unfold shr_fexp, shr, encode.
  change (2 ^ 53)%Z with 9007199254740992%Z in HN.
  change (Binary64.emax - Binary64.prec)%Z with 971%Z.
  destruct (Z.eqb_spec N 9007199254740992) as [-> | Hne].
  - cbn [Zdigits2 digits2_pos Pos.succ].
    assert (Ef : (fexp Binary64.prec Binary64.emax (54 + E) - E = 1)%Z).
    { unfold fexp, emin, emin64, Binary64.prec, Binary64.emax in *. lia. }
    change (Z.pos 54) with 54%Z. rewrite Ef.
    cbn [iter_pos shr_record_of_loc shr_1 shr_m]. reflexivity.
  - assert (Hd : (Zdigits2 N <= 53)%Z).
    { apply Zdigits2_le; try lia;
        change (2 ^ 53)%Z with 9007199254740992%Z; lia. }
    assert (Hk : (fexp Binary64.prec Binary64.emax (Zdigits2 N + E) - E
                  <= 0)%Z).
    { unfold fexp, emin, emin64, Binary64.prec, Binary64.emax in *. lia. }
    destruct (fexp Binary64.prec Binary64.emax (Zdigits2 N + E) - E)%Z
      as [|p|p]; [| lia |];
      cbn [shr_record_of_loc shr_m]; destruct N as [|n|n]; try lia;
      reflexivity.
Qed.

(** The two alignments and the rounding between them: the number
    [(m + t) * 2^e] is brought to the exponent [E] of its format, where its
    integer part has at most 53 digits, and rounded to an integer there. *)
Lemma binary_round_aux_located (s : bool) (m : Z) (t : Q) (e : Z) :
  (0 <= m)%Z -> isTail t ->
  exists m' t',
    isTail t' /\ (0 <= m' < 2 ^ 53)%Z
    /\ m' = (m / 2 ^ (Z.max e (fexp Binary64.prec Binary64.emax
                                     (Zdigits2 m + e)) - e))%Z
    /\ inject_Z m' + t'
       == (inject_Z m + t)
          / inject_Z (2 ^ (Z.max e (fexp Binary64.prec Binary64.emax
                                         (Zdigits2 m + e)) - e))
    /\ binary_round_aux Binary64.prec Binary64.emax s m e
                        (loc_of_shr_record (located m t))
       = encode s (nearestEven m' t')
                (Z.max e (fexp Binary64.prec Binary64.emax (Zdigits2 m + e))).
Proof.
  intros Hm Ht.
  destruct (Zdigits2_bounds Hm) as [HD0 [HDup _]].
  destruct (fexp_emin (Zdigits2 m + e)) as [Hf1 Hf2].
  set (f := fexp Binary64.prec Binary64.emax (Zdigits2 m + e)) in *.
  assert (Hstep1 :
            exists m' t',
              isTail t' /\ (0 <= m' < 2 ^ 53)%Z
              /\ m' = (m / 2 ^ (Z.max e f - e))%Z
              /\ inject_Z m' + t'
                 == (inject_Z m + t) / inject_Z (2 ^ (Z.max e f - e))
              /\ shr_fexp Binary64.prec Binary64.emax m e
                          (loc_of_shr_record (located m t))
                 = (located m' t', Z.max e f)).
  { unfold shr_fexp, shr. fold f. rewrite (loc_of_located m Ht).
    destruct (f - e)%Z as [|p|p] eqn:Ek.
    - exists m, t. replace (Z.max e f - e)%Z with 0%Z by lia.
      rewrite Z.pow_0_r, Z.div_1_r. change (inject_Z 1) with 1.
      split; [exact Ht | split; [|split; [reflexivity | split]]].
      + split; [exact Hm|]. eapply Z.lt_le_trans; [exact HDup|].
        apply Z.pow_le_mono_r; lia.
      + field.
      + f_equal. lia.
    - destruct (@shr_iter_located (Pos.to_nat p) m t Hm Ht)
        as [t' [Ht' [Hit Hval]]].
      rewrite positive_nat_Z in Hit, Hval.
      exists (m / 2 ^ Zpos p)%Z, t'.
      replace (Z.max e f - e)%Z with (Zpos p) by lia.
      split; [exact Ht' | split; [|split; [reflexivity | split]]].
      + split; [apply Z.div_pos; [exact Hm | apply Z.pow_pos_nonneg; lia]|].
        apply Z.div_lt_upper_bound; [apply Z.pow_pos_nonneg; lia|].
        rewrite <- Z.pow_add_r by lia.
        eapply Z.lt_le_trans; [exact HDup|].
        apply Z.pow_le_mono_r; lia.
      + exact Hval.
      + rewrite iter_pos_nat, Hit. f_equal. lia.
    - exists m, t. replace (Z.max e f - e)%Z with 0%Z by lia.
      rewrite Z.pow_0_r, Z.div_1_r. change (inject_Z 1) with 1.
      split; [exact Ht | split; [|split; [reflexivity | split]]].
      + split; [exact Hm|]. eapply Z.lt_le_trans; [exact HDup|].
        apply Z.pow_le_mono_r; lia.
      + field.
      + f_equal. lia. }
  destruct Hstep1 as [m' [t' [Ht' [Hm' [Hdef [Hval Hshr]]]]]].
  exists m', t'.
  split; [exact Ht' | split; [exact Hm' | split; [exact Hdef | split]]];
    [exact Hval|].
  unfold binary_round_aux. rewrite Hshr.
  change (round_nearest_even (shr_m (located m' t'))
                             (loc_of_shr_record (located m' t')))
    with (nearestEven m' t').
  apply encode_spec; [|lia].
  destruct (nearestEven_cases m' Ht') as [[-> _] | [-> _]]; lia.
Qed.

Lemma two_power_Z (k : Z) : (0 <= k)%Z -> inject_Z (2 ^ k) == 2 ^ k.
Proof. intros Hk. rewrite Zpower_Qpower by exact Hk. reflexivity. Qed.

Lemma two_power_le (a b : Z) : (a <= b)%Z -> (2 : Q) ^ a <= 2 ^ b.
Proof. intros H. apply Qpower_le_compat_l; [exact H | discriminate]. Qed.

Lemma two_power_lt_inv (a b : Z) : (2 : Q) ^ a < 2 ^ b -> (a < b)%Z.
Proof. intros H. apply (Qpower_lt_compat_l_inv 2); [exact H | reflexivity]. Qed.

Lemma two_power_add (a b : Z) : (2 : Q) ^ (a + b) == 2 ^ a * 2 ^ b.
Proof. apply Qpower_plus. discriminate. Qed.

Lemma two_power_sub (a b : Z) : (2 : Q) ^ (a - b) == 2 ^ a / 2 ^ b.
Proof. apply Qpower_minus. discriminate. Qed.

(** The three shapes of [encode]. *)
Lemma encode_cases (s : bool) (N E : Z) :
  (0 <= N <= 2 ^ 53)%Z ->
  (N = 0%Z /\ encode s N E = S754_zero s)
  \/ ((0 < N)%Z /\ overflows N E = true /\ encode s N E = S754_infinity s)
  \/ ((0 < N)%Z /\ overflows N E = false
      /\ exists n e,
          encode s N E = S754_finite s n e
          /\ (e <= 971)%Z /\ (E <= e)%Z
          /\ inject_Z (Zpos n) * 2 ^ e == inject_Z N * 2 ^ E).
Proof.
  intros HN. change (2 ^ 53)%Z with 9007199254740992%Z in HN.
  unfold encode, overflows.
  destruct N as [|n|n]; [left; split; reflexivity | | lia].
  right. change (0 <? Z.pos n)%Z with true. cbn [andb].
  destruct (Z.eqb_spec (Zpos n) 9007199254740992) as [E53 | Hne].
  - destruct (Z.leb_spec (E + 1) 971) as [Hle | Hgt].
    + right. split; [lia | split; [apply Z.ltb_ge; lia|]].
      exists 4503599627370496%positive, (E + 1)%Z.
      split; [reflexivity | split; [exact Hle | split; [lia|]]].
      rewrite E53, two_power_add.
      change (inject_Z 9007199254740992)
        with (inject_Z 4503599627370496 * 2 ^ 1).
      change (Z.pos 4503599627370496) with 4503599627370496%Z. ring.
    + left. split; [lia | split; [apply Z.ltb_lt; lia | reflexivity]].
  - destruct (Z.leb_spec E 971) as [Hle | Hgt].
    + right. split; [lia | split; [apply Z.ltb_ge; lia|]].
      exists n, E. split; [reflexivity | split; [exact Hle | split; [lia|]]].
      reflexivity.
    + left. split; [lia | split; [apply Z.ltb_lt; lia | reflexivity]].
Qed.

(** The order of two roundings from the order of their values. *)
Lemma encode_le (N E N' E' : Z) :
  (0 <= N <= 2 ^ 53)%Z -> (0 <= N' <= 2 ^ 53)%Z ->
  inject_Z N * 2 ^ E <= inject_Z N' * 2 ^ E' ->
  (overflows N E = true -> overflows N' E' = true) ->
  Binary64.le (encode false N E) (encode false N' E').
Proof.
  intros HN HN' Hle Hov.
  destruct (encode_cases false E' HN')
    as [[H0' E2] | [[Hp' [Ho' E2]] | [Hp' [Ho' [n' [e' [E2 [He' [_ Hv']]]]]]]]].
  - (* the larger one is zero *)
    subst N'. rewrite E2.
    destruct (encode_cases false E HN)
      as [[H0 E1] | [[Hp [Ho E1]] | [Hp [Ho [n [e [E1 [He [_ Hv]]]]]]]]];
      rewrite E1; cbn [Binary64.le Binary64.toQ cond_Zopp].
    + apply Qle_refl.
    + specialize (Hov Ho). discriminate.
    + rewrite Hv. setoid_replace 0 with (inject_Z 0 * 2 ^ E') by ring.
      exact Hle.
  - (* the larger one overflows *)
    rewrite E2.
    destruct (encode_cases false E HN)
      as [[H0 E1] | [[Hp [Ho E1]] | [Hp [Ho [n [e [E1 [He [_ Hv]]]]]]]]];
      rewrite E1; cbn [Binary64.le]; try reflexivity.
    right; reflexivity.
  - rewrite E2.
    destruct (encode_cases false E HN)
      as [[H0 E1] | [[Hp [Ho E1]] | [Hp [Ho [n [e [E1 [He [_ Hv]]]]]]]]];
      rewrite E1; cbn [Binary64.le Binary64.toQ cond_Zopp].
    + rewrite Hv'. apply Qmult_le_0_compat;
        [rewrite <- (Zle_Qle 0); lia | apply Qlt_le_weak, two_power_pos].
    + specialize (Hov Ho). congruence.
    + rewrite Hv, Hv'. exact Hle.
Qed.

Lemma fexp_mono (d d' : Z) :
  (d <= d')%Z ->
  (fexp Binary64.prec Binary64.emax d
   <= fexp Binary64.prec Binary64.emax d')%Z.
Proof. unfold fexp, emin, Binary64.prec, Binary64.emax. lia. Qed.

Lemma fexp_cases (d : Z) :
  (fexp Binary64.prec Binary64.emax d = emin64 /\ (d - 53 <= emin64)%Z)
  \/ (fexp Binary64.prec Binary64.emax d = (d - 53)%Z /\ (emin64 < d - 53)%Z).
Proof. unfold fexp, emin, emin64, Binary64.prec, Binary64.emax. lia. Qed.

(** The integer a rounding arrives at. *)
Lemma rounds_bounds (d m : Z) (t x : Q) :
  2 ^ (d - 1) <= x -> x < 2 ^ d -> isTail t ->
  inject_Z m + t == x / 2 ^ (fexp Binary64.prec Binary64.emax d) ->
  (0 <= m)%Z
  /\ (0 <= nearestEven m t <= 2 ^ 53)%Z
  /\ inject_Z (nearestEven m t) * 2 ^ (fexp Binary64.prec Binary64.emax d)
     <= 2 ^ d
  /\ ((emin64 < d - 53)%Z -> (2 ^ 52 <= nearestEven m t)%Z).
Proof.
  intros Hlow Hup Ht Hval.
  set (f := fexp Binary64.prec Binary64.emax d) in *.
  pose proof (two_power_pos f) as Hf.
  pose proof (two_power_pos (d - 1)) as Hd1.
  assert (Hx : 0 < x) by lra.
  assert (Hq : 0 < x / 2 ^ f).
  { apply Qlt_shift_div_l; [exact Hf | lra]. }
  assert (Hm : (0 <= m)%Z).
  { destruct Ht as [_ H1]. destruct (Z_lt_le_dec m 0) as [Hneg | Hge];
      [|exact Hge]. exfalso.
    assert (H : (m <= -1)%Z) by lia. rewrite Zle_Qle in H.
    change (inject_Z (-1)) with (-1) in H. lra. }
  assert (Hupq : x / 2 ^ f < 2 ^ (d - f)).
  { rewrite two_power_sub. apply Qlt_shift_div_l; [exact Hf|].
    setoid_replace (x / 2 ^ f * 2 ^ f) with x
      by (field; intros E; rewrite E in Hf; exact (Qlt_irrefl 0 Hf)).
    exact Hup. }
  assert (HN0 : (0 <= nearestEven m t)%Z).
  { destruct (nearestEven_cases m Ht) as [[-> _] | [-> _]]; lia. }
  assert (Hdf : (d - f <= 53)%Z).
  { unfold f, fexp, emin, Binary64.prec, Binary64.emax. lia. }
  destruct (Z_lt_le_dec (d - f) 0) as [Hneg | Hnn].
  - (* far below the least positive number: the rounding gives 0 *)
    assert (Hhalf : x / 2 ^ f < 1 # 2).
    { eapply Qlt_le_trans; [exact Hupq|].
      change (1 # 2) with ((2 : Q) ^ (-1)). apply two_power_le. lia. }
    assert (Em : m = 0%Z).
    { destruct Ht as [H0 _]. destruct (Z_lt_le_dec 0 m) as [Hp | Hle]; [|lia].
      exfalso. assert (H : (1 <= m)%Z) by lia. rewrite Zle_Qle in H.
      change (inject_Z 1) with 1 in H. lra. }
    subst m. change (inject_Z 0) with 0 in Hval.
    assert (EN : nearestEven 0 t = 0%Z).
    { destruct (nearestEven_cases 0 Ht) as [[E _] | [_ [H _]]];
        [exact E | exfalso; lra]. }
    rewrite EN. split; [lia | split; [split; [lia|]|split]].
    + apply Z.pow_nonneg. lia.
    + change (inject_Z 0) with 0. pose proof (two_power_pos d). lra.
    + intros H. exfalso.
      unfold f, fexp, emin, emin64, Binary64.prec, Binary64.emax in *. lia.
  - assert (HNup : (nearestEven m t <= 2 ^ (d - f))%Z).
    { apply nearestEven_le; [exact Ht|].
      rewrite two_power_Z by exact Hnn. rewrite Hval.
      apply Qlt_le_weak. exact Hupq. }
    split; [exact Hm | split; [split; [exact HN0|]|split]].
    + eapply Z.le_trans; [exact HNup|]. apply Z.pow_le_mono_r; lia.
    + apply (Qle_trans _ (inject_Z (2 ^ (d - f)) * 2 ^ f)).
      * apply Qmult_le_compat_r; [|apply Qlt_le_weak; exact Hf].
        rewrite <- Zle_Qle. exact HNup.
      * rewrite two_power_Z by exact Hnn.
        rewrite <- two_power_add. replace (d - f + f)%Z with d by ring.
        apply Qle_refl.
    + intros Hnormal.
      assert (Ef : f = (d - 53)%Z).
      { unfold f, fexp, emin, emin64, Binary64.prec, Binary64.emax in *.
        lia. }
      apply nearestEven_ge; [exact Ht|].
      rewrite two_power_Z by lia. rewrite Hval.
      apply Qle_shift_div_l; [exact Hf|].
      rewrite <- two_power_add. replace (52 + f)%Z with (d - 1)%Z by lia.
      exact Hlow.
Qed.

Lemma overflows_mono (N N' E : Z) :
  (N <= N' <= 2 ^ 53)%Z ->
  overflows N E = true -> overflows N' E = true.
Proof.
  change (2 ^ 53)%Z with 9007199254740992%Z. unfold overflows.
  intros HN H. apply andb_true_iff in H as [Hp Ho].
  apply Z.ltb_lt in Hp. apply andb_true_iff. split; [apply Z.ltb_lt; lia|].
  destruct (Z.eqb_spec N 9007199254740992), (Z.eqb_spec N' 9007199254740992);
    try apply Z.ltb_lt in Ho; try apply Z.ltb_lt; lia.
Qed.

Lemma overflows_exponent (N E : Z) :
  overflows N E = true -> (971 < E + 1)%Z.
Proof.
  unfold overflows. intros H. apply andb_true_iff in H as [_ Ho].
  destruct (N =? 9007199254740992)%Z; apply Z.ltb_lt in Ho; lia.
Qed.

(** The rounding keeps the order. *)
Lemma roundsTo_mono (x y : Q) (F G : Binary64.t) :
  x <= y -> roundsTo x F -> roundsTo y G -> Binary64.le F G.
Proof.
  intros Hxy [d [m [t [Hlow [Hup [Ht [Hval ->]]]]]]]
         [d' [m' [t' [Hlow' [Hup' [Ht' [Hval' ->]]]]]]].
  destruct (@rounds_bounds d m t _ Hlow Hup Ht Hval) as [Hm [HN [HNup HNlow]]].
  destruct (@rounds_bounds d' m' t' _ Hlow' Hup' Ht' Hval')
    as [Hm' [HN' [HNup' HNlow']]].
  set (f := fexp Binary64.prec Binary64.emax d) in *.
  set (f' := fexp Binary64.prec Binary64.emax d') in *.
  assert (Hdd : (d <= d')%Z).
  { assert (H : (2 : Q) ^ (d - 1) < 2 ^ d') by lra.
    apply two_power_lt_inv in H. lia. }
  assert (Hff : (f <= f')%Z) by (apply fexp_mono; exact Hdd).
  pose proof (two_power_pos f) as Hf.
  pose proof (two_power_pos f') as Hf'.
  destruct (Z.eq_dec f f') as [Ef | Hne].
  - (* the same exponent *)
    assert (HNN : (nearestEven m t <= nearestEven m' t')%Z).
    { apply nearestEven_mono; [exact Ht | exact Ht'|].
      rewrite Hval, Hval', <- Ef.
      apply Qmult_le_compat_r; [exact Hxy|].
      apply Qlt_le_weak, Qinv_lt_0_compat. exact Hf. }
    apply encode_le; [exact HN | exact HN' | |].
    + rewrite <- Ef. apply Qmult_le_compat_r;
        [rewrite <- Zle_Qle; exact HNN | apply Qlt_le_weak; exact Hf].
    + rewrite <- Ef. apply overflows_mono. lia.
  - (* the larger number has the larger exponent, and 53 digits *)
    assert (Hnormal : (emin64 < d' - 53)%Z).
    { unfold f, f', fexp, emin, emin64, Binary64.prec, Binary64.emax in *.
      lia. }
    assert (Ef' : f' = (d' - 53)%Z).
    { unfold f', fexp, emin, emin64, Binary64.prec, Binary64.emax in *.
      lia. }
    assert (Hd1 : (d <= d' - 1)%Z).
    { unfold f, f', fexp, emin, emin64, Binary64.prec, Binary64.emax in *.
      lia. }
    specialize (HNlow' Hnormal).
    apply encode_le; [exact HN | exact HN' | |].
    + apply (Qle_trans _ _ _ HNup).
      apply (Qle_trans _ (2 ^ (d' - 1))); [apply two_power_le; exact Hd1|].
      replace (d' - 1)%Z with (52 + f')%Z by lia.
      rewrite two_power_add.
      apply Qmult_le_compat_r; [|apply Qlt_le_weak; exact Hf'].
      rewrite <- (@two_power_Z 52%Z) by lia. rewrite <- Zle_Qle. exact HNlow'.
    + intros Ho. apply overflows_exponent in Ho.
      unfold overflows. apply andb_true_iff. split.
      * apply Z.ltb_lt.
        assert (0 < 2 ^ 52)%Z by reflexivity. lia.
      * destruct (nearestEven m' t' =? 9007199254740992)%Z;
          apply Z.ltb_lt; lia.
Qed.

Lemma roundsTo_proper (x x' : Q) (F : Binary64.t) :
  x == x' -> roundsTo x F -> roundsTo x' F.
Proof.
  intros E [d [m [t [Hlow [Hup [Ht [Hval ->]]]]]]].
  exists d, m, t. rewrite <- E.
  split; [exact Hlow | split; [exact Hup | split; [exact Ht | split]]];
    [exact Hval | reflexivity].
Qed.

(** What a rounding gives is a binary64 number. *)
Lemma roundsTo_valid (x : Q) (F : Binary64.t) :
  roundsTo x F -> Binary64.valid F.
Proof.
  intros [d [m [t [Hlow [Hup [Ht [Hval ->]]]]]]].
  destruct (@rounds_bounds d m t _ Hlow Hup Ht Hval) as [Hm [HN [HNup HNlow]]].
  set (f := fexp Binary64.prec Binary64.emax d) in *.
  set (N := nearestEven m t) in *.
  unfold Binary64.valid, encode.
  change (2 ^ 53)%Z with 9007199254740992%Z in HN.
  destruct N as [|n|n] eqn:EN; [reflexivity | | lia].
  destruct (fexp_cases d) as [[Ef Hsub] | [Ef Hnorm]]; fold f in Ef.
  - (* the least exponent *)
    destruct (Z.eqb_spec (Zpos n) 9007199254740992) as [E53 | Hne].
    + destruct (Z.leb_spec (f + 1) 971) as [Hle | Hgt]; [|reflexivity].
      cbn [valid_binary]. unfold bounded, canonical_mantissa.
      apply andb_true_iff. split; [apply Z.eqb_eq | apply Z.leb_le; exact Hle].
      cbn [digits2_pos Pos.succ].
      unfold fexp, emin, emin64, Binary64.prec, Binary64.emax in *. lia.
    + destruct (Z.leb_spec f 971) as [Hle | Hgt]; [|reflexivity].
      cbn [valid_binary]. unfold bounded, canonical_mantissa.
      apply andb_true_iff. split; [apply Z.eqb_eq | apply Z.leb_le; exact Hle].
      assert (Hd : (Zpos (digits2_pos n) <= 53)%Z).
      { apply (@Zdigits2_le (Zpos n) 53); try lia;
          change (2 ^ 53)%Z with 9007199254740992%Z; lia. }
      unfold fexp, emin, emin64, Binary64.prec, Binary64.emax in *. lia.
  - specialize (HNlow Hnorm). change (2 ^ 52)%Z with 4503599627370496%Z in HNlow.
    destruct (Z.eqb_spec (Zpos n) 9007199254740992) as [E53 | Hne].
    + destruct (Z.leb_spec (f + 1) 971) as [Hle | Hgt]; [|reflexivity].
      cbn [valid_binary]. unfold bounded, canonical_mantissa.
      apply andb_true_iff. split; [apply Z.eqb_eq | apply Z.leb_le; exact Hle].
      cbn [digits2_pos Pos.succ].
      unfold fexp, emin, emin64, Binary64.prec, Binary64.emax in *. lia.
    + destruct (Z.leb_spec f 971) as [Hle | Hgt]; [|reflexivity].
      cbn [valid_binary]. unfold bounded, canonical_mantissa.
      apply andb_true_iff. split; [apply Z.eqb_eq | apply Z.leb_le; exact Hle].
      assert (Hd : Zpos (digits2_pos n) = 53%Z).
      { symmetry. apply digits_unique.
        change (2 ^ (53 - 1))%Z with 4503599627370496%Z.
        change (2 ^ 53)%Z with 9007199254740992%Z. lia. }
      rewrite Hd.
      unfold fexp, emin, emin64, Binary64.prec, Binary64.emax in *. lia.
Qed.

Lemma digits_in_Q (n : positive) (e : Z) :
  2 ^ (Zpos (digits2_pos n) + e - 1) <= inject_Z (Zpos n) * 2 ^ e
  /\ inject_Z (Zpos n) * 2 ^ e < 2 ^ (Zpos (digits2_pos n) + e).
Proof.
  pose proof (digits2_pos_bounds n) as [Hlow Hup].
  pose proof (two_power_pos e) as He.
  set (D := Zpos (digits2_pos n)) in *.
  assert (HD : (0 < D)%Z) by (unfold D; lia).
  split.
  - replace (D + e - 1)%Z with ((D - 1) + e)%Z by ring.
    rewrite two_power_add, <- (@two_power_Z (D - 1)) by lia.
    apply Qmult_le_compat_r; [|apply Qlt_le_weak; exact He].
    rewrite <- Zle_Qle. exact Hlow.
  - rewrite two_power_add, <- (@two_power_Z D) by lia.
    apply Qmult_lt_compat_r; [exact He|].
    rewrite <- Zlt_Qlt. exact Hup.
Qed.

Lemma two_power_nonzero (e : Z) : ~ (2 : Q) ^ e == 0.
Proof.
  intros E. pose proof (two_power_pos e) as H. rewrite E in H.
  exact (Qlt_irrefl 0 H).
Qed.

(** [binary_round] rounds the number it is given. *)
Lemma binary_round_roundsTo (n : positive) (e : Z) :
  roundsTo (inject_Z (Zpos n) * 2 ^ e)
           (binary_round Binary64.prec Binary64.emax false n e).
Proof.
  destruct (digits_in_Q n e) as [Hlow Hup].
  set (d := (Zpos (digits2_pos n) + e)%Z) in *.
  set (f := fexp Binary64.prec Binary64.emax d).
  unfold binary_round. fold d. fold f.
  destruct (Z.le_gt_cases e f) as [Hle | Hgt].
  - rewrite shl_align_keep by exact Hle.
    change loc_Exact with (loc_of_shr_record (located (Zpos n) 0)).
    destruct (@binary_round_aux_located false (Zpos n) 0 e)
      as [m' [t' [Ht' [_ [_ [Hval ->]]]]]]; [lia | split; lra |].
    cbn [Zdigits2] in *. fold d in Hval |- *. fold f in Hval |- *.
    replace (Z.max e f) with f in * by lia.
    exists d, m', t'.
    split; [exact Hlow | split; [exact Hup | split; [exact Ht' | split]]];
      [|reflexivity].
    change (fexp Binary64.prec Binary64.emax d) with f.
    rewrite Hval, two_power_Z by lia. rewrite two_power_sub.
    generalize (two_power_nonzero e) (two_power_nonzero f).
    generalize ((2 : Q) ^ e) ((2 : Q) ^ f). intros A B HA HB.
    field. first [split; assumption | assumption].
  - destruct (@shl_align_spec n e f) as [Hfst Hsnd]; [lia|].
    destruct (shl_align n e f) as [mz ez]. cbn [fst snd] in Hfst, Hsnd.
    subst ez.
    change loc_Exact with (loc_of_shr_record (located (Zpos mz) 0)).
    destruct (@binary_round_aux_located false (Zpos mz) 0 f)
      as [m' [t' [Ht' [_ [_ [Hval ->]]]]]]; [lia | split; lra |].
    cbn [Zdigits2] in *.
    assert (Hd : (Zpos (digits2_pos mz) + f = d)%Z).
    { rewrite (@digits_scaled n mz (e - f)) by (lia || exact Hfst).
      unfold d. ring. }
    rewrite Hd in Hval |- *. fold f in Hval |- *.
    replace (Z.max f f) with f in * by lia.
    replace (f - f)%Z with 0%Z in Hval by ring.
    exists d, m', t'.
    split; [exact Hlow | split; [exact Hup | split; [exact Ht' | split]]];
      [|reflexivity].
    change (fexp Binary64.prec Binary64.emax d) with f.
    rewrite Hval, Hfst, inject_Z_mult, two_power_Z by lia.
    rewrite two_power_sub. change (inject_Z (2 ^ 0)) with 1.
    generalize (two_power_nonzero e) (two_power_nonzero f).
    generalize ((2 : Q) ^ e) ((2 : Q) ^ f). intros A B HA HB.
    field. first [split; assumption | assumption].
Qed.

(** A positive binary64 number is its own rounding. *)
Lemma valid_roundsTo (m : positive) (e : Z) :
  Binary64.valid (S754_finite false m e) ->
  roundsTo (Binary64.toQ (S754_finite false m e)) (S754_finite false m e).
Proof.
  unfold Binary64.valid. cbn [valid_binary]. unfold bounded, canonical_mantissa.
  intros H. apply andb_true_iff in H as [Hc He].
  apply Z.eqb_eq in Hc. apply Z.leb_le in He.
  change (Binary64.emax - Binary64.prec)%Z with 971%Z in He.
  destruct (digits_in_Q m e) as [Hlow Hup].
  cbn [Binary64.toQ cond_Zopp].
  exists (Zpos (digits2_pos m) + e)%Z, (Zpos m), 0.
  rewrite Hc.
  split; [exact Hlow | split; [exact Hup | split; [split; lra | split]]].
  - generalize (two_power_nonzero e). generalize ((2 : Q) ^ e).
    intros A HA. field. exact HA.
  - rewrite nearestEven_exact by reflexivity. unfold encode.
    assert (Hd : (Zpos (digits2_pos m) <= 53)%Z).
    { unfold fexp, emin, Binary64.prec, Binary64.emax in Hc. lia. }
    pose proof (digits2_pos_bounds m) as [_ Hm].
    assert (Hm53 : (Zpos m < 2 ^ 53)%Z).
    { eapply Z.lt_le_trans; [exact Hm|]. apply Z.pow_le_mono_r; lia. }
    change (2 ^ 53)%Z with 9007199254740992%Z in Hm53.
    destruct (Z.eqb_spec (Zpos m) 9007199254740992) as [E53 | _]; [lia|].
    destruct (Z.leb_spec e 971) as [_ | Hgt]; [reflexivity | lia].
Qed.

(** The shapes of a number that is not negative. *)
Lemma nonnegative_cases (x : Binary64.t) :
  nonnegative x ->
  (exists s, x = S754_zero s)
  \/ x = S754_infinity false
  \/ exists m e, x = S754_finite false m e
                 /\ 0 < Binary64.toQ x /\ roundsTo (Binary64.toQ x) x.
Proof.
  intros [Hv Hle].
  destruct x as [s|s| |s m e]; unfold Binary64.le, Binary64.zero in Hle.
  - left. exists s. reflexivity.
  - right; left. rewrite Hle. reflexivity.
  - contradiction.
  - right; right. exists m, e.
    destruct (toQ_finite_sign s m e) as [Hpos Hneg].
    destruct s.
    + exfalso. pose proof (proj2 Hneg eq_refl) as H.
      change (Binary64.toQ (S754_zero false)) with 0 in Hle. lra.
    + split; [reflexivity | split; [apply Hpos; reflexivity|]].
      apply valid_roundsTo. exact Hv.
Qed.

Lemma roundsTo_positive (x : Q) (F : Binary64.t) : roundsTo x F -> 0 < x.
Proof.
  intros [d [m [t [Hlow _]]]]. pose proof (two_power_pos (d - 1)). lra.
Qed.

Lemma roundsTo_nonnegative (x : Q) (F : Binary64.t) :
  roundsTo x F -> nonnegative F.
Proof.
  intros H. split; [exact (roundsTo_valid H)|].
  destruct H as [d [m [t [Hlow [Hup [Ht [Hval ->]]]]]]].
  destruct (@rounds_bounds d m t _ Hlow Hup Ht Hval) as [_ [HN _]].
  destruct (encode_cases false (fexp Binary64.prec Binary64.emax d) HN)
    as [[_ ->] | [[_ [_ ->]] | [_ [_ [n [e [-> _]]]]]]];
    cbn [Binary64.le Binary64.zero Binary64.toQ cond_Zopp].
  - apply Qle_refl.
  - reflexivity.
  - apply Qmult_le_0_compat;
      [rewrite <- (Zle_Qle 0); lia | apply Qlt_le_weak, two_power_pos].
Qed.

(** The sum of two numbers that are not negative. *)
Lemma add_describe (a b : Binary64.t) :
  nonnegative a -> nonnegative b ->
  (Binary64.add a b = S754_infinity false
   /\ (a = S754_infinity false \/ b = S754_infinity false))
  \/ (Binary64.isFinite a = true /\ Binary64.isFinite b = true
      /\ ((Binary64.toQ a + Binary64.toQ b == 0
           /\ exists s, Binary64.add a b = S754_zero s)
          \/ roundsTo (Binary64.toQ a + Binary64.toQ b) (Binary64.add a b))).
Proof.
  intros Ha Hb.
  destruct (nonnegative_cases Ha)
    as [[sa ->] | [-> | [ma [ea [-> [Hpa Hra]]]]]];
    destruct (nonnegative_cases Hb)
      as [[sb ->] | [-> | [mb [eb [-> [Hpb Hrb]]]]]];
    try (left; split; [reflexivity | auto]; fail).
  - right. split; [reflexivity | split; [reflexivity | left]].
    split; [reflexivity|]. destruct sa, sb; eexists; reflexivity.
  - right. split; [reflexivity | split; [reflexivity | right]].
    change (Binary64.add (S754_zero sa) (S754_finite false mb eb))
      with (S754_finite false mb eb).
    eapply roundsTo_proper; [|exact Hrb]. cbn [Binary64.toQ]. ring.
  - right. split; [reflexivity | split; [reflexivity | right]].
    change (Binary64.add (S754_finite false ma ea) (S754_zero sb))
      with (S754_finite false ma ea).
    eapply roundsTo_proper; [|exact Hra]. cbn [Binary64.toQ]. ring.
  - right. split; [reflexivity | split; [reflexivity | right]].
    unfold Binary64.add, SFadd.
    set (ez := Z.min ea eb).
    assert (Hza : (ez <= ea)%Z) by (unfold ez; lia).
    assert (Hzb : (ez <= eb)%Z) by (unfold ez; lia).
    pose proof (@toQ_aligned false ma ea ez Hza) as Qa.
    pose proof (@toQ_aligned false mb eb ez Hzb) as Qb.
    cbn [cond_Zopp] in *.
    set (pa := fst (shl_align ma ea ez)) in *.
    set (pb := fst (shl_align mb eb ez)) in *.
    change (Zpos pa + Zpos pb)%Z with (Zpos (pa + pb)).
    cbn [binary_normalize].
    eapply roundsTo_proper; [|apply binary_round_roundsTo].
    rewrite Qa, Qb, Pos2Z.inj_add, inject_Z_plus. ring.
Qed.

Lemma nonnegative_notNaN (x : Binary64.t) :
  nonnegative x -> Binary64.isNaN x = false.
Proof. intros [_ H]. destruct x; [reflexivity | reflexivity | destruct H | reflexivity]. Qed.

Lemma le_infinity (x : Binary64.t) :
  Binary64.isNaN x = false -> Binary64.le x (S754_infinity false).
Proof.
  destruct x as [s|s| |s m e]; intros H; try discriminate;
    cbn [Binary64.le]; auto.
Qed.

Lemma le_zero_any (s : bool) (x : Binary64.t) :
  Binary64.le Binary64.zero x -> Binary64.le (S754_zero s) x.
Proof. destruct x; intros H; exact H. Qed.

Lemma nonnegative_zero (s : bool) : nonnegative (S754_zero s).
Proof. split; [reflexivity | apply Qle_refl]. Qed.

Lemma nonnegative_infinity : nonnegative (S754_infinity false).
Proof. split; reflexivity. Qed.

Lemma add_keeps_nonnegative (a b : Binary64.t) :
  nonnegative a -> nonnegative b -> nonnegative (Binary64.add a b).
Proof.
  intros Ha Hb.
  destruct (add_describe Ha Hb) as [[-> _] | [_ [_ [[_ [s ->]] | H]]]].
  - apply nonnegative_infinity.
  - apply nonnegative_zero.
  - exact (roundsTo_nonnegative H).
Qed.

Lemma le_finite (x y : Binary64.t) :
  nonnegative x -> Binary64.le x y -> Binary64.isFinite y = true ->
  Binary64.isFinite x = true /\ Binary64.toQ x <= Binary64.toQ y.
Proof.
  intros [_ Hx] Hle Hy.
  destruct x as [sx|sx| |sx mx ex], y as [sy|sy| |sy my ey];
    try discriminate; cbn [Binary64.le] in Hle; try contradiction;
    try (split; [reflexivity | exact Hle]);
    unfold Binary64.le, Binary64.zero in Hx; subst sx; discriminate.
Qed.

(** A finite number that denotes 0 is a zero. *)
Lemma nonnegative_toQ_zero (x : Binary64.t) :
  nonnegative x -> Binary64.isFinite x = true -> Binary64.toQ x == 0 ->
  exists s, x = S754_zero s.
Proof.
  intros Hx Hf E.
  destruct (nonnegative_cases Hx) as [[s ->] | [-> | [m [e [-> [Hp _]]]]]].
  - exists s. reflexivity.
  - discriminate.
  - exfalso. lra.
Qed.

Lemma nonnegative_toQ (x : Binary64.t) :
  nonnegative x -> 0 <= Binary64.toQ x.
Proof.
  intros Hx.
  destruct (nonnegative_cases Hx) as [[s ->] | [-> | [m [e [-> [Hp _]]]]]];
    [apply Qle_refl | apply Qle_refl | lra].
Qed.

(** Binary64 addition keeps the order of numbers that are not negative. *)
Lemma add_mono (a a' b b' : Binary64.t) :
  nonnegative a -> nonnegative a' -> nonnegative b -> nonnegative b' ->
  Binary64.le a a' -> Binary64.le b b' ->
  Binary64.le (Binary64.add a b) (Binary64.add a' b').
Proof.
  intros Ha Ha' Hb Hb' Haa Hbb.
  destruct (add_describe Ha' Hb') as [[E' _] | [Fa' [Fb' H']]].
  - rewrite E'. apply le_infinity, nonnegative_notNaN.
    apply add_keeps_nonnegative; assumption.
  - destruct (@le_finite _ _ Ha Haa Fa') as [Fa Qa].
    destruct (@le_finite _ _ Hb Hbb Fb') as [Fb Qb].
    pose proof (nonnegative_toQ Ha) as Pa.
    pose proof (nonnegative_toQ Hb) as Pb.
    destruct (add_describe Ha Hb) as [[_ [E | E]] | [_ [_ H]]];
      [rewrite E in Fa; discriminate | rewrite E in Fb; discriminate |].
    destruct H as [[E0 [s ->]] | H], H' as [[E0' [s' ->]] | H'].
    + apply Qle_refl.
    + apply le_zero_any. exact (proj2 (roundsTo_nonnegative H')).
    + exfalso. pose proof (roundsTo_positive H). lra.
    + apply (roundsTo_mono (x := Binary64.toQ a + Binary64.toQ b)
                           (y := Binary64.toQ a' + Binary64.toQ b'));
        [lra | exact H | exact H'].
Qed.

(** Adding a number that is not negative does not make a number smaller. *)
Lemma add_ge_l (t a : Binary64.t) :
  nonnegative t -> nonnegative a -> Binary64.le t (Binary64.add t a).
Proof.
  intros Ht Ha.
  pose proof (nonnegative_toQ Ha) as Pa.
  destruct (add_describe Ht Ha) as [[-> _] | [Ft [Fa [[E0 [s ->]] | H]]]].
  - apply le_infinity, nonnegative_notNaN. exact Ht.
  - pose proof (nonnegative_toQ Ht) as Pt.
    destruct (@nonnegative_toQ_zero t Ht Ft) as [s' ->]; [lra|].
    apply Qle_refl.
  - destruct (nonnegative_cases Ht) as [[s ->] | [-> | [m [e [E [Hp Hr]]]]]].
    + apply le_zero_any. exact (proj2 (roundsTo_nonnegative H)).
    + discriminate.
    + apply (roundsTo_mono (x := Binary64.toQ t)
                           (y := Binary64.toQ t + Binary64.toQ a));
        [lra | exact Hr | exact H].
Qed.

Lemma orZero_nonnegative (x : option Binary64.t) (t : Binary64.t) :
  nonnegative t ->
  entryHolds (fun v => nonnegative v /\ Binary64.le v t) x ->
  nonnegative (orZero x) /\ Binary64.le (orZero x) t.
Proof.
  intros Ht Hx. destruct x as [v|]; cbn [orZero entryHolds] in *.
  - destruct (Binary64.truthy v); [exact Hx|].
    split; [apply nonnegative_zero | exact (proj2 Ht)].
  - split; [apply nonnegative_zero | exact (proj2 Ht)].
Qed.

(** The running sum of some of the amounts stays below the running total
    of all of them, when no amount is negative. *)
Lemma runningSum_le_total (data : list ProcessedSalesData.t)
      (p : ProcessedSalesData.t -> bool) :
  Forall (fun d => nonnegative (ProcessedSalesData.amount d)) data ->
  forall x t,
    nonnegative t ->
    entryHolds (fun v => nonnegative v /\ Binary64.le v t) x ->
    nonnegative (fold_left Binary64.add (amounts data) t)
    /\ entryHolds (fun v => nonnegative v
                            /\ Binary64.le v (fold_left Binary64.add
                                                        (amounts data) t))
                  (fold_left addTo (amounts (filter p data)) x).
Proof.
  induction 1 as [|d data Hd _ IH]; intros x t Ht Hx.
  - split; [exact Ht | exact Hx].
  - cbn [amounts map fold_left filter].
    assert (Ht' : nonnegative (Binary64.add t (ProcessedSalesData.amount d)))
      by (apply add_keeps_nonnegative; assumption).
    destruct (p d); cbn [amounts map fold_left].
    + apply IH; [exact Ht'|]. cbn [addTo entryHolds].
      destruct (orZero_nonnegative x Ht Hx) as [Hz Hzt].
      split; [apply add_keeps_nonnegative; assumption|].
      apply add_mono; try assumption.
      destruct Hd as [_ Hd]. apply le_refl.
      destruct (ProcessedSalesData.amount d); try reflexivity. destruct Hd.
    + apply IH; [exact Ht'|].
      destruct x as [v|]; [|exact I]. cbn [entryHolds] in *.
      destruct Hx as [Hv Hvt]. split; [exact Hv|].
      exact (@le_trans _ _ _ Hvt (add_ge_l Ht Hd)).
Qed.

(** The location the division computes from the remainder is the place of
    the quotient between two integers. *)
Lemma new_location_located (m2 : positive) (q r : Z) :
  (0 <= r < Zpos m2)%Z ->
  isTail (inject_Z r / inject_Z (Zpos m2))
  /\ new_location (Zpos m2) r
     = loc_of_shr_record (located q (inject_Z r / inject_Z (Zpos m2))).
Proof.
  intros Hr.
  assert (HM : 0 < inject_Z (Zpos m2)) by (rewrite <- (Zlt_Qlt 0); lia).
  assert (HR : 0 <= inject_Z r) by (rewrite <- (Zle_Qle 0); lia).
  assert (HRM : inject_Z r < inject_Z (Zpos m2))
    by (rewrite <- Zlt_Qlt; lia).
  set (M := inject_Z (Zpos m2)) in *. set (R := inject_Z r) in *.
  assert (Ht : isTail (R / M)).
  { split; [apply Qle_shift_div_l; [exact HM | lra]
           | apply Qlt_shift_div_r; [exact HM | lra]]. }
  split; [exact Ht|].
  assert (Hmul : R / M * M == R) by (field; lra).
  assert (H2 : inject_Z (2 * r) == 2 * R)
    by (rewrite inject_Z_mult; reflexivity).
  assert (Hcmp : forall c,
             (2 * r ?= Zpos m2)%Z = c ->
             match c with
             | Lt => R / M < 1 # 2
             | Eq => R / M == 1 # 2
             | Gt => 1 # 2 < R / M
             end).
  { intros c Hc. destruct c.
    - apply Z.compare_eq in Hc.
      assert (E : 2 * R == M) by (rewrite <- H2, Hc; reflexivity).
      apply (Qmult_inj_r _ _ M); [lra|]. rewrite Hmul. lra.
    - apply -> Z.compare_lt_iff in Hc. rewrite Zlt_Qlt, H2 in Hc. fold M in Hc.
      apply Qlt_shift_div_r; [exact HM | lra].
    - apply -> Z.compare_gt_iff in Hc. rewrite Zlt_Qlt, H2 in Hc. fold M in Hc.
      apply Qlt_shift_div_l; [exact HM | lra]. }
  assert (H0 : r = 0%Z <-> R / M == 0).
  { split.
    - intros ->. unfold R. change (inject_Z 0) with 0. field. lra.
    - intros E. assert (E' : R == 0) by (rewrite <- Hmul, E; ring).
      apply (inject_Z_injective r 0). exact E'. }
  unfold new_location.
  destruct (Z.eqb_spec r 0) as [E0 | Hne].
  - apply H0 in E0. rewrite (located_ext q E0).
    destruct (Z.even (Zpos m2));
      unfold new_location_even, new_location_odd;
      destruct (Z.eqb_spec r 0) as [_ | Hne]; try reflexivity;
      exfalso; apply Hne, H0; exact E0.
  - assert (Hpos : 0 < R / M).
    { destruct Ht as [Hge _]. apply Qle_lteq in Hge as [Hlt | Heq];
        [exact Hlt|]. exfalso. apply Hne, H0. symmetry. exact Heq. }
    destruct (Z.even (Zpos m2)) eqn:Ev;
      unfold new_location_even, new_location_odd;
      destruct (Z.eqb_spec r 0) as [E0 | _]; try contradiction.
    + specialize (Hcmp _ eq_refl).
      destruct (2 * r ?= Zpos m2)%Z;
        destruct (located_cases q Ht)
          as [[E _] | [[E1 [E2 E]] | [[E1 E] | [E1 E]]]];
        try (exfalso; lra); rewrite E; reflexivity.
    + assert (Hodd : (2 * r <> Zpos m2)%Z).
      { intros E. rewrite <- E, Z.even_mul in Ev. discriminate. }
      specialize (Hcmp _ eq_refl).
      destruct (Z.compare_spec (2 * r + 1) (Zpos m2)) as [Hc | Hc | Hc];
        destruct (Z.compare_spec (2 * r) (Zpos m2)) as [Hd | Hd | Hd];
        try lia;
        destruct (located_cases q Ht)
          as [[E _] | [[E1 [E2 E]] | [[E1 E] | [E1 E]]]];
        try (exfalso; lra); rewrite E; reflexivity.
Qed.

(** The quotient of two positive numbers, the smaller by the larger, is
    rounded to a number that is at most 1. *)
Lemma div_le_one (mv mt : positive) (ev et : Z) :
  Binary64.toQ (S754_finite false mv ev)
  <= Binary64.toQ (S754_finite false mt et) ->
  exists N E,
    Binary64.div (S754_finite false mv ev) (S754_finite false mt et)
    = encode false N E
    /\ (0 <= N <= 2 ^ 53)%Z /\ (E <= 0)%Z
    /\ inject_Z N * 2 ^ E <= 1.
Proof.
  cbn [Binary64.toQ cond_Zopp]. intros Hle.
  unfold Binary64.div, SFdiv, SFdiv_core_binary. cbn [xorb Zdigits2].
  set (D := (Zpos (digits2_pos mv) + ev - (Zpos (digits2_pos mt) + et))%Z).
  set (e' := Z.min (fexp Binary64.prec Binary64.emax D) (ev - et)).
  set (s := (ev - et - e')%Z).
  assert (Hs : (0 <= s)%Z) by (unfold s, e'; lia).
  set (m' := match s with
             | 0%Z => Zpos mv
             | Zpos _ => Z.shiftl (Zpos mv) s
             | Zneg _ => 0%Z
             end).
  assert (Em' : m' = (Zpos mv * 2 ^ s)%Z).
  { unfold m'. destruct s as [|p|p]; [rewrite Z.pow_0_r; ring | | lia].
    apply Z.shiftl_mul_pow2. lia. }
  assert (Hm'pos : (0 < m')%Z).
  { rewrite Em'. apply Z.mul_pos_pos; [lia | apply Z.pow_pos_nonneg; lia]. }
  pose proof (Z_div_mod m' (Zpos mt) ltac:(lia)) as Hdm.
  destruct (Z.div_eucl m' (Zpos mt)) as [q r]. destruct Hdm as [Hq Hr].
  destruct (@new_location_located mt q r Hr) as [Htail ->].
  assert (Hq0 : (0 <= q)%Z).
  { destruct (Z_lt_le_dec q 0) as [Hneg | Hge]; [|exact Hge]. exfalso.
    assert (Zpos mt * q <= - Zpos mt)%Z by nia. lia. }
  destruct (@binary_round_aux_located false q
              (inject_Z r / inject_Z (Zpos mt)) e' Hq0 Htail)
    as [m2 [t2 [Ht2 [Hm2 [_ [Hval ->]]]]]].
  set (E := Z.max e' (fexp Binary64.prec Binary64.emax (Zdigits2 q + e')))
    in *.
  (* the quotient, exactly *)
  pose proof (two_power_pos ev) as Pev. pose proof (two_power_pos et) as Pet.
  assert (HMt : 0 < inject_Z (Zpos mt)) by (rewrite <- (Zlt_Qlt 0); lia).
  assert (Hquot : inject_Z q + inject_Z r / inject_Z (Zpos mt)
                  == inject_Z (Zpos mv) * 2 ^ s / inject_Z (Zpos mt)).
  { assert (Hm'Q : inject_Z m' == inject_Z (Zpos mt) * inject_Z q + inject_Z r)
      by (rewrite Hq, inject_Z_plus, inject_Z_mult; reflexivity).
    rewrite Em', inject_Z_mult, two_power_Z in Hm'Q by exact Hs.
    rewrite Hm'Q. field. lra. }
  assert (Hratio : inject_Z (Zpos mv) * 2 ^ s / inject_Z (Zpos mt)
                   <= 2 ^ (- e')).
  { apply Qle_shift_div_r; [exact HMt|].
    assert (Es : (2 : Q) ^ s == 2 ^ ev / 2 ^ et * 2 ^ (- e')).
    { unfold s. replace (ev - et - e')%Z with ((ev - et) + - e')%Z by ring.
      rewrite two_power_add, two_power_sub. reflexivity. }
    rewrite Es.
    pose proof (two_power_pos (- e')) as Pe'.
    setoid_replace (inject_Z (Zpos mv) * (2 ^ ev / 2 ^ et * 2 ^ (- e')))
      with (inject_Z (Zpos mv) * 2 ^ ev / 2 ^ et * 2 ^ (- e'))
      by (field; lra).
    rewrite (Qmult_comm (2 ^ (- e'))).
    apply Qmult_le_compat_r; [|lra].
    apply Qle_shift_div_r; [exact Pet|]. exact Hle. }
  (* the exponents *)
  assert (HD : (D <= 0)%Z).
  { destruct (digits_in_Q mv ev) as [Hlow _].
    destruct (digits_in_Q mt et) as [_ Hup].
    assert (H : (2 : Q) ^ (Zpos (digits2_pos mv) + ev - 1)
                < 2 ^ (Zpos (digits2_pos mt) + et)) by lra.
    apply two_power_lt_inv in H. unfold D. lia. }
  assert (He' : (e' <= -53)%Z).
  { unfold e', fexp, emin, Binary64.prec, Binary64.emax. lia. }
  assert (Hqup : (q < 2 ^ (- e' + 1))%Z).
  { assert (Hq1 : inject_Z q <= 2 ^ (- e')).
    { destruct Htail as [Ht0 _]. lra. }
    rewrite <- (@two_power_Z (- e')) in Hq1 by lia.
    rewrite <- Zle_Qle in Hq1.
    rewrite Z.pow_add_r by lia. change (2 ^ 1)%Z with 2%Z.
    assert (0 < 2 ^ (- e'))%Z by (apply Z.pow_pos_nonneg; lia). lia. }
  assert (Hdq : (Zdigits2 q + e' <= 1)%Z).
  { pose proof (@Zdigits2_le q (- e' + 1) Hq0 ltac:(lia) Hqup). lia. }
  assert (HE : (E <= 0)%Z).
  { unfold E, fexp, emin, Binary64.prec, Binary64.emax. lia. }
  assert (HEe : (0 <= E - e')%Z) by (unfold E; lia).
  assert (HN : (nearestEven m2 t2 <= 2 ^ (- E))%Z).
  { apply nearestEven_le; [exact Ht2|].
    rewrite Hval, Hquot, !two_power_Z by lia.
    apply Qle_shift_div_r; [apply two_power_pos|].
    rewrite <- two_power_add. replace (- E + (E - e'))%Z with (- e')%Z by ring.
    exact Hratio. }
  exists (nearestEven m2 t2), E.
  split; [reflexivity | split; [|split; [exact HE|]]].
  - destruct (nearestEven_cases m2 Ht2) as [[-> _] | [-> _]]; lia.
  - apply (Qle_trans _ (inject_Z (2 ^ (- E)) * 2 ^ E)).
    + apply Qmult_le_compat_r; [rewrite <- Zle_Qle; exact HN|].
      apply Qlt_le_weak, two_power_pos.
    + rewrite two_power_Z by lia. rewrite <- two_power_add.
      replace (- E + E)%Z with 0%Z by ring. apply Qle_refl.
Qed.

(** A rounding that does not overflow lies where its value lies. *)
Lemma encode_range (N E : Z) (G : Binary64.t) :
  (0 <= N <= 2 ^ 53)%Z -> (E + 1 <= 971)%Z ->
  Binary64.isFinite G = true ->
  inject_Z N * 2 ^ E <= Binary64.toQ G ->
  Binary64.le Binary64.zero (encode false N E)
  /\ Binary64.le (encode false N E) G.
Proof.
  intros HN HE HG Hle.
  destruct (encode_cases false E HN)
    as [[H0 ->] | [[Hp [Ho _]] | [Hp [_ [n [e [-> [_ [_ Hv]]]]]]]]].
  - subst N. split; [apply Qle_refl|].
    assert (H0 : 0 <= Binary64.toQ G).
    { eapply Qle_trans; [|exact Hle]. change (inject_Z 0) with 0.
      rewrite Qmult_0_l. apply Qle_refl. }
    destruct G as [s|s| |s m e]; try discriminate; exact H0.
  - apply overflows_exponent in Ho. lia.
  - assert (Hpos : 0 <= inject_Z N * 2 ^ E).
    { apply Qmult_le_0_compat;
        [rewrite <- (Zle_Qle 0); lia | apply Qlt_le_weak, two_power_pos]. }
    split.
    + unfold Binary64.le, Binary64.zero. cbn [Binary64.toQ cond_Zopp].
      rewrite Hv. exact Hpos.
    + destruct G as [s|s| |s m' e']; try discriminate;
        unfold Binary64.le; cbn [Binary64.toQ cond_Zopp] in *;
        rewrite Hv; exact Hle.
Qed.

Lemma hundred_value : Binary64.toQ hundred == 100.
Proof. reflexivity. Qed.

(** A number between 0 and 1, times 100, is rounded to a number between 0
    and 100. *)
Lemma mul_hundred_range (N E : Z) :
  (0 <= N <= 2 ^ 53)%Z -> (E <= 0)%Z -> inject_Z N * 2 ^ E <= 1 ->
  Binary64.le Binary64.zero (Binary64.mul (encode false N E) hundred)
  /\ Binary64.le (Binary64.mul (encode false N E) hundred) hundred.
Proof.
  intros HN HE Hle.
  destruct (encode_cases false E HN)
    as [[H0 ->] | [[Hp [Ho _]] | [Hp [_ [n [e [-> [He [HEe Hv]]]]]]]]].
  - split; [apply Qle_refl | vm_compute; discriminate].
  - apply overflows_exponent in Ho. lia.
  - unfold hundred, Binary64.mul, SFmul. cbn [xorb].
    set (m100 := 7036874417766400%positive).
    assert (Hq1 : inject_Z (Zpos n) * 2 ^ e <= 1) by (rewrite Hv; exact Hle).
    pose proof (two_power_pos e) as Pe.
    assert (He0 : (e <= 0)%Z).
    { destruct (Z_lt_le_dec 0 e) as [Hgt | Hle0]; [|exact Hle0]. exfalso.
      assert (H2 : (2 : Q) ^ 1 <= 2 ^ e) by (apply two_power_le; lia).
      change ((2 : Q) ^ 1) with 2 in H2.
      assert (Hn : 1 <= inject_Z (Zpos n)) by (rewrite <- (Zle_Qle 1); lia).
      assert (Hmul : 1 * 2 ^ e <= inject_Z (Zpos n) * 2 ^ e)
        by (apply Qmult_le_compat_r; lra).
      lra. }
    assert (HV : inject_Z (Zpos (n * m100)) * 2 ^ (e + -46) <= 100).
    { rewrite Pos2Z.inj_mul, inject_Z_mult, two_power_add.
      setoid_replace (inject_Z (Zpos n) * inject_Z (Zpos m100)
                      * (2 ^ e * 2 ^ (-46)))
        with (inject_Z (Zpos n) * 2 ^ e * (inject_Z (Zpos m100) * 2 ^ (-46)))
        by ring.
      change (inject_Z (Zpos m100) * 2 ^ (-46)) with (Binary64.toQ hundred).
      rewrite hundred_value. lra. }
    change loc_Exact
      with (loc_of_shr_record (located (Zpos (n * m100)) 0)).
    destruct (@binary_round_aux_located false (Zpos (n * m100)) 0 (e + -46))
      as [m2 [t2 [Ht2 [Hm2 [_ [Hval ->]]]]]]; [lia | split; lra |].
    cbn [Zdigits2] in *.
    set (dg := Zpos (digits2_pos (n * m100))) in *.
    set (E2 := Z.max (e + -46)
                     (fexp Binary64.prec Binary64.emax (dg + (e + -46))))
      in *.
    assert (Hdg : (dg + (e + -46) <= 7)%Z).
    { destruct (digits_in_Q (n * m100) (e + -46)) as [Hlow _]. fold dg in Hlow.
      assert (H : (2 : Q) ^ (dg + (e + -46) - 1) < 2 ^ 7).
      { eapply Qle_lt_trans; [exact Hlow|].
        eapply Qle_lt_trans; [exact HV | reflexivity]. }
      apply two_power_lt_inv in H. lia. }
    assert (HE2 : (E2 <= -46)%Z).
    { unfold E2, fexp, emin, Binary64.prec, Binary64.emax. lia. }
    assert (HE2e : (0 <= E2 - (e + -46))%Z) by (unfold E2; lia).
    assert (HN2 : (nearestEven m2 t2 <= 100 * 2 ^ (- E2))%Z).
    { apply nearestEven_le; [exact Ht2|].
      rewrite Hval, inject_Z_mult, !two_power_Z by lia.
      change (inject_Z 100) with 100.
      apply Qle_shift_div_r; [apply two_power_pos|].
      setoid_replace (inject_Z (Zpos (n * m100)) + 0)
        with (inject_Z (Zpos (n * m100))) by ring.
      setoid_replace (100 * 2 ^ (- E2) * 2 ^ (E2 - (e + -46)))
        with (100 * (2 ^ (- E2) * 2 ^ (E2 - (e + -46)))) by ring.
      rewrite <- two_power_add.
      replace (- E2 + (E2 - (e + -46)))%Z with (- (e + -46))%Z by ring.
      pose proof (two_power_pos (e + -46)) as P1.
      assert (Einv : (2 : Q) ^ (- (e + -46)) == / 2 ^ (e + -46))
        by (apply Qpower_opp).
      rewrite Einv.
      change (100 * / 2 ^ (e + -46)) with (100 / 2 ^ (e + -46)).
      apply Qle_shift_div_l; [exact P1 | exact HV]. }
    change (S754_finite false m100 (-46)) with hundred.
    apply encode_range; [|lia | reflexivity|].
    + destruct (nearestEven_cases m2 Ht2) as [[-> _] | [-> _]]; lia.
    + rewrite hundred_value.
      apply (Qle_trans _ (inject_Z (100 * 2 ^ (- E2)) * 2 ^ E2)).
      * apply Qmult_le_compat_r; [rewrite <- Zle_Qle; exact HN2|].
        apply Qlt_le_weak, two_power_pos.
      * rewrite inject_Z_mult, two_power_Z by lia.
        change (inject_Z 100) with 100.
        setoid_replace (100 * 2 ^ (- E2) * 2 ^ E2)
          with (100 * (2 ^ (- E2) * 2 ^ E2)) by ring.
        rewrite <- two_power_add. replace (- E2 + E2)%Z with 0%Z by ring.
        change ((2 : Q) ^ 0) with 1. lra.
Qed.









(* ================================================================== *)
(** * The aggregator *)

Lemma aggregateByField_unfold (toS : Binary64.t -> jsstring) data field :
  aggregateByField toS data field
  = let '(m, total) :=
      fold_left (accumulate toS field) data ([], Binary64.zero) in
    JSArray.sort descendingByValue (map (toPoint total) m).
Proof.
  unfold aggregateByField. destruct (fold_left _ data _) as [m total].
  reflexivity.
Qed.

Lemma toPoint_name (total : Binary64.t) (m : JSMap.t Binary64.t) :
  map ChartDataPoint.name (map (toPoint total) m) = map fst m.
Proof.
  rewrite map_map. apply map_ext. intros [k v]. reflexivity.
Qed.

Lemma toPoint_value (total : Binary64.t) (m : JSMap.t Binary64.t) :
  map ChartDataPoint.value (map (toPoint total) m) = map snd m.
Proof.
  rewrite map_map. apply map_ext. intros [k v]. reflexivity.
Qed.

Lemma totalAmount_runningTotal (data : list ProcessedSalesData.t) :
  totalAmount data = runningTotal (amounts data).
Proof.
  unfold totalAmount, runningTotal, amounts. generalize Binary64.zero.
  induction data as [|d data IH]; intros t; simpl; [reflexivity | apply IH].
Qed.

Lemma validAmounts_aboveEmin (data : list ProcessedSalesData.t)
      (p : ProcessedSalesData.t -> bool) :
  validAmounts data -> Forall aboveEmin (amounts (filter p data)).
Proof.
  induction 1 as [|d data Hd _ IH]; simpl; [constructor|].
  destruct (p d); simpl; [constructor; [apply valid_aboveEmin; exact Hd|]|];
    exact IH.
Qed.

Lemma finiteAmounts_filter (data : list ProcessedSalesData.t)
      (p : ProcessedSalesData.t -> bool) :
  finiteAmounts data ->
  Forall (fun a => Binary64.isFinite a = true) (amounts (filter p data)).
Proof.
  induction 1 as [|d data Hd _ IH]; simpl; [constructor|].
  destruct (p d); simpl; [constructor; assumption | exact IH].
Qed.

Lemma inUnits_valid (g : Z) (units : ProcessedSalesData.t -> Z)
      (data : list ProcessedSalesData.t) :
  inUnits g units data -> validAmounts data /\ finiteAmounts data.
Proof.
  intros [_ [Hall _]]. split.
  - eapply Forall_impl; [|exact Hall]. intros d [Hv _]. exact Hv.
  - eapply Forall_impl; [|exact Hall]. intros d [_ [Hf _]]. exact Hf.
Qed.

Lemma StronglySorted_weaken_on (A : Type) (P : A -> Prop)
      (R R' : A -> A -> Prop) (l : list A) :
  (forall a b, P a -> P b -> R a b -> R' a b) ->
  Forall P l -> StronglySorted R l -> StronglySorted R' l.
Proof.
  intros HR Hl Hs. induction Hs as [|x l Hs IH Hx]; constructor.
  - apply IH. inversion Hl; assumption.
  - inversion Hl as [|? ? Hpx Hpl]; subst.
    rewrite Forall_forall in *. intros b Hb.
    apply HR; [exact Hpx | apply Hpl; exact Hb | apply Hx; exact Hb].
Qed.

Lemma descendingByValue_spec (a b : ChartDataPoint.t) :
  comparable a -> comparable b ->
  (descendingByValue a b = false <-> ranksBefore a b).
Proof.
  intros [Ha Na] [Hb Nb]. unfold descendingByValue, ranksBefore.
  rewrite (@le_iff_not_lt _ _ Nb Na).
  pose proof (@sub_positive _ _ Ha Hb Na Nb) as H.
  destruct (isPositive _); split; intros H'.
  - discriminate.
  - exfalso. apply H'. apply H. reflexivity.
  - intros Hlt. apply H in Hlt. discriminate.
  - reflexivity.
Qed.

Lemma descendingByValue_trans (x y z : ChartDataPoint.t) :
  comparable x -> comparable y -> comparable z ->
  descendingByValue x y = false -> descendingByValue y z = false ->
  descendingByValue x z = false.
Proof.
  intros Hx Hy Hz Hxy Hyz.
  apply descendingByValue_spec in Hxy, Hyz; try assumption.
  apply descendingByValue_spec; try assumption.
  unfold ranksBefore in *. eapply le_trans; eassumption.
Qed.

Lemma descendingByValue_total (x y : ChartDataPoint.t) :
  comparable x -> comparable y ->
  descendingByValue x y = true -> descendingByValue y x = false.
Proof.
  intros [Hx Nx] [Hy Ny] Hxy. unfold descendingByValue in *.
  apply (@sub_positive _ _ Hx Hy Nx Ny) in Hxy.
  destruct (isPositive _) eqn:E; [|reflexivity].
  apply (@sub_positive _ _ Hy Hx Ny Nx) in E.
  exfalso. exact (@lt_asym _ _ Hxy E).
Qed.



Section Groups.

Variable Binary64_toString : Binary64.t -> jsstring.
Variable field : Key.t.

Let key : ProcessedSalesData.t -> jsstring := keyOf Binary64_toString field.

(** The map and the total the loop of [aggregateByField] ends with. *)
Lemma accumulate_groups (data : list ProcessedSalesData.t)
      (m0 : JSMap.t Binary64.t) (t0 : Binary64.t) :
  let '(m, t) :=
    fold_left (accumulate Binary64_toString field) data (m0, t0) in
  map fst m = fold_left see (map key data) (map fst m0)
  /\ (forall k, JSMap.get k m
                = fold_left addTo
                            (groupAmounts Binary64_toString field data k)
                            (JSMap.get k m0))
  /\ t = fold_left Binary64.add (amounts data) t0.
Proof.
  revert m0 t0; induction data as [|d data IH]; intros m0 t0; simpl.
  - repeat split; auto.
  - fold (keyOf Binary64_toString field d). fold key.
    specialize (IH (JSMap.set (key d)
                              (Binary64.add (orZero (JSMap.get (key d) m0))
                                            (ProcessedSalesData.amount d)) m0)
                   (Binary64.add t0 (ProcessedSalesData.amount d))).
    destruct (fold_left _ data _) as [m t].
    destruct IH as [Hk [Hv Ht]]. split; [|split].
    + rewrite Hk, set_keys. reflexivity.
    + intros k. rewrite Hv. unfold groupAmounts, amounts. simpl.
      fold key. destruct (JSString.eqb (key d) k) eqn:E.
      * apply JSString_eqb_eq in E. subst k.
        rewrite get_set_same. reflexivity.
      * apply JSString_eqb_neq in E. rewrite get_set_other by exact E.
        reflexivity.
    + exact Ht.
Qed.

(** What [aggregateByField] returns, before the sort: one entry per key, in
    the order the keys first occur, holding the running sum of the amounts
    of its group. *)
Lemma aggregateByField_groups (data : list ProcessedSalesData.t) :
  exists m,
    aggregateByField Binary64_toString data field
    = JSArray.sort descendingByValue
                   (map (toPoint (runningTotal (amounts data))) m)
    /\ map fst m = firstSeen (map key data)
    /\ forall k v, In (k, v) m ->
                   runningSum (groupAmounts Binary64_toString field data k)
                   = Some v.
Proof.
  rewrite aggregateByField_unfold.
  pose proof (accumulate_groups data [] Binary64.zero) as H.
  destruct (fold_left _ data _) as [m total]. destruct H as [Hk [Hv Ht]].
  exists m. subst total. fold (runningTotal (amounts data)).
  split; [reflexivity | split].
  - exact Hk.
  - intros k v Hin.
    assert (Hnd : NoDup (map fst m)).
    { rewrite Hk. apply (proj1 (fold_see_spec (map key data) (NoDup_nil _))). }
    rewrite <- (In_get _ _ _ Hnd Hin), Hv. reflexivity.
Qed.

(** The points before the sort, and what is known of any of them. *)
Lemma aggregateByField_points (data : list ProcessedSalesData.t) :
  exists pts,
    aggregateByField Binary64_toString data field
    = JSArray.sort descendingByValue pts
    /\ Permutation (aggregateByField Binary64_toString data field) pts
    /\ map ChartDataPoint.name pts = firstSeen (map key data)
    /\ Forall (fun p =>
                 runningSum (groupAmounts Binary64_toString field data
                                          (ChartDataPoint.name p))
                 = Some (ChartDataPoint.value p)
                 /\ ChartDataPoint.percentage p
                    = if isPositive (runningTotal (amounts data))
                      then Binary64.mul
                             (Binary64.div (ChartDataPoint.value p)
                                           (runningTotal (amounts data)))
                             hundred
                      else Binary64.zero) pts.
Proof.
  destruct (aggregateByField_groups data) as [m [Heq [Hk Hv]]].
  exists (map (toPoint (runningTotal (amounts data))) m).
  split; [exact Heq | split; [|split]].
  - rewrite Heq. apply sort_Permutation.
  - rewrite toPoint_name. exact Hk.
  - apply Forall_forall. intros p Hin.
    apply in_map_iff in Hin as [[k v] [<- Hin]]. simpl.
    split; [apply Hv; exact Hin | reflexivity].
Qed.

(** The value of a point is a binary64 number as soon as the amounts
    are. *)
Lemma runningSum_group_aboveEmin (data : list ProcessedSalesData.t)
      (k : jsstring) (v : Binary64.t) :
  validAmounts data ->
  runningSum (groupAmounts Binary64_toString field data k) = Some v ->
  aboveEmin v.
Proof.
  intros Hval Hv.
  pose proof (@runningSum_aboveEmin
                (groupAmounts Binary64_toString field data k) None
                (@validAmounts_aboveEmin _ _ Hval) I) as H.
  unfold runningSum in Hv. rewrite Hv in H. exact H.
Qed.

Lemma runningSum_group_notNaN (data : list ProcessedSalesData.t)
      (k : jsstring) (v : Binary64.t) :
  validAmounts data -> finiteAmounts data ->
  runningSum (groupAmounts Binary64_toString field data k) = Some v ->
  Binary64.isNaN v = false.
Proof.
  intros Hval Hfin Hv.
  pose proof (@runningSum_notNaN
                (groupAmounts Binary64_toString field data k) None
                (@validAmounts_aboveEmin _ _ Hval)
                (@finiteAmounts_filter _ _ Hfin) I I) as H.
  unfold runningSum in Hv. rewrite Hv in H. exact H.
Qed.

(** The value of a point is the exact sum of its group when the amounts are
    given in whole units. *)
Lemma runningSum_group_exact (g : Z) (units : ProcessedSalesData.t -> Z)
      (data : list ProcessedSalesData.t) (k : jsstring) (v : Binary64.t) :
  inUnits g units data ->
  runningSum (groupAmounts Binary64_toString field data k) = Some v ->
  Binary64.toQ v
  == sumOver (fun d => Binary64.toQ (ProcessedSalesData.amount d))
             (filter (fun d => JSString.eqb (key d) k) data).
Proof.
  intros Hu Hv.
  destruct (@inUnits_filter _ _ _ (fun d => JSString.eqb (key d) k) Hu)
    as [Hall [Hb Hq]].
  destruct Hu as [Hg _].
  pose proof (@runningSum_exact g _ _ Hg Hall 0%Z None eq_refl) as H.
  unfold runningSum, groupAmounts in Hv. fold key in Hv.
  rewrite Hv in H. cbn [entryMultiple] in H.
  destruct H as [_ [_ H]]; [simpl; lia|].
  rewrite H, Hq. rewrite Z.add_0_l. reflexivity.
Qed.

Lemma runningTotal_data_exact (g : Z) (units : ProcessedSalesData.t -> Z)
      (data : list ProcessedSalesData.t) :
  inUnits g units data ->
  Binary64.isFinite (runningTotal (amounts data)) = true
  /\ Binary64.toQ (runningTotal (amounts data)) == sumAmounts data.
Proof.
  intros Hu.
  destruct (@inUnits_filter _ _ _ (fun _ => true) Hu) as [Hall [Hb Hq]].
  rewrite filter_true in Hall, Hb, Hq.
  destruct Hu as [Hg _].
  assert (H0 : multiple g 0 Binary64.zero).
  { split; [reflexivity | split; [exact I|]].
    cbn [Binary64.toQ Binary64.zero]. ring. }
  pose proof (@runningTotal_exact g _ _ Hg Hall 0%Z Binary64.zero H0) as H.
  destruct H as [Hf [_ H]]; [simpl; lia|].
  split; [exact Hf|].
  unfold runningTotal. rewrite H, Z.add_0_l. symmetry. exact Hq.
Qed.

(** The exact values of the points add up to the exact amounts when the
    amounts are given in whole units. *)
Lemma values_of_points_exact (g : Z) (units : ProcessedSalesData.t -> Z)
      (data : list ProcessedSalesData.t) (pts : list ChartDataPoint.t) :
  inUnits g units data ->
  map ChartDataPoint.name pts = firstSeen (map key data) ->
  Forall (fun p =>
            runningSum (groupAmounts Binary64_toString field data
                                     (ChartDataPoint.name p))
            = Some (ChartDataPoint.value p)) pts ->
  sumOver (fun p => Binary64.toQ (ChartDataPoint.value p)) pts
  == sumAmounts data.
Proof.
  intros Hu Hnames Hv.
  rewrite (@sumOver_ext _ _
             (fun p => sumOver
                         (fun d => Binary64.toQ (ProcessedSalesData.amount d))
                         (filter (fun d => JSString.eqb (key d)
                                                        (ChartDataPoint.name p))
                                 data))).
  - rewrite <- (sumOver_map ChartDataPoint.name
                  (fun k => sumOver
                              (fun d => Binary64.toQ
                                          (ProcessedSalesData.amount d))
                              (filter (fun d => JSString.eqb (key d) k)
                                      data))).
    rewrite Hnames.
    destruct (firstSeen_spec (map key data)) as [Hnd [Hin _]].
    apply sumOver_groups; [exact Hnd|].
    intros d Hd. apply Hin. apply in_map. exact Hd.
  - intros p Hp. rewrite Forall_forall in Hv.
    apply (@runningSum_group_exact _ _ _ _ _ Hu (Hv p Hp)).
Qed.




End Groups.

Lemma noNaNValue_Permutation (l l' : list ChartDataPoint.t) :
  Permutation l l' -> noNaNValue l -> noNaNValue l'.
Proof. intros Hp. unfold noNaNValue. apply Permutation_Forall. exact Hp. Qed.

Lemma sumValues_sumOver (l : list ChartDataPoint.t) :
  sumValues l = sumOver (fun p => Binary64.toQ (ChartDataPoint.value p)) l.
Proof. reflexivity. Qed.


(** The ranking is in order as soon as no value is NaN, and no value is NaN
    when every amount is finite. *)
Lemma aggregateByField_ranked
      (Binary64_toString : Binary64.t -> jsstring)
      (data : list ProcessedSalesData.t) (field : Key.t) :
  validAmounts data ->
  (noNaNValue (aggregateByField Binary64_toString data field) ->
   Forall comparable (aggregateByField Binary64_toString data field)
   /\ StronglySorted ranksBefore
        (aggregateByField Binary64_toString data field))
  /\ (finiteAmounts data ->
      noNaNValue (aggregateByField Binary64_toString data field)).
Proof.
  intros Hval.
  destruct (aggregateByField_points Binary64_toString field data)
    as [pts [Heq [Hperm [_ Hall]]]].
  assert (Habove : Forall (fun p => aboveEmin (ChartDataPoint.value p)) pts).
  { eapply Forall_impl; [|exact Hall]. intros p [H _].
    exact (@runningSum_group_aboveEmin _ _ _ _ _ Hval H). }
  split.
  - intros Hnan.
    assert (Hdom : Forall comparable pts).
    { apply (@noNaNValue_Permutation _ _ Hperm) in Hnan.
      unfold noNaNValue in Hnan. rewrite Forall_forall in *.
      intros p Hp. split; [apply Habove | apply Hnan]; exact Hp. }
    assert (Hdom' : Forall comparable
                      (aggregateByField Binary64_toString data field)).
    { eapply Permutation_Forall; [apply Permutation_sym, Hperm | exact Hdom]. }
    split; [exact Hdom'|].
    rewrite Heq.
    apply (@StronglySorted_weaken_on _ comparable
             (fun x y => descendingByValue x y = false)).
    + intros a b Ha Hb Hab. apply descendingByValue_spec; assumption.
    + rewrite <- Heq. exact Hdom'.
    + apply (@sort_StronglySorted_on _ descendingByValue comparable).
      * exact descendingByValue_trans.
      * exact descendingByValue_total.
      * exact Hdom.
  - intros Hfin. apply (@noNaNValue_Permutation _ _ (Permutation_sym Hperm)).
    eapply Forall_impl; [|exact Hall]. intros p [H _].
    exact (@runningSum_group_notNaN _ _ _ _ _ Hval Hfin H).
Qed.


(** C6, as the code has it.  On amounts that are binary64 numbers, the
    output of [aggregateByField] is sorted non-increasing by value (each
    point's value is at least the value of every later point, the next one
    included) as soon as no point carries the value NaN; and no point does
    when every amount is finite. *)
Theorem aggregateByField_sorted
        (Binary64_toString : Binary64.t -> jsstring)
        (data : list ProcessedSalesData.t) (field : Key.t) :
  validAmounts data ->
  (noNaNValue (aggregateByField Binary64_toString data field) ->
   StronglySorted ranksBefore (aggregateByField Binary64_toString data field)
   /\ Sorted ranksBefore (aggregateByField Binary64_toString data field))
  /\ (finiteAmounts data ->
      noNaNValue (aggregateByField Binary64_toString data field)).
Proof.
  intros Hval.
  destruct (@aggregateByField_ranked Binary64_toString data field Hval)
    as [Hsorted Hnan].
  split; [|exact Hnan].
  intros H. destruct (Hsorted H) as [_ Hs].
  split; [exact Hs | apply StronglySorted_Sorted; exact Hs].
Qed.


(** Whole amounts are whole multiples of the unit 1. *)
Lemma marchSales_inUnits : inUnits 0 wholeAmount Sample.marchSales.
Proof.
  split; [split; discriminate | split].
  - repeat constructor; try reflexivity; try (vm_compute; discriminate).
  - reflexivity.
Qed.




Lemma marchSales_valid : validAmounts Sample.marchSales.
Proof. repeat constructor. Qed.

(** 250 for one department before 100 for the other. *)
Lemma aggregateByField_sorted_witness :
  validAmounts Sample.marchSales
  /\ noNaNValue (aggregateByField Sample.binary64ToString Sample.marchSales
                                  Key.department)
  /\ StronglySorted ranksBefore
       (aggregateByField Sample.binary64ToString Sample.marchSales
                         Key.department).
Proof.
  split; [exact marchSales_valid|].
  destruct (@aggregateByField_sorted Sample.binary64ToString
              Sample.marchSales Key.department marchSales_valid)
    as [Hsorted Hnan].
  assert (H : noNaNValue
                (aggregateByField Sample.binary64ToString Sample.marchSales
                                  Key.department)).
  { apply Hnan. repeat constructor. }
  split; [exact H | exact (proj1 (Hsorted H))].
Defined.

(** C6 as stated fails: a record whose amount is NaN gives its department
    the value NaN, which is neither greater than nor equal to the value 1
    of the next point; no order of the two points is non-increasing. *)
Lemma aggregateByField_unsorted_NaN :
  aggregateByField Sample.binary64ToString Sample.oneUnreadable
                   Key.department
  = [{| ChartDataPoint.name := Sample.salesA;
        ChartDataPoint.value := S754_nan;
        ChartDataPoint.percentage := Binary64.zero |};
     {| ChartDataPoint.name := Sample.salesB;
        ChartDataPoint.value := Binary64.ofZ 1;
        ChartDataPoint.percentage := Binary64.zero |}]
  /\ ~ Sorted ranksBefore
         (aggregateByField Sample.binary64ToString Sample.oneUnreadable
                           Key.department)
  /\ forall l,
       Permutation (aggregateByField Sample.binary64ToString
                                     Sample.oneUnreadable Key.department) l ->
       ~ Sorted ranksBefore l.
Proof.
  assert (Hout : aggregateByField Sample.binary64ToString
                                  Sample.oneUnreadable Key.department
                 = [{| ChartDataPoint.name := Sample.salesA;
                       ChartDataPoint.value := S754_nan;
                       ChartDataPoint.percentage := Binary64.zero |};
                    {| ChartDataPoint.name := Sample.salesB;
                       ChartDataPoint.value := Binary64.ofZ 1;
                       ChartDataPoint.percentage := Binary64.zero |}])
    by reflexivity.
  assert (Hall : forall l,
             Permutation (aggregateByField Sample.binary64ToString
                            Sample.oneUnreadable Key.department) l ->
             ~ Sorted ranksBefore l).
  { intros l Hperm Hs. rewrite Hout in Hperm.
    apply Permutation_length_2_inv in Hperm as [-> | ->];
      inversion Hs as [|? ? _ Hhd]; subst;
      inversion Hhd as [|? ? Hr]; subst; exact Hr. }
  split; [exact Hout | split; [|exact Hall]].
  apply Hall. apply Permutation_refl.
Qed.




(** Nor do the percentages of a positive total have to be near 100: a
    return of 2.07 against sales of 1.65 and 0.42 leaves the total 2^-54,
    the rounding error of the two additions, and the three percentages add
    up to 512, whether they are added exactly or by binary64 additions. *)
Lemma aggregateByField_percentages_cancellation :
  runningTotal (amounts Sample.returns)
  = S754_finite false 4503599627370496 (-106)
  /\ isPositive (runningTotal (amounts Sample.returns)) = true
  /\ sumPercentages
       (aggregateByField Sample.binary64ToString Sample.returns
                         Key.department) == 512
  /\ runningTotal
       (map ChartDataPoint.percentage
            (aggregateByField Sample.binary64ToString Sample.returns
                              Key.department))
     = Binary64.ofZ 512.
Proof.
  repeat split.
Qed.

(** Nor do the percentages of amounts that add up exactly have to add up to
    100 exactly: three departments worth 1 each have the percentage
    33.33333333333333 each, the binary64 number nearest to 100 times the
    one nearest to 1/3, and the three add up to 100 - 2^-46. *)
Lemma aggregateByField_percentages_thirds :
  inUnits 0 wholeAmount Sample.threeShops
  /\ map ChartDataPoint.percentage
         (aggregateByField Sample.binary64ToString Sample.threeShops
                           Key.department)
     = [S754_finite false 4691249611844266 (-47);
        S754_finite false 4691249611844266 (-47);
        S754_finite false 4691249611844266 (-47)]
  /\ sumPercentages
       (aggregateByField Sample.binary64ToString Sample.threeShops
                         Key.department) == 100 - 2 ^ (-46)
  /\ ~ sumPercentages
         (aggregateByField Sample.binary64ToString Sample.threeShops
                           Key.department) == 100.
Proof.
  split; [|split; [reflexivity | split; [reflexivity|]]].
  - split; [split; discriminate | split].
    + repeat constructor; try reflexivity; try (vm_compute; discriminate).
    + reflexivity.
  - vm_compute. discriminate.
Qed.

(* ================================================================== *)
(** * Number.toString and the month keys *)

Lemma str_injective (a b : string) : str a = str b -> a = b.
Proof.
  unfold str, JSString.str. intros H.
  rewrite <- (string_of_list_ascii_of_string a).
  rewrite <- (string_of_list_ascii_of_string b). f_equal.
  revert H. generalize (list_ascii_of_string a) (list_ascii_of_string b).
  induction l as [|x l IH]; intros [|y l']; simpl; intros H;
    try discriminate; [reflexivity|].
  inversion H as [[Hxy Hl]]. f_equal; [|apply IH; exact Hl].
  rewrite <- (ascii_N_embedding x), <- (ascii_N_embedding y), Hxy.
  reflexivity.
Qed.

Lemma to_int_not_nil (z : Z) : Z.to_int z <> Pos Nil /\ Z.to_int z <> Neg Nil.
Proof.
  destruct z as [|p|p]; simpl; split; try discriminate;
    intros H; inversion H as [Hp]; exact (Unsigned.to_uint_nonnil p Hp).
Qed.

(** Distinct integers print differently. *)
Lemma yearKey_injective (a b : Z) : yearKey a = yearKey b -> a = b.
Proof.
  unfold yearKey, Number.toString. intros H. apply str_injective in H.
  apply to_int_inj.
  destruct (to_int_not_nil a) as [Ha1 Ha2], (to_int_not_nil b) as [Hb1 Hb2].
  pose proof (NilZero.isi _ Ha1 Ha2) as Ea.
  pose proof (NilZero.isi _ Hb1 Hb2) as Eb.
  rewrite H in Ea. congruence.
Qed.

Lemma yearKey_eqb (a b : Z) :
  JSString.eqb (yearKey a) (yearKey b) = (a =? b)%Z.
Proof.
  destruct (Z.eqb_spec a b) as [-> | Hne].
  - apply JSString_eqb_refl.
  - apply JSString_eqb_neq. intros H. apply Hne, yearKey_injective, H.
Qed.

Lemma calendar_month_cases (m : Z) :
  (1 <= m <= 12)%Z -> In m calendarMonths.
Proof.
  intros H. unfold calendarMonths. simpl.
  assert (m = 1 \/ m = 2 \/ m = 3 \/ m = 4 \/ m = 5 \/ m = 6 \/ m = 7 \/
          m = 8 \/ m = 9 \/ m = 10 \/ m = 11 \/ m = 12)%Z by lia.
  intuition auto.
Qed.

(** The month keys "01" .. "12" read back as their months. *)
Lemma parseInt_monthKey (m : Z) :
  (1 <= m <= 12)%Z -> parseInt (monthKey (Num m)) = Num m.
Proof.
  intros H. apply calendar_month_cases in H. unfold calendarMonths in H.
  simpl in H. repeat (destruct H as [<- | H]; [reflexivity|]). contradiction.
Qed.

Lemma monthKey_eqb (a b : Z) :
  (1 <= a <= 12)%Z -> (1 <= b <= 12)%Z ->
  JSString.eqb (monthKey (Num a)) (monthKey (Num b)) = (a =? b)%Z.
Proof.
  intros Ha Hb. destruct (Z.eqb_spec a b) as [-> | Hne].
  - apply JSString_eqb_refl.
  - apply JSString_eqb_neq. intros H. apply Hne.
    pose proof (parseInt_monthKey Ha) as Ea.
    pose proof (parseInt_monthKey Hb) as Eb.
    rewrite H in Ea. congruence.
Qed.


(** "NaN" is not the print of an integer. *)
Lemma toString_NaN (z : Z) : Number.toString NaN <> Number.toString (Num z).
Proof.
  unfold Number.toString. intros H. apply str_injective in H.
  destruct (to_int_not_nil z) as [H1 H2].
  pose proof (NilZero.isi _ H1 H2) as E.
  rewrite <- H in E. discriminate.
Qed.

Lemma toString_injective (a b : number) :
  Number.toString a = Number.toString b -> a = b.
Proof.
  destruct a as [|x], b as [|y]; intros H.
  - reflexivity.
  - exfalso. exact (@toString_NaN _ H).
  - exfalso. symmetry in H. exact (@toString_NaN _ H).
  - f_equal. apply yearKey_injective. exact H.
Qed.

Lemma toString_eqb (a b : number) :
  JSString.eqb (Number.toString a) (Number.toString b)
  = Number.sameValueZero a b.
Proof.
  destruct (Number.sameValueZero a b) eqn:E.
  - apply sameValueZero_eq in E. subst. apply JSString_eqb_refl.
  - apply JSString_eqb_neq. intros H. apply toString_injective in H.
    subst. destruct b as [|z]; simpl in E; [discriminate|].
    rewrite Z.eqb_refl in E. discriminate.
Qed.

(* ================================================================== *)
(** * The trend builder *)

(** The two statements on a cell are the step of a running sum. *)
Lemma addToCell_get (yStr b : jsstring) (amount : Binary64.t)
      (row : JSMap.t Binary64.t) :
  JSMap.get b (addToCell yStr amount row)
  = if JSString.eqb yStr b then addTo (JSMap.get yStr row) amount
    else JSMap.get b row.
Proof.
  unfold addToCell, addTo.
  destruct (JSString.eqb yStr b) eqn:E.
  - apply JSString_eqb_eq in E. subst b.
    rewrite get_set_same. do 2 f_equal.
    destruct (JSMap.get yStr row) as [v|] eqn:Ev; cbn [falsy orZero].
    + destruct (Binary64.truthy v); cbn [negb].
      * rewrite Ev. reflexivity.
      * rewrite get_set_same. reflexivity.
    + rewrite get_set_same. reflexivity.
  - apply JSString_eqb_neq in E. rewrite get_set_other by exact E.
    destruct (falsy (JSMap.get yStr row));
      [rewrite get_set_other by exact E|]; reflexivity.
Qed.

Lemma cell_step (mm : JSMap.t (JSMap.t Binary64.t)) (mStr yStr a b : jsstring)
      (amount : Binary64.t) (row : JSMap.t Binary64.t) :
  JSMap.get mStr mm = Some row ->
  cell (JSMap.set mStr (addToCell yStr amount row) mm) a b
  = if JSString.eqb mStr a && JSString.eqb yStr b
    then addTo (cell mm a b) amount
    else cell mm a b.
Proof.
  intros Hrow. unfold cell.
  destruct (JSString.eqb mStr a) eqn:E; simpl.
  - apply JSString_eqb_eq in E. subst a.
    rewrite get_set_same, Hrow, addToCell_get.
    destruct (JSString.eqb yStr b) eqn:E; [|reflexivity].
    apply JSString_eqb_eq in E. subst b. reflexivity.
  - apply JSString_eqb_neq in E. rewrite get_set_other by exact E.
    reflexivity.
Qed.

Lemma initialMonthlyMap_keys :
  map fst initialMonthlyMap = map (fun m => monthKey (Num m)) calendarMonths.
Proof. reflexivity. Qed.

Lemma initialMonthlyMap_cell (a b : jsstring) :
  cell initialMonthlyMap a b = None.
Proof.
  unfold cell. destruct (JSMap.get a initialMonthlyMap) as [row|] eqn:E;
    [|reflexivity].
  assert (Hrow : row = []); [|subst row; reflexivity].
  revert E. unfold initialMonthlyMap. simpl.
  repeat match goal with
         | |- (if ?c then _ else _) = _ -> _ =>
             destruct c; [intros H; inversion H; reflexivity|]
         end.
  discriminate.
Qed.

Lemma monthKey_row (mm : JSMap.t (JSMap.t Binary64.t)) (m : Z) :
  map fst mm = map fst initialMonthlyMap ->
  (1 <= m <= 12)%Z ->
  exists row, JSMap.get (monthKey (Num m)) mm = Some row.
Proof.
  intros Hkeys Hm. apply get_Some_In. rewrite Hkeys, initialMonthlyMap_keys.
  apply (in_map (fun m => monthKey (Num m))), calendar_month_cases, Hm.
Qed.

(** The loop over the records never throws when every month is in 1 .. 12;
    it keeps the twelve rows and runs the sum of every cell over the
    amounts of its records. *)
Lemma record_fold (data : list ProcessedSalesData.t) :
  Forall monthInRange data ->
  forall yearsFound mm,
    map fst mm = map fst initialMonthlyMap ->
    exists mm',
      fold_left record_ data (Some (yearsFound, mm))
      = Some (collectYears data yearsFound, mm')
      /\ map fst mm' = map fst initialMonthlyMap
      /\ forall a b,
          cell mm' a b
          = fold_left addTo (amounts (filter (goesTo a b) data))
                      (cell mm a b).
Proof.
  induction 1 as [|d data Hd _ IH]; intros yearsFound mm Hkeys.
  - exists mm. repeat split; auto.
  - destruct Hd as [m [Hm Hrange]].
    destruct (monthKey_row mm Hkeys Hrange) as [row Hrow].
    simpl. rewrite Hm, Hrow.
    set (mm1 := JSMap.set (monthKey (Num m)) _ mm).
    assert (Hkeys1 : map fst mm1 = map fst initialMonthlyMap).
    { subst mm1. rewrite (set_keys_present _ _ _ Hrow). exact Hkeys. }
    destruct (IH (JSSet.add (ProcessedSalesData.year d) yearsFound) mm1 Hkeys1)
      as [mm' [Hfold [Hkeys' Hcell]]].
    exists mm'. split; [exact Hfold | split; [exact Hkeys'|]].
    intros a b. rewrite Hcell. subst mm1. rewrite cell_step by exact Hrow.
    unfold goesTo at 2. rewrite Hm.
    destruct (JSString.eqb (monthKey (Num m)) a
              && JSString.eqb (Number.toString (ProcessedSalesData.year d)) b);
      reflexivity.
Qed.

Lemma collectYears_In (data : list ProcessedSalesData.t) (s : JSSet.t) x :
  In x (collectYears data s) <->
  In x s \/ exists d, In d data /\ ProcessedSalesData.year d = x.
Proof.
  unfold collectYears. revert s; induction data as [|d data IH]; intros s; simpl.
  - split; [auto | intros [H | [d [[] _]]]; exact H].
  - rewrite IH, JSSet_add_In. split.
    + intros [[-> | H] | [d' [Hin Hy]]]; eauto.
    + intros [H | [d' [[<- | Hin] Hy]]]; eauto.
Qed.

Lemma collectYears_NoDup (data : list ProcessedSalesData.t) (s : JSSet.t) :
  NoDup s -> NoDup (collectYears data s).
Proof.
  unfold collectYears. revert s; induction data as [|d data IH]; intros s Hs.
  - exact Hs.
  - simpl. apply IH, JSSet_add_NoDup, Hs.
Qed.

Lemma all_Num (l : list number) :
  (forall x, In x l -> exists z, x = Num z) -> exists zs, l = map Num zs.
Proof.
  induction l as [|x l IH]; intros H.
  - exists []; reflexivity.
  - destruct (H x (or_introl eq_refl)) as [z ->].
    destruct IH as [zs ->]; [intros y Hy; apply H; right; exact Hy|].
    exists (z :: zs); reflexivity.
Qed.

Lemma sort_map (A B : Type) (f : A -> B) (after : A -> A -> bool)
      (after' : B -> B -> bool) (l : list A) :
  (forall a b, after' (f a) (f b) = after a b) ->
  JSArray.sort after' (map f l) = map f (JSArray.sort after l).
Proof.
  intros Hf. unfold JSArray.sort.
  change (@nil B) with (map f []). generalize (@nil A).
  induction l as [|x l IH]; intros acc; simpl; [reflexivity|].
  rewrite <- IH. f_equal.
  induction acc as [|y acc IHa]; simpl; [reflexivity|].
  rewrite Hf. destruct (after y x); simpl; [reflexivity|].
  rewrite IHa. reflexivity.
Qed.

Lemma ascending_Num (a b : Z) : ascending (Num a) (Num b) = ascendingZ a b.
Proof. reflexivity. Qed.

Lemma StronglySorted_strict (l : list Z) :
  StronglySorted (fun a b => ascendingZ a b = false) l -> NoDup l ->
  StronglySorted Z.lt l.
Proof.
  induction 1 as [|x l Hs IH Hx]; intros Hnd; constructor;
    inversion Hnd as [|? ? Hnotin Hnd']; subst.
  - apply IH; exact Hnd'.
  - rewrite Forall_forall in *. intros y Hy.
    specialize (Hx y Hy). unfold ascendingZ in Hx. apply Z.ltb_ge in Hx.
    assert (x <> y) by (intros ->; contradiction). lia.
Qed.

Lemma StronglySorted_map (A B : Type) (f : A -> B) (R : A -> A -> Prop)
      (R' : B -> B -> Prop) (l : list A) :
  (forall a b, R a b -> R' (f a) (f b)) ->
  StronglySorted R l -> StronglySorted R' (map f l).
Proof.
  intros HR. induction 1 as [|x l Hs IH Hx]; simpl; constructor.
  - exact IH.
  - apply Forall_forall. intros y Hy.
    apply in_map_iff in Hy as [a [<- Ha]]. apply HR.
    rewrite Forall_forall in Hx. apply Hx. exact Ha.
Qed.

(** The sort of integer years. *)
Lemma sort_years_ascending (zs : list Z) :
  NoDup zs ->
  JSArray.sort ascending (map Num zs) = map Num (JSArray.sort ascendingZ zs)
  /\ StronglySorted Z.lt (JSArray.sort ascendingZ zs).
Proof.
  intros Hnd. split; [apply sort_map; exact ascending_Num|].
  apply StronglySorted_strict.
  - apply sort_StronglySorted.
    + unfold ascendingZ. intros x y z Hxy Hyz.
      apply Z.ltb_ge in Hxy, Hyz. apply Z.ltb_ge. lia.
    + unfold ascendingZ. intros x y Hxy.
      apply Z.ltb_lt in Hxy. apply Z.ltb_ge. lia.
  - eapply Permutation_NoDup;
      [apply Permutation_sym, sort_Permutation | exact Hnd].
Qed.

(** The years [getTrendData] returns, as numbers. *)
Lemma sortedYears_spec (data : list ProcessedSalesData.t) :
  exists years,
    JSArray.sort ascending (JSSet.toArray (collectYears data [])) = years
    /\ NoDup years
    /\ (forall y, In y years <->
                  exists d, In d data /\ ProcessedSalesData.year d = y)
    /\ (Forall integerYear data -> StronglySorted yearBefore years).
Proof.
  eexists. split; [reflexivity|].
  pose proof (sort_Permutation ascending
                (JSSet.toArray (collectYears data []))) as Hperm.
  assert (Hnd : NoDup (collectYears data []))
    by (apply collectYears_NoDup; constructor).
  split; [|split].
  - eapply Permutation_NoDup; [apply Permutation_sym, Hperm | exact Hnd].
  - intros y. etransitivity.
    { split; apply Permutation_in;
        [exact Hperm | apply Permutation_sym, Hperm]. }
    unfold JSSet.toArray. rewrite collectYears_In. simpl. tauto.
  - intros Hint.
    destruct (@all_Num (collectYears data [])) as [zs Hzs].
    { intros x Hx. apply collectYears_In in Hx as [[] | [d [Hin Hy]]].
      rewrite Forall_forall in Hint.
      destruct (Hint d Hin) as [y Hy']. exists y. congruence. }
    unfold JSSet.toArray. rewrite Hzs.
    assert (Hndz : NoDup zs).
    { apply (NoDup_map_inv Num). rewrite <- Hzs. exact Hnd. }
    destruct (sort_years_ascending Hndz) as [-> Hss].
    apply (@StronglySorted_map _ _ Num Z.lt yearBefore); [|exact Hss].
    intros a b Hab. unfold yearBefore. simpl. apply Z.ltb_lt. exact Hab.
Qed.

Lemma isDated_spec (y : number) (m : Z) (d : ProcessedSalesData.t) :
  isDated y m d = true
  <-> ProcessedSalesData.year d = y /\ ProcessedSalesData.month d = Num m.
Proof.
  unfold isDated. rewrite andb_true_iff, !sameValueZero_eq. tauto.
Qed.

Lemma goesTo_isDated (data : list ProcessedSalesData.t) (y : number)
      (m : Z) :
  Forall monthInRange data -> (1 <= m <= 12)%Z ->
  filter (goesTo (monthKey (Num m)) (Number.toString y)) data
  = filter (isDated y m) data.
Proof.
  intros Hall Hm. apply filter_ext_in. intros d Hin.
  rewrite Forall_forall in Hall.
  destruct (Hall d Hin) as [m' [Hm' Hrange]].
  unfold goesTo, isDated. rewrite Hm'.
  rewrite toString_eqb, monthKey_eqb by assumption.
  simpl. apply andb_comm.
Qed.

Lemma cellAmounts_none (data : list ProcessedSalesData.t) (y : number)
      (m : Z) :
  (forall d, In d data ->
             ~ (ProcessedSalesData.year d = y
                /\ ProcessedSalesData.month d = Num m)) ->
  cellAmounts data y m = [].
Proof.
  intros H. unfold cellAmounts. rewrite filter_none; [reflexivity|].
  intros d Hin. destruct (isDated y m d) eqn:E; [|reflexivity].
  apply isDated_spec in E. exfalso. exact (H d Hin E).
Qed.

(** A cell holds the exact sum of its amounts when the amounts are given in
    whole units. *)
Lemma cell_exact (g : Z) (units : ProcessedSalesData.t -> Z)
      (data : list ProcessedSalesData.t) (p : ProcessedSalesData.t -> bool) :
  inUnits g units data ->
  Binary64.toQ (orZero (runningSum (amounts (filter p data))))
  == sumAmounts (filter p data).
Proof.
  intros Hu. destruct (@inUnits_filter _ _ _ p Hu) as [Hall [Hb Hq]].
  destruct Hu as [Hg _].
  pose proof (@runningSum_exact g _ _ Hg Hall 0%Z None eq_refl) as H.
  apply orZero_multiple in H; [|simpl; lia].
  destruct H as [_ [_ H]]. unfold runningSum. rewrite H, Z.add_0_l.
  symmetry. exact Hq.
Qed.

Lemma StronglySorted_NoDup_numbers (l : list number) :
  StronglySorted yearBefore l -> NoDup l.
Proof.
  induction 1 as [|x l Hs IH Hx]; constructor; [|exact IH].
  intros Hin. rewrite Forall_forall in Hx. specialize (Hx x Hin).
  unfold yearBefore in Hx. destruct x as [|z]; simpl in Hx; [discriminate|].
  apply Z.ltb_lt in Hx. lia.
Qed.

Lemma toString_NoDup (years : list number) :
  NoDup years -> NoDup (map Number.toString years).
Proof.
  induction 1 as [|y years Hy Hnd IH]; simpl; constructor; [|exact IH].
  intros Hin. apply in_map_iff in Hin as [y' [Heq Hin]].
  apply toString_injective in Heq. subst y'. contradiction.
Qed.

Lemma Forall2_map_r (A B : Type) (R : A -> B -> Prop) (f : A -> B)
      (l : list A) :
  (forall x, In x l -> R x (f x)) -> Forall2 R l (map f l).
Proof.
  induction l as [|x l IH]; intros H; simpl; constructor.
  - apply H. left; reflexivity.
  - apply IH. intros y Hy. apply H. right; exact Hy.
Qed.

Lemma sorted_month_keys (mm : JSMap.t (JSMap.t Binary64.t)) :
  map fst mm = map fst initialMonthlyMap ->
  JSArray.sort byCodeUnits (JSObject.keys mm)
  = map (fun m => monthKey (Num m)) calendarMonths.
Proof.
  intros Hkeys. unfold JSObject.keys. rewrite Hkeys. reflexivity.
Qed.

(** The point [makePoint] builds for month [m] out of the finished table. *)
Lemma makePoint_spec (data : list ProcessedSalesData.t)
      (mm : JSMap.t (JSMap.t Binary64.t)) (years : list number) (m : Z) :
  Forall monthInRange data ->
  (forall a b, cell mm a b = runningSum (amounts (filter (goesTo a b) data))) ->
  NoDup years -> (1 <= m <= 12)%Z ->
  pointOf data years m
          (makePoint mm (map Number.toString years) (monthKey (Num m))).
Proof.
  intros Hall Hcell Hnd Hm. unfold pointOf, makePoint. simpl.
  set (row := match JSMap.get (monthKey (Num m)) mm with
              | Some r => r
              | None => []
              end).
  assert (Hrow : forall b, JSMap.get b row = cell mm (monthKey (Num m)) b).
  { intros b. unfold cell. subst row.
    destruct (JSMap.get (monthKey (Num m)) mm); reflexivity. }
  rewrite (fold_set_fresh (fun year => orZero (JSMap.get year row)));
    [|apply toString_NoDup; exact Hnd | intros k _ []].
  simpl. split; [reflexivity | split].
  - rewrite map_map. simpl. rewrite map_id. reflexivity.
  - intros y Hy.
    assert (Hget : JSMap.get (Number.toString y)
                     (map (fun k => (k, orZero (JSMap.get k row)))
                          (map Number.toString years))
                   = Some (orZero (runningSum (cellAmounts data y m)))).
    { rewrite (get_tabulate (fun year => orZero (JSMap.get year row)))
        by (apply in_map; exact Hy).
      rewrite Hrow, Hcell, goesTo_isDated by assumption. reflexivity. }
    split; [exact Hget | split].
    + intros Hnone. rewrite Hget, (@cellAmounts_none _ _ _ Hnone). reflexivity.
    + intros g units Hu. apply (@cell_exact _ _ _ _ Hu).
Qed.

(** What [getTrendData] returns when every month is in 1 .. 12. *)
Lemma getTrendData_points (data : list ProcessedSalesData.t) :
  Forall monthInRange data ->
  exists chartData years,
    getTrendData data = Some (chartData, map Number.toString years)
    /\ NoDup years
    /\ (forall y, In y years <->
                  exists d, In d data /\ ProcessedSalesData.year d = y)
    /\ (Forall integerYear data -> StronglySorted yearBefore years)
    /\ Forall2 (pointOf data years) calendarMonths chartData.
Proof.
  intros Hall. unfold getTrendData.
  destruct (record_fold Hall [] initialMonthlyMap eq_refl)
    as [mm [Hfold [Hkeys Hcell]]].
  destruct (sortedYears_spec data) as [years [Hsort [Hnd [Hin Hss]]]].
  match goal with
  | |- context [fold_left record_ data ?start] =>
      assert (Hloop : fold_left record_ data start
                      = Some (collectYears data [], mm)) by exact Hfold
  end.
  rewrite Hloop. cbv beta iota zeta.
  rewrite Hsort, (sorted_month_keys mm Hkeys).
  eexists. exists years.
  split; [reflexivity
         | split; [exact Hnd
                  | split; [exact Hin | split; [exact Hss|]]]].
  - rewrite map_map. apply Forall2_map_r. intros m Hm.
    apply makePoint_spec.
    + exact Hall.
    + intros a b. rewrite Hcell, initialMonthlyMap_cell. reflexivity.
    + exact Hnd.
    + unfold calendarMonths in Hm. simpl in Hm.
      repeat (destruct Hm as [<- | Hm]; [lia|]). contradiction.
Qed.

(** C7, as the code has it.  On records whose month is an integer in
    1 .. 12, [getTrendData] returns.  Its years are the distinct years of
    the input, all of them, in strictly ascending order when they are
    integers.  Its chart has exactly 12 points, one per calendar month in
    ascending order, and every point has one entry per returned year: the
    running binary64 sum of the amounts of that month and year, restarted
    from 0 after a partial sum that is 0 or NaN, and 0 instead of a final
    NaN.  The entry is 0 when no record falls there, and it is the exact sum
    of the amounts when these are whole multiples of one unit whose absolute
    values add up to less than 2^53 units. *)
Theorem getTrendData_complete (data : list ProcessedSalesData.t) :
  Forall monthInRange data ->
  exists chartData years,
    getTrendData data = Some (chartData, map Number.toString years)
    /\ NoDup years
    /\ (forall y, In y years <->
                  exists d, In d data /\ ProcessedSalesData.year d = y)
    /\ (Forall integerYear data -> StronglySorted yearBefore years)
    /\ length chartData = 12%nat
    /\ Forall2 (pointOf data years) calendarMonths chartData.
Proof.
  intros Hall.
  destruct (getTrendData_points Hall)
    as [chartData [years [Hget [Hnd [Hin [Hss Hpts]]]]]].
  exists chartData, years.
  split; [exact Hget
         | split; [exact Hnd
                  | split; [exact Hin | split; [exact Hss | split]]]].
  - rewrite <- (Forall2_length Hpts). reflexivity.
  - exact Hpts.
Qed.

Lemma marchSales_months : Forall monthInRange Sample.marchSales.
Proof.
  repeat (constructor; [exists 3%Z; split; [reflexivity | lia]|]).
  constructor.
Qed.

(** The specification's example: sales in March 2022 and March 2023 only. *)
Lemma getTrendData_complete_witness :
  Forall monthInRange Sample.marchSales
  /\ exists chartData years,
      getTrendData Sample.marchSales
      = Some (chartData, map Number.toString years)
      /\ NoDup years
      /\ (forall y, In y years <->
                    exists d, In d Sample.marchSales
                              /\ ProcessedSalesData.year d = y)
      /\ (Forall integerYear Sample.marchSales ->
          StronglySorted yearBefore years)
      /\ length chartData = 12%nat
      /\ Forall2 (pointOf Sample.marchSales years) calendarMonths chartData.
Proof.
  split; [exact marchSales_months|].
  exact (@getTrendData_complete Sample.marchSales marchSales_months).
Defined.

(** What the example evaluates to: the years "2022" and "2023", and in
    March the sums 100 and 250. *)
Example getTrendData_march :
  option_map snd (getTrendData Sample.marchSales)
  = Some [yearKey 2022; yearKey 2023]
  /\ option_map (fun r => map TrendDataPoint.years (firstn 3 (fst r)))
                (getTrendData Sample.marchSales)
     = Some [[(yearKey 2022, Binary64.zero); (yearKey 2023, Binary64.zero)];
             [(yearKey 2022, Binary64.zero); (yearKey 2023, Binary64.zero)];
             [(yearKey 2022, Binary64.ofZ 100);
              (yearKey 2023, Binary64.ofZ 250)]].
Proof. split; reflexivity. Qed.

(** A month outside 1 .. 12 has no row: the TypeError of the loop. *)
Example getTrendData_month_13 :
  getTrendData [Sample.record Sample.salesA (Num 2023) (Num 13) 1] = None.
Proof. reflexivity. Qed.

Lemma add_NaN_l (x : Binary64.t) : Binary64.add S754_nan x = S754_nan.
Proof. reflexivity. Qed.

Lemma add_NaN_r (x : Binary64.t) : Binary64.add x S754_nan = S754_nan.
Proof. destruct x; reflexivity. Qed.

(** A sum by binary64 additions is NaN as soon as one of its terms is. *)
Lemma runningTotal_NaN (l : list Binary64.t) :
  In S754_nan l -> runningTotal l = S754_nan.
Proof.
  unfold runningTotal. generalize Binary64.zero.
  induction l as [|a l IH]; intros t Hin; [contradiction|].
  destruct Hin as [-> | Hin]; simpl.
  - rewrite add_NaN_r. clear. induction l as [|a l IH]; [reflexivity|].
    simpl. exact IH.
  - apply IH. exact Hin.
Qed.

(** C7 as stated fails: the entry is not the sum of the amounts of its
    month and year when one of them is NaN.  Of 5, NaN and 7 in March 2023
    the entry is 7, of 5, 7 and NaN it is 0, while the sum of the three
    amounts is NaN in whatever order it is taken. *)
Lemma getTrendData_entry_not_sum :
  Forall monthInRange Sample.unreadableSecond
  /\ option_map (fun r => nth_error (fst r) 2)
                (getTrendData Sample.unreadableSecond)
     = Some (Some {| TrendDataPoint.month := monthLabel 3;
                     TrendDataPoint.years :=
                       [(yearKey 2023, Binary64.ofZ 7)] |})
  /\ (forall l, Permutation (cellAmounts Sample.unreadableSecond
                                         (Num 2023) 3) l ->
                runningTotal l = S754_nan)
  /\ Forall monthInRange Sample.unreadableLast
  /\ option_map (fun r => nth_error (fst r) 2)
                (getTrendData Sample.unreadableLast)
     = Some (Some {| TrendDataPoint.month := monthLabel 3;
                     TrendDataPoint.years :=
                       [(yearKey 2023, Binary64.zero)] |})
  /\ (forall l, Permutation (cellAmounts Sample.unreadableLast
                                         (Num 2023) 3) l ->
                runningTotal l = S754_nan).
Proof.
  assert (Hm : forall d, ProcessedSalesData.month d = Num 3 -> monthInRange d).
  { intros d H. exists 3%Z. split; [exact H | lia]. }
  repeat split.
  - repeat (constructor; [apply Hm; reflexivity|]). constructor.
  - intros l Hperm. apply runningTotal_NaN.
    apply (Permutation_in _ Hperm). right; left; reflexivity.
  - repeat (constructor; [apply Hm; reflexivity|]). constructor.
  - intros l Hperm. apply runningTotal_NaN.
    apply (Permutation_in _ Hperm). right; right; left; reflexivity.
Qed.

(** Nor can the years be in ascending order when one of them is NaN, which
    is neither smaller nor larger than another year: the years returned for
    a record of year NaN beside one of 2023 are "NaN" and "2023", and no
    order of the two is ascending. *)
Lemma getTrendData_NaN_year :
  Forall monthInRange Sample.yearless
  /\ (exists chartData years,
        getTrendData Sample.yearless = Some (chartData, years)
        /\ Permutation years [Number.toString NaN; yearKey 2023])
  /\ forall l, Permutation [NaN; Num 2023] l -> ~ Sorted yearBefore l.
Proof.
  split; [|split].
  - repeat (constructor; [exists 3%Z; split; [reflexivity | lia]|]).
    constructor.
  - eexists. eexists. split; [reflexivity|]. apply Permutation_refl.
  - intros l Hperm Hs.
    apply Permutation_length_2_inv in Hperm as [-> | ->];
      inversion Hs as [|? ? _ Hhd]; subst;
      inversion Hhd as [|? ? Hr]; subst; discriminate.
Qed.

(* ================================================================== *)
(** * Date *)

Section DateFacts.

Import JSDate.
Local Open Scope Z_scope.

Lemma Day_of_midnight (D off : Z) :
  0 <= off < msPerDay -> Day (D * msPerDay + off) = D.
Proof.
  intros H. unfold Day. symmetry.
  apply (Z.div_unique _ _ D off); [left; exact H | ring].
Qed.

(** [YearFromTime t] is the year ECMAScript asks for: the largest [y]
    with [TimeFromYear y <= t]. *)
Lemma YearFromTime_spec (t : Z) :
  DayFromYear (YearFromTime t) <= Day t < DayFromYear (YearFromTime t + 1).
Proof.
  unfold YearFromTime. generalize (Day t). intros d.
  set (y := 1970 + 400 * d / 146097).
  assert (Hy : 146097 * (y - 1970) <= 400 * d
               < 146097 * (y - 1970) + 146097).
  { subst y.
    pose proof (Z.div_mod (400 * d) 146097 ltac:(lia)).
    pose proof (Z.mod_pos_bound (400 * d) 146097 ltac:(lia)). lia. }
  clearbody y.
  destruct (Z.ltb_spec d (DayFromYear y));
    [|destruct (Z.leb_spec (DayFromYear (y + 1)) d)];
    unfold DayFromYear in *; Z.to_euclidean_division_equations; lia.
Qed.

Lemma TimeFromYear_spec (t : Z) :
  TimeFromYear (YearFromTime t) <= t < TimeFromYear (YearFromTime t + 1).
Proof.
  pose proof (YearFromTime_spec t) as H. unfold TimeFromYear, Day in *.
  unfold msPerDay in *. Z.to_euclidean_division_equations; lia.
Qed.

Lemma DayFromYear_mono (a b : Z) :
  a <= b -> DayFromYear a <= DayFromYear b.
Proof.
  intros H. unfold DayFromYear. Z.to_euclidean_division_equations; lia.
Qed.

Lemma YearFromTime_unique (t y : Z) :
  DayFromYear y <= Day t < DayFromYear (y + 1) -> YearFromTime t = y.
Proof.
  intros H. pose proof (YearFromTime_spec t) as Hs.
  destruct (Z.lt_trichotomy (YearFromTime t) y) as [Hlt | [Heq | Hgt]];
    [|exact Heq|].
  - pose proof (@DayFromYear_mono (YearFromTime t + 1) y ltac:(lia)). lia.
  - pose proof (@DayFromYear_mono (y + 1) (YearFromTime t) ltac:(lia)). lia.
Qed.

Lemma DaysInYear_cases (y : Z) : DaysInYear y = 365 \/ DaysInYear y = 366.
Proof.
  unfold DaysInYear.
  destruct (y mod 4 =? 0), (y mod 100 =? 0), (y mod 400 =? 0); simpl; auto.
Qed.

Lemma DayFromYear_next (y : Z) :
  DayFromYear (y + 1) = DayFromYear y + DaysInYear y.
Proof.
  unfold DayFromYear, DaysInYear.
  destruct (Z.eqb_spec (y mod 4) 0), (Z.eqb_spec (y mod 100) 0),
    (Z.eqb_spec (y mod 400) 0); cbn [negb];
    Z.to_euclidean_division_equations; lia.
Qed.

(** Decide the tests of a table one after the other. *)
Ltac split_tests :=
  repeat match goal with
         | H : context [?a =? ?b] |- _ =>
             destruct (Z.eqb_spec a b);
             cbv beta iota in *; cbn [orb andb negb] in *; try lia
         | |- context [?a =? ?b] =>
             destruct (Z.eqb_spec a b);
             cbv beta iota in *; cbn [orb andb negb] in *; try lia
         | |- context [?a <? ?b] =>
             destruct (Z.ltb_spec a b);
             cbv beta iota in *; try lia
         end.

Lemma MakeDay_within_year (y m d : Z) :
  realDay y m d ->
  exists w, MakeDay y (m - 1) d = DayFromYear y + w
            /\ w = monthStart (m - 1) (DaysInYear y - 365) + d - 1
            /\ 0 <= w < DaysInYear y.
Proof.
  intros [Hm Hd]. unfold MakeDay.
  replace ((m - 1) / 12) with 0
    by (symmetry; apply Z.div_small; lia).
  rewrite (Z.mod_small (m - 1) 12) by lia.
  rewrite Z.add_0_r.
  exists (monthStart (m - 1) (DaysInYear y - 365) + d - 1).
  split; [ring | split; [reflexivity|]].
  unfold daysInMonth in Hd. unfold monthStart.
  destruct (DaysInYear_cases y) as [Hl | Hl]; rewrite Hl in *;
    split_tests; lia.
Qed.

Lemma YearFromTime_MakeDay (y m d off : Z) :
  realDay y m d -> 0 <= off < msPerDay ->
  YearFromTime (MakeDay y (m - 1) d * msPerDay + off) = y.
Proof.
  intros Hreal Hoff. apply YearFromTime_unique.
  rewrite Day_of_midnight by exact Hoff.
  destruct (MakeDay_within_year Hreal) as [w [-> [_ Hw]]].
  rewrite DayFromYear_next. lia.
Qed.

Lemma MonthFromTime_MakeDay (y m d off : Z) :
  realDay y m d -> 0 <= off < msPerDay ->
  MonthFromTime (MakeDay y (m - 1) d * msPerDay + off) = m - 1.
Proof.
  intros Hreal Hoff. unfold MonthFromTime, DayWithinYear, InLeapYear.
  rewrite (YearFromTime_MakeDay Hreal Hoff).
  rewrite Day_of_midnight by exact Hoff.
  destruct (MakeDay_within_year Hreal) as [w [-> [Hw _]]].
  replace (DayFromYear y + w - DayFromYear y) with w by ring.
  destruct Hreal as [Hm Hd]. unfold daysInMonth in Hd.
  unfold monthStart in Hw.
  destruct (DaysInYear_cases y) as [Hl | Hl]; rewrite Hl in *;
    change (365 =? 366) with false; change (366 =? 366) with true;
    cbv beta iota; split_tests; lia.
Qed.

Lemma parseDateOnly_realDay (s : jsstring) (y m d : Z) :
  parseDateOnly s = Some (y, m, d) -> realDay y m d.
Proof.
  unfold parseDateOnly.
  do 10 (destruct s as [|? s]; try discriminate).
  destruct s; try discriminate.
  repeat match goal with
         | |- context [number2 ?a ?b] => destruct (number2 a b); try discriminate
         end.
  match goal with
  | |- context [if ?c then _ else _] => destruct c eqn:E; try discriminate
  end.
  intros H. injection H as <- <- <-.
  rewrite !andb_true_iff in E.
  destruct E as [[[[[_ _] H1] H2] H3] H4].
  apply Z.leb_le in H1, H2, H3, H4.
  split; [lia | split; [lia | exact H4]].
Qed.

End DateFacts.

(* ================================================================== *)
(** * The normalizer *)

Section Normalizer.

Variable CATEGORY_RULES : list CategoryRule.t.
Variable DEFAULT_CATEGORY DEFAULT_SUB_CATEGORY : jsstring.
Variable LocalTZA : Z -> Z.
Variable Date_parseOther : jsstring -> number.

Let classify : jsstring -> CategoryPair.t :=
  mapProductCategory CATEGORY_RULES DEFAULT_CATEGORY DEFAULT_SUB_CATEGORY.

Let normalize : list RawSalesData.t -> list ProcessedSalesData.t :=
  processData CATEGORY_RULES DEFAULT_CATEGORY DEFAULT_SUB_CATEGORY
              LocalTZA Date_parseOther.

(** One output per input, in the same order, with the fields of the input
    and the classifier's pair. *)
Lemma processData_pointwise (rawData : list RawSalesData.t) :
  length (normalize rawData) = length rawData
  /\ Forall2 (fun item out =>
                preservesFields item out
                /\ ProcessedSalesData.category out
                   = CategoryPair.category
                       (classify (RawSalesData.productName item))
                /\ ProcessedSalesData.subCategory out
                   = CategoryPair.subCategory
                       (classify (RawSalesData.productName item)))
             rawData (normalize rawData).
Proof.
  subst normalize classify. unfold processData.
  split; [apply length_map|].
  apply Forall2_map_r. intros item _. simpl.
  unfold preservesFields. simpl. repeat split; reflexivity.
Qed.

(** On a host at or ahead of UTC (by less than a day) the year and the
    month are those of the date string. *)
Lemma processData_calendar_ahead_of_UTC (rawData : list RawSalesData.t) :
  (forall t, 0 <= LocalTZA t < JSDate.msPerDay)%Z ->
  Forall2 (fun item out =>
             forall y m d,
               JSDate.parseDateOnly (RawSalesData.date item) = Some (y, m, d) ->
               datedAt out y m)
          rawData (normalize rawData).
Proof.
  intros Hzone. subst normalize. unfold processData.
  apply Forall2_map_r. intros item _ y m d Hparse.
  pose proof (parseDateOnly_realDay _ Hparse) as Hreal.
  unfold datedAt. simpl. unfold JSDate.construct. rewrite Hparse.
  unfold JSDate.getFullYear, JSDate.getMonth, JSDate.LocalTime.
  rewrite (YearFromTime_MakeDay Hreal (Hzone _)).
  rewrite (MonthFromTime_MakeDay Hreal (Hzone _)).
  simpl. split; [reflexivity | f_equal; ring].
Qed.

(** The year and the month come from the same [Date]: one is NaN exactly
    when the other is. *)
Lemma processData_year_month_together (rawData : list RawSalesData.t) :
  Forall (fun out =>
            ProcessedSalesData.year out = NaN <->
            ProcessedSalesData.month out = NaN)
         (normalize rawData).
Proof.
  subst normalize. unfold processData. apply Forall_forall.
  intros out Hin. apply in_map_iff in Hin as [item [<- _]]. simpl.
  destruct (JSDate.construct Date_parseOther (RawSalesData.date item));
    simpl; split; intros H; (reflexivity || discriminate).
Qed.

End Normalizer.

(** C8, where the code departs from it.  On a host five hours behind UTC,
    the record shipped on "2024-01-01" is normalized to year 2023 and month
    12: the date-only string is parsed as UTC midnight and read back in
    local time, which is still the evening of 31 December 2023.  Eight hours
    ahead of UTC the same record gets year 2024 and month 1. *)
Theorem processData_reads_local_calendar :
  JSDate.parseDateOnly (RawSalesData.date Sample.newYearSale)
  = Some (2024, 1, 1)%Z
  /\ map (fun out => (ProcessedSalesData.year out,
                      ProcessedSalesData.month out))
         (processData Sample.rules Sample.other Sample.other
                      Sample.newYork Sample.noOtherDates [Sample.newYearSale])
     = [(Num 2023, Num 12)]
  /\ map (fun out => (ProcessedSalesData.year out,
                      ProcessedSalesData.month out))
         (processData Sample.rules Sample.other Sample.other
                      Sample.beijing Sample.noOtherDates [Sample.newYearSale])
     = [(Num 2024, Num 1)].
Proof. repeat split. Qed.

(* ================================================================== *)
(** * parseInt reads back Number.toString *)

Lemma decimal_digit_cases (c : N) :
  isDecimalDigit c = true ->
  In c [48; 49; 50; 51; 52; 53; 54; 55; 56; 57]%N.
Proof.
  unfold isDecimalDigit. rewrite andb_true_iff, !N.leb_le. intros [H1 H2].
  assert (c = 48 \/ c = 49 \/ c = 50 \/ c = 51 \/ c = 52 \/ c = 53 \/
          c = 54 \/ c = 55 \/ c = 56 \/ c = 57)%N by lia.
  simpl. intuition auto.
Qed.

(** [parseInt] on an optional minus sign followed by decimal digits. *)
Lemma parseInt_decimal (negative : bool) (s : jsstring) :
  s <> [] -> forallb isDecimalDigit s = true ->
  parseInt ((if negative then [45%N] else []) ++ s)
  = Num ((if negative then -1 else 1) * ParseInt.mathInt 10 (ParseInt.digits 10 s)).
Proof.
  destruct s as [|c s]; [congruence|]. intros _ H. simpl in H.
  apply andb_true_iff in H as [Hc Hs].
  apply decimal_digit_cases in Hc.
  destruct s as [|c1 s].
  - simpl in Hc. destruct negative;
      repeat (destruct Hc as [<- | Hc]; [reflexivity|]); contradiction.
  - simpl in Hs. apply andb_true_iff in Hs as [Hc1 _].
    apply decimal_digit_cases in Hc1. simpl in Hc, Hc1.
    destruct negative;
      repeat (destruct Hc as [<- | Hc];
              [repeat (destruct Hc1 as [<- | Hc1]; [reflexivity|]);
               contradiction|]);
      contradiction.
Qed.

Lemma string_of_uint_digits (d : uint) :
  forallb isDecimalDigit (str (NilEmpty.string_of_uint d)) = true
  /\ ParseInt.digits 10 (str (NilEmpty.string_of_uint d)) = uintDigits d.
Proof.
  induction d as [|d [IH1 IH2]|d [IH1 IH2]|d [IH1 IH2]|d [IH1 IH2]|d [IH1 IH2]
                  |d [IH1 IH2]|d [IH1 IH2]|d [IH1 IH2]|d [IH1 IH2]|d [IH1 IH2]];
    [split; reflexivity| ..];
    (split;
     [ change (forallb isDecimalDigit (str (NilEmpty.string_of_uint d)) = true);
       exact IH1
     | cbn [NilEmpty.string_of_uint uintDigits]; rewrite <- IH2; reflexivity ]).
Qed.

Lemma mathInt_acc (d : uint) (acc : positive) :
  fold_left (fun a x => a * 10 + x)%Z (uintDigits d) (Z.pos acc)
  = Z.pos (Pos.of_uint_acc d acc).
Proof.
  revert acc; induction d; intros acc; cbn [uintDigits fold_left Pos.of_uint_acc];
    [reflexivity| ..];
    match goal with
    | |- fold_left _ _ ?a = Z.pos (Pos.of_uint_acc _ ?b) =>
        replace a with (Z.pos b) by lia
    end; apply IHd.
Qed.

Lemma mathInt_uint (d : uint) :
  ParseInt.mathInt 10 (uintDigits d) = Z.of_N (Pos.of_uint d).
Proof.
  unfold ParseInt.mathInt.
  induction d; cbn [uintDigits fold_left Pos.of_uint];
    [reflexivity | exact IHd | ..];
    match goal with
    | |- fold_left _ _ ?a = Z.of_N (N.pos (Pos.of_uint_acc _ ?b)) =>
        change a with (Z.pos b)
    end; apply mathInt_acc.
Qed.

Lemma str_cons (c : ascii) (s : string) :
  str (String c s) = N_of_ascii c :: str s.
Proof. reflexivity. Qed.

(** [parseInt] reads back what [Number.prototype.toString] prints. *)
Lemma parseInt_toString (z : Z) : parseInt (Number.toString (Num z)) = Num z.
Proof.
  assert (Hpos : forall p,
             NilZero.string_of_uint (Pos.to_uint p)
             = NilEmpty.string_of_uint (Pos.to_uint p)).
  { intros p. pose proof (Unsigned.to_uint_nonnil p).
    destruct (Pos.to_uint p); [congruence | reflexivity ..]. }
  assert (Hne : forall p, str (NilEmpty.string_of_uint (Pos.to_uint p)) <> []).
  { intros p. pose proof (Unsigned.to_uint_nonnil p).
    destruct (Pos.to_uint p); [congruence | discriminate ..]. }
  assert (Hval : forall p,
             ParseInt.mathInt 10
               (ParseInt.digits 10 (str (NilEmpty.string_of_uint (Pos.to_uint p))))
             = Z.pos p).
  { intros p. rewrite (proj2 (string_of_uint_digits _)), mathInt_uint.
    rewrite DecimalPos.Unsigned.of_to. reflexivity. }
  destruct z as [|p|p]; [reflexivity | |].
  - unfold Number.toString. cbn [Z.to_int NilZero.string_of_int]. rewrite Hpos.
    pose proof (@parseInt_decimal false _ (Hne p)
                  (proj1 (string_of_uint_digits _))) as H.
    rewrite Hval in H. exact H.
  - unfold Number.toString. cbn [Z.to_int NilZero.string_of_int]. rewrite Hpos.
    pose proof (@parseInt_decimal true _ (Hne p)
                  (proj1 (string_of_uint_digits _))) as H.
    rewrite Hval in H. exact H.
Qed.

(* ================================================================== *)
(** * The available years *)

Lemma ofList_years (data : list ProcessedSalesData.t) (s : JSSet.t) :
  fold_left (fun s x => JSSet.add x s) (map ProcessedSalesData.year data) s
  = collectYears data s.
Proof.
  unfold collectYears. revert s.
  induction data as [|d data IH]; intros s; simpl; [reflexivity | apply IH].
Qed.

(** A duplicate-free list of integers, sorted by [(a, b) => a - b]. *)
Lemma sort_integers (l : list number) :
  NoDup l -> (forall x, In x l -> exists z, x = Num z) ->
  exists zs, JSArray.sort ascending l = map Num zs /\ StronglySorted Z.lt zs.
Proof.
  intros Hnd Hall. destruct (all_Num l Hall) as [zs ->].
  exists (JSArray.sort ascendingZ zs). split.
  - apply sort_map. exact ascending_Num.
  - apply StronglySorted_strict.
    + apply sort_StronglySorted.
      * unfold ascendingZ. intros x y z Hxy Hyz.
        apply Z.ltb_ge in Hxy, Hyz. apply Z.ltb_ge. lia.
      * unfold ascendingZ. intros x y Hxy.
        apply Z.ltb_lt in Hxy. apply Z.ltb_ge. lia.
    + eapply Permutation_NoDup;
        [apply Permutation_sym, sort_Permutation|].
      apply (NoDup_map_inv Num). exact Hnd.
Qed.

Lemma getAvailableYears_Permutation (data : list ProcessedSalesData.t) :
  Permutation (getAvailableYears data) (collectYears data []).
Proof.
  unfold getAvailableYears, JSSet.ofList, JSSet.toArray.
  rewrite ofList_years. apply sort_Permutation.
Qed.

Lemma getAvailableYears_In (data : list ProcessedSalesData.t) (y : number) :
  In y (getAvailableYears data) <->
  exists d, In d data /\ ProcessedSalesData.year d = y.
Proof.
  pose proof (getAvailableYears_Permutation data) as Hperm.
  assert (Hin : In y (collectYears data []) <->
                exists d, In d data /\ ProcessedSalesData.year d = y).
  { rewrite collectYears_In. simpl. tauto. }
  rewrite <- Hin. split; apply Permutation_in;
    [exact Hperm | apply Permutation_sym, Hperm].
Qed.

Lemma getAvailableYears_ascending (data : list ProcessedSalesData.t) :
  Forall integerYear data ->
  exists zs, getAvailableYears data = map Num zs /\ StronglySorted Z.lt zs.
Proof.
  intros Hall. unfold getAvailableYears, JSSet.ofList, JSSet.toArray.
  rewrite ofList_years. apply sort_integers.
  - apply collectYears_NoDup; constructor.
  - intros x Hx. apply collectYears_In in Hx as [[] | [d [Hd <-]]].
    rewrite Forall_forall in Hall. exact (Hall d Hd).
Qed.

(** X1. [getAvailableYears] lists every year of the data once and no other
    number; when the years are integers the list is strictly ascending. *)
Theorem getAvailableYears_distinct_sorted (data : list ProcessedSalesData.t) :
  NoDup (getAvailableYears data)
  /\ (forall y, In y (getAvailableYears data) <->
                exists d, In d data /\ ProcessedSalesData.year d = y)
  /\ (Forall integerYear data ->
      exists zs, getAvailableYears data = map Num zs
                 /\ StronglySorted Z.lt zs).
Proof.
  split; [|split].
  - eapply Permutation_NoDup.
    + apply Permutation_sym, getAvailableYears_Permutation.
    + apply collectYears_NoDup; constructor.
  - intros y. apply getAvailableYears_In.
  - apply getAvailableYears_ascending.
Qed.

(* ================================================================== *)
(** * The groups of the aggregator *)

Section GroupFacts.

Variable Binary64_toString : Binary64.t -> jsstring.
Variable field : Key.t.

Let key : ProcessedSalesData.t -> jsstring := keyOf Binary64_toString field.

(** X2. The points of [aggregateByField] carry pairwise distinct names, the
    names are exactly the keys that occur in the input, and there are at
    most as many points as records. *)
Theorem aggregateByField_one_point_per_key
        (data : list ProcessedSalesData.t) :
  NoDup (map ChartDataPoint.name
             (aggregateByField Binary64_toString data field))
  /\ (forall k,
         In k (map ChartDataPoint.name
                   (aggregateByField Binary64_toString data field)) <->
         exists d, In d data /\ key d = k)
  /\ (length (aggregateByField Binary64_toString data field)
      <= length data)%nat.
Proof.
  destruct (aggregateByField_points Binary64_toString field data)
    as [pts [_ [Hperm [Hk _]]]].
  destruct (firstSeen_spec (map key data)) as [Hnd [Hin Hlen]].
  assert (Hnames : Permutation
                     (map ChartDataPoint.name
                          (aggregateByField Binary64_toString data field))
                     (firstSeen (map key data))).
  { unfold key. rewrite <- Hk. apply Permutation_map. exact Hperm. }
  split; [|split].
  - eapply Permutation_NoDup; [apply Permutation_sym, Hnames | exact Hnd].
  - intros k. transitivity (In k (firstSeen (map key data))).
    + split; apply Permutation_in;
        [exact Hnames | apply Permutation_sym, Hnames].
    + rewrite Hin, in_map_iff. split; intros [d [H1 H2]]; eauto.
  - rewrite <- (length_map ChartDataPoint.name).
    rewrite (Permutation_length Hnames), <- (length_map key data).
    exact Hlen.
Qed.

(** X3. The value of every point of [aggregateByField] is the running
    binary64 sum of the amounts of the records grouped under its name, in
    the order of the input, restarted from 0 after a partial sum that is 0
    or NaN; it is their exact sum when the amounts are whole multiples of
    one unit whose absolute values add up to less than 2^53 units. *)
Theorem aggregateByField_group_totals (data : list ProcessedSalesData.t) :
  Forall (fun p => ChartDataPoint.value p
                   = groupValue Binary64_toString field data
                                (ChartDataPoint.name p))
         (aggregateByField Binary64_toString data field)
  /\ forall g units,
       inUnits g units data ->
       Forall (fun p => Binary64.toQ (ChartDataPoint.value p)
                        == groupSum Binary64_toString field data
                                    (ChartDataPoint.name p))
              (aggregateByField Binary64_toString data field).
Proof.
  destruct (aggregateByField_points Binary64_toString field data)
    as [pts [_ [Hperm [_ Hall]]]].
  split.
  - eapply Permutation_Forall; [apply Permutation_sym, Hperm|].
    eapply Forall_impl; [|exact Hall]. intros p [H _].
    unfold groupValue. rewrite H. reflexivity.
  - intros g units Hu.
    eapply Permutation_Forall; [apply Permutation_sym, Hperm|].
    eapply Forall_impl; [|exact Hall]. intros p [H _].
    exact (@runningSum_group_exact _ _ _ _ _ _ _ Hu H).
Qed.

End GroupFacts.

(* ================================================================== *)
(** * The range of the values and of the percentages *)

Section Range.

Variable Binary64_toString : Binary64.t -> jsstring.
Variable field : Key.t.

(** X5. When no amount is negative and the total does not overflow to
    Infinity, every point of [aggregateByField] has a value between 0 and
    the total and a percentage between 0 and 100. *)
Theorem aggregateByField_percentage_range
        (data : list ProcessedSalesData.t) :
  validAmounts data ->
  (forall d, In d data ->
             Binary64.le Binary64.zero (ProcessedSalesData.amount d)) ->
  Binary64.isFinite (runningTotal (amounts data)) = true ->
  Forall (fun p =>
            Binary64.le Binary64.zero (ChartDataPoint.value p)
            /\ Binary64.le (ChartDataPoint.value p)
                           (runningTotal (amounts data))
            /\ Binary64.le Binary64.zero (ChartDataPoint.percentage p)
            /\ Binary64.le (ChartDataPoint.percentage p) hundred)
         (aggregateByField Binary64_toString data field).
Proof.
  intros Hval Hpos Hfin.
  assert (Hnn : Forall (fun d => nonnegative (ProcessedSalesData.amount d))
                       data).
  { unfold validAmounts in Hval. rewrite Forall_forall in *.
    intros d Hd. split; [apply Hval | apply Hpos]; exact Hd. }
  destruct (aggregateByField_points Binary64_toString field data)
    as [pts [_ [Hperm [_ Hall]]]].
  eapply Permutation_Forall; [apply Permutation_sym, Hperm|].
  eapply Forall_impl; [|exact Hall]. intros p [Hv Hp].
  destruct (@runningSum_le_total data
              (fun d => JSString.eqb (keyOf Binary64_toString field d)
                                     (ChartDataPoint.name p))
              Hnn None Binary64.zero (nonnegative_zero false) I)
    as [Htotal Hentry].
  fold (runningTotal (amounts data)) in Htotal, Hentry.
  unfold runningSum, groupAmounts in Hv. rewrite Hv in Hentry.
  cbn [entryHolds] in Hentry. destruct Hentry as [Hvn Hvt].
  split; [exact (proj2 Hvn) | split; [exact Hvt|]].
  rewrite Hp. clear Hp Hv.
  destruct (@le_finite _ _ Hvn Hvt Hfin) as [Hvf Hq].
  revert Htotal Hvt Hfin Hq.
  generalize (runningTotal (amounts data)) as total.
  intros total Htotal Hvt Hfin Hq.
  destruct (isPositive total) eqn:Epos;
    [|split; [apply Qle_refl | vm_compute; discriminate]].
  destruct (nonnegative_cases Htotal)
    as [[s ->] | [-> | [mt [et [-> [Hpt _]]]]]]; try discriminate.
  destruct (nonnegative_cases Hvn)
    as [[s Ev] | [Ev | [mv [ev [Ev [Hpv _]]]]]]; rewrite Ev in *;
    try discriminate.
  - destruct s; split; vm_compute; discriminate.
  - destruct (@div_le_one mv mt ev et Hq) as [N [E [-> [HN [HE Hle]]]]].
    apply mul_hundred_range; assumption.
Qed.

End Range.

(* ================================================================== *)
(** * Ties, shares and totals of the aggregator *)

(** Two numbers that are the same number rank alike. *)
Lemma eqb_le (x y : Binary64.t) :
  Binary64.eqb x y = true -> Binary64.le x y /\ Binary64.le y x.
Proof.
  destruct x as [sx|sx| |sx mx ex], y as [sy|sy| |sy my ey];
    cbn [Binary64.eqb Binary64.le]; intros H; try discriminate;
    try (apply Qeq_bool_eq in H; rewrite H; split; apply Qle_refl).
  destruct sx, sy; try discriminate; split; auto.
Qed.

Lemma tied_rank_alike (x y v : Binary64.t) :
  Binary64.eqb x v = true -> Binary64.eqb y v = true -> Binary64.le x y.
Proof.
  intros Hx Hy. apply eqb_le in Hx as [Hxv _], Hy as [_ Hvy].
  exact (@le_trans _ _ _ Hxv Hvy).
Qed.

Section Ties.

Variable Binary64_toString : Binary64.t -> jsstring.
Variable field : Key.t.

(** X4. Points of equal value keep the order in which their keys first
    occur in the input, as soon as no value is NaN: for every number [v],
    the names of the points worth [v], in output order, are the keys whose
    group is worth [v], in order of first occurrence. *)
Theorem aggregateByField_ties_in_first_seen_order
        (data : list ProcessedSalesData.t) (v : Binary64.t) :
  validAmounts data ->
  noNaNValue (aggregateByField Binary64_toString data field) ->
  map ChartDataPoint.name
      (filter (fun p => Binary64.eqb (ChartDataPoint.value p) v)
              (aggregateByField Binary64_toString data field))
  = filter (fun k => Binary64.eqb
                       (groupValue Binary64_toString field data k) v)
           (firstSeen (map (keyOf Binary64_toString field) data)).
Proof.
  intros Hval Hnan.
  destruct (aggregateByField_points Binary64_toString field data)
    as [pts [Heq [Hperm [Hk Hall]]]].
  assert (Hdom : Forall comparable pts).
  { eapply Permutation_Forall; [exact Hperm|].
    exact (proj1 (proj1 (@aggregateByField_ranked Binary64_toString data
                           field Hval) Hnan)). }
  rewrite Heq.
  rewrite (@sort_tied_on _ descendingByValue comparable
             descendingByValue_trans descendingByValue_total
             (fun p => Binary64.eqb (ChartDataPoint.value p) v)).
  - rewrite <- Hk. clear -Hall.
    induction Hall as [|p pts [Hp _] _ IH]; simpl; [reflexivity|].
    unfold groupValue at 1. rewrite Hp.
    destruct (Binary64.eqb (ChartDataPoint.value p) v); simpl; rewrite IH;
      reflexivity.
  - intros x y [Hx Nx] [Hy Ny] Tx Ty. unfold descendingByValue.
    destruct (isPositive (Binary64.sub (ChartDataPoint.value y)
                                       (ChartDataPoint.value x))) eqn:E;
      [|reflexivity].
    apply (@sub_positive _ _ Hx Hy Nx Ny) in E.
    apply (@le_iff_not_lt _ _ Ny Nx) in E; [contradiction|].
    exact (tied_rank_alike _ _ _ Ty Tx).
  - intros x y z [Hx Nx] [Hy Ny] [Hz Nz] Hyx Hyz Tx Tz.
    unfold descendingByValue in Hyx, Hyz.
    apply (@sub_positive _ _ Hy Hx Ny Nx) in Hyx.
    assert (Hzy : Binary64.le (ChartDataPoint.value z)
                              (ChartDataPoint.value y)).
    { apply (@le_iff_not_lt _ _ Nz Ny). intros Hlt.
      apply (@sub_positive _ _ Hy Hz Ny Nz) in Hlt. congruence. }
    assert (Hxy : Binary64.le (ChartDataPoint.value x)
                              (ChartDataPoint.value y)).
    { exact (@le_trans _ _ _ (tied_rank_alike _ _ _ Tx Tz) Hzy). }
    apply (@le_iff_not_lt _ _ Nx Ny) in Hxy. exact (Hxy Hyx).
  - exact Hdom.
Qed.

(** X6. The share a ranking tooltip recomputes from the total the dashboard
    shows, [totalAmount], is the percentage the point carries, the same
    binary64 number; and [totalAmount] is the exact sum of the values of the
    ranking when the amounts are whole multiples of one unit whose absolute
    values add up to less than 2^53 units. *)
Theorem totalAmount_matches_rankings (data : list ProcessedSalesData.t) :
  Forall (fun p => shareOfTotal (totalAmount data) (ChartDataPoint.value p)
                   = ChartDataPoint.percentage p)
         (aggregateByField Binary64_toString data field)
  /\ forall g units,
       inUnits g units data ->
       Binary64.toQ (totalAmount data)
       == sumValues (aggregateByField Binary64_toString data field).
Proof.
  destruct (aggregateByField_points Binary64_toString field data)
    as [pts [_ [Hperm [Hnames Hall]]]].
  split.
  - eapply Permutation_Forall; [apply Permutation_sym, Hperm|].
    eapply Forall_impl; [|exact Hall]. intros p [_ H].
    unfold shareOfTotal. rewrite totalAmount_runningTotal, H. reflexivity.
  - intros g units Hu.
    rewrite totalAmount_runningTotal.
    rewrite (proj2 (@runningTotal_data_exact _ _ _ Hu)).
    rewrite sumValues_sumOver, (@sumOver_Permutation _ _ _ _ Hperm).
    symmetry. apply (@values_of_points_exact _ _ _ _ _ _ Hu Hnames).
    eapply Forall_impl; [|exact Hall]. intros p [H _]. exact H.
Qed.

End Ties.

(* ================================================================== *)
(** * When the trend builder throws *)

(** Only the months 1 .. 12 have a row in the skeleton. *)
Lemma monthKey_known (n : number) :
  In (monthKey n) (map fst initialMonthlyMap) ->
  exists m, n = Num m /\ (1 <= m <= 12)%Z.
Proof.
  rewrite initialMonthlyMap_keys. destruct n as [|k].
  - intros H. cbv in H.
    repeat (destruct H as [H | H]; [discriminate|]). contradiction.
  - pose proof (parseInt_toString k) as Hrt. unfold monthKey.
    destruct (Number.toString (Num k)) as [|a [|b [|c t]]]; intros H.
    + cbv in H.
      repeat (destruct H as [H | H]; [discriminate|]). contradiction.
    + cbv in H.
      repeat (destruct H as [H | H];
              [first [discriminate
                     | inversion H; subst; vm_compute in Hrt;
                       injection Hrt as <-; eexists;
                       split; [reflexivity | lia]]|]).
      contradiction.
    + cbv in H.
      repeat (destruct H as [H | H];
              [first [discriminate
                     | inversion H; subst; vm_compute in Hrt;
                       injection Hrt as <-; eexists;
                       split; [reflexivity | lia]]|]).
      contradiction.
    + assert (Hlen : forall m, In m calendarMonths ->
                length (monthKey (Num m)) = 2%nat).
      { intros m Hm. unfold calendarMonths in Hm. simpl in Hm.
        repeat (destruct Hm as [<- | Hm]; [reflexivity|]). contradiction. }
      apply in_map_iff in H as [m [Heq Hm]].
      apply Hlen in Hm. unfold monthKey in Hm. rewrite Heq in Hm.
      unfold JSString.padStart in Hm. rewrite length_app in Hm.
      simpl in Hm. lia.
Qed.

Lemma monthInRange_row (mm : JSMap.t (JSMap.t Binary64.t)) (d : ProcessedSalesData.t) :
  map fst mm = map fst initialMonthlyMap ->
  (monthInRange d ->
   exists row, JSMap.get (monthKey (ProcessedSalesData.month d)) mm = Some row)
  /\ (~ monthInRange d ->
      JSMap.get (monthKey (ProcessedSalesData.month d)) mm = None).
Proof.
  intros Hkeys. split.
  - intros [m [Hm Hrange]]. rewrite Hm. apply monthKey_row; assumption.
  - intros Hbad.
    destruct (JSMap.get (monthKey (ProcessedSalesData.month d)) mm)
      as [row|] eqn:E; [|reflexivity].
    exfalso. apply Hbad. apply monthKey_known. rewrite <- Hkeys.
    clear -E. induction mm as [|[k v] mm IH]; simpl in *; [discriminate|].
    destruct (JSString.eqb k _) eqn:Ek.
    + apply JSString_eqb_eq in Ek. left; exact Ek.
    + right. apply IH. exact E.
Qed.

Lemma record_from_None (data : list ProcessedSalesData.t) :
  fold_left record_ data None = None.
Proof. induction data as [|d data IH]; simpl; auto. Qed.

(** The loop over the records ends normally exactly when every month has
    a row. *)
Lemma record_fold_months (data : list ProcessedSalesData.t) :
  forall (yearsFound : JSSet.t) (mm : JSMap.t (JSMap.t Binary64.t)),
    map fst mm = map fst initialMonthlyMap ->
    (Forall monthInRange data ->
     exists acc, fold_left record_ data (Some (yearsFound, mm)) = Some acc)
    /\ ((exists d, In d data /\ ~ monthInRange d) ->
        fold_left record_ data (Some (yearsFound, mm)) = None).
Proof.
  induction data as [|d data IH]; intros yearsFound mm Hkeys.
  - split; [intros _; eexists; reflexivity | intros [d [[] _]]].
  - destruct (@monthInRange_row mm d Hkeys) as [Hgood Hbad].
    destruct (JSMap.get (monthKey (ProcessedSalesData.month d)) mm)
      as [row|] eqn:E.
    + set (mm1 := JSMap.set (monthKey (ProcessedSalesData.month d))
                    (addToCell (Number.toString (ProcessedSalesData.year d))
                               (ProcessedSalesData.amount d) row) mm).
      assert (Hkeys1 : map fst mm1 = map fst initialMonthlyMap).
      { subst mm1. rewrite (set_keys_present _ _ _ E). exact Hkeys. }
      destruct (IH (JSSet.add (ProcessedSalesData.year d) yearsFound) mm1 Hkeys1)
        as [IH1 IH2].
      simpl. rewrite E. fold mm1. split.
      * intros Hall. apply IH1. inversion Hall; assumption.
      * intros [d' [[<- | Hin] Hd']]; [|apply IH2; eauto].
        specialize (Hbad Hd'). discriminate.
    + simpl. rewrite E. split.
      * intros Hall. inversion Hall as [|? ? Hd _]; subst.
        destruct (Hgood Hd) as [row Hrow]. congruence.
      * intros _. apply record_from_None.
Qed.

Lemma monthInRange_dec (d : ProcessedSalesData.t) :
  monthInRange d \/ ~ monthInRange d.
Proof.
  unfold monthInRange. destruct (ProcessedSalesData.month d) as [|m].
  - right. intros [m [H _]]. discriminate.
  - destruct (Z_le_dec 1 m) as [H1 | H1], (Z_le_dec m 12) as [H2 | H2];
      try (right; intros [m' [H [? ?]]]; injection H as <-; lia).
    left. exists m. split; [reflexivity | lia].
Qed.

Lemma all_or_some_bad (data : list ProcessedSalesData.t) :
  Forall monthInRange data \/ exists d, In d data /\ ~ monthInRange d.
Proof.
  induction data as [|d data [IH | [d' [Hin Hd']]]].
  - left; constructor.
  - destruct (monthInRange_dec d) as [Hd | Hd].
    + left; constructor; assumption.
    + right. exists d. split; [left; reflexivity | exact Hd].
  - right. exists d'. split; [right; exact Hin | exact Hd'].
Qed.

Lemma getTrendData_returns (data : list ProcessedSalesData.t) :
  Forall monthInRange data -> exists result, getTrendData data = Some result.
Proof.
  intros Hall.
  destruct (proj1 (@record_fold_months data [] initialMonthlyMap eq_refl) Hall)
    as [[yf mm] Hacc].
  unfold getTrendData.
  match goal with
  | |- context [fold_left record_ data ?start] =>
      assert (Hloop : fold_left record_ data start = Some (yf, mm))
        by exact Hacc
  end.
  rewrite Hloop. eexists; reflexivity.
Qed.

Lemma getTrendData_throws (data : list ProcessedSalesData.t) :
  (exists d, In d data /\ ~ monthInRange d) -> getTrendData data = None.
Proof.
  intros Hex. unfold getTrendData.
  match goal with
  | |- context [fold_left record_ data ?start] =>
      assert (Hloop : fold_left record_ data start = None)
        by exact (proj2 (@record_fold_months data [] initialMonthlyMap eq_refl)
                        Hex)
  end.
  rewrite Hloop. reflexivity.
Qed.

(** X7. [getTrendData] throws (the TypeError of reading a property of an
    absent row) exactly when some record's month is not an integer in
    1 .. 12, NaN included; otherwise it returns. *)
Theorem getTrendData_throws_iff (data : list ProcessedSalesData.t) :
  (getTrendData data = None <->
   exists d, In d data /\ ~ monthInRange d)
  /\ ((exists result, getTrendData data = Some result) <->
      Forall monthInRange data).
Proof.
  split; split.
  - intros Hn. destruct (all_or_some_bad data) as [Hall | Hex]; [|exact Hex].
    destruct (getTrendData_returns Hall) as [r Hr]. congruence.
  - apply getTrendData_throws.
  - intros [r Hr]. destruct (all_or_some_bad data) as [Hall | Hex];
      [exact Hall|]. rewrite (@getTrendData_throws data Hex) in Hr. discriminate.
  - apply getTrendData_returns.
Qed.

Lemma MonthFromTime_range (t : Z) : (0 <= JSDate.MonthFromTime t <= 11)%Z.
Proof.
  unfold JSDate.MonthFromTime.
  repeat match goal with
         | |- context [(?a <? ?b)%Z] => destruct (a <? b)%Z
         end; lia.
Qed.

Section TrendOfRawData.

Variable CATEGORY_RULES : list CategoryRule.t.
Variable DEFAULT_CATEGORY DEFAULT_SUB_CATEGORY : jsstring.
Variable LocalTZA : Z -> Z.
Variable Date_parseOther : jsstring -> number.

Let normalize : list RawSalesData.t -> list ProcessedSalesData.t :=
  processData CATEGORY_RULES DEFAULT_CATEGORY DEFAULT_SUB_CATEGORY
              LocalTZA Date_parseOther.

Lemma processData_month (item : RawSalesData.t) :
  forall out, In out (normalize [item]) ->
    (monthInRange out <-> ~ invalidDate Date_parseOther item).
Proof.
  intros out [<- | []]. unfold invalidDate, monthInRange. simpl.
  destruct (JSDate.construct Date_parseOther (RawSalesData.date item)) as [|t].
  - simpl. split; [intros [m [H _]]; discriminate | intros H; congruence].
  - simpl. split; [intros _; discriminate|]. intros _.
    eexists. split; [reflexivity|].
    pose proof (MonthFromTime_range (JSDate.LocalTime LocalTZA t)). lia.
Qed.

(** X8. The trend builder applied to normalized raw records throws exactly
    when the host reads some record's date string as an invalid date;
    whatever the time zone, every valid date lands in one of the twelve
    rows. *)
Theorem getTrendData_of_processData_throws_iff
        (rawData : list RawSalesData.t) :
  getTrendData (normalize rawData) = None <->
  exists item, In item rawData /\ invalidDate Date_parseOther item.
Proof.
  split.
  - intros Hnone.
    destruct (all_or_some_bad (normalize rawData)) as [Hall | Hex].
    { destruct (getTrendData_returns Hall) as [r Hr]. congruence. }
    destruct Hex as [out [Hin Hbad]]. unfold normalize, processData in Hin.
    apply in_map_iff in Hin as [item [Hout Hin]].
    exists item. split; [exact Hin|].
    pose proof (@processData_month item out (or_introl Hout)) as Hm.
    unfold invalidDate in *.
    destruct (JSDate.construct Date_parseOther (RawSalesData.date item))
      as [|t]; [reflexivity|].
    exfalso. apply Hbad, Hm. discriminate.
  - intros [item [Hin Hinv]]. apply getTrendData_throws.
    unfold normalize, processData.
    eexists. split; [apply in_map; exact Hin|].
    intros Hgood.
    apply (proj1 (@processData_month item _ (or_introl eq_refl))) in Hgood.
    contradiction.
Qed.

End TrendOfRawData.

(* ================================================================== *)
(** * The trend table adds up *)

Lemma sumOver_Forall2 (A B : Type) (f : A -> Q) (g : B -> Q)
      (la : list A) (lb : list B) :
  Forall2 (fun a b => f a == g b) la lb -> sumOver f la == sumOver g lb.
Proof.
  induction 1 as [|a b la lb Hab _ IH]; simpl; [reflexivity|].
  rewrite Hab, IH. reflexivity.
Qed.

Lemma sumOver_swap (A B : Type) (f : A -> B -> Q) (la : list A) (lb : list B) :
  sumOver (fun a => sumOver (fun b => f a b) lb) la
  == sumOver (fun b => sumOver (fun a => f a b) la) lb.
Proof.
  induction la as [|a la IH]; simpl.
  - symmetry. apply sumOver_zero.
  - rewrite IH, <- sumOver_plus. reflexivity.
Qed.

(** Summing part by part is summing over the whole list, when every element
    is of exactly one of the parts [ks]. *)
Lemma sumOver_parts (A K : Type) (part : K -> A -> bool) (f : A -> Q)
      (l : list A) (ks : list K) :
  (forall x, In x l ->
             sumOver (fun k => if part k x then f x else 0) ks == f x) ->
  sumOver (fun k => sumOver f (filter (part k) l)) ks == sumOver f l.
Proof.
  induction l as [|x l IH]; intros Hone.
  - simpl. apply sumOver_zero.
  - rewrite (@sumOver_ext _ _
               (fun k => (if part k x then f x else 0)
                         + sumOver f (filter (part k) l))).
    + rewrite sumOver_plus, IH by (intros y Hy; apply Hone; right; exact Hy).
      rewrite (Hone x (or_introl eq_refl)). reflexivity.
    + intros k _. simpl. destruct (part k x); simpl; ring.
Qed.

(** Exactly one element of a duplicate-free list passes a test that holds
    of [x0] alone. *)
Lemma sumOver_only (K : Type) (test : K -> bool) (ks : list K) (x0 : K)
      (a : Q) :
  NoDup ks -> In x0 ks -> (forall k, test k = true <-> k = x0) ->
  sumOver (fun k => if test k then a else 0) ks == a.
Proof.
  intros Hnd Hin Htest. induction Hnd as [|k ks Hk Hnd IH];
    [contradiction|]. simpl.
  destruct (test k) eqn:E.
  - apply Htest in E. subst k.
    rewrite (@sumOver_ext _ _ (fun _ => 0)), sumOver_zero; [ring|].
    intros k Hin'. destruct (test k) eqn:E'; [|reflexivity].
    apply Htest in E'. subst. contradiction.
  - destruct Hin as [-> | Hin].
    + rewrite (proj2 (Htest x0) eq_refl) in E. discriminate.
    + rewrite (IH Hin). ring.
Qed.

Lemma calendarMonths_NoDup : NoDup calendarMonths.
Proof.
  unfold calendarMonths.
  repeat (constructor; [simpl; intros H; intuition discriminate|]).
  constructor.
Qed.

Lemma isDated_ofYear (y : number) (m : Z) (d : ProcessedSalesData.t) :
  isDated y m d
  = ofYear y d && Number.sameValueZero (ProcessedSalesData.month d) (Num m).
Proof. reflexivity. Qed.

(** The twelve monthly sums of a year add up to the sum of the year. *)
Lemma months_of_year (data : list ProcessedSalesData.t) (y : number) :
  Forall monthInRange data ->
  sumOver (fun m => cellSum data y m) calendarMonths == yearSum data y.
Proof.
  intros Hall. unfold cellSum, yearSum.
  rewrite <- (@sumOver_parts _ _
                (fun m d => Number.sameValueZero (ProcessedSalesData.month d)
                                                 (Num m))
                (fun d => Binary64.toQ (ProcessedSalesData.amount d))
                (filter (ofYear y) data) calendarMonths).
  - apply sumOver_ext. intros m _.
    change (sumAmounts (filter (isDated y m) data))
      with (sumOver (fun d => Binary64.toQ (ProcessedSalesData.amount d))
                    (filter (isDated y m) data)).
    assert (E : filter (isDated y m) data
                = filter (fun d => Number.sameValueZero
                                     (ProcessedSalesData.month d) (Num m))
                         (filter (ofYear y) data)).
    { clear. induction data as [|d data IH]; simpl; [reflexivity|].
      rewrite isDated_ofYear. destruct (ofYear y d); simpl;
        [destruct (Number.sameValueZero _ _); rewrite IH; reflexivity
        | exact IH]. }
    rewrite E. reflexivity.
  - intros d Hd. apply filter_In in Hd as [Hd _].
    rewrite Forall_forall in Hall. destruct (Hall d Hd) as [m0 [Hm0 Hrange]].
    apply (@sumOver_only _ _ _ m0 _ calendarMonths_NoDup
             (calendar_month_cases Hrange)).
    intros m. rewrite Hm0. simpl. rewrite Z.eqb_eq. split; congruence.
Qed.

(** Every record is of exactly one of the years found. *)
Lemma years_cover (data : list ProcessedSalesData.t) (years : list number) :
  NoDup years ->
  (forall d, In d data -> In (ProcessedSalesData.year d) years) ->
  sumOver (fun y => yearSum data y) years == sumAmounts data.
Proof.
  intros Hnd Hin. unfold yearSum.
  apply (@sumOver_parts _ _ ofYear
           (fun d => Binary64.toQ (ProcessedSalesData.amount d))).
  intros d Hd.
  apply (@sumOver_only _ _ _ (ProcessedSalesData.year d) _ Hnd (Hin d Hd)).
  intros y. unfold ofYear. rewrite sameValueZero_eq. split; congruence.
Qed.

Lemma sumEntries_by_key (l : JSMap.t Binary64.t) :
  NoDup (map fst l) ->
  sumEntries l == sumOver (fun k => entryQ (JSMap.get k l)) (map fst l).
Proof.
  unfold sumEntries.
  induction l as [|[k v] l IH]; intros Hnd; simpl; [reflexivity|].
  inversion Hnd as [|? ? Hk Hnd']; subst.
  rewrite JSString_eqb_refl. simpl. rewrite (IH Hnd').
  apply Qplus_inj_l. apply sumOver_ext. intros k' Hk'.
  destruct (JSString.eqb k k') eqn:E; [|reflexivity].
  apply JSString_eqb_eq in E. subst. contradiction.
Qed.

(** The entry of a point for one of the returned years, on amounts given in
    whole units. *)
Lemma pointOf_entry (g : Z) (units : ProcessedSalesData.t -> Z)
      (data : list ProcessedSalesData.t) (years : list number)
      (m : Z) (y : number) (point : TrendDataPoint.t) :
  inUnits g units data -> pointOf data years m point -> In y years ->
  entryQ (JSMap.get (Number.toString y) (TrendDataPoint.years point))
  == cellSum data y m.
Proof.
  intros Hu [_ [_ H]] Hy. destruct (H y Hy) as [Hget [_ Hv]].
  rewrite Hget. exact (Hv g units Hu).
Qed.

Lemma pointOf_sum (g : Z) (units : ProcessedSalesData.t -> Z)
      (data : list ProcessedSalesData.t) (years : list number)
      (m : Z) (point : TrendDataPoint.t) :
  inUnits g units data -> NoDup years -> pointOf data years m point ->
  sumEntries (TrendDataPoint.years point)
  == sumOver (fun y => cellSum data y m) years.
Proof.
  intros Hu Hnd Hp. pose proof Hp as [_ [Hkeys _]].
  rewrite sumEntries_by_key by (rewrite Hkeys; apply toString_NoDup, Hnd).
  rewrite Hkeys, sumOver_map. apply sumOver_ext.
  intros y Hy. apply (@pointOf_entry g units data years m y point Hu Hp Hy).
Qed.

(** X9. On records whose month is in 1 .. 12 and whose amounts are whole
    multiples of one unit, their absolute values adding up to less than
    2^53 units, the entries of the twelve trend points add up to the amounts
    of the input: every record is counted in exactly one cell, and no
    addition rounds. *)
Theorem getTrendData_conserves_amounts
        (data : list ProcessedSalesData.t)
        (chartData : list TrendDataPoint.t) (years : list jsstring)
        (g : Z) (units : ProcessedSalesData.t -> Z) :
  Forall monthInRange data ->
  inUnits g units data ->
  getTrendData data = Some (chartData, years) ->
  sumOver (fun point => sumEntries (TrendDataPoint.years point)) chartData
  == sumAmounts data.
Proof.
  intros Hall Hu Hget.
  destruct (getTrendData_points Hall)
    as [chart [ys [Hget' [Hnd [Hin [_ Hpts]]]]]].
  rewrite Hget' in Hget. injection Hget as <- _.
  rewrite <- (@sumOver_Forall2 _ _
                (fun m => sumOver (fun y => cellSum data y m) ys)
                (fun point => sumEntries (TrendDataPoint.years point))
                calendarMonths chart).
  - rewrite sumOver_swap.
    rewrite (@sumOver_ext _ _ (fun y => yearSum data y)).
    + apply years_cover; [exact Hnd|].
      intros d Hd. apply Hin. eauto.
    + intros y _. apply months_of_year. exact Hall.
  - eapply Forall2_impl; [|exact Hpts].
    intros m point Hp. symmetry.
    apply (@pointOf_sum g units); assumption.
Qed.

(* ================================================================== *)
(** * The annual totals of the trend tooltip *)

Lemma annualTotals_from (data : list ProcessedSalesData.t)
      (m0 : JSMap.t Binary64.t) (k : jsstring) :
  JSMap.get k
    (fold_left (fun totals d =>
                  let y := Number.toString (ProcessedSalesData.year d) in
                  JSMap.set y (Binary64.add (orZero (JSMap.get y totals))
                                            (ProcessedSalesData.amount d))
                            totals)
               data m0)
  = fold_left addTo
      (amounts (filter (fun d => JSString.eqb
                                   (Number.toString (ProcessedSalesData.year d))
                                   k)
                       data))
      (JSMap.get k m0).
Proof.
  revert m0; induction data as [|d data IH]; intros m0; simpl.
  - reflexivity.
  - rewrite IH. cbv zeta.
    destruct (JSString.eqb (Number.toString (ProcessedSalesData.year d)) k)
      eqn:E.
    + apply JSString_eqb_eq in E. subst k.
      rewrite get_set_same. reflexivity.
    + apply JSString_eqb_neq in E. rewrite get_set_other by exact E.
      reflexivity.
Qed.

(** The total [annualTotals] holds for a year, on amounts given in whole
    units. *)
Lemma annualTotals_year (g : Z) (units : ProcessedSalesData.t -> Z)
      (data : list ProcessedSalesData.t) (y : number) :
  inUnits g units data ->
  Binary64.isFinite
    (orZero (JSMap.get (Number.toString y) (annualTotals data))) = true
  /\ Binary64.toQ (orZero (JSMap.get (Number.toString y)
                                     (annualTotals data)))
     == yearSum data y.
Proof.
  intros Hu. unfold annualTotals. rewrite annualTotals_from. simpl.
  rewrite (filter_ext
             (fun d => JSString.eqb
                         (Number.toString (ProcessedSalesData.year d))
                         (Number.toString y))
             (ofYear y))
    by (intros d; apply toString_eqb).
  split.
  - destruct (@inUnits_filter _ _ _ (ofYear y) Hu) as [Hall [Hb _]].
    destruct Hu as [Hg _].
    pose proof (@runningSum_exact g _ _ Hg Hall 0%Z None eq_refl) as H.
    apply orZero_multiple in H; [|simpl; lia]. exact (proj1 H).
  - apply (@cell_exact _ _ _ (ofYear y) Hu).
Qed.

Lemma plotted_entry (year : jsstring) (point : TrendDataPoint.t)
      (v : Binary64.t) :
  JSMap.get year (TrendDataPoint.years point) = Some v ->
  plotted year point = v.
Proof. intros H. unfold plotted. rewrite H. reflexivity. Qed.

(** X10. On records whose month is in 1 .. 12 and whose amounts are whole
    multiples of one unit, their absolute values adding up to less than
    2^53 units, the year total the trend tooltip divides by is the exact sum
    of the twelve monthly values the chart plots for that year.  When it is
    positive, every share is the binary64 number [val / yearTotal * 100],
    and the ratios the twelve shares of a year round, 100 * val / yearTotal,
    add up to 100; otherwise every share is 0. *)
Theorem annualTotals_match_trend
        (data : list ProcessedSalesData.t)
        (chartData : list TrendDataPoint.t) (years : list jsstring)
        (g : Z) (units : ProcessedSalesData.t -> Z) :
  Forall monthInRange data ->
  inUnits g units data ->
  getTrendData data = Some (chartData, years) ->
  Forall (fun year =>
            let yearTotal := orZero (JSMap.get year (annualTotals data)) in
            Binary64.toQ yearTotal
            == sumOver (fun point => Binary64.toQ (plotted year point))
                       chartData
            /\ (isPositive yearTotal = true ->
                Forall (fun point =>
                          shareOfYear (annualTotals data) year
                                      (plotted year point)
                          = Binary64.mul
                              (Binary64.div (plotted year point) yearTotal)
                              hundred) chartData
                /\ sumOver (fun point =>
                              100 * Binary64.toQ (plotted year point)
                              / Binary64.toQ yearTotal)
                           chartData == 100)
            /\ (isPositive yearTotal = false ->
                Forall (fun point =>
                          shareOfYear (annualTotals data) year
                                      (plotted year point)
                          = Binary64.zero) chartData))
         years.
Proof.
  intros Hall Hu Hget.
  destruct (getTrendData_points Hall)
    as [chart [ys [Hget' [Hnd [Hin [_ Hpts]]]]]].
  rewrite Hget' in Hget. injection Hget as <- <-.
  apply Forall_forall. intros year Hyear.
  apply in_map_iff in Hyear as [y [<- Hy]]. cbv zeta.
  destruct (@annualTotals_year g units data y Hu) as [Hfinite Hyear].
  assert (Htotal : Binary64.toQ
                     (orZero (JSMap.get (Number.toString y)
                                        (annualTotals data)))
                   == sumOver (fun point =>
                                 Binary64.toQ
                                   (plotted (Number.toString y) point))
                              chart).
  { rewrite Hyear, <- (months_of_year y Hall).
    apply sumOver_Forall2. eapply Forall2_impl; [|exact Hpts].
    intros m point Hp. symmetry.
    pose proof (@pointOf_entry g units data ys m y point Hu Hp Hy) as He.
    destruct Hp as [_ [_ Hp]]. destruct (Hp y Hy) as [Hget _].
    rewrite (plotted_entry _ _ Hget). rewrite Hget in He. exact He. }
  split; [exact Htotal | split].
  - intros Hpos. split.
    + apply Forall_forall. intros point _. unfold shareOfYear.
      rewrite Hpos. reflexivity.
    + revert Htotal Hpos Hfinite.
      generalize (orZero (JSMap.get (Number.toString y)
                                    (annualTotals data))) as T.
      intros T Htotal Hpos Hfinite.
      assert (Hne : ~ Binary64.toQ T == 0).
      { destruct T as [s|s| |s mT e]; try discriminate.
        rewrite isPositive_finite in Hpos.
        destruct s; [discriminate|].
        intros E. pose proof (proj2 (proj1 (toQ_finite_sign false mT e))
                                    eq_refl) as Hlt.
        rewrite E in Hlt. exact (Qlt_irrefl 0 Hlt). }
      rewrite (@sumOver_ext _ _
                 (fun point => (100 / Binary64.toQ T)
                               * Binary64.toQ
                                   (plotted (Number.toString y) point)))
        by (intros p _; field; exact Hne).
      rewrite sumOver_scale, <- Htotal. field. exact Hne.
  - intros Hnp. apply Forall_forall. intros point _. unfold shareOfYear.
    rewrite Hnp. reflexivity.
Qed.

(* ================================================================== *)
(** * Loading a dataset *)

Lemma last_of_sorted (zs : list Z) (d : Z) :
  StronglySorted Z.lt zs -> zs <> [] ->
  In (last zs d) zs /\ forall z, In z zs -> (z <= last zs d)%Z.
Proof.
  induction 1 as [|x zs Hs IH Hx]; intros Hne; [congruence|].
  destruct zs as [|x' zs].
  - simpl. split; [left; reflexivity | intros z [<- | []]; lia].
  - destruct IH as [IH1 IH2]; [discriminate|].
    change (last (x :: x' :: zs) d) with (last (x' :: zs) d).
    split; [right; exact IH1|].
    intros z [<- | Hz]; [|apply IH2; exact Hz].
    rewrite Forall_forall in Hx. specialize (Hx _ IH1). lia.
Qed.

Lemma last_map_Num (zs : list Z) :
  zs <> [] -> last (map Num zs) NaN = Num (last zs 0%Z).
Proof.
  induction zs as [|x zs IH]; intros Hne; [congruence|].
  destruct zs as [|x' zs]; [reflexivity|].
  change (last (map Num (x :: x' :: zs)) NaN)
    with (last (map Num (x' :: zs)) NaN).
  rewrite IH by discriminate. reflexivity.
Qed.

(** The filter state of [updateData] keeps the records of year [Y]. *)
Lemma keep_latestYearFilters (Y : Z) (d : ProcessedSalesData.t) :
  calendarDated d ->
  keep (latestYearFilters (yearKey Y)) None d
  = Number.sameValueZero (ProcessedSalesData.year d) (Num Y).
Proof.
  intros [y [m [[Hy Hm] Hrange]]]. unfold keep.
  assert (Hout : outsideDateRange (latestYearFilters (yearKey Y)) d
                 = negb (y =? Y)%Z).
  { unfold outsideDateRange, itemDateVal, startDateVal, endDateVal.
    cbn [latestYearFilters FilterState.startYear FilterState.startMonth
         FilterState.endYear FilterState.endMonth].
    unfold yearKey. rewrite parseInt_toString, Hy, Hm.
    change (parseInt (str "1")) with (Num 1).
    change (parseInt (str "12")) with (Num 12).
    cbn [Number.mul Number.add Number.ltb Number.gtb].
    destruct (Z.eqb_spec y Y) as [-> | Hne]; simpl.
    - apply orb_false_iff. split; apply Z.ltb_ge; lia.
    - apply orb_true_iff.
      destruct (Z.lt_ge_cases y Y); [left | right]; apply Z.ltb_lt; lia. }
  rewrite Hout, Hy. simpl.
  destruct (y =? Y)%Z; reflexivity.
Qed.

Section Loading.

Variable CATEGORY_RULES : list CategoryRule.t.
Variable DEFAULT_CATEGORY DEFAULT_SUB_CATEGORY : jsstring.
Variable LocalTZA : Z -> Z.
Variable Date_parseOther : jsstring -> number.

Let normalize : list RawSalesData.t -> list ProcessedSalesData.t :=
  processData CATEGORY_RULES DEFAULT_CATEGORY DEFAULT_SUB_CATEGORY
              LocalTZA Date_parseOther.

Let load : list RawSalesData.t -> AppState.t -> AppState.t :=
  updateData CATEGORY_RULES DEFAULT_CATEGORY DEFAULT_SUB_CATEGORY
             LocalTZA Date_parseOther.

(** A valid date gives an integer year and a month in 1 .. 12. *)
Lemma processData_calendarDated (rawData : list RawSalesData.t) :
  (forall item, In item rawData -> ~ invalidDate Date_parseOther item) ->
  Forall calendarDated (normalize rawData).
Proof.
  intros Hvalid. unfold normalize, processData. apply Forall_forall.
  intros out Hin. apply in_map_iff in Hin as [item [<- Hin]].
  specialize (Hvalid item Hin). unfold invalidDate in Hvalid.
  unfold calendarDated, datedAt. simpl.
  destruct (JSDate.construct Date_parseOther (RawSalesData.date item)) as [|t];
    [congruence|].
  simpl. eexists. eexists. split; [split; reflexivity|].
  pose proof (MonthFromTime_range (JSDate.LocalTime LocalTZA t)). lia.
Qed.

(** X11. After [updateData] has loaded a non-empty dataset whose dates are
    all valid, the filter state is pointed at the latest year Y of the data
    (January to December, every facet on 'All', both searches empty), and
    filtering without a department constraint returns exactly the records of
    year Y.  Loading an empty dataset leaves the filter state as it was. *)
Theorem updateData_shows_latest_year
        (rawData : list RawSalesData.t) (s : AppState.t) :
  (rawData <> [] ->
   (forall item, In item rawData -> ~ invalidDate Date_parseOther item) ->
   exists Y,
     (exists d, In d (normalize rawData)
                /\ ProcessedSalesData.year d = Num Y)
     /\ (forall d y, In d (normalize rawData) ->
                     ProcessedSalesData.year d = Num y -> (y <= Y)%Z)
     /\ AppState.filters (load rawData s) = latestYearFilters (yearKey Y)
     /\ filterData (AppState.processedData (load rawData s))
                   (AppState.filters (load rawData s)) None
        = filter (fun d => Number.sameValueZero (ProcessedSalesData.year d)
                                                (Num Y))
                 (normalize rawData))
  /\ (rawData = [] -> AppState.filters (load rawData s) = AppState.filters s).
Proof.
  split; [|intros ->; reflexivity].
  intros Hne Hvalid.
  pose proof (processData_calendarDated rawData Hvalid) as Hall.
  pose proof (getAvailableYears_In (normalize rawData)) as Hin.
  destruct (@getAvailableYears_ascending (normalize rawData))
    as [zs [Hzs Hss]].
  { eapply Forall_impl; [|exact Hall].
    intros d [y [m [[Hy _] _]]]. exists y; exact Hy. }
  assert (Hzne : zs <> []).
  { destruct rawData as [|item rest]; [congruence|].
    intros ->.
    rewrite Forall_forall in Hall.
    destruct (Hall _ (or_introl eq_refl)) as [y [m [[Hy _] _]]].
    assert (H : In (Num y) (getAvailableYears (normalize (item :: rest)))).
    { apply Hin. eexists. split; [left; reflexivity | exact Hy]. }
    rewrite Hzs in H. exact H. }
  destruct (last_of_sorted 0%Z Hss Hzne) as [HY Hmax].
  exists (last zs 0%Z).
  assert (Hyear : forall y, In y zs <->
                            exists d, In d (normalize rawData)
                                      /\ ProcessedSalesData.year d = Num y).
  { intros y. rewrite <- Hin, Hzs. split; [apply in_map|].
    intros H. apply in_map_iff in H as [z [Hz Hz']].
    injection Hz as <-. exact Hz'. }
  assert (Hfilters : AppState.filters (load rawData s)
                     = latestYearFilters (yearKey (last zs 0%Z))).
  { unfold load, updateData. cbn [AppState.filters].
    fold (normalize rawData). rewrite Hzs. unfold yearKey.
    rewrite <- (last_map_Num Hzne).
    destruct zs as [|z zs']; [congruence|]. reflexivity. }
  split; [apply Hyear; exact HY | split; [|split; [exact Hfilters|]]].
  - intros d y Hd Hy. apply Hmax, Hyear. eauto.
  - rewrite Hfilters. unfold load, updateData. cbn [AppState.processedData].
    fold (normalize rawData). unfold filterData. apply filter_ext_in.
    intros d Hd. apply keep_latestYearFilters.
    rewrite Forall_forall in Hall. exact (Hall d Hd).
Qed.

End Loading.

(* ================================================================== *)
(** * Sessions *)

Lemma keep_under_constraint (filters : FilterState.t) (c : jsstring)
      (item : ProcessedSalesData.t) :
  keep filters (Some c) item
  = keep filters None item
    && negb (violatesConstraint (Some c) item).
Proof.
  unfold keep, passesOthers.
  destruct (outsideDateRange filters item); [reflexivity|].
  change (violatesConstraint None item) with false. cbv iota.
  destruct (violatesConstraint (Some c) item).
  - rewrite andb_false_r. reflexivity.
  - rewrite andb_true_r. reflexivity.
Qed.

Lemma filter_filter (A : Type) (p q : A -> bool) (l : list A) :
  filter p (filter q l) = filter (fun x => q x && p x) l.
Proof.
  induction l as [|x l IH]; [reflexivity|]. simpl.
  destruct (q x); simpl; [destruct (p x)|]; rewrite IH; reflexivity.
Qed.

Lemma filterData_under_constraint (data : list ProcessedSalesData.t)
      (filters : FilterState.t) (c : jsstring) :
  filterData data filters (Some c)
  = filter (fun item => negb (violatesConstraint (Some c) item))
           (filterData data filters None).
Proof.
  unfold filterData. rewrite filter_filter. apply filter_ext.
  intros item. apply keep_under_constraint.
Qed.

(** X12. What a session sees, whatever the filter controls are set to after
    the login.  admin/admin sees the filtered data of every department.  A
    login with the department password and a non-empty user name u sees the
    filtered data restricted to the records whose department is exactly u.
    The same password with an empty user name is accepted too, and that
    session sees every department.  After a logout nothing is shown. *)
Theorem session_scope (s : AppState.t) (f : FilterState.t) :
  let s' := setFilters f (fst (handleLogin s)) in
  let unscoped := filterData (AppState.processedData s) f None in
  (AppState.loginUser s = str "admin" -> AppState.loginPass s = str "admin" ->
   filteredData s' = unscoped)
  /\ (AppState.loginPass s = str "abcd1234" -> AppState.loginUser s <> [] ->
      filteredData s'
      = filter (fun item => JSString.eqb (ProcessedSalesData.department item)
                                         (AppState.loginUser s))
               unscoped
      /\ Forall (fun item => ProcessedSalesData.department item
                             = AppState.loginUser s)
                (filteredData s'))
  /\ (AppState.loginPass s = str "abcd1234" -> AppState.loginUser s = [] ->
      filteredData s' = unscoped)
  /\ filteredData (setFilters f (handleLogout s)) = [].
Proof.
  cbv zeta. split; [|split; [|split; [|reflexivity]]].
  - intros Hu Hp. unfold handleLogin. rewrite Hu, Hp. reflexivity.
  - intros Hp Hu. unfold handleLogin. rewrite Hp.
    rewrite andb_false_r.
    change (JSString.eqb (str "abcd1234") (str "abcd1234")) with true.
    cbv iota. unfold filteredData, setFilters. cbn [fst AppState.user
      AppState.processedData AppState.filters UserSession.departmentFilter].
    assert (Heq : filterData (AppState.processedData s) f
                             (Some (AppState.loginUser s))
                  = filter (fun item =>
                              JSString.eqb (ProcessedSalesData.department item)
                                           (AppState.loginUser s))
                           (filterData (AppState.processedData s) f None)).
    { rewrite filterData_under_constraint. apply filter_ext. intros item.
      unfold violatesConstraint.
      destruct (AppState.loginUser s) as [|c u]; [congruence|].
      change (JSString.truthy (c :: u)) with true. cbn [andb].
      apply negb_involutive. }
    split; [exact Heq|].
    rewrite Heq. apply Forall_forall. intros item Hin.
    apply filter_In in Hin as [_ Hin]. apply JSString_eqb_eq. exact Hin.
  - intros Hp Hu. unfold handleLogin. rewrite Hp, Hu.
    change (JSString.eqb [] (str "admin")) with false.
    change (JSString.eqb (str "abcd1234") (str "abcd1234")) with true.
    cbv iota. cbn [andb]. unfold filteredData, setFilters.
    cbn [fst AppState.user AppState.processedData AppState.filters
         UserSession.departmentFilter].
    rewrite filterData_under_constraint.
    rewrite <- (filter_ext (fun _ => true));
      [|intros item; reflexivity].
    clear. induction (filterData (AppState.processedData s) f None)
      as [|x l IH]; [reflexivity|]. simpl. rewrite IH. reflexivity.
Qed.

(* ================================================================== *)
(** * The code-unit order *)

Lemma ltb_irrefl (a : jsstring) : JSString.ltb a a = false.
Proof.
  induction a as [|x a IH]; [reflexivity|]. simpl.
  rewrite N.ltb_irrefl, N.eqb_refl, IH. reflexivity.
Qed.

Lemma ltb_cons (x y : N) (a b : jsstring) :
  JSString.ltb (x :: a) (y :: b) = true
  <-> (x < y)%N \/ (x = y /\ JSString.ltb a b = true).
Proof.
  simpl. rewrite orb_true_iff, andb_true_iff, N.ltb_lt, N.eqb_eq. tauto.
Qed.

Lemma ltb_trans (a b c : jsstring) :
  JSString.ltb a b = true -> JSString.ltb b c = true ->
  JSString.ltb a c = true.
Proof.
  revert b c. induction a as [|x a IH]; intros [|y b] [|z c];
    try (simpl; congruence).
  rewrite !ltb_cons. intros [Hxy | [-> Hab]] [Hyz | [-> Hbc]].
  - left; lia.
  - left; exact Hxy.
  - left; exact Hyz.
  - right. split; [reflexivity | exact (IH _ _ Hab Hbc)].
Qed.

Lemma ltb_total (a b : jsstring) :
  JSString.ltb a b = false -> JSString.ltb b a = false -> a = b.
Proof.
  revert b. induction a as [|x a IH]; intros [|y b]; simpl;
    try congruence.
  rewrite !orb_false_iff, !andb_false_iff, !N.ltb_ge, !N.eqb_neq.
  intros [Hyx H1] [Hxy H2].
  assert (x = y) by lia. subst y. f_equal.
  apply IH; [destruct H1 | destruct H2]; congruence.
Qed.

Lemma ltb_asym (a b : jsstring) :
  JSString.ltb a b = true -> JSString.ltb b a = false.
Proof.
  intros Hab. destruct (JSString.ltb b a) eqn:Hba; [|reflexivity].
  pose proof (ltb_trans _ _ _ Hab Hba) as H.
  rewrite ltb_irrefl in H. discriminate.
Qed.

Lemma ltb_not_after (a b c : jsstring) :
  JSString.ltb b a = false -> JSString.ltb c b = false ->
  JSString.ltb c a = false.
Proof.
  intros Hab Hbc. destruct (JSString.ltb c a) eqn:Hca; [|reflexivity].
  destruct (JSString.ltb a b) eqn:E.
  - rewrite (ltb_trans _ _ _ Hca E) in Hbc. discriminate.
  - rewrite (ltb_total _ _ E Hab) in Hca. congruence.
Qed.

(** The default sort orders a duplicate-free list of strings strictly. *)
Lemma sort_strings (l : list jsstring) :
  NoDup l -> strictlyAscending (JSArray.sort byCodeUnits l).
Proof.
  intros Hnd.
  assert (Hs : StronglySorted (fun a b => byCodeUnits a b = false)
                              (JSArray.sort byCodeUnits l)).
  { apply sort_StronglySorted.
    - unfold byCodeUnits. intros x y z. apply ltb_not_after.
    - unfold byCodeUnits. intros x y. apply ltb_asym. }
  assert (Hnd' : NoDup (JSArray.sort byCodeUnits l)).
  { eapply Permutation_NoDup; [apply Permutation_sym, sort_Permutation|].
    exact Hnd. }
  unfold strictlyAscending.
  induction Hs as [|x rest Hs IH Hx]; constructor;
    inversion Hnd' as [|? ? Hnotin Hrest]; subst.
  - apply IH; exact Hrest.
  - rewrite Forall_forall in *. intros y Hy. specialize (Hx y Hy).
    unfold byCodeUnits in Hx.
    destruct (JSString.ltb x y) eqn:E; [reflexivity|].
    exfalso. apply Hnotin. rewrite (ltb_total _ _ E Hx). exact Hy.
Qed.

(* ================================================================== *)
(** * The option lists *)

Lemma distinctValues_lists (f : ProcessedSalesData.t -> jsstring)
      (base : list ProcessedSalesData.t) :
  listsValues f base (distinctValues f base).
Proof.
  unfold listsValues, distinctValues, JSStringSet.toArray.
  change (JSStringSet.ofList (map f base)) with (firstSeen (map f base)).
  destruct (firstSeen_spec (map f base)) as [Hnd [Hin _]].
  split.
  - apply sort_strings. apply NoDup_filter. exact Hnd.
  - intros v.
    pose proof (sort_Permutation byCodeUnits
                  (filter JSString.truthy (firstSeen (map f base)))) as Hp.
    split.
    + intros Hv. apply (Permutation_in _ Hp) in Hv.
      apply filter_In in Hv as [Hv Ht]. apply Hin in Hv.
      apply in_map_iff in Hv as [d [Hd Hd']].
      split; [intros ->; discriminate | eauto].
    + intros [Hne [d [Hd Hfd]]].
      apply (Permutation_in _ (Permutation_sym Hp)).
      apply filter_In. split.
      * apply Hin. rewrite <- Hfd. apply in_map. exact Hd.
      * destruct v; [congruence | reflexivity].
Qed.

(** X13. Each option list of the filter bar holds exactly the non-empty
    values its field takes over the base records, each once, in strictly
    ascending code-unit order, so nothing is offered twice and the empty
    string is never offered.  For a department session with a non-empty
    department the base is the department's own records, so the department
    list offers nothing but that department. *)
Theorem options_list_field_values (s : AppState.t) :
  let base := optionsBase s in
  listsValues ProcessedSalesData.businessUnit base (Options.bus (options s))
  /\ listsValues ProcessedSalesData.department base (Options.depts (options s))
  /\ listsValues ProcessedSalesData.salesperson base (Options.sales (options s))
  /\ listsValues ProcessedSalesData.category base (Options.cats (options s))
  /\ listsValues ProcessedSalesData.subCategory base
                 (Options.subCats (options s))
  /\ listsValues ProcessedSalesData.customerName base
                 (Options.custs (options s))
  /\ (forall user u,
        AppState.user s = Some user ->
        UserSession.departmentFilter user = Some u -> u <> [] ->
        (forall d, In d base <->
                   In d (AppState.processedData s)
                   /\ ProcessedSalesData.department d = u)
        /\ forall v, In v (Options.depts (options s)) -> v = u).
Proof.
  cbv zeta. repeat (split; [apply distinctValues_lists|]).
  intros user u Huser Hfilter Hne.
  assert (Hbase : forall d, In d (optionsBase s) <->
                            In d (AppState.processedData s)
                            /\ ProcessedSalesData.department d = u).
  { intros d. unfold optionsBase. rewrite Huser, Hfilter.
    destruct u as [|c u]; [congruence|].
    change (JSString.truthy (c :: u)) with true. cbv iota.
    rewrite filter_In, JSString_eqb_eq. tauto. }
  split; [exact Hbase|].
  intros v Hv. apply (proj2 (distinctValues_lists _ _)) in Hv.
  destruct Hv as [_ [d [Hd <-]]]. apply Hbase in Hd. tauto.
Qed.

(* ================================================================== *)
(** * The pages of a ranking list *)

Lemma totalPages_div (A : Type) (data : list A) :
  Pagination.totalPages data = ((Z.of_nat (length data) + 7) / 8)%Z.
Proof.
  unfold Pagination.totalPages, Pagination.pageSize, Qceiling, Qfloor.
  generalize (Z.of_nat (length data)). intros n.
  cbn [Qdiv Qinv Qmult Qopp inject_Z Qnum Qden Z.opp].
  change (Z.pos (1 * 8)) with 8%Z.
  Z.to_euclidean_division_equations. lia.
Qed.

Lemma currentData_window (A : Type) (data : list A) (n : nat) :
  Pagination.currentData data (Z.of_nat (S n))
  = firstn 8 (skipn (8 * n) data).
Proof.
  unfold Pagination.currentData, Pagination.slice, Pagination.pageSize.
  set (len := length data).
  destruct (Z.ltb_spec ((Z.of_nat (S n) - 1) * 8) 0) as [H | _]; [lia|].
  destruct (Z.ltb_spec (Z.of_nat (S n) * 8) 0) as [H | _]; [lia|].
  destruct (Nat.le_gt_cases (8 * n) len) as [Hle | Hgt].
  - replace (Z.to_nat (Z.min ((Z.of_nat (S n) - 1) * 8) (Z.of_nat len)))
      with (8 * n)%nat by lia.
    destruct (Nat.le_gt_cases (8 * n + 8) len) as [Hfull | Hpart].
    + f_equal. lia.
    + rewrite (firstn_all2 (n := 8)) by (rewrite length_skipn; fold len; lia).
      apply firstn_all2. rewrite length_skipn. fold len. lia.
  - rewrite (skipn_all2 (n := 8 * n)) by (fold len; lia).
    rewrite firstn_nil.
    replace (Z.to_nat (Z.min (Z.of_nat (S n) * 8) (Z.of_nat len) -
                       Z.min ((Z.of_nat (S n) - 1) * 8) (Z.of_nat len)))
      with 0%nat by lia.
    reflexivity.
Qed.

Lemma windows_concat (A : Type) (k : nat) (l : list A) :
  (length l <= 8 * k)%nat ->
  concat (map (fun i => firstn 8 (skipn (8 * i) l)) (seq 0 k)) = l.
Proof.
  revert l. induction k as [|k IH]; intros l Hlen.
  - destruct l; [reflexivity | simpl in Hlen; lia].
  - rewrite <- cons_seq, <- seq_shift.
    cbn [map concat]. rewrite map_map, Nat.mul_0_r.
    change (skipn 0 l) with l.
    rewrite (map_ext _ (fun i => firstn 8 (skipn (8 * i) (skipn 8 l)))).
    + rewrite IH by (rewrite length_skipn; lia). apply firstn_skipn.
    + intros i. rewrite skipn_skipn. do 2 f_equal. lia.
Qed.

(** X14. The pages 1 .. totalPages of a ranking list, put one after the
    other, are the list itself: no item is dropped or shown twice.  There is
    no page exactly when the list is empty; every page holds between one and
    eight items and every page but the last holds eight; the two page
    buttons never leave 1 .. totalPages. *)
Theorem pages_partition_the_list (A : Type) (data : list A) :
  let totalPages := Pagination.totalPages data in
  concat (map (Pagination.currentData data) (pageNumbers totalPages)) = data
  /\ (totalPages = 0%Z <-> data = [])
  /\ (forall page, (1 <= page <= totalPages)%Z ->
        (1 <= length (Pagination.currentData data page) <= 8)%nat
        /\ ((page < totalPages)%Z ->
            length (Pagination.currentData data page) = 8%nat)
        /\ (1 <= Pagination.previousPage page <= totalPages)%Z
        /\ (1 <= Pagination.nextPage totalPages page <= totalPages)%Z).
Proof.
  cbv zeta. rewrite totalPages_div.
  set (len := length data).
  assert (Hk : (len <= 8 * Z.to_nat ((Z.of_nat len + 7) / 8))%nat).
  { apply Nat2Z.inj_le. rewrite Nat2Z.inj_mul, Z2Nat.id.
    - change (Z.of_nat 8) with 8%Z.
      Z.to_euclidean_division_equations. lia.
    - Z.to_euclidean_division_equations. lia. }
  split; [|split].
  - unfold pageNumbers. rewrite <- seq_shift, !map_map.
    rewrite (map_ext _ (fun i => firstn 8 (skipn (8 * i) data)))
      by (intros i; apply currentData_window).
    apply windows_concat. exact Hk.
  - split.
    + intros H0. apply length_zero_iff_nil. fold len.
      Z.to_euclidean_division_equations. lia.
    + intros ->. reflexivity.
  - intros page Hpage.
    assert (Hn : exists n, page = Z.of_nat (S n)).
    { exists (Z.to_nat (page - 1)). lia. }
    destruct Hn as [n ->]. rewrite currentData_window.
    rewrite length_firstn, length_skipn. fold len.
    unfold Pagination.previousPage, Pagination.nextPage.
    assert (Hlast : (8 * Z.of_nat (S n) < Z.of_nat len + 8)%Z)
      by (Z.to_euclidean_division_equations; lia).
    split; [lia|]. split; [|lia].
    intros Hlt.
    assert (8 * Z.of_nat (S n) <= Z.of_nat len)%Z
      by (Z.to_euclidean_division_equations; lia).
    lia.
Qed.

Lemma currentData_page (A : Type) (data : list A) (page : Z) :
  (1 <= page)%Z ->
  Pagination.currentData data page
  = firstn 8 (skipn (8 * Z.to_nat (page - 1)) data).
Proof.
  intros Hpage. rewrite <- currentData_window. f_equal. lia.
Qed.

(** X15. The rank a page prints beside an item is the item's position in
    the whole list, counted from 1: item idx of page [page] is item
    rank - 1 of the data, and a page has no item at index 8 or beyond. *)
Theorem rank_is_position (A : Type) (data : list A) (page : Z) (idx : nat)
        (item : A) :
  (1 <= page)%Z ->
  (nth_error (Pagination.currentData data page) idx = Some item
   <-> (idx < 8)%nat
       /\ nth_error data (Z.to_nat (Pagination.rank page (Z.of_nat idx) - 1))
          = Some item).
Proof.
  intros Hpage. rewrite (currentData_page data Hpage).
  unfold Pagination.rank, Pagination.pageSize.
  replace (Z.to_nat ((page - 1) * 8 + Z.of_nat idx + 1 - 1))
    with (8 * Z.to_nat (page - 1) + idx)%nat by lia.
  destruct (Nat.lt_ge_cases idx 8) as [Hlt | Hge].
  - rewrite nth_error_firstn.
    destruct (Nat.ltb_spec idx 8) as [_ | H]; [|lia].
    rewrite nth_error_skipn. tauto.
  - split; [|intros [H _]; lia].
    intros H. exfalso.
    assert (Hsome : nth_error (firstn 8 (skipn (8 * Z.to_nat (page - 1)) data))
                              idx <> None)
      by congruence.
    apply nth_error_Some in Hsome. rewrite length_firstn in Hsome. lia.
Qed.

(* ================================================================== *)
(** * Narrowing the filters *)

Lemma outsideDateRange_narrows (f' f : FilterState.t)
      (item : ProcessedSalesData.t) :
  lowerNarrows (startDateVal f') (startDateVal f) ->
  upperNarrows (endDateVal f') (endDateVal f) ->
  outsideDateRange f' item = false -> outsideDateRange f item = false.
Proof.
  unfold outsideDateRange, lowerNarrows, upperNarrows, Number.gtb.
  destruct (itemDateVal item) as [|k],
           (startDateVal f) as [|a], (startDateVal f') as [|a'],
           (endDateVal f) as [|b], (endDateVal f') as [|b'];
    cbn [Number.ltb orb]; intros Hlo Hhi; try contradiction;
    try reflexivity;
    rewrite ?orb_false_iff, ?orb_false_r, ?Z.ltb_ge; lia.
Qed.

Lemma facetMismatch_narrows (f' f v : jsstring) :
  facetNarrows f' f -> facetMismatch f' v = false -> facetMismatch f v = false.
Proof.
  intros [-> | [-> | ->]]; [reflexivity | | exact (fun H => H)].
  intros _. reflexivity.
Qed.

Lemma searchMismatch_narrows (f' f v : jsstring) :
  searchNarrows f' f -> searchMismatch f' v = false ->
  searchMismatch f v = false.
Proof.
  unfold searchNarrows, searchMismatch. intros [pre [post Hsub]].
  destruct f as [|c f]; [reflexivity|].
  assert (Hne : JSString.truthy f' = true).
  { rewrite Hsub. destruct pre; reflexivity. }
  rewrite Hne. cbn [JSString.truthy andb].
  rewrite !negb_false_iff, !includes_spec.
  intros [pre' [post' Hv]]. exists (pre' ++ pre), (post ++ post').
  rewrite Hv, Hsub, <- !app_assoc. reflexivity.
Qed.

Lemma keep_narrows (f' f : FilterState.t) (c : option jsstring)
      (item : ProcessedSalesData.t) :
  narrows f' f -> keep f' c item = true -> keep f c item = true.
Proof.
  intros [Hlo [Hhi [H1 [H2 [H3 [H4 [H5 [H6 H7]]]]]]]].
  unfold keep, passesOthers.
  destruct (outsideDateRange f' item) eqn:E; [discriminate|].
  rewrite (outsideDateRange_narrows _ _ _ Hlo Hhi E).
  destruct (violatesConstraint c item); [discriminate|].
  repeat match goal with
         | |- (if facetMismatch ?x ?v then false else _) = true -> _ =>
             let E := fresh "E" in
             destruct (facetMismatch x v) eqn:E; [discriminate|]
         | |- (if searchMismatch ?x ?v then false else _) = true -> _ =>
             let E := fresh "E" in
             destruct (searchMismatch x v) eqn:E; [discriminate|]
         end.
  intros _.
  rewrite (@facetMismatch_narrows _ _ _ H1 E0), (@facetMismatch_narrows _ _ _ H2 E1),
    (@facetMismatch_narrows _ _ _ H3 E2), (@facetMismatch_narrows _ _ _ H4 E3),
    (@facetMismatch_narrows _ _ _ H5 E4), (@searchMismatch_narrows _ _ _ H6 E5),
    (@searchMismatch_narrows _ _ _ H7 E6).
  reflexivity.
Qed.

(** X16. Narrowing the filter controls only removes records.  When the new
    state narrows the old one control by control (a later start and an
    earlier end, a facet changed only away from 'All' or the empty choice, a
    search text extended), every record the new state keeps was kept by the
    old one, in the same order, and filtering the old result with the new
    state gives the same list as filtering the data afresh. *)
Theorem filterData_narrowing (data : list ProcessedSalesData.t)
        (f' f : FilterState.t) (c : option jsstring) :
  narrows f' f ->
  filterData (filterData data f c) f' c = filterData data f' c
  /\ (forall item, In item (filterData data f' c) ->
                   In item (filterData data f c)).
Proof.
  intros Hn. unfold filterData. split.
  - rewrite filter_filter. apply filter_ext. intros item.
    destruct (keep f' c item) eqn:E.
    + rewrite (keep_narrows _ _ Hn E). reflexivity.
    + apply andb_false_r.
  - intros item Hin. apply filter_In in Hin as [Hin Hk].
    apply filter_In. split; [exact Hin | exact (keep_narrows _ _ Hn Hk)].
Qed.

(* ================================================================== *)
(** * Rankings on screen *)

Lemma StronglySorted_nth (A : Type) (R : A -> A -> Prop) (l : list A) :
  StronglySorted R l ->
  forall i j x y, (i < j)%nat ->
    nth_error l i = Some x -> nth_error l j = Some y -> R x y.
Proof.
  induction 1 as [|a l Hs IH Ha]; intros i j x y Hij Hx Hy.
  - destruct i; discriminate.
  - destruct j as [|j]; [lia|]. simpl in Hy.
    destruct i as [|i].
    + injection Hx as <-. rewrite Forall_forall in Ha.
      apply Ha. eapply nth_error_In; exact Hy.
    + simpl in Hx. apply (IH i j); [lia | exact Hx | exact Hy].
Qed.

(** X17. The salesperson bar chart shows the first ten points of the
    ranking, or all of them when there are fewer, and, as soon as no value
    is NaN, no salesperson left out of the chart has a larger value than one
    shown in it. *)
Theorem topTen_holds_the_largest
        (Binary64_toString : Binary64.t -> jsstring)
        (data : list ProcessedSalesData.t) :
  let personStats :=
    aggregateByField Binary64_toString data Key.salesperson in
  validAmounts data ->
  noNaNValue personStats ->
  topTen personStats = firstn 10 personStats
  /\ length (topTen personStats) = Nat.min 10 (length personStats)
  /\ personStats = topTen personStats ++ skipn 10 personStats
  /\ forall shown hidden,
       In shown (topTen personStats) -> In hidden (skipn 10 personStats) ->
       Binary64.le (ChartDataPoint.value hidden)
                   (ChartDataPoint.value shown).
Proof.
  cbv zeta. intros Hval Hnan.
  pose proof (proj2 (proj1 (@aggregateByField_ranked Binary64_toString data
                              Key.salesperson Hval) Hnan)) as Hs.
  clear Hval Hnan.
  set (stats := aggregateByField Binary64_toString data Key.salesperson) in *.
  assert (Htop : topTen stats = firstn 10 stats).
  { unfold topTen, Pagination.slice.
    change (0 <? 0)%Z with false. change (10 <? 0)%Z with false. cbv iota.
    replace (Z.to_nat (Z.min 0 (Z.of_nat (length stats)))) with 0%nat by lia.
    change (skipn 0 stats) with stats.
    destruct (Nat.le_gt_cases 10 (length stats)) as [Hle | Hgt].
    - f_equal. lia.
    - rewrite (firstn_all2 (n := 10)) by lia. apply firstn_all2. lia. }
  rewrite Htop.
  split; [reflexivity | split; [apply length_firstn | split]].
  - symmetry. apply firstn_skipn.
  - intros shown hidden Hshown Hhidden.
    apply In_nth_error in Hshown as [i Hi], Hhidden as [j Hj].
    assert (Hlt : (i < 10)%nat).
    { assert (H : nth_error (firstn 10 stats) i <> None) by congruence.
      apply nth_error_Some in H. rewrite length_firstn in H. lia. }
    rewrite nth_error_firstn in Hi.
    destruct (Nat.ltb_spec i 10) as [_ | H]; [|lia].
    rewrite nth_error_skipn in Hj.
    exact (StronglySorted_nth Hs (i := i) (j := 10 + j) ltac:(lia) Hi Hj).
Qed.

(** X18. Across the pages of a ranking list built by [aggregateByField], as
    soon as no value is NaN, a point printed with a smaller rank never has a
    smaller value than a point printed with a larger rank. *)
Theorem ranks_follow_values
        (Binary64_toString : Binary64.t -> jsstring)
        (data : list ProcessedSalesData.t) (field : Key.t)
        (page page' : Z) (idx idx' : nat) (p q : ChartDataPoint.t) :
  let stats := aggregateByField Binary64_toString data field in
  validAmounts data ->
  noNaNValue stats ->
  (1 <= page)%Z -> (1 <= page')%Z ->
  nth_error (Pagination.currentData stats page) idx = Some p ->
  nth_error (Pagination.currentData stats page') idx' = Some q ->
  (Pagination.rank page (Z.of_nat idx)
   < Pagination.rank page' (Z.of_nat idx'))%Z ->
  Binary64.le (ChartDataPoint.value q) (ChartDataPoint.value p).
Proof.
  cbv zeta. intros Hval Hnan Hpage Hpage' Hp Hq Hlt.
  pose proof (proj2 (proj1 (@aggregateByField_ranked Binary64_toString data
                              field Hval) Hnan)) as Hs.
  rewrite (currentData_page _ Hpage) in Hp.
  rewrite (currentData_page _ Hpage') in Hq.
  assert (Hi : (idx < 8)%nat).
  { assert (H : nth_error (firstn 8 (skipn (8 * Z.to_nat (page - 1))
                 (aggregateByField Binary64_toString data field))) idx
                <> None) by congruence.
    apply nth_error_Some in H. rewrite length_firstn in H. lia. }
  assert (Hj : (idx' < 8)%nat).
  { assert (H : nth_error (firstn 8 (skipn (8 * Z.to_nat (page' - 1))
                 (aggregateByField Binary64_toString data field))) idx'
                <> None) by congruence.
    apply nth_error_Some in H. rewrite length_firstn in H. lia. }
  rewrite nth_error_firstn, nth_error_skipn in Hp, Hq.
  destruct (Nat.ltb_spec idx 8) as [_ | H]; [|lia].
  destruct (Nat.ltb_spec idx' 8) as [_ | H]; [|lia].
  refine (StronglySorted_nth Hs _ Hp Hq).
  unfold Pagination.rank, Pagination.pageSize in Hlt. lia.
Qed.

(* ================================================================== *)
(** * Worked instances *)

(** The years of the example: 2022 and 2023. *)
Lemma getAvailableYears_distinct_sorted_witness :
  Forall integerYear Sample.marchSales
  /\ exists zs, getAvailableYears Sample.marchSales = map Num zs
                /\ StronglySorted Z.lt zs.
Proof.
  assert (H : Forall integerYear Sample.marchSales)
    by (repeat constructor; eexists; reflexivity).
  split; [exact H|].
  exact (proj2 (proj2 (getAvailableYears_distinct_sorted Sample.marchSales)) H).
Defined.

(** The two departments worth 100 each stay in the order of the input. *)
Lemma aggregateByField_ties_in_first_seen_order_witness :
  validAmounts Sample.tiedShops
  /\ noNaNValue (aggregateByField Sample.binary64ToString Sample.tiedShops
                                  Key.department)
  /\ map ChartDataPoint.name
         (filter (fun p => Binary64.eqb (ChartDataPoint.value p)
                                        (Binary64.ofZ 100))
                 (aggregateByField Sample.binary64ToString Sample.tiedShops
                                   Key.department))
     = filter (fun k => Binary64.eqb
                          (groupValue Sample.binary64ToString Key.department
                                      Sample.tiedShops k)
                          (Binary64.ofZ 100))
              (firstSeen (map (keyOf Sample.binary64ToString Key.department)
                              Sample.tiedShops)).
Proof.
  assert (Hval : validAmounts Sample.tiedShops) by (repeat constructor).
  assert (Hnan : noNaNValue
                   (aggregateByField Sample.binary64ToString Sample.tiedShops
                                     Key.department))
    by (repeat constructor).
  split; [exact Hval | split; [exact Hnan|]].
  exact (@aggregateByField_ties_in_first_seen_order
           Sample.binary64ToString Key.department Sample.tiedShops
           (Binary64.ofZ 100) Hval Hnan).
Defined.

(** What it evaluates to: Sales-C first, then Sales-B before Sales-A. *)
Example aggregateByField_tiedShops :
  map ChartDataPoint.name
      (aggregateByField Sample.binary64ToString Sample.tiedShops
                        Key.department)
  = [Sample.salesC; Sample.salesB; Sample.salesA]
  /\ map ChartDataPoint.name
         (filter (fun p => Binary64.eqb (ChartDataPoint.value p)
                                        (Binary64.ofZ 100))
                 (aggregateByField Sample.binary64ToString Sample.tiedShops
                                   Key.department))
     = [Sample.salesB; Sample.salesA].
Proof. split; reflexivity. Qed.

(** A month 13 makes the trend builder throw. *)
Lemma getTrendData_throws_iff_witness :
  getTrendData [Sample.record Sample.salesA (Num 2023) (Num 13) 1] = None.
Proof.
  apply (proj1 (getTrendData_throws_iff _)).
  eexists. split; [left; reflexivity|].
  intros [m [Hm Hrange]]. injection Hm as <-. lia.
Defined.

(** A date the host cannot read makes the trend builder throw. *)
Lemma getTrendData_of_processData_throws_iff_witness :
  getTrendData (processData Sample.rules Sample.other Sample.other
                            Sample.beijing Sample.noOtherDates
                            [Sample.shipped (str "n/a")])
  = None.
Proof.
  apply getTrendData_of_processData_throws_iff.
  eexists. split; [left; reflexivity | reflexivity].
Defined.

(** The trend of the example adds up to 350. *)
Lemma getTrendData_conserves_amounts_witness :
  Forall monthInRange Sample.marchSales
  /\ inUnits 0 wholeAmount Sample.marchSales
  /\ exists chartData years,
       getTrendData Sample.marchSales = Some (chartData, years)
       /\ sumOver (fun point => sumEntries (TrendDataPoint.years point))
                  chartData
          == sumAmounts Sample.marchSales.
Proof.
  assert (E : exists chartData years,
                getTrendData Sample.marchSales = Some (chartData, years))
    by (vm_compute; do 2 eexists; reflexivity).
  destruct E as [chartData [years E]].
  split; [exact marchSales_months | split; [exact marchSales_inUnits|]].
  exists chartData, years. split; [exact E|].
  exact (@getTrendData_conserves_amounts Sample.marchSales chartData years
           0 wholeAmount marchSales_months marchSales_inUnits E).
Defined.

(** The annual totals of the example against its trend. *)
Lemma annualTotals_match_trend_witness :
  Forall monthInRange Sample.marchSales
  /\ inUnits 0 wholeAmount Sample.marchSales
  /\ exists chartData years,
       getTrendData Sample.marchSales = Some (chartData, years)
       /\ Forall (fun year =>
                    Binary64.toQ
                      (orZero (JSMap.get year
                                         (annualTotals Sample.marchSales)))
                    == sumOver (fun point =>
                                  Binary64.toQ (plotted year point))
                               chartData)
                 years.
Proof.
  assert (E : exists chartData years,
                getTrendData Sample.marchSales = Some (chartData, years))
    by (vm_compute; do 2 eexists; reflexivity).
  destruct E as [chartData [years E]].
  split; [exact marchSales_months | split; [exact marchSales_inUnits|]].
  exists chartData, years. split; [exact E|].
  eapply Forall_impl;
    [|exact (@annualTotals_match_trend Sample.marchSales chartData years
               0 wholeAmount marchSales_months marchSales_inUnits E)].
  intros year Hyear. exact (proj1 Hyear).
Defined.

(** Loading one sale of New Year's Day 2024 points the filters at 2024. *)
Lemma updateData_shows_latest_year_witness :
  let rawData := [Sample.newYearSale] in
  let load := updateData Sample.rules Sample.other Sample.other
                         Sample.beijing Sample.noOtherDates rawData
                         AppSample.atLoginForm in
  rawData <> []
  /\ (forall item, In item rawData ->
                   ~ invalidDate Sample.noOtherDates item)
  /\ exists Y,
       AppState.filters load = latestYearFilters (yearKey Y)
       /\ filterData (AppState.processedData load) (AppState.filters load) None
          = filter (fun d => Number.sameValueZero (ProcessedSalesData.year d)
                                                  (Num Y))
                   (AppState.processedData load).
Proof.
  cbv zeta.
  assert (Hne : [Sample.newYearSale] <> []) by discriminate.
  assert (Hvalid : forall item, In item [Sample.newYearSale] ->
                                ~ invalidDate Sample.noOtherDates item).
  { intros item [<- | []]. vm_compute. discriminate. }
  split; [exact Hne | split; [exact Hvalid|]].
  destruct (proj1 (updateData_shows_latest_year Sample.rules Sample.other
                     Sample.other Sample.beijing Sample.noOtherDates
                     [Sample.newYearSale] AppSample.atLoginForm)
                  Hne Hvalid)
    as [Y [_ [_ [Hfilters Hshown]]]].
  exists Y. split; [exact Hfilters | exact Hshown].
Defined.

(** Department Sales-A signs in and sees its own records only. *)
Lemma session_scope_witness :
  AppState.loginPass AppSample.atLoginForm = str "abcd1234"
  /\ AppState.loginUser AppSample.atLoginForm <> []
  /\ Forall (fun item => ProcessedSalesData.department item = Sample.salesA)
            (filteredData (setFilters Sample.spring2023
                                      AppSample.salesASession)).
Proof.
  assert (Hp : AppState.loginPass AppSample.atLoginForm = str "abcd1234")
    by reflexivity.
  assert (Hu : AppState.loginUser AppSample.atLoginForm <> [])
    by discriminate.
  split; [exact Hp | split; [exact Hu|]].
  exact (proj2 (proj1 (proj2 (session_scope AppSample.atLoginForm
                                            Sample.spring2023))
                      Hp Hu)).
Defined.

(** The option lists of the Sales-A session offer Sales-A only. *)
Lemma options_list_field_values_witness :
  exists user,
    AppState.user AppSample.salesASession = Some user
    /\ UserSession.departmentFilter user = Some Sample.salesA
    /\ Sample.salesA <> []
    /\ forall v, In v (Options.depts (options AppSample.salesASession)) ->
                 v = Sample.salesA.
Proof.
  eexists. split; [reflexivity | split; [reflexivity|]].
  assert (Hne : Sample.salesA <> []) by discriminate.
  split; [exact Hne|].
  destruct (options_list_field_values AppSample.salesASession)
    as [_ [_ [_ [_ [_ [_ Hscope]]]]]].
  exact (proj2 (Hscope _ Sample.salesA eq_refl eq_refl Hne)).
Defined.

(** The second of the two pages of ten entries holds the last two. *)
Lemma pages_partition_the_list_witness :
  (1 <= 2 <= Pagination.totalPages AppSample.tenItems)%Z
  /\ (1 <= length (Pagination.currentData AppSample.tenItems 2) <= 8)%nat
  /\ (1 <= Pagination.previousPage 2
      <= Pagination.totalPages AppSample.tenItems)%Z
  /\ (1 <= Pagination.nextPage (Pagination.totalPages AppSample.tenItems) 2
      <= Pagination.totalPages AppSample.tenItems)%Z.
Proof.
  assert (H : (1 <= 2 <= Pagination.totalPages AppSample.tenItems)%Z)
    by (vm_compute; split; discriminate).
  split; [exact H|].
  destruct (proj2 (proj2 (pages_partition_the_list AppSample.tenItems)) 2%Z H)
    as [Hlen [_ [Hprev Hnext]]].
  split; [exact Hlen | split; [exact Hprev | exact Hnext]].
Defined.

(** The second entry of page 2 carries rank 10 and is the tenth entry. *)
Lemma rank_is_position_witness :
  (1 <= 2)%Z
  /\ (nth_error (Pagination.currentData AppSample.tenItems 2) 1 = Some 10%nat
      <-> (1 < 8)%nat
          /\ nth_error AppSample.tenItems
                       (Z.to_nat (Pagination.rank 2 (Z.of_nat 1) - 1))
             = Some 10%nat).
Proof.
  assert (H : (1 <= 2)%Z) by lia.
  split; [exact H|].
  exact (rank_is_position AppSample.tenItems 1 10%nat H).
Defined.

(** Spring 2023 narrows "until the end of 2023". *)
Lemma filterData_narrowing_witness :
  narrows Sample.spring2023 Sample.until2023
  /\ filterData (filterData Sample.marchSales Sample.until2023 None)
                Sample.spring2023 None
     = filterData Sample.marchSales Sample.spring2023 None.
Proof.
  assert (H : narrows Sample.spring2023 Sample.until2023).
  { unfold narrows, facetNarrows, searchNarrows.
    repeat split;
      first [ right; left; reflexivity
            | exists [], []; reflexivity
            | vm_compute; first [exact I | discriminate] ]. }
  split; [exact H|].
  exact (proj1 (@filterData_narrowing Sample.marchSales Sample.spring2023
                  Sample.until2023 None H)).
Defined.

Lemma team_valid : validAmounts AppSample.team.
Proof. repeat constructor. Qed.

Lemma team_noNaN :
  noNaNValue (aggregateByField Sample.binary64ToString AppSample.team
                               Key.salesperson).
Proof. repeat constructor. Qed.

(** Twelve salespeople: the chart leaves out the two who sold least. *)
Lemma topTen_holds_the_largest_witness :
  validAmounts AppSample.team
  /\ noNaNValue (aggregateByField Sample.binary64ToString AppSample.team
                                  Key.salesperson)
  /\ exists shown hidden,
       In shown (topTen (aggregateByField Sample.binary64ToString
                                          AppSample.team Key.salesperson))
       /\ In hidden (skipn 10 (aggregateByField Sample.binary64ToString
                                                AppSample.team
                                                Key.salesperson))
       /\ Binary64.le (ChartDataPoint.value hidden)
                      (ChartDataPoint.value shown).
Proof.
  assert (E : exists shown hidden,
                In shown (topTen (aggregateByField Sample.binary64ToString
                                    AppSample.team Key.salesperson))
                /\ In hidden (skipn 10 (aggregateByField
                                          Sample.binary64ToString
                                          AppSample.team Key.salesperson))).
  { vm_compute. do 2 eexists. split; left; reflexivity. }
  destruct E as [shown [hidden [Hs Hh]]].
  split; [exact team_valid | split; [exact team_noNaN|]].
  exists shown, hidden.
  split; [exact Hs | split; [exact Hh|]].
  exact (proj2 (proj2 (proj2 (@topTen_holds_the_largest
                                Sample.binary64ToString AppSample.team
                                team_valid team_noNaN)))
               shown hidden Hs Hh).
Defined.

Lemma marchSales_noNaN :
  noNaNValue (aggregateByField Sample.binary64ToString Sample.marchSales
                               Key.department).
Proof. repeat constructor. Qed.

(** Ranks 1 and 2 of the department ranking of the example. *)
Lemma ranks_follow_values_witness :
  let stats := aggregateByField Sample.binary64ToString Sample.marchSales
                                Key.department in
  validAmounts Sample.marchSales
  /\ noNaNValue stats
  /\ exists p q,
       nth_error (Pagination.currentData stats 1) 0 = Some p
       /\ nth_error (Pagination.currentData stats 1) 1 = Some q
       /\ (Pagination.rank 1 (Z.of_nat 0) < Pagination.rank 1 (Z.of_nat 1))%Z
       /\ Binary64.le (ChartDataPoint.value q) (ChartDataPoint.value p).
Proof.
  cbv zeta.
  assert (E : exists p q,
                nth_error (Pagination.currentData
                             (aggregateByField Sample.binary64ToString
                                Sample.marchSales Key.department) 1) 0
                = Some p
                /\ nth_error (Pagination.currentData
                                (aggregateByField Sample.binary64ToString
                                   Sample.marchSales Key.department) 1) 1
                   = Some q).
  { vm_compute. do 2 eexists. split; reflexivity. }
  destruct E as [p [q [Hp Hq]]].
  split; [exact marchSales_valid | split; [exact marchSales_noNaN|]].
  exists p, q.
  assert (Hlt : (Pagination.rank 1 (Z.of_nat 0)
                 < Pagination.rank 1 (Z.of_nat 1))%Z) by reflexivity.
  split; [exact Hp | split; [exact Hq | split; [exact Hlt|]]].
  exact (@ranks_follow_values Sample.binary64ToString Sample.marchSales
           Key.department 1 1 0 1 p q marchSales_valid marchSales_noNaN
           ltac:(lia) ltac:(lia) Hp Hq Hlt).
Defined.

Lemma marchSales_nonnegative (d : ProcessedSalesData.t) :
  In d Sample.marchSales ->
  Binary64.le Binary64.zero (ProcessedSalesData.amount d).
Proof. intros [<- | [<- | [<- | []]]]; vm_compute; discriminate. Qed.

(** The departments of the example, none with a negative amount. *)
Lemma aggregateByField_percentage_range_witness :
  validAmounts Sample.marchSales
  /\ (forall d, In d Sample.marchSales ->
                Binary64.le Binary64.zero (ProcessedSalesData.amount d))
  /\ Binary64.isFinite (runningTotal (amounts Sample.marchSales)) = true
  /\ Forall (fun p =>
               Binary64.le Binary64.zero (ChartDataPoint.value p)
               /\ Binary64.le (ChartDataPoint.value p)
                              (runningTotal (amounts Sample.marchSales))
               /\ Binary64.le Binary64.zero (ChartDataPoint.percentage p)
               /\ Binary64.le (ChartDataPoint.percentage p) hundred)
            (aggregateByField Sample.binary64ToString Sample.marchSales
                              Key.department).
Proof.
  assert (Hfin : Binary64.isFinite
                   (runningTotal (amounts Sample.marchSales)) = true)
    by reflexivity.
  split; [exact marchSales_valid
         | split; [exact marchSales_nonnegative | split; [exact Hfin|]]].
  exact (@aggregateByField_percentage_range Sample.binary64ToString
           Key.department Sample.marchSales marchSales_valid
           marchSales_nonnegative Hfin).
Defined.

(** The total has to be finite: the largest binary64 number, sold twice by
    one department, adds up to Infinity, and Infinity / Infinity * 100 is
    NaN, which is not between 0 and 100. *)
Lemma aggregateByField_percentage_overflow :
  validAmounts Sample.twoLargest
  /\ (forall d, In d Sample.twoLargest ->
                Binary64.le Binary64.zero (ProcessedSalesData.amount d))
  /\ aggregateByField Sample.binary64ToString Sample.twoLargest
                      Key.department
     = [{| ChartDataPoint.name := Sample.salesA;
           ChartDataPoint.value := S754_infinity false;
           ChartDataPoint.percentage := S754_nan |}]
  /\ ~ Forall (fun p =>
                 Binary64.le Binary64.zero (ChartDataPoint.percentage p)
                 /\ Binary64.le (ChartDataPoint.percentage p) hundred)
              (aggregateByField Sample.binary64ToString Sample.twoLargest
                                Key.department).
Proof.
  split; [repeat constructor | split; [|split; [reflexivity|]]].
  - intros d [<- | [<- | []]]; vm_compute; discriminate.
  - intros H. inversion H as [|p l [H0 _] _]; subst. exact H0.
Qed.

